(** * proton-ge-manager: release discovery and archive installation

    A shallow embedding of the release catalog fetcher
    ([internal/github/releases.go]), the asset selector, the archive
    extractor ([internal/install], [DownloadAndExtract]) and the
    available-list refresh of [internal/ui/ui.go], with the properties the
    specification states about them.

    Go values are modelled as follows: [string] is a byte string
    ([String.string]), [int] and [int64] are [Z] (64-bit wrap-around written
    with [wrap64] where the code does arithmetic on them), slices are lists
    (indexed with stdpp's lookup and insert), [map[string]bool] is a
    [gmap string bool], an [error] is a value of the inductive [error], and
    a [float64] is the exact value of a number rounded to 53 significant
    bits ([binary64]). *)

From Stdlib Require Import ZArith Ascii String List Lia Bool Sorted Permutation.
From Stdlib Require Import QArith Qcanon Qround Qpower Lqa DecimalString.
From stdpp Require Import base list strings gmap sorting.

Open Scope Z_scope.

(** ** Machine integers *)

(** Two's-complement wrap-around of a 64-bit signed integer. *)
Definition wrap64 (z : Z) : Z := (z + 2 ^ 63) mod 2 ^ 64 - 2 ^ 63.

Definition int64_range (z : Z) : Prop := - 2 ^ 63 <= z < 2 ^ 63.

(** [len(s)] of a slice. *)
Definition len {A} (l : list A) : Z := Z.of_nat (length l).

(** ** The Go [unicode/utf8] package

    Strings are sequences of bytes; a rune is a code point, held as a
    number. The bit fields of the encoding are written with their
    arithmetic: a two-byte sequence [110xxxxx 10yyyyyy] holds
    [x * 64 + y], and so on. *)

Module utf8.

Definition RuneError : Z := 0xFFFD.
Definition RuneSelf : Z := 0x80.
Definition MaxRune : Z := 0x10FFFF.
Definition UTFMax : nat := 4.

(** A byte as a number, and the byte of a number below 256. *)
Definition byte (c : ascii) : Z := Z.of_nat (nat_of_ascii c).

Definition chr (x : Z) : ascii := ascii_of_nat (Z.to_nat x).

(** [s[i]]; 0 past the end, where no caller below reads. *)
Definition nth_byte (s : string) (i : nat) : Z :=
  match String.get i s with
  | Some c => byte c
  | None => 0
  end.

(** A continuation byte [10xxxxxx]. *)
Definition continuation (x : Z) : bool := (0x80 <=? x) && (x <=? 0xBF).

(** [DecodeRuneInString(s)]: the first rune of [s] and its width in bytes;
    [(RuneError, 0)] for the empty string and [(RuneError, 1)] when the
    bytes at the start are not the shortest encoding of a code point that
    is not a surrogate. *)
Definition DecodeRuneInString (s : string) : Z * nat :=
  match s with
  | EmptyString => (RuneError, 0%nat)
  | String c0 _ =>
      let n := String.length s in
      let s0 := byte c0 in
      let s1 := nth_byte s 1 in
      let s2 := nth_byte s 2 in
      let s3 := nth_byte s 3 in
      if s0 <? RuneSelf then (s0, 1%nat)
      else if (s0 <? 0xC2) || (0xF4 <? s0) then (RuneError, 1%nat)
      else
        let sz :=
          if s0 <? 0xE0 then 2%nat else if s0 <? 0xF0 then 3%nat else 4%nat in
        let lo :=
          if s0 =? 0xE0 then 0xA0 else if s0 =? 0xF0 then 0x90 else 0x80 in
        let hi :=
          if s0 =? 0xED then 0x9F else if s0 =? 0xF4 then 0x8F else 0xBF in
        if (n <? sz)%nat then (RuneError, 1%nat)
        else if (s1 <? lo) || (hi <? s1) then (RuneError, 1%nat)
        else if (sz <=? 2)%nat then
          ((s0 - 0xC0) * 64 + (s1 - 0x80), 2%nat)
        else if negb (continuation s2) then (RuneError, 1%nat)
        else if (sz <=? 3)%nat then
          ((s0 - 0xE0) * 4096 + (s1 - 0x80) * 64 + (s2 - 0x80), 3%nat)
        else if negb (continuation s3) then (RuneError, 1%nat)
        else
          ((s0 - 0xF0) * 262144 + (s1 - 0x80) * 4096 + (s2 - 0x80) * 64
           + (s3 - 0x80),
           4%nat)
  end.

(** [RuneStart(b)]: [b] is not a continuation byte. *)
Definition RuneStart (b : Z) : bool := negb (continuation b).

(** The loop of [DecodeLastRuneInString] that steps back to the start of
    the last rune, not below [lim]. *)
Fixpoint find_start (fuel : nat) (s : string) (lim start : Z) : Z :=
  match fuel with
  | O => start
  | S fuel' =>
      if start <? lim then start
      else if RuneStart (nth_byte s (Z.to_nat start)) then start
      else find_start fuel' s lim (start - 1)
  end.

(** [DecodeLastRuneInString(s)]: the last rune of [s] and its width. *)
Definition DecodeLastRuneInString (s : string) : Z * nat :=
  let end_ := Z.of_nat (String.length s) in
  if end_ =? 0 then (RuneError, 0%nat)
  else
    let start := end_ - 1 in
    let r := nth_byte s (Z.to_nat start) in
    if r <? RuneSelf then (r, 1%nat)
    else
      let lim := Z.max 0 (end_ - Z.of_nat UTFMax) in
      let start := find_start UTFMax s lim (start - 1) in
      let start := Z.max 0 start in
      let '(r, size) :=
        DecodeRuneInString
          (String.substring (Z.to_nat start) (Z.to_nat (end_ - start)) s) in
      if start + Z.of_nat size =? end_ then (r, size)
      else (RuneError, 1%nat).

(** The bytes [WriteRune(r)] appends: the encoding of [r], that of
    [RuneError] for a surrogate or a number that is no code point. *)
Definition EncodeRune (r : Z) : string :=
  let r :=
    if (r <? 0) || (MaxRune <? r) || ((0xD800 <=? r) && (r <=? 0xDFFF))
    then RuneError else r in
  if r <=? 0x7F then String (chr r) EmptyString
  else if r <=? 0x7FF then
    String (chr (0xC0 + r / 64)) (String (chr (0x80 + r mod 64)) EmptyString)
  else if r <=? 0xFFFF then
    String (chr (0xE0 + r / 4096))
      (String (chr (0x80 + (r / 64) mod 64))
         (String (chr (0x80 + r mod 64)) EmptyString))
  else
    String (chr (0xF0 + r / 262144))
      (String (chr (0x80 + (r / 4096) mod 64))
         (String (chr (0x80 + (r / 64) mod 64))
            (String (chr (0x80 + r mod 64)) EmptyString))).

End utf8.

(** ** The Go [unicode] package *)

Module unicode.

Definition MaxASCII : Z := 0x7F.
Definition MaxLatin1 : Z := 0xFF.

(** [IsSpace(r)]: the white space of Latin-1, and beyond it the code
    points with the property [White_Space]. *)
Definition IsSpace (r : Z) : bool :=
  if (0 <=? r) && (r <=? MaxLatin1) then
    ((0x09 <=? r) && (r <=? 0x0D)) || (r =? 0x20) || (r =? 0x85)
    || (r =? 0xA0)
  else
    (r =? 0x1680) || ((0x2000 <=? r) && (r <=? 0x200A)) || (r =? 0x2028)
    || (r =? 0x2029) || (r =? 0x202F) || (r =? 0x205F) || (r =? 0x3000).

(** The lower-case part of the case table, beyond ASCII: the code points
    from [lo] to [hi] in steps of [stride] map to themselves plus [delta].
    These are the simple lower-case mappings of the Unicode Character
    Database in version 15.0, the tables of Go 1.22. *)
Definition CaseRange : Type := Z * Z * Z * Z.

Definition lowerRanges : list CaseRange :=
  [ (0xC0, 0xD6, 1, 32); (0xD8, 0xDE, 1, 32); (0x100, 0x12E, 2, 1);
    (0x130, 0x130, 1, (-199)); (0x132, 0x136, 2, 1); (0x139, 0x147, 2, 1);
    (0x14A, 0x176, 2, 1); (0x178, 0x178, 1, (-121)); (0x179, 0x17D, 2, 1);
    (0x181, 0x181, 1, 210); (0x182, 0x184, 2, 1); (0x186, 0x186, 1, 206);
    (0x187, 0x187, 1, 1); (0x189, 0x18A, 1, 205); (0x18B, 0x18B, 1, 1);
    (0x18E, 0x18E, 1, 79); (0x18F, 0x18F, 1, 202); (0x190, 0x190, 1, 203);
    (0x191, 0x191, 1, 1); (0x193, 0x193, 1, 205); (0x194, 0x194, 1, 207);
    (0x196, 0x196, 1, 211); (0x197, 0x197, 1, 209); (0x198, 0x198, 1, 1);
    (0x19C, 0x19C, 1, 211); (0x19D, 0x19D, 1, 213); (0x19F, 0x19F, 1, 214);
    (0x1A0, 0x1A4, 2, 1); (0x1A6, 0x1A6, 1, 218); (0x1A7, 0x1A7, 1, 1);
    (0x1A9, 0x1A9, 1, 218); (0x1AC, 0x1AC, 1, 1); (0x1AE, 0x1AE, 1, 218);
    (0x1AF, 0x1AF, 1, 1); (0x1B1, 0x1B2, 1, 217); (0x1B3, 0x1B5, 2, 1);
    (0x1B7, 0x1B7, 1, 219); (0x1B8, 0x1B8, 1, 1); (0x1BC, 0x1BC, 1, 1);
    (0x1C4, 0x1C4, 1, 2); (0x1C5, 0x1C5, 1, 1); (0x1C7, 0x1C7, 1, 2);
    (0x1C8, 0x1C8, 1, 1); (0x1CA, 0x1CA, 1, 2); (0x1CB, 0x1DB, 2, 1);
    (0x1DE, 0x1EE, 2, 1); (0x1F1, 0x1F1, 1, 2); (0x1F2, 0x1F4, 2, 1);
    (0x1F6, 0x1F6, 1, (-97)); (0x1F7, 0x1F7, 1, (-56)); (0x1F8, 0x21E, 2, 1);
    (0x220, 0x220, 1, (-130)); (0x222, 0x232, 2, 1);
    (0x23A, 0x23A, 1, 10795); (0x23B, 0x23B, 1, 1);
    (0x23D, 0x23D, 1, (-163)); (0x23E, 0x23E, 1, 10792);
    (0x241, 0x241, 1, 1); (0x243, 0x243, 1, (-195)); (0x244, 0x244, 1, 69);
    (0x245, 0x245, 1, 71); (0x246, 0x24E, 2, 1); (0x370, 0x372, 2, 1);
    (0x376, 0x376, 1, 1); (0x37F, 0x37F, 1, 116); (0x386, 0x386, 1, 38);
    (0x388, 0x38A, 1, 37); (0x38C, 0x38C, 1, 64); (0x38E, 0x38F, 1, 63);
    (0x391, 0x3A1, 1, 32); (0x3A3, 0x3AB, 1, 32); (0x3CF, 0x3CF, 1, 8);
    (0x3D8, 0x3EE, 2, 1); (0x3F4, 0x3F4, 1, (-60)); (0x3F7, 0x3F7, 1, 1);
    (0x3F9, 0x3F9, 1, (-7)); (0x3FA, 0x3FA, 1, 1); (0x3FD, 0x3FF, 1, (-130));
    (0x400, 0x40F, 1, 80); (0x410, 0x42F, 1, 32); (0x460, 0x480, 2, 1);
    (0x48A, 0x4BE, 2, 1); (0x4C0, 0x4C0, 1, 15); (0x4C1, 0x4CD, 2, 1);
    (0x4D0, 0x52E, 2, 1); (0x531, 0x556, 1, 48); (0x10A0, 0x10C5, 1, 7264);
    (0x10C7, 0x10C7, 1, 7264); (0x10CD, 0x10CD, 1, 7264);
    (0x13A0, 0x13EF, 1, 38864); (0x13F0, 0x13F5, 1, 8);
    (0x1C90, 0x1CBA, 1, (-3008)); (0x1CBD, 0x1CBF, 1, (-3008));
    (0x1E00, 0x1E94, 2, 1); (0x1E9E, 0x1E9E, 1, (-7615));
    (0x1EA0, 0x1EFE, 2, 1); (0x1F08, 0x1F0F, 1, (-8));
    (0x1F18, 0x1F1D, 1, (-8)); (0x1F28, 0x1F2F, 1, (-8));
    (0x1F38, 0x1F3F, 1, (-8)); (0x1F48, 0x1F4D, 1, (-8));
    (0x1F59, 0x1F5F, 2, (-8)); (0x1F68, 0x1F6F, 1, (-8));
    (0x1F88, 0x1F8F, 1, (-8)); (0x1F98, 0x1F9F, 1, (-8));
    (0x1FA8, 0x1FAF, 1, (-8)); (0x1FB8, 0x1FB9, 1, (-8));
    (0x1FBA, 0x1FBB, 1, (-74)); (0x1FBC, 0x1FBC, 1, (-9));
    (0x1FC8, 0x1FCB, 1, (-86)); (0x1FCC, 0x1FCC, 1, (-9));
    (0x1FD8, 0x1FD9, 1, (-8)); (0x1FDA, 0x1FDB, 1, (-100));
    (0x1FE8, 0x1FE9, 1, (-8)); (0x1FEA, 0x1FEB, 1, (-112));
    (0x1FEC, 0x1FEC, 1, (-7)); (0x1FF8, 0x1FF9, 1, (-128));
    (0x1FFA, 0x1FFB, 1, (-126)); (0x1FFC, 0x1FFC, 1, (-9));
    (0x2126, 0x2126, 1, (-7517)); (0x212A, 0x212A, 1, (-8383));
    (0x212B, 0x212B, 1, (-8262)); (0x2132, 0x2132, 1, 28);
    (0x2160, 0x216F, 1, 16); (0x2183, 0x2183, 1, 1); (0x24B6, 0x24CF, 1, 26);
    (0x2C00, 0x2C2F, 1, 48); (0x2C60, 0x2C60, 1, 1);
    (0x2C62, 0x2C62, 1, (-10743)); (0x2C63, 0x2C63, 1, (-3814));
    (0x2C64, 0x2C64, 1, (-10727)); (0x2C67, 0x2C6B, 2, 1);
    (0x2C6D, 0x2C6D, 1, (-10780)); (0x2C6E, 0x2C6E, 1, (-10749));
    (0x2C6F, 0x2C6F, 1, (-10783)); (0x2C70, 0x2C70, 1, (-10782));
    (0x2C72, 0x2C72, 1, 1); (0x2C75, 0x2C75, 1, 1);
    (0x2C7E, 0x2C7F, 1, (-10815)); (0x2C80, 0x2CE2, 2, 1);
    (0x2CEB, 0x2CED, 2, 1); (0x2CF2, 0x2CF2, 1, 1); (0xA640, 0xA66C, 2, 1);
    (0xA680, 0xA69A, 2, 1); (0xA722, 0xA72E, 2, 1); (0xA732, 0xA76E, 2, 1);
    (0xA779, 0xA77B, 2, 1); (0xA77D, 0xA77D, 1, (-35332));
    (0xA77E, 0xA786, 2, 1); (0xA78B, 0xA78B, 1, 1);
    (0xA78D, 0xA78D, 1, (-42280)); (0xA790, 0xA792, 2, 1);
    (0xA796, 0xA7A8, 2, 1); (0xA7AA, 0xA7AA, 1, (-42308));
    (0xA7AB, 0xA7AB, 1, (-42319)); (0xA7AC, 0xA7AC, 1, (-42315));
    (0xA7AD, 0xA7AD, 1, (-42305)); (0xA7AE, 0xA7AE, 1, (-42308));
    (0xA7B0, 0xA7B0, 1, (-42258)); (0xA7B1, 0xA7B1, 1, (-42282));
    (0xA7B2, 0xA7B2, 1, (-42261)); (0xA7B3, 0xA7B3, 1, 928);
    (0xA7B4, 0xA7C2, 2, 1); (0xA7C4, 0xA7C4, 1, (-48));
    (0xA7C5, 0xA7C5, 1, (-42307)); (0xA7C6, 0xA7C6, 1, (-35384));
    (0xA7C7, 0xA7C9, 2, 1); (0xA7D0, 0xA7D0, 1, 1); (0xA7D6, 0xA7D8, 2, 1);
    (0xA7F5, 0xA7F5, 1, 1); (0xFF21, 0xFF3A, 1, 32);
    (0x10400, 0x10427, 1, 40); (0x104B0, 0x104D3, 1, 40);
    (0x10570, 0x1057A, 1, 39); (0x1057C, 0x1058A, 1, 39);
    (0x1058C, 0x10592, 1, 39); (0x10594, 0x10595, 1, 39);
    (0x10C80, 0x10CB2, 1, 64); (0x118A0, 0x118BF, 1, 32);
    (0x16E40, 0x16E5F, 1, 32); (0x1E900, 0x1E921, 1, 34) ].

Fixpoint to_lower (ranges : list CaseRange) (r : Z) : Z :=
  match ranges with
  | [] => r
  | (lo, hi, stride, delta) :: rest =>
      if (lo <=? r) && (r <=? hi) && ((r - lo) mod stride =? 0)
      then r + delta
      else to_lower rest r
  end.

(** [ToLower(r)] *)
Definition ToLower (r : Z) : Z :=
  if r <=? MaxASCII then
    if (0x41 <=? r) && (r <=? 0x5A) then r + 32 else r
  else to_lower lowerRanges r.

End unicode.

(** ** The Go [strings] package, on byte strings *)

Module strings.

Definition len (s : string) : nat := String.length s.

(** [s[i:]] *)
Definition from (i : nat) (s : string) : string :=
  String.substring i (String.length s - i) s.

(** [len(s) >= len(prefix) && s[:len(prefix)] == prefix] *)
Definition HasPrefix (s prefix : string) : bool :=
  (len prefix <=? len s)%nat
  && String.eqb (String.substring 0 (len prefix) s) prefix.

(** [len(s) >= len(suffix) && s[len(s)-len(suffix):] == suffix] *)
Definition HasSuffix (s suffix : string) : bool :=
  (len suffix <=? len s)%nat
  && String.eqb (from (len s - len suffix) s) suffix.

(** [Contains(s, substr)]: [substr] occurs at some offset of [s]. *)
Fixpoint Contains (s substr : string) : bool :=
  HasPrefix s substr
  || match s with
     | EmptyString => false
     | String _ s' => Contains s' substr
     end.

Definition is_upper (c : ascii) : bool :=
  let n := nat_of_ascii c in (65 <=? n)%nat && (n <=? 90)%nat.

Definition lower_byte (c : ascii) : ascii :=
  if is_upper c then ascii_of_nat (nat_of_ascii c + 32) else c.

(** The loop that tells whether [s] holds ASCII bytes only. *)
Fixpoint isASCII (s : string) : bool :=
  match s with
  | EmptyString => true
  | String c s' => (utf8.byte c <? utf8.RuneSelf) && isASCII s'
  end.

(** The ASCII letters lowered byte by byte, the other bytes left as
    they are. *)
Fixpoint lower_ascii (s : string) : string :=
  match s with
  | EmptyString => EmptyString
  | String c s' => String (lower_byte c) (lower_ascii s')
  end.

(** [Map(mapping, s)]: the runes of [s], as [range] decodes them, each
    replaced by its image, dropped when the image is negative; a byte that
    starts no valid encoding counts as [RuneError] and is written as its
    three bytes. [s] is what is left of the string. *)
Fixpoint Map_loop (mapping : Z -> Z) (fuel : nat) (s : string) : string :=
  match fuel with
  | O => EmptyString
  | S fuel' =>
      match s with
      | EmptyString => EmptyString
      | _ =>
          let '(c, width) := utf8.DecodeRuneInString s in
          let r := mapping c in
          (if 0 <=? r then utf8.EncodeRune r else EmptyString)
          +:+ Map_loop mapping fuel' (from width s)
      end
  end.

Definition Map (mapping : Z -> Z) (s : string) : string :=
  Map_loop mapping (len s) s.

(** [ToLower(s)]: byte by byte when [s] is ASCII, else rune by rune with
    [unicode.ToLower]. *)
Definition ToLower (s : string) : string :=
  if isASCII s then lower_ascii s else Map unicode.ToLower s.

(** [TrimPrefix(s, prefix)] *)
Definition TrimPrefix (s prefix : string) : string :=
  if HasPrefix s prefix then from (len prefix) s else s.

(** [asciiSpace[c]] *)
Definition asciiSpace (c : Z) : bool :=
  ((0x09 <=? c) && (c <=? 0x0D)) || (c =? 0x20).

(** [indexFunc(s, f, truth)]: the index of the first rune [r] with
    [f(r) == truth]. [s] is what is left of the string from index [i]. *)
Fixpoint indexFunc_loop (f : Z -> bool) (truth : bool) (fuel : nat)
  (s : string) (i : nat) : option nat :=
  match fuel with
  | O => None
  | S fuel' =>
      match s with
      | EmptyString => None
      | _ =>
          let '(r, width) := utf8.DecodeRuneInString s in
          if Bool.eqb (f r) truth then Some i
          else indexFunc_loop f truth fuel' (from width s) (i + width)
      end
  end.

Definition indexFunc (s : string) (f : Z -> bool) (truth : bool)
  : option nat :=
  indexFunc_loop f truth (len s) s 0.

(** [lastIndexFunc(s, f, truth)]: the same from the end. *)
Fixpoint lastIndexFunc_loop (f : Z -> bool) (truth : bool) (fuel : nat)
  (s : string) (i : nat) : option nat :=
  match fuel with
  | O => None
  | S fuel' =>
      if (i =? 0)%nat then None
      else
        let '(r, size) :=
          utf8.DecodeLastRuneInString (String.substring 0 i s) in
        let i := (i - size)%nat in
        if Bool.eqb (f r) truth then Some i
        else lastIndexFunc_loop f truth fuel' s i
  end.

Definition lastIndexFunc (s : string) (f : Z -> bool) (truth : bool)
  : option nat :=
  lastIndexFunc_loop f truth (len s) s (len s).

Definition TrimLeftFunc (s : string) (f : Z -> bool) : string :=
  match indexFunc s f false with
  | None => EmptyString
  | Some i => from i s
  end.

Definition TrimRightFunc (s : string) (f : Z -> bool) : string :=
  match lastIndexFunc s f false with
  | Some i =>
      if utf8.RuneSelf <=? utf8.nth_byte s i then
        let '(_, wid) := utf8.DecodeRuneInString (from i s) in
        String.substring 0 (i + wid) s
      else String.substring 0 (S i) s
  | None => EmptyString
  end.

Definition TrimFunc (s : string) (f : Z -> bool) : string :=
  TrimRightFunc (TrimLeftFunc s f) f.

(** The first loop of [TrimSpace]: the index [start] it reaches, and
    whether it met a byte that is not ASCII there. *)
Fixpoint space_prefix (s : string) (start : nat) : nat * bool :=
  match s with
  | EmptyString => (start, false)
  | String c s' =>
      if utf8.RuneSelf <=? utf8.byte c then (start, true)
      else if asciiSpace (utf8.byte c) then space_prefix s' (S start)
      else (start, false)
  end.

(** Its second loop, from [stop] down to [start]. *)
Fixpoint space_suffix (s : string) (start stop : nat) : nat * bool :=
  match stop with
  | O => (stop, false)
  | S stop' =>
      if (stop <=? start)%nat then (stop, false)
      else
        let c := utf8.nth_byte s stop' in
        if utf8.RuneSelf <=? c then (stop, true)
        else if asciiSpace c then space_suffix s start stop'
        else (stop, false)
  end.

(** [TrimSpace(s)]: the white space of Unicode removed at both ends; the
    loops over ASCII bytes hand over to [TrimFunc] and [TrimRightFunc] with
    [unicode.IsSpace] at the first byte that is not ASCII. *)
Definition TrimSpace (s : string) : string :=
  let '(start, high) := space_prefix s 0 in
  if high then TrimFunc (from start s) unicode.IsSpace
  else
    let '(stop, high) := space_suffix s start (len s) in
    if high then
      TrimRightFunc (String.substring start (stop - start) s) unicode.IsSpace
    else String.substring start (stop - start) s.

(** [Split(s, sep)] for a one-byte separator: the pieces between the
    separators, the empty string giving one empty piece. *)
Fixpoint Split (s : string) (sep : ascii) : list string :=
  match s with
  | EmptyString => [EmptyString]
  | String c s' =>
      if Ascii.eqb c sep then EmptyString :: Split s' sep
      else match Split s' sep with
           | x :: xs => String c x :: xs
           | [] => [String c EmptyString]
           end
  end.

(** [Join(elems, sep)] *)
Fixpoint Join (elems : list string) (sep : string) : string :=
  match elems with
  | [] => EmptyString
  | [x] => x
  | x :: xs => x +:+ sep +:+ Join xs sep
  end.

End strings.

(** ** The Go [path/filepath] package on Unix *)

Module filepath.

Definition Separator : ascii := "/"%char.

(** One path element of [Clean], on the stack of the elements kept so far
    (last one first): empty and [.] elements are dropped, [..] removes the
    element before it, is dropped at the root, and is kept at the start of
    a relative path. *)
Definition clean_step (rooted : bool) (kept : list string) (e : string)
  : list string :=
  if String.eqb e EmptyString || String.eqb e "." then kept
  else if String.eqb e ".." then
    match kept with
    | top :: rest => if String.eqb top ".." then e :: kept else rest
    | [] => if rooted then [] else [e]
    end
  else e :: kept.

(** [Clean(path)]: the shortest path name equivalent to [path] by purely
    lexical processing. *)
Definition Clean (path : string) : string :=
  if String.eqb path EmptyString then "." else
  let rooted := strings.HasPrefix path "/" in
  let kept := fold_left (clean_step rooted) (strings.Split path Separator) [] in
  let body := strings.Join (rev kept) "/" in
  if rooted then "/" +:+ body
  else if String.eqb body EmptyString then "." else body.

(** [Join(a, b)]: empty elements before the first non-empty one are
    ignored, the rest is joined with the separator and cleaned. *)
Definition Join (a b : string) : string :=
  if String.eqb a EmptyString then
    if String.eqb b EmptyString then EmptyString else Clean b
  else Clean (a +:+ "/" +:+ b).

Fixpoint last_sep (s : string) : option nat :=
  match s with
  | EmptyString => None
  | String c s' =>
      match last_sep s' with
      | Some i => Some (S i)
      | None => if Ascii.eqb c Separator then Some 0%nat else None
      end
  end.

(** [Dir(path)]: all but the last element of [path], cleaned. *)
Definition Dir (path : string) : string :=
  match last_sep path with
  | Some i => Clean (String.substring 0 (S i) path)
  | None => Clean EmptyString
  end.

End filepath.

(** ** The Go [slices] package: [SortFunc]

    [slices.SortFunc] sorts in place with a pattern-defeating quicksort
    (the standard library's generated [pdqsortCmpFunc]): insertion sort on
    at most 12 elements, otherwise a partition around a chosen pivot, with a
    heap sort once too many partitions were unbalanced. The slice is a list
    updated by index; every index the algorithm uses is in range (an access
    out of range leaves the list as it is here, where Go would panic). Loops
    that count down stop at index 0. *)

Module slices.

Inductive sortedHint := unknownHint | increasingHint | decreasingHint.

Section SortFunc.
Context {E : Type} (cmp : E -> E -> Z).

(** [cmp(data[i], data[j]) < 0] *)
Definition less (data : list E) (i j : nat) : bool :=
  match data !! i, data !! j with
  | Some x, Some y => cmp x y <? 0
  | _, _ => false
  end.

(** [data[i], data[j] = data[j], data[i]] *)
Definition swap (data : list E) (i j : nat) : list E :=
  match data !! i, data !! j with
  | Some x, Some y => <[j:=x]> (<[i:=y]> data)
  | _, _ => data
  end.

(** [for j := i; j > a && less(data[j], data[j-1]); j--] *)
Fixpoint insert_down (data : list E) (a j : nat) : list E :=
  match j with
  | O => data
  | S j' =>
      if (a <? j)%nat && less data j j'
      then insert_down (swap data j j') a j'
      else data
  end.

(** [for i := ...; i < b; i++], with [n] iterations left. *)
Fixpoint insertion_loop (data : list E) (a i n : nat) : list E :=
  match n with
  | O => data
  | S n' => insertion_loop (insert_down data a i) a (S i) n'
  end.

Definition insertionSortCmpFunc (data : list E) (a b : nat) : list E :=
  insertion_loop data a (S a) (b - S a).

Fixpoint siftDown_loop (fuel : nat) (data : list E) (root hi first : nat)
  : list E :=
  match fuel with
  | O => data
  | S fuel' =>
      let child := (2 * root + 1)%nat in
      if (hi <=? child)%nat then data
      else
        let child :=
          if (child + 1 <? hi)%nat
             && less data (first + child) (first + child + 1)
          then (child + 1)%nat else child in
        if negb (less data (first + root) (first + child)) then data
        else siftDown_loop fuel' (swap data (first + root) (first + child))
                           child hi first
  end.

Definition siftDownCmpFunc (data : list E) (lo hi first : nat) : list E :=
  siftDown_loop hi data lo hi first.

(** [for i := n - 1; i >= 0; i--] building the heap. *)
Fixpoint heap_build (data : list E) (n hi first : nat) : list E :=
  match n with
  | O => data
  | S i => heap_build (siftDownCmpFunc data i hi first) i hi first
  end.

(** [for i := n - 1; i >= 0; i--] popping the largest element. *)
Fixpoint heap_pop (data : list E) (n first : nat) : list E :=
  match n with
  | O => data
  | S i =>
      heap_pop (siftDownCmpFunc (swap data first (first + i)) 0 i first)
               i first
  end.

Definition heapSortCmpFunc (data : list E) (a b : nat) : list E :=
  let first := a in
  let hi := (b - a)%nat in
  heap_pop (heap_build data (S ((hi - 1) / 2)) hi first) hi first.

(** [for i <= j && p(i) { i++ }] *)
Fixpoint scan_up (p : nat -> bool) (i j fuel : nat) : nat :=
  match fuel with
  | O => i
  | S fuel' => if (i <=? j)%nat && p i then scan_up p (S i) j fuel' else i
  end.

(** [for i <= j && p(j) { j-- }] *)
Fixpoint scan_down (p : nat -> bool) (i j : nat) : nat :=
  match j with
  | O => O
  | S j' => if (i <=? j)%nat && p j then scan_down p i j' else j
  end.

(** The main loop of [partitionCmpFunc]; the pivot sits at [a]. *)
Fixpoint partition_loop (fuel : nat) (data : list E) (a i j : nat)
  : list E * nat :=
  match fuel with
  | O => (data, j)
  | S fuel' =>
      let i := scan_up (fun i => less data i a) i j (S j - i) in
      let j := scan_down (fun j => negb (less data j a)) i j in
      if (j <? i)%nat then (data, j)
      else partition_loop fuel' (swap data i j) a (S i) (pred j)
  end.

Definition partitionCmpFunc (data : list E) (a b pivot : nat)
  : list E * nat * bool :=
  let data := swap data a pivot in
  let i := S a in
  let j := (b - 1)%nat in
  let i := scan_up (fun i => less data i a) i j (S j - i) in
  let j := scan_down (fun j => negb (less data j a)) i j in
  if (j <? i)%nat then (swap data j a, j, true)
  else
    let data := swap data i j in
    let '(data, j) := partition_loop (b - a) data a (S i) (pred j) in
    (swap data j a, j, false).

Fixpoint partitionEqual_loop (fuel : nat) (data : list E) (a i j : nat)
  : list E * nat :=
  match fuel with
  | O => (data, i)
  | S fuel' =>
      let i := scan_up (fun i => negb (less data a i)) i j (S j - i) in
      let j := scan_down (fun j => less data a j) i j in
      if (j <? i)%nat then (data, i)
      else partitionEqual_loop fuel' (swap data i j) a (S i) (pred j)
  end.

Definition partitionEqualCmpFunc (data : list E) (a b pivot : nat)
  : list E * nat :=
  let data := swap data a pivot in
  partitionEqual_loop (S (b - a)) data a (S a) (b - 1).

(** [for i < b && !less(data[i], data[i-1]) { i++ }] *)
Fixpoint scan_sorted (data : list E) (i b fuel : nat) : nat :=
  match fuel with
  | O => i
  | S fuel' =>
      if (i <? b)%nat && negb (less data i (i - 1))
      then scan_sorted data (S i) b fuel' else i
  end.

(** [for j := ...; j >= 1; j--], shifting the smaller one to the left. *)
Fixpoint shift_left (data : list E) (j : nat) : list E :=
  match j with
  | O => data
  | S j' => if less data j j' then shift_left (swap data j j') j' else data
  end.

(** [for j := ...; j < b; j++], shifting the greater one to the right. *)
Fixpoint shift_right (data : list E) (j b fuel : nat) : list E :=
  match fuel with
  | O => data
  | S fuel' =>
      if (j <? b)%nat && less data j (j - 1)
      then shift_right (swap data j (j - 1)) (S j) b fuel' else data
  end.

Definition maxSteps : nat := 5.
Definition shortestShifting : nat := 50.

Fixpoint partial_steps (n : nat) (data : list E) (a b i : nat)
  : list E * bool :=
  match n with
  | O => (data, false)
  | S n' =>
      let i := scan_sorted data i b (b - i) in
      if (i =? b)%nat then (data, true)
      else if (b - a <? shortestShifting)%nat then (data, false)
      else
        let data := swap data i (i - 1) in
        let data :=
          if (2 <=? i - a)%nat then shift_left data (i - 1) else data in
        let data :=
          if (2 <=? b - i)%nat then shift_right data (S i) b (b - S i)
          else data in
        partial_steps n' data a b i
  end.

Definition partialInsertionSortCmpFunc (data : list E) (a b : nat)
  : list E * bool :=
  partial_steps maxSteps data a b (S a).

(** [bits.Len(x)]: the number of bits needed to represent [x]. *)
Definition bits_Len (x : nat) : nat :=
  match x with O => O | _ => S (Nat.log2 x) end.

Definition uint64 (z : Z) : Z := z mod 2 ^ 64.

(** [xorshift.Next] *)
Definition xorshift_Next (r : Z) : Z :=
  let r := Z.lxor r (uint64 (Z.shiftl r 13)) in
  let r := Z.lxor r (Z.shiftr r 7) in
  let r := Z.lxor r (uint64 (Z.shiftl r 17)) in
  r.

Definition nextPowerOfTwo (length : nat) : Z := 2 ^ Z.of_nat (bits_Len length).

Fixpoint breakPatterns_loop (n : nat) (data : list E) (a length idx i : nat)
  (random modulus : Z) : list E :=
  match n with
  | O => data
  | S n' =>
      let random := xorshift_Next random in
      let other := Z.to_nat (Z.land random (modulus - 1)) in
      let other :=
        if (length <=? other)%nat then (other - length)%nat else other in
      breakPatterns_loop n' (swap data (idx - 1 + i) (a + other))
                         a length idx (S i) random modulus
  end.

Definition breakPatternsCmpFunc (data : list E) (a b : nat) : list E :=
  let length := (b - a)%nat in
  if (8 <=? length)%nat then
    let random := Z.of_nat length in
    let modulus := nextPowerOfTwo length in
    let idx := (a + (length / 4) * 2 - 1)%nat in
    breakPatterns_loop 3 data a length idx 0 random modulus
  else data.

(** [order2CmpFunc]: the two indices ordered by their elements, and the
    swap counter. *)
Definition order2CmpFunc (data : list E) (a b swaps : nat)
  : nat * nat * nat :=
  if less data b a then (b, a, S swaps) else (a, b, swaps).

Definition medianCmpFunc (data : list E) (a b c swaps : nat) : nat * nat :=
  let '(a, b, swaps) := order2CmpFunc data a b swaps in
  let '(b, c, swaps) := order2CmpFunc data b c swaps in
  let '(a, b, swaps) := order2CmpFunc data a b swaps in
  (b, swaps).

Definition medianAdjacentCmpFunc (data : list E) (a swaps : nat)
  : nat * nat :=
  medianCmpFunc data (a - 1) a (a + 1) swaps.

Definition shortestNinther : nat := 50.
Definition maxSwaps : nat := 4 * 3.

Definition choosePivotCmpFunc (data : list E) (a b : nat)
  : nat * sortedHint :=
  let l := (b - a)%nat in
  let swaps := O in
  let i := (a + l / 4 * 1)%nat in
  let j := (a + l / 4 * 2)%nat in
  let k := (a + l / 4 * 3)%nat in
  let '(j, swaps) :=
    if (8 <=? l)%nat then
      let '(i, j, k, swaps) :=
        if (shortestNinther <=? l)%nat then
          let '(i, swaps) := medianAdjacentCmpFunc data i swaps in
          let '(j, swaps) := medianAdjacentCmpFunc data j swaps in
          let '(k, swaps) := medianAdjacentCmpFunc data k swaps in
          (i, j, k, swaps)
        else (i, j, k, swaps) in
      medianCmpFunc data i j k swaps
    else (j, swaps) in
  if (swaps =? 0)%nat then (j, increasingHint)
  else if (swaps =? maxSwaps)%nat then (j, decreasingHint)
  else (j, unknownHint).

(** [for i < j { swap; i++; j-- }] *)
Fixpoint reverse_loop (fuel : nat) (data : list E) (i j : nat) : list E :=
  match fuel with
  | O => data
  | S fuel' =>
      if (i <? j)%nat then reverse_loop fuel' (swap data i j) (S i) (pred j)
      else data
  end.

Definition reverseRangeCmpFunc (data : list E) (a b : nat) : list E :=
  reverse_loop (b - a) data a (b - 1).

Definition maxInsertion : nat := 12.

Definition is_increasing (h : sortedHint) : bool :=
  match h with increasingHint => true | _ => false end.

(** [pdqsortCmpFunc] sorts [data[a:b]]. Each turn of its loop and each
    recursive call works on a strictly shorter range, so [fuel] above
    [b - a] is never used up. *)
Fixpoint pdqsortCmpFunc (fuel : nat) (data : list E) (a b limit : nat)
  (wasBalanced wasPartitioned : bool) : list E :=
  match fuel with
  | O => data
  | S fuel' =>
      let length := (b - a)%nat in
      if (length <=? maxInsertion)%nat then insertionSortCmpFunc data a b
      else if (limit =? 0)%nat then heapSortCmpFunc data a b
      else
        let '(data, limit) :=
          if wasBalanced then (data, limit)
          else (breakPatternsCmpFunc data a b, (limit - 1)%nat) in
        let '(pivot, hint) := choosePivotCmpFunc data a b in
        let '(data, pivot, hint) :=
          match hint with
          | decreasingHint =>
              (reverseRangeCmpFunc data a b,
               ((b - 1) - (pivot - a))%nat, increasingHint)
          | _ => (data, pivot, hint)
          end in
        let '(data, done) :=
          if wasBalanced && wasPartitioned && is_increasing hint
          then partialInsertionSortCmpFunc data a b
          else (data, false) in
        if done then data
        else if (0 <? a)%nat && negb (less data (a - 1) pivot) then
          let '(data, mid) := partitionEqualCmpFunc data a b pivot in
          pdqsortCmpFunc fuel' data mid b limit wasBalanced wasPartitioned
        else
          let '(data, mid, alreadyPartitioned) :=
            partitionCmpFunc data a b pivot in
          let leftLen := (mid - a)%nat in
          let rightLen := (b - mid)%nat in
          let balanceThreshold := (length / 8)%nat in
          if (leftLen <? rightLen)%nat then
            let data := pdqsortCmpFunc fuel' data a mid limit true true in
            pdqsortCmpFunc fuel' data (S mid) b limit
                           (balanceThreshold <=? leftLen)%nat
                           alreadyPartitioned
          else
            let data := pdqsortCmpFunc fuel' data (S mid) b limit true true in
            pdqsortCmpFunc fuel' data a mid limit
                           (balanceThreshold <=? rightLen)%nat
                           alreadyPartitioned
  end.

(** [SortFunc(x, cmp)] *)
Definition SortFunc (x : list E) : list E :=
  let n := length x in
  pdqsortCmpFunc (S n) x 0 n (bits_Len n) true true.

(** [IsSortedFunc(x, cmp)]: no element compares below the one before it. *)
Fixpoint IsSortedFunc (x : list E) : bool :=
  match x with
  | a :: ((b :: _) as rest) => negb (cmp b a <? 0) && IsSortedFunc rest
  | _ => true
  end.

End SortFunc.
End slices.

(** One step of an insertion sort, on the sorted prefix held last element
    first: [x] passes every element it compares below. *)
Fixpoint ins {E : Type} (cmp : E -> E -> Z) (x : E) (rp : list E) : list E :=
  match rp with
  | [] => [x]
  | y :: rp' => if cmp x y <? 0 then y :: ins cmp x rp' else x :: rp
  end.

(** *** What sorting a range of a slice means

    The key of the element at an index (0 out of range), the elements of
    [data[a:b]], a property of every key in the range, the range being in
    ascending order of keys, and a slice that differs from another only
    inside the range. *)
Definition keyat {E : Type} (key : E -> Z) (data : list E) (i : nat) : Z :=
  match data !! i with
  | Some x => key x
  | None => 0
  end.

Definition seg {E : Type} (data : list E) (a b : nat) : list E :=
  take (b - a) (drop a data).

Definition all_keys {E : Type} (key : E -> Z) (data : list E) (a b : nat)
  (P : Z -> Prop) : Prop :=
  forall i, (a <= i < b)%nat -> P (keyat key data i).

Definition sorted_range {E : Type} (key : E -> Z) (data : list E) (a b : nat)
  : Prop :=
  forall i j, (a <= i)%nat -> (i <= j)%nat -> (j < b)%nat ->
    keyat key data i <= keyat key data j.

Definition frame {E : Type} (a b : nat) (data data' : list E) : Prop :=
  length data' = length data
  /\ forall i, (i < a \/ b <= i)%nat -> data' !! i = data !! i.

(** The heap of [heapSortCmpFunc], laid out from index [first]: node [i]
    has the children [2i+1] and [2i+2], and dominates them when no child
    below [hi] has a larger key; the nodes from [lo] on form a heap when
    each dominates its children. *)
Definition dominates {E : Type} (key : E -> Z) (data : list E)
  (first hi i : nat) : Prop :=
  forall c, (c = 2 * i + 1 \/ c = 2 * i + 2)%nat -> (c < hi)%nat ->
    keyat key data (first + c) <= keyat key data (first + i).

Definition heap {E : Type} (key : E -> Z) (data : list E)
  (first lo hi : nat) : Prop :=
  forall i, (lo <= i < hi)%nat -> dominates key data first hi i.

(** What [pdqsortCmpFunc] relies on for a range that does not start the
    slice: no key in the range is below the key just before it. *)
Definition lower_bound {E : Type} (key : E -> Z) (data : list E) (a b : nat)
  : Prop :=
  (0 < a)%nat -> all_keys key data a b (fun z => keyat key data (a - 1) <= z).

(** ** Errors and HTTP responses *)

(** A Go [error]: one made by [fmt.Errorf] with its formatted message, one
    wrapping another error with [%w], or one handed up unchanged from a
    library call (transport, JSON decoder, operating system). *)
Inductive error :=
| Errorf (msg : string)
| Wrapf (msg : string) (cause : error)
| Foreign (msg : string).

(** [err.Error()] *)
Fixpoint Error (e : error) : string :=
  match e with
  | Errorf msg => msg
  | Wrapf msg cause => msg +:+ Error cause
  | Foreign msg => msg
  end.

Module http.
Definition StatusForbidden : Z := 403.

(** A response whose body is seen as a [B]: the bytes of a catalog page,
    or the reads and archive entries of a download. *)
Record Response (B : Type) := mkResponse {
  StatusCode : Z;
  Status : string;
  ContentLength : Z;
  Body : B
}.
Arguments mkResponse {B} _ _ _ _.
Arguments StatusCode {B} _.
Arguments Status {B} _.
Arguments ContentLength {B} _.
Arguments Body {B} _.
End http.

(** [io.ReadAll(io.LimitReader(r, n))]: at most the first [n] bytes. *)
Definition LimitReader (body : string) (n : nat) : string :=
  String.substring 0 n body.

(** ** [internal/github]: releases and their assets *)

Module Asset.
Record t := mk {
  Name : string;
  BrowserDownloadURL : string;
  Size : Z;
  ContentType : string
}.
(** The zero value [Asset{}]. *)
Definition zero : t := mk EmptyString EmptyString 0 EmptyString.
End Asset.

Module Release.
Record t := mk {
  TagName : string;
  Name : string;
  Prerelease : bool;
  Assets : list Asset.t;
  Draft : bool;
  Body : string;
  HTMLURL : string;
  Created : Z;
  Published : Z
}.
End Release.

#[global] Instance Asset_eq_dec : EqDecision Asset.t.
Proof. solve_decision. Defined.
#[global] Instance Release_eq_dec : EqDecision Release.t.
Proof. solve_decision. Defined.

Module github.

(** [strings.HasSuffix(strings.ToLower(a.Name), ".tar.gz")] *)
Definition isTarball (a : Asset.t) : bool :=
  strings.HasSuffix (strings.ToLower (Asset.Name a)) ".tar.gz".

(** The condition of the first loop of [PickLinuxTarball]. *)
Definition isGEProtonTarball (a : Asset.t) : bool :=
  strings.HasSuffix (strings.ToLower (Asset.Name a)) ".tar.gz"
  && strings.Contains (strings.ToLower (Asset.Name a)) "ge-proton".

(** [for _, a := range assets { if p(a) { cands = append(cands, a) } }] *)
Definition collect (p : Asset.t -> bool) (assets cands : list Asset.t)
  : list Asset.t :=
  fold_left (fun cands a => if p a then cands ++ [a] else cands) assets cands.

(** The comparison handed to [slices.SortFunc]: larger sizes first. *)
Definition bySize (a b : Asset.t) : Z :=
  if Asset.Size a =? Asset.Size b then 0
  else if Asset.Size a <? Asset.Size b then 1
  else -1.

(** The candidates before sorting: the GE-Proton tarballs, or any tarball
    when there are none. *)
Definition candidates (assets : list Asset.t) : list Asset.t :=
  let cands := collect isGEProtonTarball assets [] in
  if len cands =? 0 then collect isTarball assets cands else cands.

Definition PickLinuxTarball (assets : list Asset.t) : Asset.t * bool :=
  let cands := candidates assets in
  if len cands =? 0 then (Asset.zero, false)
  else
    let cands := slices.SortFunc bySize cands in
    (default Asset.zero (cands !! 0%nat), true).

(** *** [FetchAllReleases] *)

(** What a page request carries: the query and the optional credential. *)
Record Request := mkRequest {
  per_page : Z;
  page : Z;
  Authorization : option string
}.

(** What [FetchAllReleases] leaves behind besides its result: the requests
    it issued, in order, and the records accumulated before filtering. *)
Record Fetched := mkFetched {
  requests : list Request;
  accumulated : list Release.t;
  result : list Release.t * option error
}.

Definition rate_limited : error :=
  Errorf "GitHub API returned 403 (rate limited?). Try setting GITHUB_TOKEN".

Definition api_error (resp : http.Response string) : error :=
  Errorf ("GitHub API error: " +:+ http.Status resp +:+ ": "
          +:+ strings.TrimSpace (LimitReader (http.Body resp) 4096)).

(** The filter at the end of [FetchAllReleases]: [out := all[:0]] shares
    its array with [all], and [append] writes the kept record back into
    that array at [len(out)]. [store] is the shared array, [n] is
    [len(out)], [i] the index the [range] loop reads. *)
Fixpoint filter_loop (k : nat) (store : list Release.t) (i n : nat)
  : list Release.t * nat :=
  match k with
  | O => (store, n)
  | S k' =>
      match store !! i with
      | None => (store, n)
      | Some r =>
          if Release.Draft r then filter_loop k' store (S i) n
          else if snd (PickLinuxTarball (Release.Assets r))
               then filter_loop k' (<[n:=r]> store) (S i) (S n)
               else filter_loop k' store (S i) n
      end
  end.

Definition filter_releases (all : list Release.t) : list Release.t :=
  let '(store, n) := filter_loop (length all) all 0 0 in
  take n store.

Section Fetch.
(** The environment: [client.Do], the JSON decoder applied to a
    response body, and [os.Getenv("GITHUB_TOKEN")]. *)
Variable Do : Request -> error + http.Response string.
Variable Decode : string -> error + list Release.t.
Variable GITHUB_TOKEN : string.

Definition perPage : Z := 100.

Definition new_request (page : Z) : Request :=
  {| per_page := perPage; page := page;
     Authorization :=
       if String.eqb GITHUB_TOKEN EmptyString then None
       else Some ("Bearer " +:+ GITHUB_TOKEN) |}.

(** The closure run on each response: the records accumulated so far
    and the error it leaves in [err]. *)
Definition read_page (resp : http.Response string) (all : list Release.t)
  : list Release.t * option error :=
  if http.StatusCode resp =? http.StatusForbidden then
    (all, Some rate_limited)
  else if (http.StatusCode resp <? 200) || (300 <=? http.StatusCode resp)
  then (all, Some (api_error resp))
  else
    match Decode (http.Body resp) with
    | inl derr => (all, Some derr)
    | inr rels =>
        if len rels =? 0 then (all, None) else (all ++ rels, None)
    end.

(** The page loop; [None] when [fuel] turns of the loop were not enough
    to leave it. The first component is the requests issued. *)
Fixpoint page_loop (fuel : nat) (page : Z) (all : list Release.t)
  (sent : list Request)
  : option (list Request * list Release.t * option error) :=
  match fuel with
  | O => None
  | S fuel' =>
      let req := new_request page in
      let sent := sent ++ [req] in
      match Do req with
      | inl err => Some (sent, all, Some err)
      | inr resp =>
          let '(all, err) := read_page resp all in
          match err with
          | Some e => Some (sent, all, Some e)
          | None =>
              if len all <? wrap64 (page * perPage)
              then Some (sent, all, None)
              else page_loop fuel' (wrap64 (page + 1)) all sent
          end
      end
  end.

Definition FetchAllReleases (fuel : nat) : option Fetched :=
  match page_loop fuel 1 [] [] with
  | None => None
  | Some (sent, all, Some err) => Some (mkFetched sent all ([], Some err))
  | Some (sent, all, None) =>
      Some (mkFetched sent all (filter_releases all, None))
  end.

End Fetch.

End github.

Definition asset (name : string) (size : Z) : Asset.t :=
  Asset.mk name EmptyString size EmptyString.


(** *** The asset selector as the specification words it *)

(** Tier 1: the name ends in [.tar.gz] and contains [ge-proton], both
    without regard to case. Tier 2: the name ends in [.tar.gz]. *)
Definition tier1 (assets : list Asset.t) : list Asset.t :=
  List.filter github.isGEProtonTarball assets.

Definition tier2 (assets : list Asset.t) : list Asset.t :=
  List.filter github.isTarball assets.

Definition winning_tier (assets : list Asset.t) : list Asset.t :=
  match tier1 assets with
  | [] => tier2 assets
  | t => t
  end.

(** The first asset, in the order met, among those of the largest size. *)
Definition first_largest (l : list Asset.t) : option Asset.t :=
  match l with
  | [] => None
  | a :: l' =>
      Some (fold_left
              (fun best x => if Asset.Size best <? Asset.Size x then x else best)
              l' a)
  end.

(** *** The catalog as the specification words it *)

(** A release the catalog keeps: not a draft, and with an asset the
    selector accepts. *)
Definition installable (r : Release.t) : bool :=
  negb (Release.Draft r) && (github.PickLinuxTarball (Release.Assets r)).2.

(** Page [page] (counted from 1) of [items] in pages of 100. *)
Definition page_of (items : list Release.t) (page : Z) : list Release.t :=
  take 100 (drop (Z.to_nat (100 * (page - 1))) items).

(** An API that serves [items] in pages of 100: every page request is
    answered with a 2xx status and a body that decodes to that page (a
    short or empty one past the end). *)
Definition serves (Do : github.Request -> error + http.Response string)
  (Decode : string -> error + list Release.t) (items : list Release.t) : Prop :=
  forall req, 1 <= github.page req ->
    exists resp, Do req = inr resp
      /\ 200 <= http.StatusCode resp < 300
      /\ Decode (http.Body resp) = inr (page_of items (github.page req)).

(** The page numbers [q + 1], [q + 2], ... of [count] requests in a row. *)
Definition pages_from (q count : nat) : list Z :=
  map (fun k => Z.of_nat k + 1) (seq q count).

(** [ceil(a / b)] for positive [b]. *)
Definition ceil_div (a b : Z) : Z := (a + b - 1) / b.

(** A synthetic API for [items]: the body of page [n] is [n] bytes long,
    and the decoder reads the page number back from the length. *)
Fixpoint unary (n : nat) : string :=
  match n with
  | O => EmptyString
  | S n' => String "x" (unary n')
  end.

Definition synthetic_Do (req : github.Request) : error + http.Response string :=
  inr (http.mkResponse 200 "200 OK" (-1) (unary (Z.to_nat (github.page req)))).

Definition synthetic_Decode (items : list Release.t) (body : string)
  : error + list Release.t :=
  inr (page_of items (Z.of_nat (String.length body))).

Definition release (tag : string) (draft : bool) (assets : list Asset.t)
  : Release.t :=
  Release.mk tag tag false assets draft EmptyString EmptyString 0 0.

Definition GE_Proton9_5 : Release.t :=
  release "GE-Proton9-5" false [asset "GE-Proton9-5.tar.gz" 400000000].

Definition a_draft : Release.t :=
  release "GE-Proton9-6" true [asset "GE-Proton9-6.tar.gz" 400000000].

Definition no_tarball : Release.t :=
  release "GE-Proton9-4" false [asset "GE-Proton9-4.sha512sum" 200].

Definition three_releases : list Release.t :=
  [GE_Proton9_5; a_draft; no_tarball].

Definition hundred_releases : list Release.t := replicate 100 GE_Proton9_5.

(** An API that answers every request with a given status. *)
Definition refusing_Do (code : Z) (status body : string)
  (req : github.Request) : error + http.Response string :=
  inr (http.mkResponse code status (-1) body).

(** Thirteen GE-Proton tarballs, three of them of the largest size. *)
Definition thirteen_assets : list Asset.t :=
  [asset "a-ge-proton.tar.gz" 500; asset "b-ge-proton.tar.gz" 1;
   asset "c-ge-proton.tar.gz" 1;   asset "d-ge-proton.tar.gz" 500;
   asset "e-ge-proton.tar.gz" 1;   asset "f-ge-proton.tar.gz" 1;
   asset "g-ge-proton.tar.gz" 500; asset "h-ge-proton.tar.gz" 1;
   asset "i-ge-proton.tar.gz" 1;   asset "j-ge-proton.tar.gz" 1;
   asset "k-ge-proton.tar.gz" 1;   asset "l-ge-proton.tar.gz" 1;
   asset "m-ge-proton.tar.gz" 1].

(** ** [float64] as the progress bar uses it *)

(** The operations [update] applies to its two counters: the conversion
    [float64(x)], the division, and the order in which the bar's values are
    compared. *)
Class Float64 := {
  float64 : Type;
  of_int64 : Z -> float64;
  fdiv : float64 -> float64 -> float64;
  fle : float64 -> float64 -> Prop
}.

(** What IEEE 754 arithmetic guarantees about them for the counters of
    [update], which are of type [int64]: rounding is monotone, so
    conversion and division by a positive number keep the order, and a
    finite non-zero number divided by itself is exactly one. *)
Class IEEE754 (F : Float64) : Prop := {
  fle_trans : forall x y z : float64, fle x y -> fle y z -> fle x z;
  of_int64_mono : forall a b, 0 <= a <= b -> fle (of_int64 a) (of_int64 b);
  fdiv_mono : forall x y c,
    0 < c < 2 ^ 63 -> fle x y ->
    fle (fdiv x (of_int64 c)) (fdiv y (of_int64 c));
  fdiv_diag : forall c,
    0 < c < 2 ^ 63 -> fdiv (of_int64 c) (of_int64 c) = of_int64 1
}.

(** ** [archive/tar] headers *)

Module tar.
Definition TypeReg : ascii := "0"%char.
Definition TypeSymlink : ascii := "2"%char.
Definition TypeDir : ascii := "5"%char.

Record Header := mkHeader {
  Typeflag : ascii;
  Name : string;
  Linkname : string;
  Mode : Z
}.
End tar.

(** ** The operating system under the extractor *)

(** The calls [DownloadAndExtract] makes on the file system, each giving
    the state it leaves and the error it returns, if any:
    [os.MkdirAll(path, perm)], [os.OpenFile(path,
    O_CREATE|O_TRUNC|O_WRONLY, perm)], [io.Copy(f, tr)] into the file
    opened at [path], and [os.Symlink(oldname, newname)]. *)
Class OS (FS : Type) := {
  MkdirAll : string -> Z -> FS -> FS * option error;
  OpenFile : string -> Z -> FS -> FS * option error;
  Copy : string -> string -> FS -> FS * option error;
  Symlink : string -> string -> FS -> FS * option error
}.

(** ** [internal/install]: [DownloadAndExtract] *)

Module install.

(** What the extractor meets while it pulls on the response body: a read
    passing [p] through the tee, or an answer of [tr.Next()]: a header
    with the bytes of its entry, a nil header, or an error. The end of the
    list is [io.EOF]. *)
Inductive Event :=
| Chunk (p : string)
| Next (hdr : tar.Header) (content : string)
| NextNil
| NextErr (err : error).

(** A download body: the reads made while [gzip.NewReader] opens it, the
    error of that call if any, and what follows. *)
Record Body := mkBody {
  opening : list string;
  gzip_open : option error;
  stream : list Event
}.

Record Request := mkRequest {
  url : string;
  Authorization : option string
}.

Section Extract.
Context {F : Float64} {FS : Type} {os : OS FS}.

(** The variables of [DownloadAndExtract] and what it acts on: the file
    system, the values set on the progress bar, the lines given to
    [logLine]. *)
Record State := mkState {
  fs : FS;
  bytesRead : Z;
  bar : list float64;
  log : list string;
  createdTopFolder : string
}.

Definition set_fs (st : State) (fs' : FS) : State :=
  mkState fs' (bytesRead st) (bar st) (log st) (createdTopFolder st).

Definition logLine (st : State) (line : string) : State :=
  mkState (fs st) (bytesRead st) (bar st) (log st ++ [line])
          (createdTopFolder st).

Inductive Outcome :=
| Continue (st : State)
| Return (st : State) (err : error).

Variable destRoot : string.
Variable contentLen : Z.

(** [update]: the bar is set only when the length is known. *)
Definition update (st : State) : State :=
  if 0 <? contentLen then
    mkState (fs st) (bytesRead st)
            (bar st ++ [fdiv (of_int64 (bytesRead st)) (of_int64 contentLen)])
            (log st) (createdTopFolder st)
  else st.

(** The writer behind the tee, with [update] run at once. *)
Definition tee_write (p : string) (st : State) : State :=
  let n := Z.of_nat (String.length p) in
  update (mkState (fs st) (wrap64 (bytesRead st + n)) (bar st) (log st)
                  (createdTopFolder st)).

(** The path check: the cleaned name is [.], [/] or starts with [..]. *)
Definition rejected (name : string) : bool :=
  String.eqb name "." || String.eqb name "/" || strings.HasPrefix name "..".

Definition symlink_warning (targetPath link : string) (err : error) : string :=
  "Symlink create failed for " +:+ targetPath +:+ " -> " +:+ link +:+ ": "
  +:+ Error err +:+ " (continuing)".

(** The target of a symbolic link as it is created. *)
Definition link_target (linkname : string) : string :=
  let link := filepath.Clean linkname in
  if strings.HasPrefix link ".." then strings.TrimPrefix link "../" else link.

(** The [switch hdr.Typeflag] of one entry. *)
Definition extract_entry (hdr : tar.Header) (content : string)
  (targetPath : string) (st : State) : Outcome :=
  if Ascii.eqb (tar.Typeflag hdr) tar.TypeDir then
    match MkdirAll targetPath (tar.Mode hdr) (fs st) with
    | (fs1, Some err) => Return (set_fs st fs1) err
    | (fs1, None) => Continue (set_fs st fs1)
    end
  else if Ascii.eqb (tar.Typeflag hdr) tar.TypeReg then
    match MkdirAll (filepath.Dir targetPath) 493 (fs st) with
    | (fs1, Some err) => Return (set_fs st fs1) err
    | (fs1, None) =>
        match OpenFile targetPath (tar.Mode hdr) fs1 with
        | (fs2, Some err) => Return (set_fs st fs2) err
        | (fs2, None) =>
            match Copy targetPath content fs2 with
            | (fs3, Some err) => Return (set_fs st fs3) err
            | (fs3, None) => Continue (set_fs st fs3)
            end
        end
    end
  else if Ascii.eqb (tar.Typeflag hdr) tar.TypeSymlink then
    match MkdirAll (filepath.Dir targetPath) 493 (fs st) with
    | (fs1, Some err) => Return (set_fs st fs1) err
    | (fs1, None) =>
        let link := link_target (tar.Linkname hdr) in
        match Symlink link targetPath fs1 with
        | (fs2, Some err) =>
            Continue (logLine (set_fs st fs2)
                              (symlink_warning targetPath link err))
        | (fs2, None) => Continue (set_fs st fs2)
        end
    end
  else Continue st.

(** One turn of the [for] loop over the archive. *)
Definition step (ev : Event) (st : State) : Outcome :=
  match ev with
  | Chunk p => Continue (tee_write p st)
  | NextErr err => Return st (Wrapf "read tar: " err)
  | NextNil => Continue st
  | Next hdr content =>
      let name := filepath.Clean (tar.Name hdr) in
      if rejected name then Continue st
      else
        let parts := strings.Split name filepath.Separator in
        let top :=
          if String.eqb (createdTopFolder st) EmptyString
             && (0 <? len parts)
          then default EmptyString (parts !! 0%nat)
          else createdTopFolder st in
        let st := mkState (fs st) (bytesRead st) (bar st) (log st) top in
        let targetPath := filepath.Join destRoot name in
        extract_entry hdr content targetPath st
  end.

Fixpoint loop (evs : list Event) (st : State) : State * option error :=
  match evs with
  | [] => (st, None)
  | ev :: evs' =>
      match step ev st with
      | Continue st' => loop evs' st'
      | Return st' err => (st', Some err)
      end
  end.

Definition no_top_folder : error :=
  Errorf "unexpected archive layout (no top folder)".

(** The reads [gzip.NewReader] makes on the body. *)
Definition read_opening (body : Body) (st : State) : State :=
  fold_left (fun st p => tee_write p st) (opening body) st.

(** From [gzip.NewReader] to the end of [DownloadAndExtract]. *)
Definition extract (body : Body) (st : State) : State * option error :=
  let st := read_opening body st in
  match gzip_open body with
  | Some err => (st, Some (Wrapf "gzip open: " err))
  | None =>
      match loop (stream body) st with
      | (st, Some err) => (st, Some err)
      | (st, None) =>
          if String.eqb (createdTopFolder st) EmptyString
          then (st, Some no_top_folder)
          else
            (logLine st ("Extracted: "
                         +:+ filepath.Join destRoot (createdTopFolder st)),
             None)
      end
  end.

End Extract.

Section Download.
Context {F : Float64} {FS : Type} {os : OS FS}.

(** [http.DefaultClient.Do] and [os.Getenv("GITHUB_TOKEN")]. *)
Variable Do : Request -> error + http.Response Body.
Variable GITHUB_TOKEN : string.

Definition initial (fs0 : FS) : State :=
  mkState fs0 0 [] [] EmptyString.

Definition DownloadAndExtract (url : string) (sizeHint : Z)
  (destRoot : string) (fs0 : FS) : State * option error :=
  let req :=
    {| url := url;
       Authorization :=
         if String.eqb GITHUB_TOKEN EmptyString then None
         else Some ("Bearer " +:+ GITHUB_TOKEN) |} in
  match Do req with
  | inl err => (initial fs0, Some err)
  | inr resp =>
      if (http.StatusCode resp <? 200) || (300 <=? http.StatusCode resp)
      then (initial fs0, Some (Errorf ("download failed: " +:+ http.Status resp)))
      else
        let contentLen := http.ContentLength resp in
        let contentLen := if contentLen <=? 0 then sizeHint else contentLen in
        extract destRoot contentLen (http.Body resp) (initial fs0)
  end.

End Download.

End install.

(** ** The tee and the user-interface queue

    The tee's writer hands [update] to [fyne.Do], which queues it for the
    user-interface goroutine and does not wait: [update] reads [bytesRead]
    when it runs, after any number of further writes. [queued] counts the
    calls of [update] that wait, [shown] lists the values the bar was set
    to. *)

Module progress.
Section Progress.
Context {F : Float64}.
Variable contentLen : Z.

Record Tee := mkTee {
  bytesRead : Z;
  queued : nat;
  shown : list float64
}.

Definition start : Tee := mkTee 0 0 [].

(** The writer: [bytesRead += int64(len(p)); fyne.Do(update)]. *)
Definition write (p : string) (t : Tee) : Tee :=
  mkTee (wrap64 (bytesRead t + Z.of_nat (String.length p)))
        (S (queued t)) (shown t).

(** The user-interface goroutine runs the oldest waiting [update]. *)
Definition run_update (t : Tee) : Tee :=
  mkTee (bytesRead t) (pred (queued t))
        (if 0 <? contentLen
         then shown t ++ [fdiv (of_int64 (bytesRead t)) (of_int64 contentLen)]
         else shown t).

(** A configuration is the reads still to come and the tee. *)
Inductive tee_step : list string * Tee -> list string * Tee -> Prop :=
| step_write p ps t : tee_step (p :: ps, t) (ps, write p t)
| step_update ps t :
    (0 < queued t)%nat -> tee_step (ps, t) (ps, run_update t).

(** All reads done and every queued [update] run. *)
Definition finished (c : list string * Tee) : Prop :=
  fst c = [] /\ queued (snd c) = O.

(** The schedule in which every [update] runs before the next read. *)
Definition run_at_once (chunks : list string) (t : Tee) : Tee :=
  fold_left (fun t p => run_update (write p t)) chunks t.

(** The number of bytes in the reads. *)
Definition total (chunks : list string) : Z :=
  fold_right (fun p n => Z.of_nat (String.length p) + n) 0 chunks.

(** What holds of every configuration an execution over [chunks] reaches:
    the bytes counted are those of the reads made, the values shown are in
    order and none exceeds the quotient for the bytes counted, and when no
    [update] waits after a read, the last value shown is that quotient. *)
Definition reached (chunks : list string) (c : list string * Tee) : Prop :=
  exists made : list string,
    chunks = made ++ c.1
    /\ bytesRead c.2 = total made
    /\ StronglySorted fle (shown c.2)
    /\ Forall (fun v => fle v (fdiv (of_int64 (bytesRead c.2))
                                    (of_int64 contentLen)))
               (shown c.2)
    /\ (queued c.2 = O ->
        made = []
        \/ last (shown c.2)
           = Some (fdiv (of_int64 (bytesRead c.2)) (of_int64 contentLen))).

End Progress.
End progress.

(** ** binary64

    The [float64] of Go is the binary64 format of IEEE 754: 53 significant
    bits, results rounded to the nearest representable number, ties to the
    one with an even significand. The numbers are held by their exact
    value. The exponent range is left out: the quotient of two [int64]
    lies between [2^-63] and [2^63] in absolute value, far inside the
    normal range of the format, and [update] divides by a positive length
    only, so neither an infinity nor a NaN arises. *)

(** The nearest integer, ties to even. *)
Definition rne (x : Q) : Z :=
  let f := Qfloor x in
  match (x - inject_Z f ?= 1 # 2)%Q with
  | Lt => f
  | Gt => f + 1
  | Eq => if Z.even f then f else f + 1
  end.

Definition pow2 (z : Z) : Q := (2 ^ z)%Q.

(** The binary exponent of a positive [x]: [2^e <= x < 2^(e+1)]. *)
Definition exponent (x : Q) : Z :=
  let k := Z.log2 (Qnum x) - Z.log2 (Zpos (Qden x)) in
  if Qle_bool (pow2 k) x then k else k - 1.

(** A positive [x] rounded to 53 significant bits. *)
Definition round53_pos (x : Q) : Q :=
  (inject_Z (rne (x * pow2 (52 - exponent x))) * pow2 (exponent x - 52))%Q.

Definition round53 (x : Q) : Q :=
  match (x ?= 0)%Q with
  | Gt => round53_pos x
  | Lt => (- round53_pos (- x))%Q
  | Eq => 0%Q
  end.

Definition binary64 : Float64 :=
  {| float64 := Qc;
     of_int64 := fun z => Q2Qc (round53 (inject_Z z));
     fdiv := fun x y => Q2Qc (round53 (x / y)%Qc);
     fle := Qcle |}.

(** ** A file system in memory

    Directories, regular files and symbolic links under their cleaned
    paths; links are not followed. It serves to run the extractor on
    concrete archives. *)

Module memfs.

Inductive node :=
| Dir (mode : Z)
| File (mode : Z) (content : string)
| Link (target : string).

Definition ENOTDIR : error := Foreign "not a directory".
Definition ENOENT : error := Foreign "no such file or directory".
Definition EISDIR : error := Foreign "is a directory".
Definition EEXIST : error := Foreign "file exists".
Definition ENOTSUP : error := Foreign "operation not supported".

(** An existing directory is left alone, another node in the way is an
    error, and a missing one is made after its parent. *)
Fixpoint mkdir_all (fuel : nat) (path : string) (perm : Z)
  (m : gmap string node) : gmap string node * option error :=
  match m !! path with
  | Some (Dir _) => (m, None)
  | Some _ => (m, Some ENOTDIR)
  | None =>
      match fuel with
      | O => (<[path := Dir perm]> m, None)
      | S fuel' =>
          let parent := filepath.Dir path in
          if String.eqb parent path then (<[path := Dir perm]> m, None)
          else
            match mkdir_all fuel' parent perm m with
            | (m1, Some err) => (m1, Some err)
            | (m1, None) => (<[path := Dir perm]> m1, None)
            end
      end
  end.

Definition open_file (path : string) (perm : Z) (m : gmap string node)
  : gmap string node * option error :=
  match m !! filepath.Dir path with
  | Some (Dir _) =>
      match m !! path with
      | Some (Dir _) => (m, Some EISDIR)
      | Some (Link _) => (m, Some ENOTSUP)
      | Some (File mode _) => (<[path := File mode EmptyString]> m, None)
      | None => (<[path := File perm EmptyString]> m, None)
      end
  | Some _ => (m, Some ENOTDIR)
  | None => (m, Some ENOENT)
  end.

Definition copy (path content : string) (m : gmap string node)
  : gmap string node * option error :=
  match m !! path with
  | Some (File mode _) => (<[path := File mode content]> m, None)
  | _ => (m, Some ENOENT)
  end.

Definition symlink (oldname newname : string) (m : gmap string node)
  : gmap string node * option error :=
  match m !! newname with
  | Some _ => (m, Some EEXIST)
  | None =>
      match m !! filepath.Dir newname with
      | Some (Dir _) => (<[newname := Link oldname]> m, None)
      | Some _ => (m, Some ENOTDIR)
      | None => (m, Some ENOENT)
      end
  end.

Definition os : OS (gmap string node) :=
  {| MkdirAll := fun path => mkdir_all (String.length path) path;
     OpenFile := open_file;
     Copy := copy;
     Symlink := symlink |}.

(** The same file system on a volume without symbolic links. *)
Definition os_without_symlinks : OS (gmap string node) :=
  {| MkdirAll := fun path => mkdir_all (String.length path) path;
     OpenFile := open_file;
     Copy := copy;
     Symlink := fun _ _ m => (m, Some ENOTSUP) |}.

(** A root directory and an empty install directory. *)
Definition empty_dest : gmap string node :=
  <["/dest" := Dir 493]> (<["/" := Dir 493]> ∅).

End memfs.

(** *** The archive as the specification words it *)

(** The cleaned names of the entries that pass the path check, in archive
    order. *)
Definition surviving_names (evs : list install.Event) : list string :=
  flat_map
    (fun ev =>
       match ev with
       | install.Next hdr _ =>
           let name := filepath.Clean (tar.Name hdr) in
           if install.rejected name then [] else [name]
       | _ => []
       end)
    evs.

(** The first path segment of a name. *)
Definition first_segment (name : string) : string :=
  default EmptyString (strings.Split name filepath.Separator !! 0%nat).

Definition non_empty (s : string) : bool := negb (String.eqb s EmptyString).

(** The first non-empty first segment among the surviving entries, the
    empty string when there is none. *)
Definition top_folder (evs : list install.Event) : string :=
  default EmptyString
    (head (List.filter non_empty (map first_segment (surviving_names evs)))).

(** Entries of sample archives. *)
Definition dir_entry (name : string) : install.Event :=
  install.Next (tar.mkHeader tar.TypeDir name EmptyString 493) EmptyString.

Definition file_entry (name content : string) : install.Event :=
  install.Next (tar.mkHeader tar.TypeReg name EmptyString 420) content.

Definition link_entry (name target : string) : install.Event :=
  install.Next (tar.mkHeader tar.TypeSymlink name target 511) EmptyString.

(** The extractor on the file system in memory, started in an empty
    install directory [/dest]. *)
Definition run_archive (os : OS (gmap string memfs.node))
  (evs : list install.Event)
  : @install.State binary64 (gmap string memfs.node) * option error :=
  @install.extract binary64 _ os "/dest" 0
    (install.mkBody [] None evs) (install.initial memfs.empty_dest).

(** The archive of the specification's example. *)
Definition GE_archive : list install.Event :=
  [dir_entry "GE-Proton9-5/"; file_entry "GE-Proton9-5/bin/run" "#!/bin/sh"].

(** An archive whose only entry has a rooted name, and one where a
    relative name follows it. *)
Definition rooted_archive : list install.Event :=
  [dir_entry "/opt/GE-Proton9-5/"].

Definition rooted_first_archive : list install.Event :=
  [dir_entry "/opt/"; dir_entry "GE-Proton9-5/"].

(** An archive with an entry that climbs out of the install directory. *)
Definition traversal_entry : install.Event :=
  file_entry "../../etc/passwd" "root::0:0:".

(** An archive with three symbolic links. *)
Definition three_links : list install.Event :=
  [link_entry "GE-Proton9-5/dist" "files";
   link_entry "GE-Proton9-5/lib" "files/lib";
   link_entry "GE-Proton9-5/lib64" "files/lib64"].

(** The state in which the loop over [evs] leaves the empty install
    directory. *)
Definition after (os : OS (gmap string memfs.node)) (evs : list install.Event)
  : @install.State binary64 (gmap string memfs.node) :=
  (@install.loop binary64 _ os "/dest" 0 evs
                 (install.initial memfs.empty_dest)).1.

(** ** [internal/ui]: the lists behind the two panes *)

Module ui.

Record State := mkState {
  currentInstalled : list string;
  availableReleases : list Release.t;
  currentAvailable : list string;
  selectedInstalled : Z;
  selectedAvailable : Z;
  logView : list string
}.

(** [%d] *)
Definition fmt_d (z : Z) : string := NilZero.string_of_int (Z.to_int z).

Definition formatReleaseLabel (r : Release.t) : string :=
  let flag := if Release.Prerelease r then " (pre-release)" else EmptyString in
  Release.TagName r +:+ flag +:+ " — " +:+ Release.Name r.

(** [installed[strings.ToLower(inst)] = true] for each installed name. *)
Definition installed_map (names : list string) : gmap string bool :=
  fold_left (fun m inst => <[strings.ToLower inst := true]> m) names ∅.

(** [installed[k]]: a missing key reads as [false]. *)
Definition index (m : gmap string bool) (k : string) : bool :=
  default false (m !! k).

(** The loop that keeps the releases not installed. *)
Definition filter_installed (installed : gmap string bool)
  (rels : list Release.t) : list Release.t :=
  fold_left
    (fun filtered r =>
       if negb (index installed (strings.ToLower (Release.TagName r)))
       then filtered ++ [r] else filtered)
    rels [].

(** The goroutine of [loadAvailable], given what [FetchAllReleases]
    returned: on an error the lists are left as they are and the error is
    logged; otherwise the lists are replaced by the releases not
    installed and the selection is cleared. *)
Definition loadAvailable (fetched : list Release.t * option error)
  (st : State) : State :=
  match fetched with
  | (_, Some err) =>
      mkState (currentInstalled st) (availableReleases st)
              (currentAvailable st) (selectedInstalled st)
              (selectedAvailable st)
              (logView st ++ ["GitHub fetch failed: " +:+ Error err])
  | (rels, None) =>
      let installed := installed_map (currentInstalled st) in
      let filtered := filter_installed installed rels in
      mkState (currentInstalled st) filtered
              (map formatReleaseLabel filtered) (selectedInstalled st)
              (-1)
              (logView st
               ++ ["Loaded " +:+ fmt_d (len filtered) +:+ " GitHub releases ("
                   +:+ fmt_d (len rels - len filtered) +:+ " filtered)."])
  end.

(** A release whose tag is, without regard to case, the name of one of
    the installed folders. *)
Definition installed_tag (names : list string) (r : Release.t) : bool :=
  existsb
    (fun inst =>
       String.eqb (strings.ToLower inst) (strings.ToLower (Release.TagName r)))
    names.

End ui.

(** ** More of the catalog fetcher *)

(** The answer to a request that made the loop stop with the error [e]. *)
Definition stops_with (Do : github.Request -> error + http.Response string)
  (Decode : string -> error + list Release.t)
  (req : github.Request) (e : error) : Prop :=
  Do req = inl e
  \/ exists resp, Do req = inr resp
       /\ ((http.StatusCode resp = 403 /\ e = github.rate_limited)
           \/ (http.StatusCode resp <> 403
               /\ ~ 200 <= http.StatusCode resp < 300
               /\ e = github.api_error resp)
           \/ (200 <= http.StatusCode resp < 300
               /\ Decode (http.Body resp) = inl e)).

(** An API that answers every request with at least a full page. *)
Definition always_full (Do : github.Request -> error + http.Response string)
  (Decode : string -> error + list Release.t) : Prop :=
  forall req, exists resp rels,
    Do req = inr resp
    /\ 200 <= http.StatusCode resp < 300
    /\ Decode (http.Body resp) = inr rels
    /\ (100 <= length rels)%nat.


(** ** More of the extractor *)

(** A hard link, one of the entry types the [switch] of
    [DownloadAndExtract] has no case for. *)
Definition TypeLink : ascii := "1"%char.

Definition hard_link_entry (name target : string) : install.Event :=
  install.Next (tar.mkHeader TypeLink name target 420) EmptyString.

(** A download of unknown length: the server names none, and it answers
    with the archive [evs]. *)
Definition chunked_Do (evs : list install.Event) (req : install.Request)
  : error + http.Response install.Body :=
  inr (http.mkResponse 200 "200 OK" (-1) (install.mkBody ["gz"] None evs)).

(** ** [internal/install]: the install directory *)

(** [os.Stat(p)]: its error, or whether [p] is a directory. *)
Class OSStat (FS : Type) := {
  Stat : string -> FS -> error + bool
}.

Module install_dir.
Section ResolveInstallDir.
Context {FS : Type} {os : OS FS} {stat : OSStat FS}.

Definition EnsureDir (p : string) (fs : FS) : FS * option error :=
  MkdirAll p 493 fs.

(** [err == nil && info.IsDir()] *)
Definition dirExists (p : string) (fs : FS) : bool :=
  match Stat p fs with
  | inr isDir => isDir
  | inl _ => false
  end.

Definition candidates (home : string) : list string :=
  [filepath.Join home ".local/share/Steam/compatibilitytools.d";
   filepath.Join home ".steam/steam/compatibilitytools.d";
   filepath.Join home ".steam/root/compatibilitytools.d";
   filepath.Join home
     ".var/app/com.valvesoftware.Steam/data/Steam/compatibilitytools.d"].

(** [for _, c := range candidates { if dirExists(c) { return c, nil } }] *)
Fixpoint first_existing (cs : list string) (fs : FS) : option string :=
  match cs with
  | [] => None
  | c :: cs' => if dirExists c fs then Some c else first_existing cs' fs
  end.

(** [ResolveInstallDir], given what [os.UserHomeDir()] returns. *)
Definition ResolveInstallDir (UserHomeDir : error + string) (fs : FS)
  : FS * (string * option error) :=
  match UserHomeDir with
  | inl err => (fs, (EmptyString, Some err))
  | inr home =>
      let candidates := candidates home in
      match first_existing candidates fs with
      | Some c => (fs, (c, None))
      | None =>
          let fp := default EmptyString (candidates !! 0%nat) in
          match EnsureDir fp fs with
          | (fs', Some err) => (fs', (EmptyString, Some err))
          | (fs', None) => (fs', (fp, None))
          end
      end
  end.

(** What holds of a file system: a directory [MkdirAll] has made without
    an error is there. *)
Definition mkdir_makes_dir : Prop :=
  forall p perm fs fs',
    MkdirAll p perm fs = (fs', None) -> dirExists p fs' = true.

End ResolveInstallDir.
End install_dir.

(** [os.Stat] on the file system in memory, where links are not followed
    and read as dangling. *)
Definition memfs_Stat : OSStat (gmap string memfs.node) :=
  {| Stat := fun p m =>
       match m !! p with
       | Some (memfs.Dir _) => inr true
       | Some (memfs.File _ _) => inr false
       | Some (memfs.Link _) | None => inl memfs.ENOENT
       end |}.

(** A home directory with a Steam installed the legacy way next to a
    Flatpak one, and an empty one. *)
Definition legacy_home : gmap string memfs.node :=
  <["/home/u/.var/app/com.valvesoftware.Steam/data/Steam/compatibilitytools.d"
    := memfs.Dir 493]>
  (<["/home/u/.steam/root/compatibilitytools.d" := memfs.Dir 493]>
   (<["/home/u" := memfs.Dir 493]> (<["/" := memfs.Dir 493]> ∅))).

Definition empty_home : gmap string memfs.node :=
  <["/home/u" := memfs.Dir 493]>
  (<["/home" := memfs.Dir 493]> (<["/" := memfs.Dir 493]> ∅)).

(** ** Path names in normal form *)

(** A string without a separator. *)
Fixpoint no_sep (s : string) : bool :=
  match s with
  | EmptyString => true
  | String c s' => negb (Ascii.eqb c filepath.Separator) && no_sep s'
  end.

(** A path element that names a file or a directory: not empty, neither
    [.] nor [..], and without a separator. *)
Definition plain_segment (e : string) : bool :=
  no_sep e && negb (String.eqb e EmptyString) && negb (String.eqb e ".")
  && negb (String.eqb e "..").

(** The rooted path made of the elements [segs]: [/a/b/c], and [/] for
    none. *)
Definition rooted_path (segs : list string) : string :=
  "/" +:+ strings.Join segs "/".

(** What [Clean] keeps of a path: plain elements, after a run of [..] at
    the start of a relative path. *)
Definition kept_form (rooted : bool) (kept : list string) : Prop :=
  exists (n : nat) (plain : list string),
    kept = rev plain ++ replicate n ".."
    /\ Forall (fun e => plain_segment e = true) plain
    /\ (rooted = true -> n = O).


(** ** The Go [regexp] package, as far as the two patterns of the program
    need it

    A pattern is kept in compiled form: whether it starts with [^], its
    body, and whether it ends with [$]. The body is a regular expression
    over bytes; the patterns of the program are made of ASCII bytes, and no
    byte of a character beyond ASCII folds to one of their letters. *)

Module regexp.

Inductive Syntax :=
| NoMatch                       (* matches nothing *)
| EmptyMatch                    (* matches the empty string *)
| Literal (c : ascii)           (* a literal byte *)
| FoldCase (c : ascii)          (* a literal byte under [(?i)] *)
| AnyCharNotNL                  (* [.] *)
| Concat (r1 r2 : Syntax)
| Alternate (r1 r2 : Syntax)    (* [r1|r2] *)
| Star (r : Syntax).            (* [r*] *)

Record Regexp := mk {
  beginText : bool;
  body : Syntax;
  endText : bool
}.

(** Two bytes that are equal up to the case of an ASCII letter. *)
Definition fold_eq (c b : ascii) : bool :=
  Ascii.eqb (strings.lower_byte b) (strings.lower_byte c).

(** A literal string under [(?i)]. *)
Fixpoint literal_fold (s : string) : Syntax :=
  match s with
  | EmptyString => EmptyMatch
  | String c s' => Concat (FoldCase c) (literal_fold s')
  end.

(** The strings an expression matches in full. *)
Inductive matches : Syntax -> string -> Prop :=
| matches_empty : matches EmptyMatch EmptyString
| matches_literal c : matches (Literal c) (String c EmptyString)
| matches_fold c b :
    fold_eq c b = true -> matches (FoldCase c) (String b EmptyString)
| matches_any b :
    Ascii.eqb b "010" = false -> matches AnyCharNotNL (String b EmptyString)
| matches_concat r1 r2 s1 s2 :
    matches r1 s1 -> matches r2 s2 -> matches (Concat r1 r2) (s1 +:+ s2)
| matches_left r1 r2 s : matches r1 s -> matches (Alternate r1 r2) s
| matches_right r1 r2 s : matches r2 s -> matches (Alternate r1 r2) s
| matches_star_nil r : matches (Star r) EmptyString
| matches_star_more r s1 s2 :
    matches r s1 -> matches (Star r) s2 -> matches (Star r) (s1 +:+ s2).

(** Whether an expression matches the empty string. *)
Fixpoint nullable (r : Syntax) : bool :=
  match r with
  | NoMatch | Literal _ | FoldCase _ | AnyCharNotNL => false
  | EmptyMatch | Star _ => true
  | Concat r1 r2 => nullable r1 && nullable r2
  | Alternate r1 r2 => nullable r1 || nullable r2
  end.

(** What is left to match after the byte [b]. *)
Fixpoint after_byte (b : ascii) (r : Syntax) : Syntax :=
  match r with
  | NoMatch | EmptyMatch => NoMatch
  | Literal c => if Ascii.eqb b c then EmptyMatch else NoMatch
  | FoldCase c => if fold_eq c b then EmptyMatch else NoMatch
  | AnyCharNotNL => if Ascii.eqb b "010" then NoMatch else EmptyMatch
  | Concat r1 r2 =>
      if nullable r1
      then Alternate (Concat (after_byte b r1) r2) (after_byte b r2)
      else Concat (after_byte b r1) r2
  | Alternate r1 r2 => Alternate (after_byte b r1) (after_byte b r2)
  | Star r1 => Concat (after_byte b r1) (Star r1)
  end.

(** A match that starts at the first byte of [s]: of some prefix of [s],
    or of all of [s] when the pattern ends with [$]. *)
Fixpoint match_here (r : Syntax) (endText : bool) (s : string) : bool :=
  match s with
  | EmptyString => nullable r
  | String b s' =>
      (negb endText && nullable r) || match_here (after_byte b r) endText s'
  end.

(** [re.MatchString(s)]: whether [s] contains a match, which starts at the
    first byte when the pattern starts with [^]. *)
Fixpoint MatchString (re : Regexp) (s : string) : bool :=
  match_here (body re) (endText re) s
  || (negb (beginText re)
      && match s with
         | EmptyString => false
         | String _ s' => MatchString re s'
         end).

End regexp.

(** [regexp.MustCompile(`(?i)^(GE-Proton|Proton-GE).*`)] *)
Definition geFolderPattern : regexp.Regexp :=
  regexp.mk true
    (regexp.Concat
       (regexp.Alternate (regexp.literal_fold "GE-Proton")
                         (regexp.literal_fold "Proton-GE"))
       (regexp.Star regexp.AnyCharNotNL))
    false.

(** [regexp.MustCompile(`(?i)\.tar\.gz$`)] *)
Definition tarballPattern : regexp.Regexp :=
  regexp.mk false (regexp.literal_fold ".tar.gz") true.

(** ** [main.go]: the asset selector written with the pattern *)

Module main.

(** The condition of the first loop of [pickLinuxTarball]. *)
Definition isGEProtonTarball (a : Asset.t) : bool :=
  regexp.MatchString tarballPattern (Asset.Name a)
  && strings.Contains (strings.ToLower (Asset.Name a)) "ge-proton".

Definition isTarball (a : Asset.t) : bool :=
  regexp.MatchString tarballPattern (Asset.Name a).

Definition pickLinuxTarball (assets : list Asset.t) : Asset.t * bool :=
  let candidates := github.collect isGEProtonTarball assets [] in
  let candidates :=
    if len candidates =? 0 then github.collect isTarball assets candidates
    else candidates in
  if len candidates =? 0 then (Asset.zero, false)
  else
    let candidates := slices.SortFunc github.bySize candidates in
    (default Asset.zero (candidates !! 0%nat), true).

End main.

(** ** [slices.Sort] on strings *)

(** [cmp.Less(a, b)] for strings: the order of their bytes. *)
Definition string_less (a b : string) : bool :=
  match String.compare a b with
  | Lt => true
  | _ => false
  end.

(** [slices.Sort(x)] runs the standard library's [pdqsortOrdered], which
    is the text of [pdqsortCmpFunc] with [cmp.Less(a, b)] in the place of
    [cmp(a, b) < 0]. *)
Definition slices_Sort (x : list string) : list string :=
  slices.SortFunc (fun a b => if string_less a b then -1 else 0) x.

(** The number of the elements of [l] below [x]. *)
Definition rank (l : list string) (x : string) : Z :=
  len (List.filter (fun z => string_less z x) l).

(** A slice of strings in ascending order. *)
Definition ascending (l : list string) : Prop :=
  forall i j a b, (i <= j)%nat -> l !! i = Some a -> l !! j = Some b ->
                  string_less b a = false.

(** ** The installed list and the button handlers of [internal/ui/ui.go] *)

Module ui_handlers.

(** An [osDirEntry]: what [readDirNames] reads of a directory entry. *)
Record osDirEntry := mkEntry { Name : string; IsDir : bool }.

(** The dialogs a handler can open. *)
Inductive dialog :=
  | ShowInformation (title message : string)
  | ShowError (err : error)
  | NewConfirm (title message : string).

(** The zero value [github.Release{}]. *)
Definition Release_zero : Release.t :=
  Release.mk EmptyString EmptyString false [] false EmptyString EmptyString
             0 0.

(** [logLine(log, ...)]: one more line in the log view. *)
Definition logLine (line : string) (st : ui.State) : ui.State :=
  ui.mkState (ui.currentInstalled st) (ui.availableReleases st)
             (ui.currentAvailable st) (ui.selectedInstalled st)
             (ui.selectedAvailable st) (ui.logView st ++ [line]).

Section Handlers.
Context {FS : Type}.

(** The package variables [osReadDir] and [osRemoveAll], on a file system
    [FS]. *)
Variable osReadDir : string -> FS -> error + list osDirEntry.
Variable osRemoveAll : string -> FS -> FS * option error.

Definition readDirNames (p : string) (fs : FS) : list string * option error :=
  match osReadDir p fs with
  | inl err => ([], Some err)
  | inr ents =>
      (fold_left (fun out e => if IsDir e then out ++ [Name e] else out)
                 ents [],
       None)
  end.

Definition loadInstalled (installDir : string) (fs : FS) (st : ui.State)
  : ui.State :=
  if String.eqb installDir EmptyString then st
  else
    match readDirNames installDir fs with
    | (_, Some err) => logLine ("Read error: " +:+ Error err) st
    | (dirs, None) =>
        let names :=
          fold_left
            (fun names n =>
               if regexp.MatchString geFolderPattern n then names ++ [n]
               else names)
            dirs [] in
        let names := slices_Sort names in
        ui.mkState names (ui.availableReleases st) (ui.currentAvailable st)
                   (-1) (ui.selectedAvailable st)
                   (ui.logView st
                    ++ ["Found " +:+ ui.fmt_d (len names)
                        +:+ " installed Proton-GE folders."])
    end.

Definition removeInstalled (root name : string) (fs : FS)
  : FS * option error :=
  osRemoveAll (filepath.Join root name) fs.

(** [removeBtn.OnTapped], up to the dialog it opens: the information
    dialog, or the confirmation for the selected name. *)
Definition removeBtn_OnTapped (st : ui.State) : dialog * option string :=
  let i := ui.selectedInstalled st in
  if (i <? 0) || (len (ui.currentInstalled st) <=? i) then
    (ShowInformation "Remove" "Select an installed version to remove.", None)
  else
    let name := default EmptyString (ui.currentInstalled st !! Z.to_nat i) in
    (NewConfirm "Remove Proton-GE" ("Delete '" +:+ name +:+ "' from disk?"),
     Some name).

End Handlers.

(** [installBtn.OnTapped], up to the start of its goroutine: a dialog, or
    the release and the asset whose download starts. [targetDir] is the
    text of the install directory entry. *)
Definition installBtn_OnTapped (targetDir : string) (st : ui.State)
  : dialog + Release.t * Asset.t :=
  let i := ui.selectedAvailable st in
  if (i <? 0) || (len (ui.availableReleases st) <=? i) then
    inl (ShowInformation "Install" "Select a release to install.")
  else
    let rel := default Release_zero (ui.availableReleases st !! Z.to_nat i) in
    let '(asset, ok) := github.PickLinuxTarball (Release.Assets rel) in
    if negb ok then
      inl (ShowInformation "Install"
             "No suitable .tar.gz asset found on that release.")
    else if String.eqb targetDir EmptyString then
      inl (ShowInformation "Install" "Install directory not set.")
    else inr (rel, asset).

End ui_handlers.

(** A directory listing as [os.ReadDir] gives it: the name of an entry is
    one path element, it holds no separator. *)
Definition listing (ents : list ui_handlers.osDirEntry) : Prop :=
  Forall (fun e => no_sep (ui_handlers.Name e) = true) ents.

(** The names of the Proton-GE folders among the entries, in the order of
    the entries. *)
Definition ge_folders (ents : list ui_handlers.osDirEntry) : list string :=
  ui_handlers.Name
    <$> List.filter
          (fun e =>
             ui_handlers.IsDir e
             && (strings.HasPrefix (strings.ToLower (ui_handlers.Name e))
                   "ge-proton"
                 || strings.HasPrefix (strings.ToLower (ui_handlers.Name e))
                      "proton-ge"))
          ents.

(** The older [loadInstalled] of [main.go], which reads the directory
    itself and tests both conditions in one loop. *)
Module main_ui.

Definition loadInstalled {FS : Type}
  (ReadDir : string -> FS -> error + list ui_handlers.osDirEntry)
  (installDir : string) (fs : FS) (st : ui.State) : ui.State :=
  if String.eqb installDir EmptyString then st
  else
    match ReadDir installDir fs with
    | inl err => ui_handlers.logLine ("Read error: " +:+ Error err) st
    | inr entries =>
        let names :=
          fold_left
            (fun names e =>
               if ui_handlers.IsDir e
                  && regexp.MatchString geFolderPattern (ui_handlers.Name e)
               then names ++ [ui_handlers.Name e]
               else names)
            entries [] in
        let names := slices_Sort names in
        ui.mkState names (ui.availableReleases st) (ui.currentAvailable st)
                   (-1) (ui.selectedAvailable st)
                   (ui.logView st
                    ++ ["Found " +:+ ui.fmt_d (len names)
                        +:+ " installed Proton-GE folders."])
    end.

End main_ui.

(** The state the package variables start in. *)
Definition ui_start : ui.State := ui.mkState [] [] [] (-1) (-1) [].

(** A tools directory with three Proton-GE folders, a file with such a
    name and another folder. *)
Definition tools_dir : list ui_handlers.osDirEntry :=
  [ ui_handlers.mkEntry "GE-Proton9-5" true;
    ui_handlers.mkEntry "notes" true;
    ui_handlers.mkEntry "Proton-GE-old" true;
    ui_handlers.mkEntry "GE-Proton9-7.tar.gz" false;
    ui_handlers.mkEntry "ge-proton10-1" true ].

(** An [osReadDir] that lists [ents] for every directory. *)
Definition lists (ents : list ui_handlers.osDirEntry) (p : string) (fs : unit)
  : error + list ui_handlers.osDirEntry :=
  inr ents.

(** The folders a refresh takes as installed: those on disk, or the list
    of before when the directory is not set or cannot be read. *)
Definition shown_installed {FS : Type}
  (osReadDir : string -> FS -> error + list ui_handlers.osDirEntry)
  (installDir : string) (fs : FS) (st : ui.State) : list string :=
  if String.eqb installDir EmptyString then ui.currentInstalled st
  else
    match osReadDir installDir fs with
    | inl _ => ui.currentInstalled st
    | inr ents => ge_folders ents
    end.

(** ** The helpers at the end of [main.go] *)

Module main_helpers.

Definition unit : Z := 1024.

(** [for n := b / unit; n >= unit; n /= unit { div *= unit; exp++ }],
    from the values of [n], [div] and [exp] at the test. *)
Fixpoint humanize_loop (fuel : nat) (n div exp : Z) : option (Z * Z) :=
  match fuel with
  | O => None
  | S fuel' =>
      if unit <=? n then
        humanize_loop fuel' (Z.quot n unit) (wrap64 (div * unit))
                      (wrap64 (exp + 1))
      else Some (div, exp)
  end.

(** [%.1f] of a number that is not negative: the decimal with one digit
    after the point that is nearest to it, the even one of two equally
    near. *)
Definition fmt_1f (x : Qc) : string :=
  let tenths := rne (this x * 10)%Q in
  ui.fmt_d (tenths / 10) +:+ "." +:+ ui.fmt_d (tenths mod 10).

(** A call returns a string, or panics on an index out of range. *)
Inductive outcome := Returns (s : string) | Panics.

(** [humanizeBytes(b)], with the float64 arithmetic of [binary64]; [None]
    when [fuel] turns of the loop do not end it. *)
Definition humanizeBytes (fuel : nat) (b : Z) : option outcome :=
  if b <? unit then Some (Returns (ui.fmt_d b +:+ " B"))
  else
    match humanize_loop fuel (Z.quot b unit) unit 0 with
    | None => None
    | Some (div, exp) =>
        match (if exp <? 0 then None
               else String.get (Z.to_nat exp) "KMGTPE") with
        | None => Some Panics
        | Some c =>
            Some (Returns
                    (fmt_1f (@fdiv binary64 (@of_int64 binary64 b)
                                   (@of_int64 binary64 div))
                     +:+ " " +:+ String c "iB"))
        end
    end.

End main_helpers.

(** ** Words that lower-casing keeps apart *)

(** A byte of ASCII other than [i] and [k], the two ASCII letters that
    runes beyond ASCII are lowered to ([U+0130] and the Kelvin sign
    [U+212A]). *)
Definition plain_byte (c : ascii) : bool :=
  (utf8.byte c <? utf8.RuneSelf) && negb (Ascii.eqb c "i")
  && negb (Ascii.eqb c "k").

Fixpoint plain_word (w : string) : bool :=
  match w with
  | EmptyString => true
  | String c w' => plain_byte c && plain_word w'
  end.

(** A string none of whose bytes is plain. *)
Fixpoint blocked (s : string) : bool :=
  match s with
  | EmptyString => true
  | String c s' => negb (plain_byte c) && blocked s'
  end.

(** A string of bytes that are not ASCII. *)
Fixpoint high_bytes (s : string) : bool :=
  match s with
  | EmptyString => true
  | String c s' => (utf8.RuneSelf <=? utf8.byte c) && high_bytes s'
  end.

(** A range of the case table whose images stay beyond ASCII, but for the
    two that are lowered to [i] and [k]. *)
Definition range_beyond_ascii (cr : unicode.CaseRange) : bool :=
  let '(lo, hi, stride, delta) := cr in
  (0x80 <=? lo + delta)
  || ((lo =? hi) && ((lo + delta =? 0x69) || (lo + delta =? 0x6B))).

(** * Examples *)

Example Clean_traversal : filepath.Clean "../../etc/passwd" = "../../etc/passwd".
Proof. reflexivity. Qed.

Example Clean_inner_dotdot : filepath.Clean "a/b/../../../x" = "../x".
Proof. reflexivity. Qed.

Example Clean_dot_slash : filepath.Clean "./" = "." /\ filepath.Clean "//" = "/".
Proof. split; reflexivity. Qed.

Example Clean_dir_entry : filepath.Clean "GE-Proton9-5/" = "GE-Proton9-5".
Proof. reflexivity. Qed.

Example Clean_rooted : filepath.Clean "/../a//b/./c/.." = "/a/b".
Proof. reflexivity. Qed.

Example Join_abs : filepath.Join "/dest" "/etc/passwd" = "/dest/etc/passwd".
Proof. reflexivity. Qed.

Example Dir_file : filepath.Dir "/dest/GE/bin/run" = "/dest/GE/bin".
Proof. reflexivity. Qed.

Example ToLower_name : strings.ToLower "GE-Proton9-5.TAR.GZ" = "ge-proton9-5.tar.gz".
Proof. reflexivity. Qed.

Example TrimSpace_body : strings.TrimSpace "  not found
" = "not found".
Proof. reflexivity. Qed.

Example SortFunc_five :
  slices.SortFunc Z.sub [3; 1; 2; 5; 4] = [1; 2; 3; 4; 5].
Proof. reflexivity. Qed.

Example SortFunc_20 :
  slices.SortFunc Z.sub [20;3;17;1;9;14;2;8;19;5;11;7;16;4;13;6;18;10;15;12;0;21;33;25]
  = [0;1;2;3;4;5;6;7;8;9;10;11;12;13;14;15;16;17;18;19;20;21;25;33].
Proof. vm_compute. reflexivity. Qed.

(** The specification's tie-break and fall-back examples. *)
Example PickLinuxTarball_tie_break :
  github.PickLinuxTarball
    [asset "x-ge-proton.tar.gz" 100; asset "y-ge-proton.tar.gz" 500;
     asset "z-ge-proton.tar.gz" 500]
  = (asset "y-ge-proton.tar.gz" 500, true).
Proof. vm_compute. reflexivity. Qed.

Example PickLinuxTarball_fallback :
  github.PickLinuxTarball [asset "readme.txt" 0; asset "build.tar.gz" 10]
  = (asset "build.tar.gz" 10, true).
Proof. vm_compute. reflexivity. Qed.

Example PickLinuxTarball_none :
  github.PickLinuxTarball [asset "readme.txt" 0; asset "GE-Proton9-5.sha512sum" 10]
  = (Asset.zero, false).
Proof. vm_compute. reflexivity. Qed.

(** * Facts about the model of [slices.SortFunc] *)

Section SortFacts.
Context {E : Type} (cmp : E -> E -> Z).

Local Abbreviation swap := (@slices.swap E).

Lemma insert_swap_perm (l : list E) (j : nat) (x y : E) :
  l !! j = Some y -> y :: <[j:=x]> l ≡ₚ x :: l.
Proof.
  revert j. induction l as [|a l IH]; intros [|j] Hj; simplify_eq/=.
  - apply perm_swap.
  - etrans; [apply perm_swap|]. etrans; [|apply perm_swap].
    apply perm_skip. by apply IH.
Qed.

Lemma swap_perm (data : list E) (i j : nat) : swap data i j ≡ₚ data.
Proof.
  unfold slices.swap.
  destruct (data !! i) as [x|] eqn:Hi; [|done].
  destruct (data !! j) as [y|] eqn:Hj; [|done].
  revert i j Hi Hj. induction data as [|a l IH]; intros [|i] [|j] Hi Hj;
    simplify_eq/=; try done.
  - by apply insert_swap_perm.
  - by apply insert_swap_perm.
  - f_equiv. by apply IH.
Qed.

Lemma swap_length (data : list E) (i j : nat) :
  length (swap data i j) = length data.
Proof. apply Permutation_length, swap_perm. Qed.

Lemma insert_down_perm (data : list E) a j :
  slices.insert_down cmp data a j ≡ₚ data.
Proof.
  revert data. induction j as [|j IH]; intros data; simpl; [done|].
  destruct (_ && _); [|done]. by rewrite IH, swap_perm.
Qed.

Lemma insertion_loop_perm n (data : list E) a i :
  slices.insertion_loop cmp data a i n ≡ₚ data.
Proof.
  revert data i. induction n as [|n IH]; intros data i; simpl; [done|].
  by rewrite IH, insert_down_perm.
Qed.

Lemma insertionSort_perm (data : list E) a b :
  slices.insertionSortCmpFunc cmp data a b ≡ₚ data.
Proof. apply insertion_loop_perm. Qed.

Lemma siftDown_perm (data : list E) lo hi first :
  slices.siftDownCmpFunc cmp data lo hi first ≡ₚ data.
Proof.
  unfold slices.siftDownCmpFunc. generalize hi at 1. intros fuel.
  revert data lo. induction fuel as [|fuel IH]; intros data lo; simpl; [done|].
  destruct (_ <=? _)%nat; [done|].
  destruct (negb _); [done|]. by rewrite IH, swap_perm.
Qed.

Lemma heap_build_perm n (data : list E) hi first :
  slices.heap_build cmp data n hi first ≡ₚ data.
Proof.
  revert data. induction n as [|n IH]; intros data; simpl; [done|].
  by rewrite IH, siftDown_perm.
Qed.

Lemma heap_pop_perm n (data : list E) first :
  slices.heap_pop cmp data n first ≡ₚ data.
Proof.
  revert data. induction n as [|n IH]; intros data; simpl; [done|].
  by rewrite IH, siftDown_perm, swap_perm.
Qed.

Lemma heapSort_perm (data : list E) a b :
  slices.heapSortCmpFunc cmp data a b ≡ₚ data.
Proof.
  unfold slices.heapSortCmpFunc. by rewrite heap_pop_perm, heap_build_perm.
Qed.

Lemma partition_loop_perm fuel (data : list E) a i j :
  (slices.partition_loop cmp fuel data a i j).1 ≡ₚ data.
Proof.
  revert data i j. induction fuel as [|fuel IH]; intros data i j; simpl; [done|].
  destruct (_ <? _)%nat; [done|]. by rewrite IH, swap_perm.
Qed.

Lemma partition_perm (data : list E) a b pivot :
  (slices.partitionCmpFunc cmp data a b pivot).1.1 ≡ₚ data.
Proof.
  unfold slices.partitionCmpFunc.
  destruct (_ <? _)%nat; simpl; [by rewrite !swap_perm|].
  destruct (slices.partition_loop _ _ _ _ _ _) as [d j] eqn:Hl. simpl.
  rewrite swap_perm. change d with (d, j).1. rewrite <- Hl.
  by rewrite partition_loop_perm, !swap_perm.
Qed.

Lemma partitionEqual_loop_perm fuel (data : list E) a i j :
  (slices.partitionEqual_loop cmp fuel data a i j).1 ≡ₚ data.
Proof.
  revert data i j. induction fuel as [|fuel IH]; intros data i j; simpl; [done|].
  destruct (_ <? _)%nat; [done|]. by rewrite IH, swap_perm.
Qed.

Lemma partitionEqual_perm (data : list E) a b pivot :
  (slices.partitionEqualCmpFunc cmp data a b pivot).1 ≡ₚ data.
Proof.
  unfold slices.partitionEqualCmpFunc.
  by rewrite partitionEqual_loop_perm, swap_perm.
Qed.

Lemma shift_left_perm j (data : list E) :
  slices.shift_left cmp data j ≡ₚ data.
Proof.
  revert data. induction j as [|j IH]; intros data; simpl; [done|].
  destruct (slices.less _ _ _ _); [|done]. by rewrite IH, swap_perm.
Qed.

Lemma shift_right_perm fuel (data : list E) j b :
  slices.shift_right cmp data j b fuel ≡ₚ data.
Proof.
  revert data j. induction fuel as [|fuel IH]; intros data j; simpl; [done|].
  destruct (_ && _); [|done]. by rewrite IH, swap_perm.
Qed.

Lemma partial_steps_perm n (data : list E) a b i :
  (slices.partial_steps cmp n data a b i).1 ≡ₚ data.
Proof.
  revert data i. induction n as [|n IH]; intros data i; simpl; [done|].
  destruct (_ =? _)%nat; [done|].
  destruct (_ <? _)%nat; [done|].
  rewrite IH.
  repeat match goal with
         | |- context [if ?c then _ else _] => destruct c
         end;
    by rewrite ?shift_right_perm, ?shift_left_perm, ?swap_perm.
Qed.

Lemma partialInsertionSort_perm (data : list E) a b :
  (slices.partialInsertionSortCmpFunc cmp data a b).1 ≡ₚ data.
Proof. apply partial_steps_perm. Qed.

Lemma breakPatterns_loop_perm n (data : list E) a length idx i random modulus :
  slices.breakPatterns_loop n data a length idx i random modulus ≡ₚ data.
Proof.
  revert data i random. induction n as [|n IH]; intros data i random; simpl;
    [done|].
  by rewrite IH, swap_perm.
Qed.

Lemma breakPatterns_perm (data : list E) a b :
  slices.breakPatternsCmpFunc data a b ≡ₚ data.
Proof.
  unfold slices.breakPatternsCmpFunc.
  destruct (_ <=? _)%nat; [|done]. apply breakPatterns_loop_perm.
Qed.

Lemma reverse_loop_perm fuel (data : list E) i j :
  slices.reverse_loop fuel data i j ≡ₚ data.
Proof.
  revert data i j. induction fuel as [|fuel IH]; intros data i j; simpl; [done|].
  destruct (_ <? _)%nat; [|done]. by rewrite IH, swap_perm.
Qed.

Lemma reverseRange_perm (data : list E) a b :
  slices.reverseRangeCmpFunc data a b ≡ₚ data.
Proof. apply reverse_loop_perm. Qed.

Lemma pdqsort_perm fuel (data : list E) a b limit wasBalanced wasPartitioned :
  slices.pdqsortCmpFunc cmp fuel data a b limit wasBalanced wasPartitioned
  ≡ₚ data.
Proof.
  revert data a b limit wasBalanced wasPartitioned.
  induction fuel as [|fuel IH]; intros data a b limit wb wp; simpl; [done|].
  destruct (_ <=? _)%nat; [apply insertionSort_perm|].
  destruct (limit =? 0)%nat; [apply heapSort_perm|].
  set (d1 := if wb then (data, limit)
             else (slices.breakPatternsCmpFunc data a b, (limit - 1)%nat)).
  assert (Hd1 : d1.1 ≡ₚ data).
  { subst d1. destruct wb; simpl; [done|apply breakPatterns_perm]. }
  destruct d1 as [data1 limit1]. simpl in Hd1.
  destruct (slices.choosePivotCmpFunc cmp data1 a b) as [pivot hint].
  set (d2 := match hint with
             | slices.decreasingHint => _
             | _ => _
             end).
  assert (Hd2 : d2.1.1 ≡ₚ data).
  { subst d2. destruct hint; simpl; rewrite ?reverseRange_perm; done. }
  destruct d2 as [[data2 pivot2] hint2]. simpl in Hd2.
  set (d3 := if _ && _ && _ then _ else _).
  assert (Hd3 : d3.1 ≡ₚ data).
  { subst d3. destruct (_ && _ && _); simpl; [|done].
    by rewrite partialInsertionSort_perm. }
  destruct d3 as [data3 done3]. simpl in Hd3.
  destruct done3; [done|].
  destruct (_ && _).
  - pose proof (partitionEqual_perm data3 a b pivot2) as Hp.
    destruct (slices.partitionEqualCmpFunc cmp data3 a b pivot2) as [d mid].
    simpl in Hp. by rewrite IH, Hp.
  - pose proof (partition_perm data3 a b pivot2) as Hp.
    destruct (slices.partitionCmpFunc cmp data3 a b pivot2) as [[d mid] ap].
    simpl in Hp. destruct (_ <? _)%nat; by rewrite !IH, Hp.
Qed.

(** [SortFunc] rearranges its slice: nothing is lost, added or changed. *)
Lemma SortFunc_perm (x : list E) : slices.SortFunc cmp x ≡ₚ x.
Proof. apply pdqsort_perm. Qed.

Lemma SortFunc_length (x : list E) :
  length (slices.SortFunc cmp x) = length x.
Proof. apply Permutation_length, SortFunc_perm. Qed.

End SortFacts.

(** * Ranges of a slice under [swap]

    The comparison is taken to order the elements by a key:
    [cmp x y < 0] exactly when [key x < key y]. *)

Section RangeFacts.
Context {E : Type} (cmp : E -> E -> Z) (key : E -> Z).
Hypothesis cmp_key : forall x y, (cmp x y <? 0) = (key x <? key y).

Lemma keyat_unfold (data : list E) (i : nat) :
  keyat key data i = match data !! i with Some x => key x | None => 0 end.
Proof. reflexivity. Qed.

Local Abbreviation keyat := (keyat key).
Local Abbreviation less := (slices.less cmp).
Local Abbreviation swap := (@slices.swap E).

Lemma keyat_lookup (data : list E) (i : nat) (x : E) :
  data !! i = Some x -> keyat data i = key x.
Proof. rewrite keyat_unfold. by intros ->. Qed.

Lemma less_keyat (data : list E) (i j : nat) :
  (i < length data)%nat -> (j < length data)%nat ->
  less data i j = (keyat data i <? keyat data j).
Proof.
  intros [x Hx]%lookup_lt_is_Some [y Hy]%lookup_lt_is_Some.
  unfold slices.less. rewrite !keyat_unfold, Hx, Hy. apply cmp_key.
Qed.

Lemma swap_lookup (data : list E) (i j k : nat) :
  (i < length data)%nat -> (j < length data)%nat ->
  swap data i j !! k
  = if decide (k = j) then data !! i
    else if decide (k = i) then data !! j else data !! k.
Proof.
  intros Hi Hj.
  destruct (lookup_lt_is_Some_2 _ _ Hi) as [x Hx].
  destruct (lookup_lt_is_Some_2 _ _ Hj) as [y Hy].
  unfold slices.swap. rewrite Hx, Hy.
  destruct (decide (k = j)) as [->|Hkj].
  - rewrite list_lookup_insert_eq; [done|]. by rewrite length_insert.
  - rewrite list_lookup_insert_ne by done.
    destruct (decide (k = i)) as [->|Hki].
    + by rewrite list_lookup_insert_eq.
    + by rewrite list_lookup_insert_ne.
Qed.

Lemma swap_keyat (data : list E) (i j k : nat) :
  (i < length data)%nat -> (j < length data)%nat ->
  keyat (swap data i j) k
  = if decide (k = j) then keyat data i
    else if decide (k = i) then keyat data j else keyat data k.
Proof.
  intros Hi Hj. rewrite !keyat_unfold, swap_lookup by done.
  by repeat case_decide.
Qed.

Lemma swap_outside (data : list E) (i j k : nat) :
  k <> i -> k <> j -> swap data i j !! k = data !! k.
Proof.
  intros Hki Hkj. unfold slices.swap.
  destruct (data !! i) eqn:Hi; [|done].
  destruct (data !! j) eqn:Hj; [|done].
  by rewrite !list_lookup_insert_ne.
Qed.

(** ** Frames *)

Lemma frame_refl (a b : nat) (data : list E) : frame a b data data.
Proof. by split. Qed.

Lemma frame_trans (a b : nat) (d1 d2 d3 : list E) :
  frame a b d1 d2 -> frame a b d2 d3 -> frame a b d1 d3.
Proof.
  intros [Hl1 H1] [Hl2 H2]. split; [congruence|].
  intros i Hi. by rewrite H2, H1.
Qed.

Lemma frame_weaken (a b a' b' : nat) (d1 d2 : list E) :
  (a <= a')%nat -> (b' <= b)%nat -> frame a' b' d1 d2 -> frame a b d1 d2.
Proof.
  intros Ha Hb [Hl H]. split; [done|]. intros i Hi. apply H. lia.
Qed.

Lemma swap_frame (a b : nat) (data : list E) (i j : nat) :
  (a <= i < b)%nat -> (a <= j < b)%nat -> frame a b data (swap data i j).
Proof.
  intros Hi Hj. split; [apply swap_length|].
  intros k Hk. apply swap_outside; lia.
Qed.

Lemma frame_keyat (a b : nat) (d1 d2 : list E) (i : nat) :
  frame a b d1 d2 -> (i < a \/ b <= i)%nat -> keyat d2 i = keyat d1 i.
Proof. intros [_ H] Hi. rewrite !keyat_unfold. by rewrite H. Qed.

(** ** The elements of a range *)

Lemma seg_lookup (data : list E) (a b i : nat) :
  (i < b - a)%nat -> seg data a b !! i = data !! (a + i)%nat.
Proof. intros Hi. unfold seg. by rewrite lookup_take_lt, lookup_drop. Qed.

Lemma seg_length (data : list E) (a b : nat) :
  (b <= length data)%nat -> length (seg data a b) = (b - a)%nat.
Proof. intros Hb. unfold seg. rewrite length_take, length_drop. lia. Qed.

Lemma seg_split (data : list E) (a b : nat) :
  (a <= b)%nat -> data = take a data ++ seg data a b ++ drop b data.
Proof.
  intros Hab. unfold seg.
  rewrite <- (take_drop a data) at 1. f_equal.
  rewrite <- (take_drop (b - a) (drop a data)) at 1. f_equal.
  rewrite drop_drop. f_equal. lia.
Qed.

(** A frame that rearranges the slice rearranges the range. *)
Lemma frame_seg_perm (a b : nat) (d1 d2 : list E) :
  (a <= b)%nat -> frame a b d1 d2 -> d2 ≡ₚ d1 -> seg d2 a b ≡ₚ seg d1 a b.
Proof.
  intros Hab [Hlen Hout] Hperm.
  assert (Htake : take a d2 = take a d1).
  { apply list_eq. intros i. destruct (decide (i < a)%nat).
    - rewrite !lookup_take_lt by done. apply Hout. lia.
    - by rewrite !lookup_take_ge by lia. }
  assert (Hdrop : drop b d2 = drop b d1).
  { apply list_eq. intros i. rewrite !lookup_drop. apply Hout. lia. }
  rewrite (seg_split d1 a b Hab), (seg_split d2 a b Hab) in Hperm.
  rewrite Htake, Hdrop in Hperm.
  apply Permutation_app_inv_l in Hperm.
  by apply Permutation_app_inv_r in Hperm.
Qed.

Lemma all_keys_seg (data : list E) (a b : nat) (P : Z -> Prop) :
  (a <= b <= length data)%nat ->
  all_keys key data a b P <-> Forall (fun x => P (key x)) (seg data a b).
Proof.
  intros Hab. unfold all_keys. rewrite Forall_lookup. split.
  - intros H i x Hx.
    assert (i < b - a)%nat as Hi.
    { apply lookup_lt_Some in Hx. rewrite seg_length in Hx; lia. }
    rewrite seg_lookup in Hx by done.
    specialize (H (a + i)%nat ltac:(lia)).
    by rewrite (keyat_lookup _ _ _ Hx) in H.
  - intros H i Hi.
    destruct (lookup_lt_is_Some_2 data i ltac:(lia)) as [x Hx].
    rewrite (keyat_lookup _ _ _ Hx).
    apply (H (i - a)%nat). rewrite seg_lookup by lia.
    by replace (a + (i - a))%nat with i by lia.
Qed.

(** What holds of every key of a range still holds after the range was
    rearranged. *)
Lemma all_keys_frame (a b : nat) (d1 d2 : list E) (P : Z -> Prop) :
  (a <= b <= length d1)%nat ->
  frame a b d1 d2 -> d2 ≡ₚ d1 ->
  all_keys key d1 a b P -> all_keys key d2 a b P.
Proof.
  intros Hab Hframe Hperm.
  pose proof Hframe as [Hlen _].
  rewrite !all_keys_seg by lia.
  by rewrite (frame_seg_perm a b d1 d2 ltac:(lia) Hframe Hperm).
Qed.

(** The same for a range that contains the rearranged one. *)
Lemma all_keys_frame_wide (a b a' b' : nat) (d1 d2 : list E) (P : Z -> Prop) :
  (a <= a')%nat -> (b' <= b)%nat -> (a <= b <= length d1)%nat ->
  frame a' b' d1 d2 -> d2 ≡ₚ d1 ->
  all_keys key d1 a b P -> all_keys key d2 a b P.
Proof.
  intros Ha Hb Hab Hframe. apply all_keys_frame; [done|].
  by apply (frame_weaken a b a' b').
Qed.

End RangeFacts.

(** * [slices.SortFunc] sorts *)

Section SortedFacts.
Context {E : Type} (cmp : E -> E -> Z) (key : E -> Z).
Hypothesis cmp_key : forall x y, (cmp x y <? 0) = (key x <? key y).

Local Abbreviation keyat := (keyat key).
Local Abbreviation less := (slices.less cmp).
Local Abbreviation swap := (@slices.swap E).
Local Abbreviation sorted_range := (sorted_range key).
Local Abbreviation all_keys := (all_keys key).

(** Case analysis on the keys after a swap. *)
Local Ltac swapped :=
  repeat (rewrite (swap_keyat key) by lia); repeat case_decide; try lia.

Lemma less_lt (data : list E) (i j : nat) :
  (i < length data)%nat -> (j < length data)%nat ->
  less data i j = true <-> keyat data i < keyat data j.
Proof.
  intros Hi Hj. rewrite (less_keyat cmp key cmp_key) by done. apply Z.ltb_lt.
Qed.

Lemma less_ge (data : list E) (i j : nat) :
  (i < length data)%nat -> (j < length data)%nat ->
  less data i j = false <-> keyat data j <= keyat data i.
Proof.
  intros Hi Hj. rewrite (less_keyat cmp key cmp_key) by done. apply Z.ltb_ge.
Qed.

(** ** Insertion sort *)

(** [insert_down] from [j], with [data[a:j]] in order, the elements it has
    passed, [data[j+1:m+1]], in order and above [data[j]] and [data[a:j]]. *)
Lemma insert_down_sorted (a m j : nat) (data : list E) :
  (a <= j <= m)%nat -> (m < length data)%nat ->
  sorted_range data a j ->
  sorted_range data (S j) (S m) ->
  (forall i i', (a <= i < j)%nat -> (j < i' <= m)%nat ->
                keyat data i <= keyat data i') ->
  (forall i', (j < i' <= m)%nat -> keyat data j <= keyat data i') ->
  sorted_range (slices.insert_down cmp data a j) a (S m)
  /\ frame a (S m) data (slices.insert_down cmp data a j).
Proof.
  revert data. induction j as [|j IH]; intros data Hj Hm Hlow Hhigh Hcross Hj'.
  - simpl. split; [|apply frame_refl].
    intros i i' Hi Hii' Hi'. destruct (decide (i = 0%nat)) as [->|Hne].
    + destruct (decide (i' = 0%nat)) as [->|?]; [lia|]. apply Hj'. lia.
    + apply Hhigh; lia.
  - cbn [slices.insert_down].
    destruct (Nat.ltb_spec a (S j)) as [Haj|Haj]; simpl.
    + destruct (less data (S j) j) eqn:Hless.
      * apply less_lt in Hless; [|lia..].
        destruct (IH (swap data (S j) j)) as [Hs Hf].
        -- lia.
        -- by rewrite swap_length.
        -- intros i i' ? ? ?. swapped. apply Hlow; lia.
        -- intros i i' ? ? ?. swapped.
           ++ apply Hcross; lia.
           ++ apply Hhigh; lia.
        -- intros i i' ? ?. swapped.
           ++ apply Hlow; lia.
           ++ apply Hcross; lia.
        -- intros i' ?. swapped. apply Hj'. lia.
        -- split; [done|].
           eapply frame_trans; [|exact Hf]. apply swap_frame; lia.
      * apply less_ge in Hless; [|lia..].
        split; [|apply frame_refl].
        intros i i' Hi Hii' Hi'.
        destruct (decide (i' <= j)%nat); [apply Hlow; lia|].
        destruct (decide (i = S j)) as [->|?].
        { destruct (decide (i' = S j)) as [->|?]; [lia|]. apply Hj'. lia. }
        destruct (decide (S j < i)%nat); [apply Hhigh; lia|].
        assert (keyat data i <= keyat data (S j)).
        { etrans; [apply (Hlow i j); lia|done]. }
        destruct (decide (i' = S j)) as [->|?]; [done|].
        apply Hcross; lia.
    + split; [|apply frame_refl].
      intros i i' Hi Hii' Hi'.
      destruct (decide (i = S j)) as [->|?].
      { destruct (decide (i' = S j)) as [->|?]; [lia|]. apply Hj'. lia. }
      apply Hhigh; lia.
Qed.

Lemma insertion_loop_sorted (n a i : nat) (data : list E) :
  (a < i)%nat -> (i + n <= length data)%nat ->
  sorted_range data a i ->
  sorted_range (slices.insertion_loop cmp data a i n) a (i + n)
  /\ frame a (i + n) data (slices.insertion_loop cmp data a i n).
Proof.
  revert i data. induction n as [|n IH]; intros i data Hai Hlen Hsorted.
  - simpl. rewrite Nat.add_0_r. split; [done|apply frame_refl].
  - cbn [slices.insertion_loop].
    destruct (insert_down_sorted a i i data) as [Hs Hf]; try lia; try done.
    + intros ? ? ? ? ?. lia.
    + destruct (IH (S i) (slices.insert_down cmp data a i)) as [Hs' Hf'].
      * lia.
      * destruct Hf as [-> _]. lia.
      * done.
      * replace (i + S n)%nat with (S i + n)%nat by lia. split; [done|].
        eapply frame_trans; [|exact Hf'].
        eapply frame_weaken; [| |exact Hf]; lia.
Qed.

Lemma insertionSort_sorted (a b : nat) (data : list E) :
  (b <= length data)%nat ->
  sorted_range (slices.insertionSortCmpFunc cmp data a b) a b
  /\ frame a b data (slices.insertionSortCmpFunc cmp data a b).
Proof.
  intros Hb. unfold slices.insertionSortCmpFunc.
  destruct (decide (a < b)%nat) as [Hab|Hab].
  - pose proof (insertion_loop_sorted (b - S a) a (S a) data) as H.
    replace (S a + (b - S a))%nat with b in H by lia.
    apply H; [lia|lia|].
    intros i j ? ? ?. by replace j with i by lia.
  - replace (b - S a)%nat with 0%nat by lia. simpl.
    split; [|apply frame_refl]. intros i j ? ? ?. lia.
Qed.

(** ** The scans of the partitions *)

Lemma scan_up_spec (p : nat -> bool) (fuel i j : nat) :
  (i <= S j)%nat -> (S j - i <= fuel)%nat ->
  (i <= slices.scan_up p i j fuel <= S j)%nat
  /\ (forall k, (i <= k < slices.scan_up p i j fuel)%nat -> p k = true)
  /\ ((slices.scan_up p i j fuel <= j)%nat ->
      p (slices.scan_up p i j fuel) = false).
Proof.
  revert i. induction fuel as [|fuel IH]; intros i Hi Hfuel; simpl.
  { split; [lia|]. split; intros; lia. }
  destruct (Nat.leb_spec i j) as [Hij|Hij]; simpl.
  - destruct (p i) eqn:Hp.
    + destruct (IH (S i)) as (H1 & H2 & H3); [lia..|].
      split; [lia|]. split; [|done].
      intros k Hk. destruct (decide (k = i)) as [->|?]; [done|].
      apply H2. lia.
    + split; [lia|]. split; [intros; lia|done].
  - split; [lia|]. split; intros; lia.
Qed.

Lemma scan_down_spec (p : nat -> bool) (i j : nat) :
  (1 <= i <= S j)%nat ->
  (slices.scan_down p i j <= j)%nat
  /\ (i <= S (slices.scan_down p i j))%nat
  /\ (forall k, (slices.scan_down p i j < k <= j)%nat -> p k = true)
  /\ ((i <= slices.scan_down p i j)%nat ->
      p (slices.scan_down p i j) = false).
Proof.
  induction j as [|j IH]; intros Hi; simpl.
  { split; [lia|]. split; [lia|]. split; intros; lia. }
  destruct (Nat.leb_spec i (S j)) as [Hij|Hij]; simpl.
  - destruct (p (S j)) eqn:Hp.
    + destruct IH as (H1 & H2 & H3 & H4); [lia|].
      split; [lia|]. split; [lia|]. split; [|done].
      intros k Hk. destruct (decide (k = S j)) as [->|?]; [done|].
      apply H3. lia.
    + split; [lia|]. split; [lia|]. split; [intros; lia|done].
  - split; [lia|]. split; [lia|]. split; intros; lia.
Qed.

(** ** [partitionCmpFunc] *)

(** The loop of the partition, the pivot at [a]: the keys of [data[a+1:i]]
    are below the pivot's and those of [data[j+1:b]] are not. *)
Lemma partition_loop_spec (b a : nat) (fuel i j : nat) (data : list E) :
  (b <= length data)%nat ->
  (a < i)%nat -> (j < b)%nat -> (i <= S j)%nat -> (S j - i <= fuel)%nat ->
  (forall k, (a < k < i)%nat -> keyat data k < keyat data a) ->
  (forall k, (j < k < b)%nat -> keyat data a <= keyat data k) ->
  let r := slices.partition_loop cmp fuel data a i j in
  frame (S a) b data r.1
  /\ (a <= r.2 < b)%nat
  /\ (forall k, (a < k <= r.2)%nat -> keyat r.1 k < keyat r.1 a)
  /\ (forall k, (r.2 < k < b)%nat -> keyat r.1 a <= keyat r.1 k).
Proof.
  revert i j data.
  induction fuel as [|fuel IH]; intros i j data Hb Hai Hjb Hij Hfuel Hlow Hhigh.
  { simpl. split; [apply frame_refl|]. split; [lia|].
    split; [intros; apply Hlow; lia|done]. }
  cbn [slices.partition_loop].
  destruct (scan_up_spec (fun i => less data i a) (S j - i) i j)
    as (Hi1 & Hi2 & Hi3); [lia..|].
  set (i' := slices.scan_up _ i j _) in *.
  destruct (scan_down_spec (fun j => negb (less data j a)) i' j)
    as (Hj1 & Hj2 & Hj3 & Hj4); [lia|].
  set (j' := slices.scan_down _ i' j) in *.
  assert (Hlow' : forall k, (a < k < i')%nat -> keyat data k < keyat data a).
  { intros k Hk. destruct (decide (k < i)%nat); [apply Hlow; lia|].
    apply less_lt; [lia..|]. apply Hi2. lia. }
  assert (Hhigh' : forall k, (j' < k < b)%nat -> keyat data a <= keyat data k).
  { intros k Hk. destruct (decide (j < k)%nat); [apply Hhigh; lia|].
    apply less_ge; [lia..|]. apply negb_true_iff. apply Hj3. lia. }
  destruct (Nat.ltb_spec j' i') as [Hexit|Hgo]; simpl.
  - split; [apply frame_refl|]. split; [lia|].
    split; [intros; apply Hlow'; lia|done].
  - assert (Hi' : keyat data a <= keyat data i').
    { apply less_ge; [lia..|]. apply Hi3. lia. }
    assert (Hj' : keyat data j' < keyat data a).
    { apply less_lt; [lia..|]. apply negb_false_iff. apply Hj4. lia. }
    assert (i' < j')%nat.
    { destruct (decide (i' = j')) as [Heq|?]; [|lia]. rewrite Heq in Hi'. lia. }
    destruct (IH (S i') (pred j') (swap data i' j')) as (Hf & Hmid & Hl & Hh).
    + by rewrite swap_length.
    + lia.
    + lia.
    + lia.
    + lia.
    + intros k Hk. swapped. apply Hlow'. lia.
    + intros k Hk. swapped. apply Hhigh'. lia.
    + split; [|done].
      eapply frame_trans; [|exact Hf]. apply swap_frame; lia.
Qed.

Lemma partition_spec (a b pivot : nat) (data : list E) :
  (b <= length data)%nat -> (a <= pivot < b)%nat ->
  let r := slices.partitionCmpFunc cmp data a b pivot in
  frame a b data r.1.1
  /\ (a <= r.1.2 < b)%nat
  /\ (forall k, (a <= k < r.1.2)%nat -> keyat r.1.1 k < keyat r.1.1 r.1.2)
  /\ (forall k, (r.1.2 < k < b)%nat -> keyat r.1.1 r.1.2 <= keyat r.1.1 k).
Proof.
  intros Hb Hpivot.
  assert (Heq : (slices.partitionCmpFunc cmp data a b pivot).1
                = let r := slices.partition_loop cmp (S (b - a))
                             (swap data a pivot) a (S a) (b - 1) in
                  (swap r.1 r.2 a, r.2)).
  { unfold slices.partitionCmpFunc. cbn [slices.partition_loop].
    destruct (_ <? _)%nat; [done|].
    by destruct (slices.partition_loop _ _ _ _ _ _). }
  intros r. subst r. rewrite Heq.
  destruct (partition_loop_spec b a (S (b - a)) (S a) (b - 1)
              (swap data a pivot)) as (Hf & Hmid & Hl & Hh).
  - by rewrite swap_length.
  - lia.
  - lia.
  - lia.
  - lia.
  - intros; lia.
  - intros; lia.
  - set (r := slices.partition_loop _ _ _ _ _ _) in *. cbn [fst snd].
    assert (Hlen : length r.1 = length data).
    { destruct Hf as [-> _]. apply swap_length. }
    split; [|split; [lia|split]].
    + eapply frame_trans; [apply (swap_frame a b data a pivot); lia|].
      eapply frame_trans; [eapply frame_weaken; [| |exact Hf]; lia|].
      apply swap_frame; lia.
    + intros k Hk. swapped; try (apply Hl; lia).
      all: replace r.2 with a by lia; apply Hl; lia.
    + intros k Hk. swapped; try (apply Hh; lia).
      all: replace r.2 with a by lia; apply Hh; lia.
Qed.

(** ** [partitionEqualCmpFunc] *)

Lemma partitionEqual_loop_spec (b a : nat) (fuel i j : nat) (data : list E) :
  (b <= length data)%nat ->
  (a < i)%nat -> (j < b)%nat -> (i <= S j)%nat -> (S j - i <= fuel)%nat ->
  (forall k, (a < k < i)%nat -> keyat data k <= keyat data a) ->
  (forall k, (j < k < b)%nat -> keyat data a < keyat data k) ->
  let r := slices.partitionEqual_loop cmp fuel data a i j in
  frame (S a) b data r.1
  /\ (a < r.2 <= b)%nat
  /\ (forall k, (a < k < r.2)%nat -> keyat r.1 k <= keyat r.1 a)
  /\ (forall k, (r.2 <= k < b)%nat -> keyat r.1 a < keyat r.1 k).
Proof.
  revert i j data.
  induction fuel as [|fuel IH]; intros i j data Hb Hai Hjb Hij Hfuel Hlow Hhigh.
  { simpl. split; [apply frame_refl|]. split; [lia|].
    split; [done|intros; apply Hhigh; lia]. }
  cbn [slices.partitionEqual_loop].
  destruct (scan_up_spec (fun i => negb (less data a i)) (S j - i) i j)
    as (Hi1 & Hi2 & Hi3); [lia..|].
  set (i' := slices.scan_up _ i j _) in *.
  destruct (scan_down_spec (fun j => less data a j) i' j)
    as (Hj1 & Hj2 & Hj3 & Hj4); [lia|].
  set (j' := slices.scan_down _ i' j) in *.
  assert (Hlow' : forall k, (a < k < i')%nat -> keyat data k <= keyat data a).
  { intros k Hk. destruct (decide (k < i)%nat); [apply Hlow; lia|].
    apply less_ge; [lia..|]. apply negb_true_iff. apply Hi2. lia. }
  assert (Hhigh' : forall k, (j' < k < b)%nat -> keyat data a < keyat data k).
  { intros k Hk. destruct (decide (j < k)%nat); [apply Hhigh; lia|].
    apply less_lt; [lia..|]. apply Hj3. lia. }
  destruct (Nat.ltb_spec j' i') as [Hexit|Hgo]; simpl.
  - split; [apply frame_refl|]. split; [lia|].
    split; [done|intros; apply Hhigh'; lia].
  - assert (Hi' : keyat data a < keyat data i').
    { apply less_lt; [lia..|]. apply negb_false_iff. apply Hi3. lia. }
    assert (Hj' : keyat data j' <= keyat data a).
    { apply less_ge; [lia..|]. apply Hj4. lia. }
    assert (i' < j')%nat.
    { destruct (decide (i' = j')) as [Heq|?]; [|lia]. rewrite Heq in Hi'. lia. }
    destruct (IH (S i') (pred j') (swap data i' j')) as (Hf & Hmid & Hl & Hh).
    + by rewrite swap_length.
    + lia.
    + lia.
    + lia.
    + lia.
    + intros k Hk. swapped. apply Hlow'. lia.
    + intros k Hk. swapped. apply Hhigh'. lia.
    + split; [|done].
      eapply frame_trans; [|exact Hf]. apply swap_frame; lia.
Qed.

Lemma partitionEqual_spec (a b pivot : nat) (data : list E) :
  (b <= length data)%nat -> (a <= pivot < b)%nat ->
  let r := slices.partitionEqualCmpFunc cmp data a b pivot in
  frame a b data r.1
  /\ (a < r.2 <= b)%nat
  /\ keyat r.1 a = keyat data pivot
  /\ (forall k, (a <= k < r.2)%nat -> keyat r.1 k <= keyat r.1 a)
  /\ (forall k, (r.2 <= k < b)%nat -> keyat r.1 a < keyat r.1 k).
Proof.
  intros Hb Hpivot. unfold slices.partitionEqualCmpFunc.
  destruct (partitionEqual_loop_spec b a (S (b - a)) (S a) (b - 1)
              (swap data a pivot)) as (Hf & Hmid & Hl & Hh).
  - by rewrite swap_length.
  - lia.
  - lia.
  - lia.
  - lia.
  - intros; lia.
  - intros; lia.
  - set (r := slices.partitionEqual_loop _ _ _ _ _ _) in *. cbv zeta.
    split; [|split; [lia|split; [|split]]].
    + eapply frame_trans; [apply (swap_frame a b data a pivot); lia|].
      eapply frame_weaken; [| |exact Hf]; lia.
    + rewrite (frame_keyat key (S a) b _ _ a Hf) by lia. swapped; by subst.
    + intros k Hk. destruct (decide (k = a)) as [->|?]; [lia|]. apply Hl. lia.
    + done.
Qed.

(** ** [heapSortCmpFunc] *)

Local Abbreviation dominates := (dominates key).
Local Abbreviation heap := (heap key).

(** The loop of [siftDownCmpFunc] at [root]: every other node from [lo]
    dominates its children, and the parent of [root] dominates the children
    of [root]. *)
Lemma siftDown_loop_spec (first hi lo : nat) (fuel root : nat) (data : list E) :
  (first + hi <= length data)%nat ->
  (lo <= root)%nat -> (hi - root <= fuel)%nat ->
  (forall i, (lo <= i < hi)%nat -> i <> root -> dominates data first hi i) ->
  (forall p c, (lo <= p < hi)%nat -> (root = 2 * p + 1 \/ root = 2 * p + 2)%nat ->
               (c = 2 * root + 1 \/ c = 2 * root + 2)%nat -> (c < hi)%nat ->
               keyat data (first + c) <= keyat data (first + p)) ->
  heap (slices.siftDown_loop cmp fuel data root hi first) first lo hi
  /\ frame (first + root) (first + hi) data
           (slices.siftDown_loop cmp fuel data root hi first).
Proof.
  revert root data.
  induction fuel as [|fuel IH]; intros root data Hlen Hlo Hfuel Hothers Hparent.
  { simpl. split; [|apply frame_refl]. intros i Hi. apply Hothers; lia. }
  cbn [slices.siftDown_loop].
  destruct (Nat.leb_spec hi (2 * root + 1)) as [Hleaf|Hchild].
  { split; [|apply frame_refl]. intros i Hi.
    destruct (decide (i = root)) as [->|?]; [|by apply Hothers].
    intros c Hc Hchi. lia. }
  set (child := if (2 * root + 1 + 1 <? hi)%nat
                   && less data (first + (2 * root + 1))
                           (first + (2 * root + 1) + 1)
                then (2 * root + 1 + 1)%nat else (2 * root + 1)%nat).
  assert (Hchild_is : (child = 2 * root + 1 \/ child = 2 * root + 2)%nat
                      /\ (child < hi)%nat
                      /\ forall c, (c = 2 * root + 1 \/ c = 2 * root + 2)%nat ->
                                   (c < hi)%nat ->
                                   keyat data (first + c)
                                   <= keyat data (first + child)).
  { subst child.
    destruct (Nat.ltb_spec (2 * root + 1 + 1) hi) as [H2|H2]; cbn [andb].
    - destruct (less data _ _) eqn:Hless.
      + apply less_lt in Hless; [|lia..].
        split; [lia|]. split; [lia|].
        intros c [->| ->] Hc.
        * replace (first + (2 * root + 1) + 1)%nat
            with (first + (2 * root + 1 + 1))%nat in Hless by lia. lia.
        * by replace (2 * root + 2)%nat with (2 * root + 1 + 1)%nat by lia.
      + apply less_ge in Hless; [|lia..].
        split; [lia|]. split; [lia|].
        intros c [->| ->] Hc; [lia|].
        by replace (first + (2 * root + 2))%nat
          with (first + (2 * root + 1) + 1)%nat by lia.
    - split; [lia|]. split; [lia|]. intros c [->| ->] Hc; lia. }
  destruct Hchild_is as (Hc12 & Hchi & Hcmax). clearbody child.
  destruct (less data (first + root) (first + child)) eqn:Hless; cbn [negb].
  - apply less_lt in Hless; [|lia..].
    destruct (IH child (swap data (first + root) (first + child)))
      as [Hheap Hframe].
    + by rewrite swap_length.
    + lia.
    + lia.
    + intros i Hi Hne c Hc Hchi'.
      swapped;
        first [ apply Hcmax; [lia|done]
              | apply (Hparent i child); [lia|lia|lia|done]
              | apply (Hothers i); [lia|lia|done|done] ].
    + intros p c Hp Hroot Hc Hchi'.
      assert (p = root) as -> by lia.
      swapped; apply (Hothers child); [lia|lia|done|done].
    + split; [done|].
      eapply frame_trans;
        [apply (swap_frame (first + root) (first + hi) data
                  (first + root) (first + child)); lia|].
      eapply frame_weaken; [| |exact Hframe]; lia.
  - apply less_ge in Hless; [|lia..].
    split; [|apply frame_refl]. intros i Hi.
    destruct (decide (i = root)) as [->|?]; [|by apply Hothers].
    intros c Hc Hchi'. etrans; [by apply Hcmax|done].
Qed.

Lemma siftDown_spec (first hi lo : nat) (data : list E) :
  (first + hi <= length data)%nat ->
  heap data first (S lo) hi ->
  heap (slices.siftDownCmpFunc cmp data lo hi first) first lo hi
  /\ frame (first + lo) (first + hi) data
           (slices.siftDownCmpFunc cmp data lo hi first).
Proof.
  intros Hlen Hheap. apply siftDown_loop_spec; [done|lia|lia| |].
  - intros i Hi Hne. apply Hheap. lia.
  - intros p c Hp Hroot. lia.
Qed.

Lemma heap_build_spec (first hi : nat) (n : nat) (data : list E) :
  (first + hi <= length data)%nat ->
  heap data first n hi ->
  heap (slices.heap_build cmp data n hi first) first 0 hi
  /\ frame first (first + hi) data (slices.heap_build cmp data n hi first).
Proof.
  revert data. induction n as [|n IH]; intros data Hlen Hheap; simpl.
  { split; [done|apply frame_refl]. }
  destruct (siftDown_spec first hi n data Hlen Hheap) as [Hh Hf].
  destruct (IH (slices.siftDownCmpFunc cmp data n hi first)) as [Hh' Hf'].
  - destruct Hf as [-> _]. done.
  - done.
  - split; [done|]. eapply frame_trans; [|exact Hf'].
    eapply frame_weaken; [| |exact Hf]; lia.
Qed.

(** The root of a heap has the largest key. *)
Lemma heap_root_max (first hi : nat) (data : list E) (k : nat) :
  heap data first 0 hi -> (k < hi)%nat ->
  keyat data (first + k) <= keyat data (first + 0).
Proof.
  intros Hheap. induction k as [k IH] using lt_wf_ind. intros Hk.
  destruct (decide (k = 0%nat)) as [->|Hne]; [lia|].
  assert (Hpar : (k = 2 * ((k - 1) / 2) + 1 \/ k = 2 * ((k - 1) / 2) + 2)%nat).
  { pose proof (Nat.div_mod_eq (k - 1) 2).
    pose proof (Nat.mod_upper_bound (k - 1) 2). lia. }
  etrans; [apply (Hheap ((k - 1) / 2)%nat); [lia|exact Hpar|done]|].
  apply IH; lia.
Qed.

Lemma heap_pop_spec (first hi0 : nat) (n : nat) (data : list E) :
  (n <= hi0)%nat -> (first + hi0 <= length data)%nat ->
  heap data first 0 n ->
  sorted_range data (first + n) (first + hi0) ->
  (forall k k', (first <= k < first + n)%nat ->
                (first + n <= k' < first + hi0)%nat ->
                keyat data k <= keyat data k') ->
  sorted_range (slices.heap_pop cmp data n first) first (first + hi0)
  /\ frame first (first + hi0) data (slices.heap_pop cmp data n first).
Proof.
  revert data. induction n as [|i IH]; intros data Hn Hlen Hheap Hsorted Hcross.
  { simpl. rewrite Nat.add_0_r in Hsorted. split; [done|apply frame_refl]. }
  cbn [slices.heap_pop].
  set (d1 := swap data first (first + i)).
  assert (Hlen1 : length d1 = length data) by apply swap_length.
  assert (Hroot : forall k, (k < S i)%nat ->
                            keyat data (first + k) <= keyat data first).
  { intros k Hk. rewrite <- (Nat.add_0_r first) at 2.
    by apply (heap_root_max first (S i)). }
  destruct (siftDown_spec first i 0 d1) as [Hh Hf].
  - lia.
  - intros j Hj c Hc Hci. subst d1. swapped.
    apply (Hheap j); [lia|done|lia].
  - rewrite Nat.add_0_r in Hf.
    set (d2 := slices.siftDownCmpFunc cmp d1 0 i first) in *.
    assert (Hperm2 : d2 ≡ₚ d1) by apply siftDown_perm.
    destruct (IH d2) as [Hs' Hf'].
    + lia.
    + destruct Hf as [-> _]. lia.
    + done.
    + intros k k' Hk Hkk' Hk'.
      rewrite !(frame_keyat key first (first + i) d1 d2 _ Hf) by lia.
      subst d1. swapped; first [apply Hcross; lia | apply Hsorted; lia].
    + intros k k' Hk Hk'.
      rewrite (frame_keyat key first (first + i) d1 d2 k' Hf) by lia.
      revert k Hk.
      apply (all_keys_frame key first (first + i) d1 d2
               (fun z => z <= keyat d1 k')); [lia|done|done|].
      intros k Hk.
      pose proof (Hroot (k - first)%nat ltac:(lia)) as Hk_root.
      replace (first + (k - first))%nat with k in Hk_root by lia.
      pose proof (Hroot i ltac:(lia)) as Hi_root.
      subst d1. swapped; first [done | apply Hcross; lia].
    + split; [done|]. eapply frame_trans; [|exact Hf'].
      eapply frame_trans;
        [apply (swap_frame first (first + hi0) data first (first + i)); lia|].
      eapply frame_weaken; [| |exact Hf]; lia.
Qed.

Lemma heapSort_sorted (a b : nat) (data : list E) :
  (a <= b <= length data)%nat ->
  sorted_range (slices.heapSortCmpFunc cmp data a b) a b
  /\ frame a b data (slices.heapSortCmpFunc cmp data a b).
Proof.
  intros Hab. unfold slices.heapSortCmpFunc.
  destruct (heap_build_spec a (b - a) (S ((b - a - 1) / 2)) data)
    as [Hh Hf]; [lia| |].
  { intros i Hi c Hc Hchi.
    pose proof (Nat.div_mod_eq (b - a - 1) 2).
    pose proof (Nat.mod_upper_bound (b - a - 1) 2). lia. }
  set (d1 := slices.heap_build _ _ _ _ _) in *.
  destruct (heap_pop_spec a (b - a) (b - a) d1) as [Hs Hf'].
  - lia.
  - destruct Hf as [-> _]. lia.
  - done.
  - intros i j ? ? ?. lia.
  - intros k k' ? ?. lia.
  - replace (a + (b - a))%nat with b in * by lia.
    split; [done|]. by eapply frame_trans.
Qed.

(** ** Frames of the helpers *)

Lemma reverse_loop_frame (a b : nat) (fuel i j : nat) (data : list E) :
  (a <= i)%nat -> (j < b)%nat ->
  frame a b data (slices.reverse_loop fuel data i j).
Proof.
  revert i j data. induction fuel as [|fuel IH]; intros i j data Hi Hj; simpl.
  { apply frame_refl. }
  destruct (Nat.ltb_spec i j); [|apply frame_refl].
  eapply frame_trans; [apply (swap_frame a b data i j); lia|].
  apply IH; lia.
Qed.

Lemma reverseRange_frame (a b : nat) (data : list E) :
  (a < b)%nat -> frame a b data (slices.reverseRangeCmpFunc data a b).
Proof. intros Hab. apply reverse_loop_frame; lia. Qed.

Lemma nextPowerOfTwo_bound (l : nat) :
  (0 < l)%nat -> 0 < slices.nextPowerOfTwo l <= 2 * Z.of_nat l.
Proof.
  intros Hl. unfold slices.nextPowerOfTwo, slices.bits_Len.
  destruct l as [|l']; [lia|].
  pose proof (Nat.log2_spec (S l') ltac:(lia)) as [Hlow _].
  rewrite Nat2Z.inj_succ, Z.pow_succ_r by lia.
  assert (2 ^ Z.of_nat (Nat.log2 (S l')) <= Z.of_nat (S l')).
  { rewrite <- (Nat2Z.inj_pow 2). lia. }
  pose proof (Z.pow_pos_nonneg 2 (Z.of_nat (Nat.log2 (S l')))). lia.
Qed.

Lemma breakPatterns_loop_frame (a b : nat) (n : nat) (data : list E)
  (idx i : nat) (random modulus : Z) :
  (0 < b - a)%nat -> (a < idx)%nat -> (idx - 1 + i + n <= b)%nat ->
  0 < modulus <= 2 * Z.of_nat (b - a) ->
  (exists k, 0 <= k /\ modulus = 2 ^ k) ->
  frame a b data
    (slices.breakPatterns_loop n data a (b - a) idx i random modulus).
Proof.
  intros Hl Hidx. revert data i random.
  induction n as [|n IH]; intros data i random Hi Hmod Hpow; simpl.
  { apply frame_refl. }
  set (r := slices.xorshift_Next random).
  assert (Hother : 0 <= Z.land r (modulus - 1) < modulus).
  { destruct Hpow as (k & Hk & ->).
    replace (2 ^ k - 1) with (Z.ones k) by (rewrite Z.ones_equiv; lia).
    rewrite Z.land_ones by done. apply Z.mod_pos_bound. lia. }
  eapply frame_trans; [|apply IH; [lia|done|done]].
  apply swap_frame; [lia|].
  destruct (Nat.leb_spec (b - a) (Z.to_nat (Z.land r (modulus - 1)))); lia.
Qed.

Lemma breakPatterns_frame (a b : nat) (data : list E) :
  frame a b data (slices.breakPatternsCmpFunc data a b).
Proof.
  unfold slices.breakPatternsCmpFunc.
  destruct (Nat.leb_spec 8 (b - a)) as [Hl|Hl]; [|apply frame_refl].
  pose proof (Nat.div_mod_eq (b - a) 4).
  pose proof (Nat.mod_upper_bound (b - a) 4).
  apply breakPatterns_loop_frame.
  - lia.
  - lia.
  - lia.
  - apply nextPowerOfTwo_bound. lia.
  - eexists. split; [|reflexivity]. lia.
Qed.

Lemma order2_indices (data : list E) (x y s : nat) :
  let r := slices.order2CmpFunc cmp data x y s in
  (r.1.1 = x /\ r.1.2 = y) \/ (r.1.1 = y /\ r.1.2 = x).
Proof.
  unfold slices.order2CmpFunc. destruct (less data y x); simpl; auto.
Qed.

Lemma median_index (data : list E) (x y z s : nat) :
  let r := slices.medianCmpFunc cmp data x y z s in
  r.1 = x \/ r.1 = y \/ r.1 = z.
Proof.
  unfold slices.medianCmpFunc.
  pose proof (order2_indices data x y s) as H1.
  destruct (slices.order2CmpFunc cmp data x y s) as [[x1 y1] s1].
  pose proof (order2_indices data y1 z s1) as H2.
  destruct (slices.order2CmpFunc cmp data y1 z s1) as [[y2 z2] s2].
  pose proof (order2_indices data x1 y2 s2) as H3.
  destruct (slices.order2CmpFunc cmp data x1 y2 s2) as [[x3 y3] s3].
  simpl in *. lia.
Qed.

Lemma choosePivot_range (a b : nat) (data : list E) :
  (0 < b - a)%nat ->
  (a <= (slices.choosePivotCmpFunc cmp data a b).1 < b)%nat.
Proof.
  intros Hl. unfold slices.choosePivotCmpFunc.
  pose proof (Nat.div_mod_eq (b - a) 4).
  pose proof (Nat.mod_upper_bound (b - a) 4).
  set (q := ((b - a) / 4)%nat) in *.
  assert (Hres : forall r : nat * nat,
             (a <= r.1 < b)%nat ->
             (a <= (let '(j, swaps) := r in
                    if (swaps =? 0)%nat then (j, slices.increasingHint)
                    else if (swaps =? slices.maxSwaps)%nat
                         then (j, slices.decreasingHint)
                         else (j, slices.unknownHint)).1 < b)%nat).
  { intros [j s] Hj. simpl in *. by repeat destruct (_ =? _)%nat. }
  apply Hres.
  destruct (Nat.leb_spec 8 (b - a)) as [H8|H8]; [|simpl; lia].
  destruct (Nat.leb_spec slices.shortestNinther (b - a)) as [H50|H50].
  - unfold slices.shortestNinther in H50. unfold slices.medianAdjacentCmpFunc.
    pose proof (median_index data (a + q * 1 - 1) (a + q * 1) (a + q * 1 + 1) 0)
      as Hi.
    destruct (slices.medianCmpFunc cmp data (a + q * 1 - 1) _ _ _) as [i s1].
    pose proof (median_index data (a + q * 2 - 1) (a + q * 2) (a + q * 2 + 1) s1)
      as Hj.
    destruct (slices.medianCmpFunc cmp data (a + q * 2 - 1) _ _ _) as [j s2].
    pose proof (median_index data (a + q * 3 - 1) (a + q * 3) (a + q * 3 + 1) s2)
      as Hk.
    destruct (slices.medianCmpFunc cmp data (a + q * 3 - 1) _ _ _) as [k s3].
    pose proof (median_index data i j k s3) as Hm. simpl in *. lia.
  - pose proof (median_index data (a + q * 1) (a + q * 2) (a + q * 3) 0) as Hm.
    simpl in *. lia.
Qed.

(** ** [partialInsertionSortCmpFunc] *)

Local Abbreviation lower_bound := (lower_bound key).

Lemma lower_bound_frame (a b a' b' : nat) (d1 d2 : list E) :
  (a <= a')%nat -> (b' <= b)%nat -> (a <= b <= length d1)%nat ->
  frame a' b' d1 d2 -> d2 ≡ₚ d1 ->
  lower_bound d1 a b -> lower_bound d2 a b.
Proof.
  intros Ha Hb Hab Hframe Hperm Hlb Hpos.
  rewrite (frame_keyat key a' b' d1 d2 (a - 1) Hframe) by lia.
  apply (all_keys_frame_wide key a b a' b' d1 d2); try done.
  by apply Hlb.
Qed.

Lemma scan_sorted_spec (a b : nat) (fuel i : nat) (data : list E) :
  (a < i <= b)%nat -> (b <= length data)%nat -> (b - i <= fuel)%nat ->
  sorted_range data a i ->
  let i' := slices.scan_sorted cmp data i b fuel in
  (i <= i' <= b)%nat
  /\ sorted_range data a i'
  /\ ((i' < b)%nat -> keyat data i' < keyat data (i' - 1)).
Proof.
  revert i. induction fuel as [|fuel IH]; intros i Hi Hb Hfuel Hsorted; simpl.
  { split; [lia|]. split; [done|lia]. }
  destruct (Nat.ltb_spec i b) as [Hib|Hib]; cbn [andb].
  - destruct (less data i (i - 1)) eqn:Hless; cbn [negb].
    + apply less_lt in Hless; [|lia..]. split; [lia|]. by split.
    + apply less_ge in Hless; [|lia..].
      destruct (IH (S i)) as (H1 & H2 & H3); [lia|done|lia| |].
      * intros x y Hx Hxy Hy.
        destruct (decide (y < i)%nat); [apply Hsorted; lia|].
        assert (y = i) as -> by lia.
        destruct (decide (x = i)) as [->|?]; [lia|].
        etrans; [apply (Hsorted x (i - 1)%nat); lia|done].
      * split; [lia|]. by split.
  - split; [lia|]. split; [done|lia].
Qed.

Lemma shift_left_insert_down (a : nat) (j : nat) (data : list E) :
  (a <= j < length data)%nat ->
  ((0 < a)%nat -> keyat data (a - 1) <= keyat data j) ->
  slices.shift_left cmp data j = slices.insert_down cmp data a j.
Proof.
  revert data. induction j as [|j IH]; intros data Hj Hlb; simpl; [done|].
  destruct (Nat.ltb_spec a (S j)) as [Haj|Haj]; cbn [andb].
  - destruct (less data (S j) j) eqn:Hless; [|done].
    apply IH.
    + rewrite swap_length. lia.
    + intros Ha. swapped.
  - assert (a = S j) as -> by lia.
    replace (less data (S j) j) with false; [done|].
    symmetry. apply less_ge; [lia..|].
    specialize (Hlb ltac:(lia)).
    by replace (S j - 1)%nat with j in Hlb by lia.
Qed.

Lemma shift_right_frame (lo b : nat) (fuel j : nat) (data : list E) :
  (lo < j)%nat ->
  frame lo b data (slices.shift_right cmp data j b fuel).
Proof.
  revert j data. induction fuel as [|fuel IH]; intros j data Hj; simpl.
  { apply frame_refl. }
  destruct (Nat.ltb_spec j b) as [Hjb|Hjb]; cbn [andb]; [|apply frame_refl].
  destruct (less data j (j - 1)); [|apply frame_refl].
  eapply frame_trans; [apply (swap_frame lo b data j (j - 1)); lia|].
  apply IH. lia.
Qed.

Lemma partial_steps_spec (a b : nat) (n i : nat) (data : list E) :
  (a < i <= b)%nat -> (b <= length data)%nat ->
  sorted_range data a i -> lower_bound data a b ->
  let r := slices.partial_steps cmp n data a b i in
  frame a b data r.1 /\ (r.2 = true -> sorted_range r.1 a b).
Proof.
  revert i data.
  induction n as [|n IH]; intros i data Hi Hb Hsorted Hlb; simpl.
  { split; [apply frame_refl|done]. }
  destruct (scan_sorted_spec a b (b - i) i data) as (Hi1 & Hs1 & Hlt);
    [done..|lia|done|].
  set (i' := slices.scan_sorted cmp data i b (b - i)) in *.
  destruct (Nat.eqb_spec i' b) as [Heq|Hne].
  { split; [apply frame_refl|]. intros _. simpl. by rewrite <- Heq. }
  destruct (Nat.ltb_spec (b - a) slices.shortestShifting).
  { split; [apply frame_refl|done]. }
  specialize (Hlt ltac:(lia)).
  set (d1 := swap data i' (i' - 1)).
  assert (Hf1 : frame a b data d1) by (apply swap_frame; lia).
  assert (Hlen1 : length d1 = length data) by apply swap_length.
  set (d2 := if (2 <=? i' - a)%nat then slices.shift_left cmp d1 (i' - 1)
             else d1).
  assert (Hd2 : sorted_range d2 a i' /\ frame a b d1 d2).
  { subst d2. destruct (Nat.leb_spec 2 (i' - a)) as [H2|H2].
    - rewrite (shift_left_insert_down a) by
        (try lia; intros Ha; subst d1; swapped;
         apply (Hlb Ha); lia).
      destruct (insert_down_sorted a (i' - 1) (i' - 1) d1) as [Hs Hf];
        try lia.
      + intros x y Hx Hxy Hy. subst d1. swapped. apply Hs1; lia.
      + intros x y Hx Hxy Hy. lia.
      + replace (S (i' - 1)) with i' in * by lia. split; [|
          eapply frame_weaken; [| |exact Hf]; lia].
        (* the swapped-in larger element closes the prefix *)
        done.
    - split; [|apply frame_refl].
      intros x y Hx Hxy Hy. by replace y with x by lia. }
  destruct Hd2 as [Hs2 Hf2].
  set (d3 := if (2 <=? b - i')%nat
             then slices.shift_right cmp d2 (S i') b (b - S i') else d2).
  assert (Hf3 : frame i' b d2 d3).
  { subst d3. destruct (2 <=? b - i')%nat; [|apply frame_refl].
    apply shift_right_frame. lia. }
  assert (Hperm1 : d1 ≡ₚ data) by apply swap_perm.
  assert (Hperm2 : d2 ≡ₚ d1).
  { subst d2. destruct (2 <=? i' - a)%nat; [apply shift_left_perm|done]. }
  assert (Hperm3 : d3 ≡ₚ d2).
  { subst d3. destruct (2 <=? b - i')%nat; [apply shift_right_perm|done]. }
  assert (Hf13 : frame a b data d3).
  { eapply frame_trans; [exact Hf1|]. eapply frame_trans; [exact Hf2|].
    eapply frame_weaken; [| |exact Hf3]; lia. }
  destruct (IH i' d3) as [Hf Hs].
  - lia.
  - destruct Hf13 as [-> _]. done.
  - intros x y Hx Hxy Hy.
    rewrite !(frame_keyat key i' b d2 d3 _ Hf3) by lia. apply Hs2; lia.
  - apply (lower_bound_frame a b a b data d3); try done; [lia|].
    by rewrite Hperm3, Hperm2.
  - split; [|done]. by eapply frame_trans.
Qed.

Lemma partialInsertionSort_spec (a b : nat) (data : list E) :
  (a < b <= length data)%nat -> lower_bound data a b ->
  let r := slices.partialInsertionSortCmpFunc cmp data a b in
  frame a b data r.1 /\ (r.2 = true -> sorted_range r.1 a b).
Proof.
  intros Hab Hlb. apply partial_steps_spec; [lia|lia| |done].
  intros x y Hx Hxy Hy. by replace y with x by lia.
Qed.

(** ** [pdqsortCmpFunc] *)

Lemma lower_bound_sub (a b b' : nat) (data : list E) :
  (b' <= b)%nat -> lower_bound data a b -> lower_bound data a b'.
Proof. intros Hb Hlb Ha i Hi. apply Hlb; [done|lia]. Qed.

(** Two sorted ranges around a pivot that separates them. *)
Lemma sorted_join (a mid b : nat) (data : list E) :
  sorted_range data a mid -> sorted_range data (S mid) b ->
  all_keys data a mid (fun z => z <= keyat data mid) ->
  all_keys data (S mid) b (fun z => keyat data mid <= z) ->
  sorted_range data a b.
Proof.
  intros Hl Hr Hlow Hhigh x y Hx Hxy Hy.
  destruct (decide (y < mid)%nat); [apply Hl; lia|].
  destruct (decide (mid < x)%nat); [apply Hr; lia|].
  destruct (decide (x = mid)) as [->|?].
  - destruct (decide (y = mid)) as [->|?]; [lia|]. apply Hhigh. lia.
  - etrans; [apply (Hlow x); lia|].
    destruct (decide (y = mid)) as [->|?]; [lia|]. apply Hhigh. lia.
Qed.

(** A range of equal keys before a sorted range of larger ones. *)
Lemma sorted_join_equal (a mid b : nat) (data : list E) (p : Z) :
  all_keys data a mid (fun z => z = p) ->
  sorted_range data mid b ->
  all_keys data mid b (fun z => p < z) ->
  sorted_range data a b.
Proof.
  intros Heq Hr Hhigh x y Hx Hxy Hy.
  destruct (decide (mid <= x)%nat); [apply Hr; lia|].
  rewrite (Heq x) by lia.
  destruct (decide (y < mid)%nat); [rewrite (Heq y) by lia; lia|].
  specialize (Hhigh y ltac:(lia)). simpl in Hhigh. lia.
Qed.

Lemma pdqsort_sorted (fuel : nat) (data : list E) (a b limit : nat)
  (wasBalanced wasPartitioned : bool) :
  (a <= b <= length data)%nat -> (b - a < fuel)%nat ->
  lower_bound data a b ->
  sorted_range
    (slices.pdqsortCmpFunc cmp fuel data a b limit wasBalanced wasPartitioned)
    a b
  /\ frame a b data
       (slices.pdqsortCmpFunc cmp fuel data a b limit wasBalanced
                              wasPartitioned).
Proof.
  revert data a b limit wasBalanced wasPartitioned.
  induction fuel as [|fuel IH]; intros data a b limit wb wp Hab Hfuel Hlb;
    [lia|].
  cbn [slices.pdqsortCmpFunc].
  destruct (Nat.leb_spec (b - a) slices.maxInsertion) as [Hsmall|Hbig].
  { apply insertionSort_sorted. lia. }
  unfold slices.maxInsertion in Hbig.
  destruct (limit =? 0)%nat; [by apply heapSort_sorted|].
  (* breaking patterns *)
  set (s1 := if wb then (data, limit)
             else (slices.breakPatternsCmpFunc data a b, (limit - 1)%nat)).
  assert (H1 : frame a b data s1.1 /\ s1.1 ≡ₚ data).
  { subst s1. destruct wb; simpl; [split; [apply frame_refl|done]|].
    split; [apply breakPatterns_frame|apply breakPatterns_perm]. }
  destruct s1 as [d1 limit1]. simpl in H1. destruct H1 as [Hf1 Hp1].
  (* the pivot *)
  pose proof (choosePivot_range a b d1 ltac:(lia)) as Hpivot.
  destruct (slices.choosePivotCmpFunc cmp d1 a b) as [pivot hint].
  simpl in Hpivot.
  set (s2 := match hint with
             | slices.decreasingHint => _
             | _ => _
             end).
  assert (H2 : frame a b data s2.1.1 /\ s2.1.1 ≡ₚ data
               /\ (a <= s2.1.2 < b)%nat).
  { subst s2. destruct hint; simpl; try done.
    split; [|split; [|lia]].
    - eapply frame_trans; [exact Hf1|]. apply reverseRange_frame. lia.
    - by rewrite reverseRange_perm. }
  destruct s2 as [[d2 pivot2] hint2]. simpl in H2.
  destruct H2 as (Hf2 & Hp2 & Hpivot2).
  assert (Hlen2 : length d2 = length data) by (by destruct Hf2).
  assert (Hlb2 : lower_bound d2 a b).
  { by apply (lower_bound_frame a b a b data d2). }
  (* the attempt at a partial insertion sort *)
  set (s3 := if wb && wp && slices.is_increasing hint2 then _ else _).
  assert (H3 : frame a b data s3.1 /\ s3.1 ≡ₚ data
               /\ (s3.2 = true -> sorted_range s3.1 a b)).
  { subst s3. destruct (wb && wp && slices.is_increasing hint2); simpl;
      [|done].
    destruct (partialInsertionSort_spec a b d2 ltac:(lia) Hlb2) as [Hf Hs].
    split; [by eapply frame_trans|]. split; [|done].
    by rewrite partialInsertionSort_perm. }
  destruct s3 as [d3 done3]. simpl in H3. destruct H3 as (Hf3 & Hp3 & Hs3).
  destruct done3; [by split; [apply Hs3|]|]. clear Hs3.
  assert (Hlen3 : length d3 = length data) by (by destruct Hf3).
  assert (Hlb3 : lower_bound d3 a b).
  { by apply (lower_bound_frame a b a b data d3). }
  destruct ((0 <? a)%nat && negb (less d3 (a - 1) pivot2)) eqn:Hdup.
  - (* the pivot is the smallest: partition into equal and greater *)
    apply andb_true_iff in Hdup as [Ha%Nat.ltb_lt Hge%negb_true_iff].
    apply less_ge in Hge; [|lia..].
    destruct (partitionEqual_spec a b pivot2 d3 ltac:(lia) Hpivot2)
      as (Hf4 & Hmid & Hkey & Hlow & Hhigh).
    pose proof (partitionEqual_perm cmp d3 a b pivot2) as Hp4.
    destruct (slices.partitionEqualCmpFunc cmp d3 a b pivot2) as [d4 mid].
    simpl in *.
    assert (Hlen4 : length d4 = length data) by (destruct Hf4; lia).
    assert (Hlb4 : lower_bound d4 a b).
    { by apply (lower_bound_frame a b a b d3 d4); try lia. }
    assert (Hprev : keyat d4 (a - 1) = keyat d3 (a - 1)).
    { apply (frame_keyat key a b d3 d4); [done|lia]. }
    assert (Hmin : keyat d3 pivot2 <= keyat d3 (a - 1)) by done.
    assert (Heq : all_keys d4 a mid (fun z => z = keyat d4 a)).
    { intros i Hi. specialize (Hlow i ltac:(lia)).
      specialize (Hlb4 Ha i ltac:(lia)). simpl in Hlb4. lia. }
    destruct (IH d4 mid b limit1 wb wp) as [Hs5 Hf5]; [lia|lia| |].
    { intros _ i Hi. rewrite (Heq (mid - 1)%nat) by lia.
      specialize (Hhigh i ltac:(lia)). lia. }
    set (d5 := slices.pdqsortCmpFunc cmp fuel d4 mid b limit1 wb wp) in *.
    assert (Hp5 : d5 ≡ₚ d4) by apply pdqsort_perm.
    split.
    + apply (sorted_join_equal a mid b d5 (keyat d4 a)); [|done|].
      * intros i Hi. rewrite (frame_keyat key mid b d4 d5 i Hf5) by lia.
        by apply Heq.
      * apply (all_keys_frame key mid b d4 d5); [lia|done|done|].
        intros i Hi. apply Hhigh. lia.
    + eapply frame_trans; [exact Hf3|]. eapply frame_trans; [exact Hf4|].
      eapply frame_weaken; [| |exact Hf5]; lia.
  - (* partition around the pivot *)
    clear Hdup.
    destruct (partition_spec a b pivot2 d3 ltac:(lia) Hpivot2)
      as (Hf4 & Hmid & Hlow & Hhigh).
    pose proof (partition_perm cmp d3 a b pivot2) as Hp4.
    destruct (slices.partitionCmpFunc cmp d3 a b pivot2) as [[d4 mid] ap].
    simpl in *.
    assert (Hlen4 : length d4 = length data) by (destruct Hf4; lia).
    assert (Hlb4 : lower_bound d4 a b).
    { by apply (lower_bound_frame a b a b d3 d4); try lia. }
    assert (Hlow4 : all_keys d4 a mid (fun z => z <= keyat d4 mid)).
    { intros i Hi. specialize (Hlow i Hi). lia. }
    assert (Hhigh4 : all_keys d4 (S mid) b (fun z => keyat d4 mid <= z)).
    { intros i Hi. apply Hhigh. lia. }
    assert (Hdone : forall d5 d6 : list E,
               frame a mid d4 d5 \/ frame (S mid) b d4 d5 ->
               frame a mid d5 d6 \/ frame (S mid) b d5 d6 ->
               d5 ≡ₚ d4 -> d6 ≡ₚ d5 ->
               sorted_range d6 a mid -> sorted_range d6 (S mid) b ->
               sorted_range d6 a b /\ frame a b data d6).
    { intros d5 d6 Hf5 Hf6 Hp5 Hp6 Hsl Hsr.
      assert (Hf5' : frame a b d4 d5).
      { destruct Hf5 as [Hf5|Hf5]; (eapply frame_weaken; [| |exact Hf5]; lia). }
      assert (Hf6' : frame a b d5 d6).
      { destruct Hf6 as [Hf6|Hf6]; (eapply frame_weaken; [| |exact Hf6]; lia). }
      assert (Hlen5 : length d5 = length data) by (destruct Hf5'; lia).
      assert (Hmid5 : keyat d5 mid = keyat d4 mid).
      { destruct Hf5 as [Hf5|Hf5];
          apply (frame_keyat key _ _ d4 d5 mid Hf5); lia. }
      assert (Hmid6 : keyat d6 mid = keyat d4 mid).
      { rewrite <- Hmid5. destruct Hf6 as [Hf6|Hf6];
          apply (frame_keyat key _ _ d5 d6 mid Hf6); lia. }
      split.
      - apply (sorted_join a mid b d6); [done|done| |]; rewrite Hmid6.
        + assert (Hlow5 : all_keys d5 a mid (fun z => z <= keyat d4 mid)).
          { destruct Hf5 as [Hf5|Hf5].
            - by apply (all_keys_frame key a mid d4 d5); [lia|..].
            - intros i Hi. rewrite (frame_keyat key _ _ d4 d5 i Hf5) by lia.
              by apply Hlow4. }
          destruct Hf6 as [Hf6|Hf6].
          * by apply (all_keys_frame key a mid d5 d6); [lia|..].
          * intros i Hi. rewrite (frame_keyat key _ _ d5 d6 i Hf6) by lia.
            by apply Hlow5.
        + assert (Hhigh5 : all_keys d5 (S mid) b
                             (fun z => keyat d4 mid <= z)).
          { destruct Hf5 as [Hf5|Hf5].
            - intros i Hi. rewrite (frame_keyat key _ _ d4 d5 i Hf5) by lia.
              by apply Hhigh4.
            - by apply (all_keys_frame key (S mid) b d4 d5); [lia|..]. }
          destruct Hf6 as [Hf6|Hf6].
          * intros i Hi. rewrite (frame_keyat key _ _ d5 d6 i Hf6) by lia.
            by apply Hhigh5.
          * by apply (all_keys_frame key (S mid) b d5 d6); [lia|..].
      - eapply frame_trans; [exact Hf3|]. eapply frame_trans; [exact Hf4|].
        by eapply frame_trans. }
    destruct (Nat.ltb_spec (mid - a) (b - mid)).
    + (* the left part first *)
      destruct (IH d4 a mid limit1 true true) as [Hs5 Hf5]; [lia|lia| |].
      { apply (lower_bound_sub a b mid); [lia|done]. }
      set (d5 := slices.pdqsortCmpFunc cmp fuel d4 a mid limit1 true true) in *.
      assert (Hp5 : d5 ≡ₚ d4) by apply pdqsort_perm.
      assert (Hlen5 : length d5 = length data) by (destruct Hf5; lia).
      destruct (IH d5 (S mid) b limit1 ((b - a) / 8 <=? mid - a)%nat ap)
        as [Hs6 Hf6]; [lia|lia| |].
      { intros _ i Hi. replace (S mid - 1)%nat with mid by lia.
        rewrite !(frame_keyat key a mid d4 d5 _ Hf5) by lia.
        apply Hhigh. lia. }
      apply (Hdone d5 _); [by left|by right|done|apply pdqsort_perm| |done].
      intros x y Hx Hxy Hy.
      rewrite !(frame_keyat key (S mid) b d5 _ _ Hf6) by lia.
      apply Hs5; lia.
    + (* the right part first *)
      destruct (IH d4 (S mid) b limit1 true true) as [Hs5 Hf5]; [lia|lia| |].
      { intros _ i Hi. replace (S mid - 1)%nat with mid by lia.
        apply Hhigh. lia. }
      set (d5 := slices.pdqsortCmpFunc cmp fuel d4 (S mid) b limit1 true true)
        in *.
      assert (Hp5 : d5 ≡ₚ d4) by apply pdqsort_perm.
      assert (Hlen5 : length d5 = length data) by (destruct Hf5; lia).
      destruct (IH d5 a mid limit1 ((b - a) / 8 <=? b - mid)%nat ap)
        as [Hs6 Hf6]; [lia|lia| |].
      { apply (lower_bound_sub a b mid); [lia|].
        by apply (lower_bound_frame a b (S mid) b d4 d5); try lia. }
      apply (Hdone d5 _); [by right|by left|done|apply pdqsort_perm|done|].
      intros x y Hx Hxy Hy.
      rewrite !(frame_keyat key a mid d5 _ _ Hf6) by lia.
      apply Hs5; lia.
Qed.

(** [SortFunc] leaves its slice in ascending order of keys. *)
Theorem SortFunc_sorted (x : list E) :
  sorted_range (slices.SortFunc cmp x) 0 (length x).
Proof.
  unfold slices.SortFunc.
  apply pdqsort_sorted; [lia|lia|]. intros Ha. lia.
Qed.

(** A slice in ascending order of keys passes [IsSortedFunc]. *)
Lemma sorted_range_IsSortedFunc (x : list E) :
  sorted_range x 0 (length x) -> slices.IsSortedFunc cmp x = true.
Proof.
  induction x as [|a x IH]; [done|]. destruct x as [|b rest]; [done|].
  intros Hs. cbn [slices.IsSortedFunc]. apply andb_true_iff. split.
  - rewrite cmp_key. apply negb_true_iff, Z.ltb_ge.
    apply (Hs 0%nat 1%nat); simpl; lia.
  - apply IH. intros i j Hi Hij Hj.
    apply (Hs (S i) (S j)); simpl in *; lia.
Qed.

(** [IsSortedFunc] accepts what [SortFunc] returns. *)
Theorem SortFunc_IsSortedFunc (x : list E) :
  slices.IsSortedFunc cmp (slices.SortFunc cmp x) = true.
Proof.
  apply sorted_range_IsSortedFunc.
  rewrite (SortFunc_length cmp). apply SortFunc_sorted.
Qed.

End SortedFacts.

(** * Insertion sort at the front of the slice *)

Section InsertionFacts.
Context {E : Type} (cmp : E -> E -> Z).

Local Abbreviation ins := (ins cmp).

Lemma lookup_adjacent (p : list E) x y rest :
  (p ++ y :: x :: rest) !! length p = Some y
  /\ (p ++ y :: x :: rest) !! S (length p) = Some x.
Proof.
  split; [by apply list_lookup_middle|].
  rewrite lookup_app_r by lia.
  by replace (S (length p) - length p)%nat with 1%nat by lia.
Qed.

Lemma less_adjacent (p : list E) x y rest :
  slices.less cmp (p ++ y :: x :: rest) (S (length p)) (length p)
  = (cmp x y <? 0).
Proof.
  unfold slices.less.
  destruct (lookup_adjacent p x y rest) as [-> ->]. done.
Qed.

Lemma swap_adjacent (p : list E) x y rest :
  slices.swap (p ++ y :: x :: rest) (S (length p)) (length p)
  = p ++ x :: y :: rest.
Proof.
  unfold slices.swap.
  destruct (lookup_adjacent p x y rest) as [-> ->].
  rewrite (insert_app_r_alt p _ (S (length p))) by lia.
  replace (S (length p) - length p)%nat with 1%nat by lia. simpl.
  rewrite (insert_app_r_alt p _ (length p)) by lia.
  by replace (length p - length p)%nat with 0%nat by lia.
Qed.

Lemma insert_down_ins (rp : list E) x rest :
  slices.insert_down cmp (rev rp ++ x :: rest) 0 (length rp)
  = rev (ins x rp) ++ rest.
Proof.
  revert rest. induction rp as [|y rp IH]; intros rest; simpl; [done|].
  rewrite <- !app_assoc. simpl.
  rewrite <- (length_rev rp). rewrite less_adjacent.
  destruct (cmp x y <? 0) eqn:Hc; simpl.
  - rewrite swap_adjacent, length_rev, IH. by rewrite <- app_assoc.
  - by rewrite <- !app_assoc.
Qed.

Lemma insertion_loop_ins (rest rp : list E) :
  slices.insertion_loop cmp (rev rp ++ rest) 0 (length rp) (length rest)
  = rev (fold_left (fun acc x => ins x acc) rest rp).
Proof.
  revert rp. induction rest as [|x rest IH]; intros rp; simpl.
  - by rewrite app_nil_r.
  - rewrite insert_down_ins.
    assert (Hlen : length (ins x rp) = S (length rp)).
    { clear. induction rp as [|y rp IH]; simpl; [done|].
      destruct (_ <? _); simpl; by rewrite ?IH. }
    rewrite <- Hlen. apply IH.
Qed.

(** [insertionSortCmpFunc] on the whole slice. *)
Lemma insertionSort_whole (x0 : E) (rest : list E) :
  slices.insertionSortCmpFunc cmp (x0 :: rest) 0 (length (x0 :: rest))
  = rev (fold_left (fun acc x => ins x acc) rest [x0]).
Proof.
  unfold slices.insertionSortCmpFunc. simpl length.
  replace (S (length rest) - 1)%nat with (length rest) by lia.
  apply (insertion_loop_ins rest [x0]).
Qed.

(** On at most 12 elements [SortFunc] is the insertion sort. *)
Lemma SortFunc_is_insertion_sort (x : list E) :
  (length x <= 12)%nat ->
  slices.SortFunc cmp x = slices.insertionSortCmpFunc cmp x 0 (length x).
Proof.
  intros Hn. unfold slices.SortFunc. simpl.
  replace (length x - 0)%nat with (length x) by lia.
  unfold slices.maxInsertion.
  destruct (Nat.leb_spec (length x) 12); [done|lia].
Qed.

Lemma last_ins (x : E) (rp : list E) :
  last (ins x rp)
  = if forallb (fun y => cmp x y <? 0) rp then Some x else last rp.
Proof.
  induction rp as [|y rp IH]; [done|].
  cbn [ins forallb].
  destruct (cmp x y <? 0) eqn:Hc; cbn [andb]; [|done].
  destruct rp as [|z rp]; [done|].
  assert (Hne : exists a l, ins x (z :: rp) = a :: l).
  { simpl. destruct (cmp x z <? 0); by eexists _, _. }
  destruct Hne as (a & l & Hne). rewrite Hne in *.
  rewrite !last_cons_cons, IH. done.
Qed.

End InsertionFacts.

(** * The asset selector *)

Lemma collect_filter (p : Asset.t -> bool) (assets cands : list Asset.t) :
  github.collect p assets cands = cands ++ List.filter p assets.
Proof.
  unfold github.collect. revert cands.
  induction assets as [|a assets IH]; intros cands; simpl.
  - by rewrite app_nil_r.
  - rewrite IH. destruct (p a); [by rewrite <- app_assoc|done].
Qed.

Lemma candidates_winning_tier (assets : list Asset.t) :
  github.candidates assets = winning_tier assets.
Proof.
  unfold github.candidates, winning_tier, tier1, tier2, len.
  rewrite !collect_filter. simpl.
  by destruct (List.filter github.isGEProtonTarball assets).
Qed.

Lemma isGEProtonTarball_isTarball (a : Asset.t) :
  github.isGEProtonTarball a = true -> github.isTarball a = true.
Proof.
  unfold github.isGEProtonTarball, github.isTarball.
  by intros [? _]%andb_true_iff.
Qed.

Lemma winning_tier_nil (assets : list Asset.t) :
  winning_tier assets = []
  <-> Forall (fun x => github.isTarball x = false) assets.
Proof.
  unfold winning_tier, tier1, tier2. split.
  - destruct (List.filter github.isGEProtonTarball assets) eqn:H1; [|done].
    intros H2. apply Forall_forall. intros x Hx.
    destruct (github.isTarball x) eqn:Ht; [|done].
    assert (In x (List.filter github.isTarball assets)) as Hin.
    { apply filter_In. split; [by apply list_elem_of_In|done]. }
    rewrite H2 in Hin. destruct Hin.
  - intros Hall.
    assert (Hnone : forall p : Asset.t -> bool,
               (forall x, p x = true -> github.isTarball x = true) ->
               List.filter p assets = []).
    { intros p Hp. induction Hall as [|x l Hx _ IH]; simpl; [done|].
      destruct (p x) eqn:Hpx; [|done].
      apply Hp in Hpx. congruence. }
    rewrite (Hnone _ isGEProtonTarball_isTarball). by apply Hnone.
Qed.

Lemma winning_tier_elem (assets : list Asset.t) (a : Asset.t) :
  a ∈ winning_tier assets ->
  a ∈ assets /\ github.isTarball a = true
  /\ (tier1 assets <> [] -> github.isGEProtonTarball a = true).
Proof.
  unfold winning_tier, tier1, tier2.
  destruct (List.filter github.isGEProtonTarball assets) as [|c t] eqn:H1.
  - intros [Hin Ht]%list_elem_of_In%filter_In.
    split; [by apply list_elem_of_In|done].
  - rewrite <- H1. intros [Hin Ht]%list_elem_of_In%filter_In.
    split; [by apply list_elem_of_In|].
    split; [by apply isGEProtonTarball_isTarball|done].
Qed.

Lemma bySize_less (x y : Asset.t) :
  (github.bySize x y <? 0) = (Asset.Size y <? Asset.Size x).
Proof.
  unfold github.bySize.
  destruct (Z.eqb_spec (Asset.Size x) (Asset.Size y)),
    (Z.ltb_spec (Asset.Size x) (Asset.Size y)),
    (Z.ltb_spec (Asset.Size y) (Asset.Size x)); simpl; lia.
Qed.

Lemma ins_perm {E} (cmp : E -> E -> Z) x rp : ins cmp x rp ≡ₚ x :: rp.
Proof.
  induction rp as [|y rp IH]; simpl; [done|].
  destruct (_ <? _); [|done]. rewrite IH. apply perm_swap.
Qed.

(** The insertion sort keeps, at the front of the slice, the first of the
    largest assets met so far. *)
Lemma insertion_keeps_first_largest (rest rp : list Asset.t) (best : Asset.t) :
  last rp = Some best ->
  Forall (fun y => Asset.Size y <= Asset.Size best) rp ->
  last (fold_left (fun acc x => ins github.bySize x acc) rest rp)
  = Some (fold_left
            (fun best x => if Asset.Size best <? Asset.Size x then x else best)
            rest best).
Proof.
  revert rp best. induction rest as [|x rest IH]; intros rp best Hlast Hall;
    simpl; [done|].
  destruct (Z.ltb_spec (Asset.Size best) (Asset.Size x)) as [Hlt|Hge].
  - apply IH.
    + rewrite last_ins.
      replace (forallb _ rp) with true; [done|].
      symmetry. apply forallb_forall. intros y Hy%list_elem_of_In.
      rewrite bySize_less. apply Z.ltb_lt.
      rewrite Forall_forall in Hall. specialize (Hall y Hy). lia.
    + rewrite ins_perm. constructor; [lia|].
      eapply Forall_impl; [done|]. simpl. intros; lia.
  - apply IH.
    + rewrite last_ins.
      replace (forallb _ rp) with false; [done|].
      symmetry. apply not_true_is_false. intros Hf.
      rewrite forallb_forall in Hf.
      assert (Hin : In best rp).
      { apply list_elem_of_In. apply last_Some in Hlast as [l' ->].
        set_solver. }
      specialize (Hf best Hin). rewrite bySize_less in Hf.
      apply Z.ltb_lt in Hf. lia.
    + rewrite ins_perm. by constructor.
Qed.

Lemma head_rev {A} (l : list A) : head (rev l) = last l.
Proof.
  induction l as [|a l IH]; [done|].
  destruct l as [|b l]; [done|].
  rewrite last_cons_cons, <- IH. simpl.
  destruct (rev l ++ [b]) eqn:H; [by destruct (rev l)|done].
Qed.

Lemma SortFunc_small_first_largest (cands : list Asset.t) :
  (length cands <= 12)%nat ->
  slices.SortFunc github.bySize cands !! 0%nat = first_largest cands.
Proof.
  intros Hn. rewrite SortFunc_is_insertion_sort by done.
  destruct cands as [|a rest]; [done|].
  rewrite insertionSort_whole.
  rewrite <- head_lookup, head_rev.
  unfold first_largest.
  apply insertion_keeps_first_largest; [done|].
  by repeat constructor.
Qed.

(** [bySize] orders the assets by the opposite of their size. *)
Lemma bySize_key (x y : Asset.t) :
  (github.bySize x y <? 0) = (- Asset.Size x <? - Asset.Size y).
Proof.
  rewrite bySize_less.
  destruct (Z.ltb_spec (Asset.Size y) (Asset.Size x)),
    (Z.ltb_spec (- Asset.Size x) (- Asset.Size y)); (done || lia).
Qed.

(** In a slice that [IsSortedFunc] accepts under [bySize], no asset is
    larger than the first. *)
Lemma sorted_head_largest (l : list Asset.t) (a c : Asset.t) :
  slices.IsSortedFunc github.bySize l = true ->
  l !! 0%nat = Some a -> c ∈ l -> Asset.Size c <= Asset.Size a.
Proof.
  revert a. induction l as [|x l IH]; intros a Hs Ha Hc; [done|].
  simpl in Ha. simplify_eq.
  apply elem_of_cons in Hc as [->|Hc]; [lia|].
  destruct l as [|y l]; [by apply elem_of_nil in Hc|].
  cbn [slices.IsSortedFunc] in Hs.
  apply andb_true_iff in Hs as [Hxy Hs].
  rewrite bySize_less in Hxy. apply negb_true_iff, Z.ltb_ge in Hxy.
  specialize (IH y Hs eq_refl Hc). lia.
Qed.

Lemma first_largest_spec (l : list Asset.t) (a : Asset.t) :
  first_largest l = Some a ->
  a ∈ l /\ forall c, c ∈ l -> Asset.Size c <= Asset.Size a.
Proof.
  destruct l as [|b l]; [done|]. simpl. intros [= <-].
  assert (H : forall best,
             let r := fold_left
                        (fun best x =>
                           if Asset.Size best <? Asset.Size x then x else best)
                        l best in
             (r = best \/ r ∈ l) /\ Asset.Size best <= Asset.Size r
             /\ forall c, c ∈ l -> Asset.Size c <= Asset.Size r).
  { induction l as [|x l IH]; intros best; simpl.
    - split; [by left|]. split; [lia|]. intros c Hc. by apply elem_of_nil in Hc.
    - destruct (IH (if Asset.Size best <? Asset.Size x then x else best))
        as (Hin & Hle & Hall).
      split; [|split].
      + destruct Hin as [->|Hin]; [|right; by right].
        destruct (_ <? _); [right; by left|by left].
      + destruct (Z.ltb_spec (Asset.Size best) (Asset.Size x)); lia.
      + intros c [->|Hc]%elem_of_cons; [|by apply Hall].
        destruct (Z.ltb_spec (Asset.Size best) (Asset.Size x)); lia. }
  destruct (H b) as (Hin & Hle & Hall). split.
  - destruct Hin as [->|Hin]; [by left|by right].
  - intros c [->|Hc]%elem_of_cons; [done|by apply Hall].
Qed.

(** C2 (as amended). [PickLinuxTarball] reports [found = false] exactly
    when no asset name ends in [.tar.gz] without regard to case. Otherwise
    the asset it returns belongs to the winning tier (tier 1 when it is not
    empty, else tier 2) and no asset of that tier is larger. When the
    winning tier holds at most 12 assets, where [slices.SortFunc] is an
    insertion sort, the asset returned is the first met among those of the
    largest size. On a longer tier nothing is said of which of the largest
    assets is returned: [slices.SortFunc] is not stable. *)
Theorem PickLinuxTarball_largest_of_winning_tier (assets : list Asset.t) :
  ((github.PickLinuxTarball assets).2 = false
   <-> Forall (fun x => github.isTarball x = false) assets)
  /\ ((github.PickLinuxTarball assets).2 = true ->
      (github.PickLinuxTarball assets).1 ∈ winning_tier assets
      /\ (forall c, c ∈ winning_tier assets ->
                    Asset.Size c <= Asset.Size (github.PickLinuxTarball assets).1)
      /\ ((length (winning_tier assets) <= 12)%nat ->
          first_largest (winning_tier assets)
          = Some (github.PickLinuxTarball assets).1)).
Proof.
  unfold github.PickLinuxTarball.
  rewrite candidates_winning_tier. unfold len.
  destruct (winning_tier assets) as [|c0 t] eqn:Hw.
  { simpl. split; [|done]. split; [|done]. intros _.
    by apply winning_tier_nil. }
  rewrite <- Hw in *.
  assert (Hne : winning_tier assets <> []) by (by rewrite Hw).
  replace (Z.of_nat (length (winning_tier assets)) =? 0) with false; cycle 1.
  { symmetry. apply Z.eqb_neq. rewrite Hw. simpl. lia. }
  cbn [fst snd]. split.
  { split; [done|]. intros Hall. by apply winning_tier_nil in Hall. }
  intros _.
  pose proof (SortFunc_perm github.bySize (winning_tier assets)) as Hperm.
  destruct (slices.SortFunc github.bySize (winning_tier assets))
    as [|a sorted] eqn:Hs.
  { apply Permutation_nil_l in Hperm. congruence. }
  simpl. split; [|split].
  - rewrite <- Hperm. by left.
  - intros c Hc.
    destruct (Nat.le_gt_cases (length (winning_tier assets)) 12) as [Hle|Hgt].
    + pose proof (SortFunc_small_first_largest _ Hle) as Hfl.
      rewrite Hs in Hfl. simpl in Hfl. symmetry in Hfl.
      by apply first_largest_spec in Hfl as [_ Hmax]; apply Hmax.
    + apply (sorted_head_largest (a :: sorted)); [|done|by rewrite Hperm].
      rewrite <- Hs. apply (SortFunc_IsSortedFunc _ _ bySize_key).
  - intros Hle. pose proof (SortFunc_small_first_largest _ Hle) as Hfl.
    by rewrite Hs in Hfl.
Qed.

(** The theorem at the thirteen assets, whose tier is longer than 12. *)
Lemma PickLinuxTarball_largest_of_winning_tier_witness :
  (github.PickLinuxTarball thirteen_assets).2 = true
  /\ Asset.Size (github.PickLinuxTarball thirteen_assets).1 = 500
  /\ forall c, c ∈ winning_tier thirteen_assets ->
               Asset.Size c <= Asset.Size (github.PickLinuxTarball thirteen_assets).1.
Proof.
  split; [by vm_compute|]. split; [by vm_compute|].
  apply (PickLinuxTarball_largest_of_winning_tier thirteen_assets).
  by vm_compute.
Defined.

(** C2 as stated fails on ties: of the thirteen assets the first, the
    fourth and the seventh have the largest size, and the one returned is
    the seventh, not the first. *)
Lemma PickLinuxTarball_tie_is_not_first :
  github.PickLinuxTarball thirteen_assets
  = (asset "g-ge-proton.tar.gz" 500, true)
  /\ first_largest (winning_tier thirteen_assets)
     = Some (asset "a-ge-proton.tar.gz" 500).
Proof. split; by vm_compute. Qed.

(** * The release catalog fetcher *)

(** ** The filter over the shared array *)

Lemma filter_loop_spec (rest kept junk : list Release.t) (i n : nat) :
  i = (length kept + length junk)%nat -> n = length kept ->
  let '(store, n') :=
    github.filter_loop (length rest) (kept ++ junk ++ rest) i n in
  take n' store = kept ++ List.filter installable rest.
Proof.
  revert kept junk i n.
  induction rest as [|r rest IH]; intros kept junk i n -> ->.
  - simpl. rewrite !app_nil_r. by rewrite take_app_length.
  - cbn [length github.filter_loop].
    assert (Hi : (kept ++ junk ++ r :: rest) !! (length kept + length junk)%nat
                 = Some r).
    { rewrite app_assoc. apply list_lookup_middle. by rewrite length_app. }
    rewrite Hi. cbn [List.filter]. unfold installable at 1.
    assert (Hskip : let '(store, n') :=
                      github.filter_loop (length rest)
                        (kept ++ junk ++ r :: rest)
                        (S (length kept + length junk)) (length kept) in
                    take n' store = kept ++ List.filter installable rest).
    { replace (kept ++ junk ++ r :: rest) with (kept ++ (junk ++ [r]) ++ rest)
        by (by rewrite <- !app_assoc).
      apply IH; [rewrite length_app; simpl; lia|done]. }
    destruct (Release.Draft r); simpl; [done|].
    destruct (github.PickLinuxTarball (Release.Assets r)).2; [|done].
    destruct junk as [|j junk].
    + simpl in *. rewrite Nat.add_0_r in *.
      rewrite list_insert_id by done.
      replace (kept ++ r :: rest) with ((kept ++ [r]) ++ [] ++ rest)
        by (by rewrite <- !app_assoc).
      replace (kept ++ r :: List.filter installable rest)
        with ((kept ++ [r]) ++ List.filter installable rest)
        by (by rewrite <- !app_assoc).
      apply IH; rewrite length_app; simpl; lia.
    + replace (<[length kept:=r]> (kept ++ (j :: junk) ++ r :: rest))
        with ((kept ++ [r]) ++ (junk ++ [r]) ++ rest).
      2:{ rewrite (insert_app_r_alt kept) by lia.
          rewrite Nat.sub_diag. simpl. by rewrite <- !app_assoc. }
      replace (kept ++ r :: List.filter installable rest)
        with ((kept ++ [r]) ++ List.filter installable rest)
        by (by rewrite <- !app_assoc).
      apply IH; rewrite !length_app; simpl; lia.
Qed.

(** Filtering in place gives what filtering into a fresh slice would. *)
Lemma filter_releases_spec (all : list Release.t) :
  github.filter_releases all = List.filter installable all.
Proof.
  unfold github.filter_releases.
  pose proof (filter_loop_spec all [] [] 0 0 eq_refl eq_refl) as H. simpl in H.
  by destruct (github.filter_loop _ _ _ _).
Qed.

(** ** The page loop *)

Lemma wrap64_id (z : Z) : int64_range z -> wrap64 z = z.
Proof.
  unfold int64_range, wrap64. intros H.
  rewrite Z.mod_small by lia. lia.
Qed.

Section PageLoop.
Variable Do : github.Request -> error + http.Response string.
Variable Decode : string -> error + list Release.t.
Variable GITHUB_TOKEN : string.

Local Abbreviation new_request := (github.new_request GITHUB_TOKEN).
Local Abbreviation page_loop := (github.page_loop Do Decode GITHUB_TOKEN).

Lemma page_loop_serves (items : list Release.t) :
  serves Do Decode items ->
  len items + 100 < 2 ^ 63 ->
  forall (fuel q : nat) (sent : list github.Request),
    (100 * q <= length items)%nat ->
    (length items / 100 + 1 - q <= fuel)%nat ->
    page_loop fuel (Z.of_nat q + 1) (take (100 * q) items) sent
    = Some (sent ++ map new_request (pages_from q (length items / 100 + 1 - q)),
            items, None).
Proof.
  intros Hserves Hbound. unfold len in Hbound.
  induction fuel as [|fuel IH]; intros q sent Hq Hfuel.
  { pose proof (Nat.div_mod_eq (length items) 100).
    pose proof (Nat.mod_upper_bound (length items) 100). lia. }
  cbn [github.page_loop].
  destruct (Hserves (new_request (Z.of_nat q + 1))) as (resp & -> & Hst & Hdec);
    [simpl; lia|].
  unfold github.read_page, http.StatusForbidden.
  replace (http.StatusCode resp =? 403) with false
    by (symmetry; apply Z.eqb_neq; lia).
  replace ((http.StatusCode resp <? 200) || (300 <=? http.StatusCode resp))
    with false
    by (symmetry; apply orb_false_iff; split;
        [apply Z.ltb_ge|apply Z.leb_gt]; lia).
  rewrite Hdec.
  change (github.page (new_request (Z.of_nat q + 1))) with (Z.of_nat q + 1).
  unfold page_of.
  replace (Z.to_nat (100 * (Z.of_nat q + 1 - 1))) with (100 * q)%nat by lia.
  pose proof (Nat.div_mod_eq (length items) 100) as Hdm.
  pose proof (Nat.mod_upper_bound (length items) 100) as Hmod.
  unfold github.perPage.
  rewrite (wrap64_id ((Z.of_nat q + 1) * 100)) by (unfold int64_range; lia).
  set (rels := take 100 (drop (100 * q) items)).
  assert (Hrels : length rels = (100 `min` (length items - 100 * q))%nat)
    by (subst rels; by rewrite length_take, length_drop).
  assert (Hall : take (100 * q) items ++ rels = take (100 * q + 100) items)
    by (subst rels; apply take_take_drop).
  destruct (Z.eqb_spec (len rels) 0) as [H0|H0]; unfold len in H0.
  - (* the page is empty: the total is a multiple of 100 *)
    assert (length items = 100 * q)%nat as Hn by lia.
    rewrite take_ge by lia.
    replace (len items <? (Z.of_nat q + 1) * 100) with true
      by (symmetry; apply Z.ltb_lt; unfold len; lia).
    replace (length items / 100 + 1 - q)%nat with 1%nat
      by (rewrite Hn, Nat.mul_comm, Nat.div_mul; lia).
    done.
  - rewrite Hall.
    destruct (Z.ltb_spec (len (take (100 * q + 100) items))
                         ((Z.of_nat q + 1) * 100)) as [Hlt|Hge];
      unfold len in *; rewrite length_take in *.
    + (* a short page: the last one *)
      rewrite take_ge by lia.
      assert (length items / 100 = q)%nat as ->
          by (symmetry; apply (Nat.div_unique _ _ _ (length items - 100 * q));
              lia).
      by replace (q + 1 - q)%nat with 1%nat by lia.
    + (* a full page: on to the next *)
      rewrite (wrap64_id (Z.of_nat q + 1 + 1)) by (unfold int64_range; lia).
      replace (Z.of_nat q + 1 + 1) with (Z.of_nat (S q) + 1) by lia.
      replace (100 * q + 100)%nat with (100 * S q)%nat by lia.
      assert (S q <= length items / 100)%nat
        by (apply Nat.div_le_lower_bound; lia).
      rewrite IH by lia.
      rewrite <- app_assoc. do 3 f_equal.
      replace (length items / 100 + 1 - q)%nat
        with (S (length items / 100 + 1 - S q)) by lia.
      done.
Qed.

(** Every request the loop has issued was answered; a 403 or another
    status outside 2xx can only be the answer to the last one, and is then
    the error the loop leaves. *)
Lemma page_loop_status (fuel : nat) (page : Z) (all : list Release.t)
  (sent sent' : list github.Request) (all' : list Release.t)
  (err : option error) :
  page_loop fuel page all sent = Some (sent', all', err) ->
  exists new, sent' = sent ++ new /\
    forall req resp, req ∈ new -> Do req = inr resp ->
      (http.StatusCode resp = 403 -> err = Some github.rate_limited)
      /\ (http.StatusCode resp <> 403 ->
          ~ 200 <= http.StatusCode resp < 300 ->
          err = Some (github.api_error resp)).
Proof.
  revert page all sent.
  induction fuel as [|fuel IH]; intros page all sent Hloop; [done|].
  cbn [github.page_loop] in Hloop.
  assert (Hlast : forall P : http.Response string -> Prop,
            (forall resp, Do (new_request page) = inr resp -> P resp) ->
            forall req resp, req ∈ [new_request page] ->
                             Do req = inr resp -> P resp).
  { intros P HP req resp ->%list_elem_of_singleton. apply HP. }
  destruct (Do (new_request page)) as [e|resp] eqn:HDo.
  { simplify_eq. exists [new_request page]. split; [done|].
    by apply Hlast. }
  unfold github.read_page, http.StatusForbidden in Hloop.
  destruct (Z.eqb_spec (http.StatusCode resp) 403) as [H403|H403].
  { simplify_eq. exists [new_request page]. split; [done|].
    apply Hlast. intros ? [= <-]. split; [done|intros; exfalso; lia]. }
  destruct ((http.StatusCode resp <? 200) || (300 <=? http.StatusCode resp))
    eqn:Hrange.
  { simplify_eq. exists [new_request page]. split; [done|].
    apply Hlast. by intros ? [= <-]. }
  apply orb_false_iff in Hrange as [?%Z.ltb_ge ?%Z.leb_gt].
  assert (Hok : forall req resp', req ∈ [new_request page] ->
            Do req = inr resp' ->
            (http.StatusCode resp' = 403 -> err = Some github.rate_limited)
            /\ (http.StatusCode resp' <> 403 ->
                ~ 200 <= http.StatusCode resp' < 300 ->
                err = Some (github.api_error resp'))).
  { apply Hlast. intros ? [= <-]. split; intros; exfalso; lia. }
  destruct (Decode (http.Body resp)) as [derr|rels].
  { simplify_eq. by exists [new_request page]. }
  destruct (len rels =? 0);
    (destruct (_ <? _);
     [simplify_eq; by exists [new_request page]|];
     apply IH in Hloop as (new & -> & Hnew);
     exists (new_request page :: new);
     split; [by rewrite <- app_assoc|];
     intros req resp' [->|Hin]%elem_of_cons Hresp;
     [by apply (Hok (new_request page)); [left|]|by eapply Hnew]).
Qed.

(** A request that is answered with a status outside 2xx ends the loop:
    from page [page], [k - page + 1] turns are enough to leave the loop
    when the request for page [k] gets such an answer, whatever the
    answers to the requests before it are. *)
Lemma page_loop_returns (fuel : nat) (page k : Z) (all : list Release.t)
  (sent : list github.Request) (resp : http.Response string) :
  - 2 ^ 63 <= page <= k -> k < page + Z.of_nat fuel -> k < 2 ^ 63 ->
  Do (new_request k) = inr resp ->
  ~ 200 <= http.StatusCode resp < 300 ->
  exists r, page_loop fuel page all sent = Some r.
Proof.
  revert page all sent.
  induction fuel as [|fuel IH]; intros page all sent Hpage Hfuel Hk HDo Hs;
    [lia|].
  cbn [github.page_loop].
  destruct (Do (new_request page)) as [e|resp'] eqn:HDo'; [by eexists|].
  destruct (github.read_page Decode resp' all) as [all' [e|]] eqn:Hread;
    [by eexists|].
  destruct (_ <? _); [by eexists|].
  destruct (decide (page = k)) as [->|Hne].
  - exfalso. rewrite HDo in HDo'. injection HDo' as <-.
    unfold github.read_page, http.StatusForbidden in Hread.
    destruct (http.StatusCode resp =? 403); [done|].
    destruct ((http.StatusCode resp <? 200) || (300 <=? http.StatusCode resp))
      eqn:Hrange; [done|].
    apply orb_false_iff in Hrange as [?%Z.ltb_ge ?%Z.leb_gt]. lia.
  - rewrite wrap64_id by (unfold int64_range; lia).
    apply IH; [lia|lia|done|done|done].
Qed.

End PageLoop.

Lemma unary_length (n : nat) : String.length (unary n) = n.
Proof. induction n; simpl; congruence. Qed.

Lemma synthetic_serves (items : list Release.t) :
  serves synthetic_Do (synthetic_Decode items) items.
Proof.
  intros req Hpage. eexists. split; [reflexivity|]. simpl.
  split; [lia|]. unfold synthetic_Decode.
  rewrite unary_length, Z2Nat.id by lia. done.
Qed.

(** C3 (as amended). Against an API that serves [totalItems] releases in
    pages of 100, the fetch returns (with any fuel above [totalItems / 100])
    after exactly [floor(totalItems / 100) + 1] page requests, for the
    pages 1, 2, ... in order, and has accumulated exactly the [totalItems]
    releases before filtering. That count is [ceil(totalItems / 100)] when
    [totalItems] is not a multiple of 100. *)
Theorem FetchAllReleases_page_requests
  (Do : github.Request -> error + http.Response string)
  (Decode : string -> error + list Release.t) (GITHUB_TOKEN : string)
  (items : list Release.t) (fuel : nat) :
  serves Do Decode items ->
  len items + 100 < 2 ^ 63 ->
  (length items / 100 < fuel)%nat ->
  exists res,
    github.FetchAllReleases Do Decode GITHUB_TOKEN fuel = Some res
    /\ map github.page (github.requests res)
       = pages_from 0 (length items / 100 + 1)
    /\ len (github.requests res) = len items / 100 + 1
    /\ github.accumulated res = items
    /\ (len items mod 100 <> 0 ->
        len (github.requests res) = ceil_div (len items) 100).
Proof.
  intros Hserves Hbound Hfuel.
  pose proof (page_loop_serves Do Decode GITHUB_TOKEN items Hserves Hbound
                fuel 0%nat [] ltac:(lia) ltac:(lia)) as Hloop.
  rewrite Nat.sub_0_r in Hloop.
  change (take (100 * 0) items) with (@nil Release.t) in Hloop.
  change (Z.of_nat 0 + 1) with 1 in Hloop.
  unfold github.FetchAllReleases. rewrite Hloop. rewrite app_nil_l.
  eexists. split; [reflexivity|]. cbn [github.requests github.accumulated].
  assert (Hpages : map github.page
            (map (github.new_request GITHUB_TOKEN)
                 (pages_from 0 (length items / 100 + 1)))
          = pages_from 0 (length items / 100 + 1)).
  { rewrite map_map. simpl. apply map_id. }
  split; [done|].
  assert (Hlen : len (map (github.new_request GITHUB_TOKEN)
                        (pages_from 0 (length items / 100 + 1)))
                 = len items / 100 + 1).
  { unfold len, pages_from. rewrite !length_map, length_seq.
    rewrite Nat2Z.inj_add, Nat2Z.inj_div. done. }
  split; [done|]. split; [done|].
  intros Hmod. rewrite Hlen. unfold ceil_div.
  pose proof (Z.div_mod (len items) 100 ltac:(lia)) as Hdm.
  pose proof (Z.mod_pos_bound (len items) 100 ltac:(lia)) as Hpos.
  apply (Z.div_unique _ _ _ (len items mod 100 - 1)); lia.
Qed.

(** The theorem at a catalog of three releases: one request. *)
Lemma FetchAllReleases_page_requests_witness :
  exists res,
    github.FetchAllReleases synthetic_Do (synthetic_Decode three_releases)
                            EmptyString 1 = Some res
    /\ len (github.requests res) = 1
    /\ github.accumulated res = three_releases.
Proof.
  destruct (FetchAllReleases_page_requests synthetic_Do
              (synthetic_Decode three_releases) EmptyString three_releases 1
              (synthetic_serves _))
    as (res & Hres & _ & Hlen & Hacc & _).
  - by vm_compute.
  - simpl. lia.
  - exists res. split; [done|]. split; [|done]. by rewrite Hlen.
Defined.

(** C3 as stated fails when the total is a multiple of 100: the last full
    page is followed by a request for an empty one. For 100 releases the
    fetch issues 2 requests where [ceil(100 / 100)] is 1, and for none it
    issues 1 where [ceil(0 / 100)] is 0. *)
Lemma FetchAllReleases_aligned_total_one_more_request :
  (exists res,
      github.FetchAllReleases synthetic_Do (synthetic_Decode hundred_releases)
                              EmptyString 2 = Some res
      /\ github.accumulated res = hundred_releases
      /\ len (github.accumulated res) = 100
      /\ len (github.requests res) = 2
      /\ ceil_div (len (github.accumulated res)) 100 = 1)
  /\ (exists res,
         github.FetchAllReleases synthetic_Do (synthetic_Decode [])
                                 EmptyString 1 = Some res
         /\ github.accumulated res = []
         /\ len (github.requests res) = 1
         /\ ceil_div (len (github.accumulated res)) 100 = 0).
Proof.
  split; eexists; (split; [by vm_compute|]); repeat split.
Qed.

(** ** Status errors *)

Lemma substring_length_le (n : nat) (s : string) :
  (String.length (String.substring 0 n s) <= n)%nat.
Proof.
  revert s. induction n as [|n IH]; intros [|c s]; simpl; try lia.
  specialize (IH s). lia.
Qed.

Lemma substring_length_bound (n m : nat) (s : string) :
  (String.length (String.substring n m s) <= String.length s)%nat.
Proof.
  revert n m. induction s as [|c s IH]; intros [|n] [|m]; simpl; try lia.
  - specialize (IH 0%nat m). lia.
  - specialize (IH n 0%nat). lia.
  - specialize (IH n (S m)). lia.
Qed.

(** What the trimming functions return is cut out of their argument. *)
Lemma TrimLeftFunc_length (s : string) (f : Z -> bool) :
  (String.length (strings.TrimLeftFunc s f) <= String.length s)%nat.
Proof.
  unfold strings.TrimLeftFunc, strings.from.
  destruct (strings.indexFunc s f false); [|simpl; lia].
  apply substring_length_bound.
Qed.

Lemma TrimRightFunc_length (s : string) (f : Z -> bool) :
  (String.length (strings.TrimRightFunc s f) <= String.length s)%nat.
Proof.
  unfold strings.TrimRightFunc.
  destruct (strings.lastIndexFunc s f false) as [i|]; [|simpl; lia].
  destruct (_ <=? _); [|apply substring_length_bound].
  destruct (utf8.DecodeRuneInString _). apply substring_length_bound.
Qed.

Lemma TrimSpace_length (s : string) :
  (String.length (strings.TrimSpace s) <= String.length s)%nat.
Proof.
  unfold strings.TrimSpace.
  destruct (strings.space_prefix s 0) as [start [|]].
  - unfold strings.TrimFunc.
    etrans; [apply TrimRightFunc_length|].
    etrans; [apply TrimLeftFunc_length|]. apply substring_length_bound.
  - destruct (strings.space_suffix s start (strings.len s)) as [stop [|]].
    + etrans; [apply TrimRightFunc_length|]. apply substring_length_bound.
    + apply substring_length_bound.
Qed.

(** C7. A request of a fetch that is answered with status 403, or with
    another status outside 2xx, ends the fetch: with as many turns of the
    loop as the number of its page the fetch returns, whatever the answers
    before it are. When the request was issued, the fetch fails with the
    rate-limit error, whose message names [GITHUB_TOKEN], for 403, and for
    another status with an error of its own whose message is the status
    line followed by the first 4096 bytes of the body with the white space
    around them removed, so at most 4096 bytes of it. In both cases no
    release is returned. *)
Theorem FetchAllReleases_status_errors
  (Do : github.Request -> error + http.Response string)
  (Decode : string -> error + list Release.t) (GITHUB_TOKEN : string)
  (fuel : nat) (k : Z) (resp : http.Response string) :
  1 <= k <= Z.of_nat fuel -> k < 2 ^ 63 ->
  Do (github.new_request GITHUB_TOKEN k) = inr resp ->
  ~ 200 <= http.StatusCode resp < 300 ->
  exists res,
    github.FetchAllReleases Do Decode GITHUB_TOKEN fuel = Some res
    /\ (github.new_request GITHUB_TOKEN k ∈ github.requests res ->
        (http.StatusCode resp = http.StatusForbidden ->
         github.result res = ([], Some github.rate_limited))
        /\ (http.StatusCode resp <> http.StatusForbidden ->
            github.result res = ([], Some (github.api_error resp))))
    /\ strings.Contains (Error github.rate_limited) "GITHUB_TOKEN" = true
    /\ github.rate_limited <> github.api_error resp
    /\ exists excerpt,
        Error (github.api_error resp)
        = "GitHub API error: " +:+ http.Status resp +:+ ": " +:+ excerpt
        /\ excerpt = strings.TrimSpace (LimitReader (http.Body resp) 4096)
        /\ (String.length excerpt <= 4096)%nat.
Proof.
  intros Hk Hmax HDo Hstatus.
  destruct (page_loop_returns Do Decode GITHUB_TOKEN fuel 1 k [] [] resp)
    as [[[sent all] err] Hloop]; [lia|lia|done|done|done|].
  unfold github.FetchAllReleases. rewrite Hloop.
  apply page_loop_status in Hloop as (new & Hsent & Hnew).
  rewrite app_nil_l in Hsent. subst sent.
  assert (Hres : exists res,
            match err with
            | Some e => Some (github.mkFetched new all ([], Some e))
            | None =>
                Some (github.mkFetched new all
                        (github.filter_releases all, None))
            end = Some res
            /\ github.requests res = new
            /\ (forall e, err = Some e -> github.result res = ([], Some e))).
  { destruct err as [e|]; eexists; (split; [reflexivity|]);
      (split; [done|]); by intros ? [= <-]. }
  destruct Hres as (res & Hfetch & Hreqs & Herr).
  exists res. split; [done|]. split; [|split; [|split]].
  - rewrite Hreqs. intros Hin.
    destruct (Hnew _ resp Hin HDo) as [H403 Hother]. split.
    + intros Hs. by apply Herr, H403.
    + intros Hs. by apply Herr, Hother.
  - vm_compute. reflexivity.
  - unfold github.rate_limited, github.api_error. intros [= Heq].
  - eexists. split; [reflexivity|]. split; [reflexivity|].
    etrans; [apply TrimSpace_length|]. apply substring_length_le.
Qed.

(** The theorem at an API that answers 403. *)
Lemma FetchAllReleases_status_errors_witness :
  exists res,
    github.FetchAllReleases (refusing_Do 403 "403 Forbidden" "rate limit exceeded")
                            (synthetic_Decode []) EmptyString 1 = Some res
    /\ github.result res = ([], Some github.rate_limited).
Proof.
  destruct (FetchAllReleases_status_errors
              (refusing_Do 403 "403 Forbidden" "rate limit exceeded")
              (synthetic_Decode []) EmptyString 1 1
              (http.mkResponse 403 "403 Forbidden" (-1) "rate limit exceeded")
              ltac:(lia) ltac:(lia) eq_refl ltac:(simpl; lia))
    as (res & Hfetch & Hres & _).
  exists res. split; [done|].
  apply Hres; [|done].
  revert Hfetch. vm_compute. intros [= <-]. by left.
Defined.

(** White space of Unicode around the body is removed as well: here a
    no-break space before it and a line separator after it. *)
Example FetchAllReleases_server_error :
  option_map github.result
    (github.FetchAllReleases
       (refusing_Do 502 "502 Bad Gateway" "  upstream down 
")
       (synthetic_Decode []) EmptyString 1)
  = Some ([], Some (Errorf "GitHub API error: 502 Bad Gateway: upstream down")).
Proof. vm_compute. reflexivity. Qed.

(** * The archive extractor *)

Section ExtractFacts.
Context {F : Float64} {FS : Type} {os : OS FS}.
Variable destRoot : string.
Variable contentLen : Z.

Local Abbreviation step := (install.step destRoot contentLen).
Local Abbreviation loop := (install.loop destRoot contentLen).
Local Abbreviation extract := (install.extract destRoot contentLen).
Local Abbreviation State := (@install.State F FS).

Lemma loop_app (pre post : list install.Event) (st : State) :
  loop (pre ++ post) st
  = match loop pre st with
    | (st', None) => loop post st'
    | (st', Some err) => (st', Some err)
    end.
Proof.
  revert st. induction pre as [|ev pre IH]; intros st; simpl; [done|].
  destruct (step ev st); [apply IH|done].
Qed.

Lemma step_rejected (hdr : tar.Header) (content : string) (st : State) :
  install.rejected (filepath.Clean (tar.Name hdr)) = true ->
  step (install.Next hdr content) st = install.Continue st.
Proof. intros H. unfold install.step. by rewrite H. Qed.

(** C1. An entry whose cleaned name is [.], [/] or starts with [..] is
    skipped: its turn of the loop leaves the file system, the log and every
    variable as they were and returns no error, and the extraction of an
    archive that contains it goes on with the entries after it, to the same
    result, file by file, as that of the archive without it. *)
Theorem rejected_entry_is_skipped (hdr : tar.Header) (content : string)
  (opening : list string) (gz : option error)
  (pre post : list install.Event) (st : State) :
  install.rejected (filepath.Clean (tar.Name hdr)) = true ->
  step (install.Next hdr content) st = install.Continue st
  /\ loop (pre ++ install.Next hdr content :: post) st = loop (pre ++ post) st
  /\ extract (install.mkBody opening gz (pre ++ install.Next hdr content :: post)) st
     = extract (install.mkBody opening gz (pre ++ post)) st.
Proof.
  intros Hrej.
  assert (Hloop : forall st0,
             loop (pre ++ install.Next hdr content :: post) st0
             = loop (pre ++ post) st0).
  { intros st0. rewrite !loop_app.
    destruct (loop pre st0) as [st1 [e|]]; [done|].
    cbn [install.loop]. by rewrite step_rejected. }
  split; [by apply step_rejected|]. split; [apply Hloop|].
  unfold install.extract, install.read_opening.
  cbn [install.opening install.gzip_open install.stream].
  destruct gz; [done|]. by rewrite Hloop.
Qed.

(** C10. The check is on the two bytes [..] at the start of the cleaned
    name, whatever follows them: every such entry is skipped, its turn of
    the loop changing nothing, also when its first path element is a name
    such as [..data] and not the parent directory. *)
Theorem dotdot_prefix_is_skipped (hdr : tar.Header) (content : string)
  (rest : list install.Event) (st : State) :
  strings.HasPrefix (filepath.Clean (tar.Name hdr)) ".." = true ->
  step (install.Next hdr content) st = install.Continue st
  /\ loop (install.Next hdr content :: rest) st = loop rest st.
Proof.
  intros Hprefix.
  assert (Hrej : install.rejected (filepath.Clean (tar.Name hdr)) = true).
  { unfold install.rejected. rewrite Hprefix. by rewrite !orb_true_r. }
  split; [by apply step_rejected|].
  cbn [install.loop]. by rewrite step_rejected.
Qed.

(** C8. When [os.Symlink] fails for a symbolic-link entry whose parent
    directory could be made, the turn of the loop ends without an error:
    the failure is logged as one warning, and the extraction goes on with
    the entries that follow, whose outcome is the outcome of the whole. *)
Theorem symlink_failure_is_a_warning (hdr : tar.Header) (content : string)
  (rest : list install.Event) (st : State) (fs1 fs2 : FS)
  (err : error) :
  let name := filepath.Clean (tar.Name hdr) in
  let targetPath := filepath.Join destRoot name in
  let link := install.link_target (tar.Linkname hdr) in
  install.rejected name = false ->
  tar.Typeflag hdr = tar.TypeSymlink ->
  MkdirAll (filepath.Dir targetPath) 493 (install.fs st) = (fs1, None) ->
  Symlink link targetPath fs1 = (fs2, Some err) ->
  exists st',
    step (install.Next hdr content) st = install.Continue st'
    /\ install.fs st' = fs2
    /\ install.log st'
       = install.log st ++ [install.symlink_warning targetPath link err]
    /\ loop (install.Next hdr content :: rest) st = loop rest st'.
Proof.
  intros name targetPath link Hrej Htype Hmk Hsym.
  eexists. split; [|split; [|split]]; cycle 3.
  - cbn [install.loop]. unfold install.step. fold name. rewrite Hrej.
    unfold install.extract_entry. rewrite Htype. cbn [Ascii.eqb].
    cbn -[filepath.Dir filepath.Join filepath.Clean install.link_target strings.Split].
    fold targetPath. rewrite Hmk. fold link. rewrite Hsym. reflexivity.
  - unfold install.step. fold name. rewrite Hrej.
    unfold install.extract_entry. rewrite Htype.
    cbn -[filepath.Dir filepath.Join filepath.Clean install.link_target strings.Split].
    fold targetPath. rewrite Hmk. fold link. rewrite Hsym. reflexivity.
  - done.
  - done.
Qed.

(** ** The top folder *)

Lemma tee_write_top (p : string) (st : State) :
  install.createdTopFolder (install.tee_write contentLen p st)
  = install.createdTopFolder st.
Proof.
  unfold install.tee_write, install.update. by destruct (0 <? contentLen).
Qed.

Lemma read_opening_top (body : install.Body) (st : State) :
  install.createdTopFolder (install.read_opening contentLen body st)
  = install.createdTopFolder st.
Proof.
  unfold install.read_opening. revert st.
  induction (install.opening body) as [|p ps IH]; intros st; simpl; [done|].
  by rewrite IH, tee_write_top.
Qed.

Lemma extract_entry_top (hdr : tar.Header) (content targetPath : string)
  (st st' : State) :
  install.extract_entry hdr content targetPath st = install.Continue st' ->
  install.createdTopFolder st' = install.createdTopFolder st.
Proof.
  unfold install.extract_entry.
  repeat match goal with
         | |- context [if ?c then _ else _] => destruct c
         | |- context [match ?x with (_, _) => _ end] => destruct x as [? [?|]]
         end; by intros [= <-].
Qed.

Lemma Split_first (s : string) :
  exists x xs, strings.Split s filepath.Separator = x :: xs.
Proof.
  destruct s as [|c s]; simpl; [by eexists _, _|].
  destruct (Ascii.eqb c filepath.Separator); [by eexists _, _|].
  destruct (strings.Split s filepath.Separator); by eexists _, _.
Qed.

Lemma top_folder_cons_next (hdr : tar.Header) (content : string)
  (evs : list install.Event) :
  let name := filepath.Clean (tar.Name hdr) in
  top_folder (install.Next hdr content :: evs)
  = if install.rejected name then top_folder evs
    else if non_empty (first_segment name) then first_segment name
         else top_folder evs.
Proof.
  intros name. unfold top_folder. cbn [surviving_names flat_map]. fold name.
  destruct (install.rejected name); [done|].
  cbn [app map List.filter].
  by destruct (non_empty (first_segment name)).
Qed.

(** After a loop that met no error, [createdTopFolder] is what it was when
    that was not empty, and else the first non-empty first segment among
    the entries that passed the path check. *)
Lemma loop_top_folder (evs : list install.Event) (st st' : State) :
  loop evs st = (st', None) ->
  install.createdTopFolder st'
  = if non_empty (install.createdTopFolder st)
    then install.createdTopFolder st else top_folder evs.
Proof.
  revert st. induction evs as [|ev evs IH]; intros st Hloop.
  { simpl in Hloop. simplify_eq. unfold top_folder. simpl.
    unfold non_empty. by destruct (String.eqb_spec (install.createdTopFolder st') EmptyString). }
  cbn [install.loop] in Hloop.
  destruct ev as [p|hdr content| |e].
  - cbn [install.step] in Hloop. rewrite (IH _ Hloop), tee_write_top. done.
  - rewrite top_folder_cons_next.
    unfold install.step in Hloop.
    destruct (install.rejected (filepath.Clean (tar.Name hdr))) eqn:Hrej.
    { by apply IH. }
    destruct (install.extract_entry _ _ _ _) as [st1|st1 e] eqn:Hentry;
      [|done].
    apply extract_entry_top in Hentry. cbn [install.createdTopFolder] in Hentry.
    rewrite (IH _ Hloop), Hentry.
    unfold first_segment, non_empty.
    destruct (Split_first (filepath.Clean (tar.Name hdr))) as (x & xs & ->).
    cbn [lookup list_lookup default len length].
    destruct (String.eqb_spec (install.createdTopFolder st) EmptyString)
      as [->|Hne]; simpl.
    + by destruct (String.eqb_spec x EmptyString).
    + by destruct (String.eqb_spec (install.createdTopFolder st) EmptyString).
  - cbn [install.step] in Hloop. by apply IH.
  - done.
Qed.

End ExtractFacts.

Lemma Clean_non_empty (path : string) : filepath.Clean path <> EmptyString.
Proof.
  unfold filepath.Clean.
  destruct (String.eqb path EmptyString); [done|].
  destruct (strings.HasPrefix path "/"); [done|].
  by destruct (String.eqb_spec
                 (strings.Join
                    (rev (fold_left (filepath.clean_step false)
                            (strings.Split path filepath.Separator) []))
                    "/") EmptyString).
Qed.

Lemma first_segment_empty (name : string) :
  name <> EmptyString ->
  first_segment name = EmptyString <-> strings.HasPrefix name "/" = true.
Proof.
  destruct name as [|c s]; [done|]. intros _.
  unfold first_segment, strings.HasPrefix. simpl.
  assert (String.substring 0 0 s = EmptyString) as -> by (by destruct s).
  unfold filepath.Separator.
  destruct (Ascii.eqb_spec c "/") as [->|Hc]; simpl; [done|].
  split.
  - destruct (strings.Split s "/"); done.
  - destruct (Ascii.eqb_spec c "/"); done.
Qed.

Lemma surviving_names_non_empty (evs : list install.Event) :
  Forall (fun name => name <> EmptyString) (surviving_names evs).
Proof.
  unfold surviving_names. induction evs as [|[p|hdr content| |e] evs IH];
    simpl; try done.
  destruct (install.rejected _); simpl; [done|].
  constructor; [apply Clean_non_empty|done].
Qed.

(** The top folder is empty exactly when every surviving entry has a
    rooted name. *)
Lemma top_folder_empty (evs : list install.Event) :
  top_folder evs = EmptyString
  <-> Forall (fun name => strings.HasPrefix name "/" = true)
             (surviving_names evs).
Proof.
  unfold top_folder.
  induction (surviving_names_non_empty evs) as [|name names Hne _ IH];
    simpl; [done|].
  pose proof (first_segment_empty name Hne) as Hseg.
  unfold non_empty at 1.
  destruct (String.eqb_spec (first_segment name) EmptyString) as [He|He];
    simpl.
  - rewrite IH. split; [intros; constructor; [by apply Hseg|done]|].
    by inversion 1.
  - split; [done|]. inversion 1; subst. by apply Hseg.
Qed.


Section TopFolder.
Context {F : Float64} {FS : Type} {os : OS FS}.
Variable destRoot : string.
Variable contentLen : Z.

(** C4 (as amended). For an archive read to its end without another
    error, the extractor returns the "no top folder" error exactly when no
    entry that passes the path check has a non-empty first path segment,
    that is when every surviving entry has a rooted name, in particular
    when the archive has no entry or none survives. Otherwise it returns
    no error and reports, as the top folder, the first non-empty first
    segment among the surviving entries: that of the first surviving entry
    when its name is relative. *)
Theorem no_top_folder_iff_no_relative_entry (body : install.Body)
  (st : @install.State F FS) :
  install.createdTopFolder st = EmptyString ->
  install.gzip_open body = None ->
  (install.loop destRoot contentLen (install.stream body)
                (install.read_opening contentLen body st)).2 = None ->
  let top := top_folder (install.stream body) in
  let res := install.extract destRoot contentLen body st in
  install.createdTopFolder res.1 = top
  /\ (res.2 = Some install.no_top_folder <-> top = EmptyString)
  /\ (top = EmptyString
      <-> Forall (fun name => strings.HasPrefix name "/" = true)
                 (surviving_names (install.stream body)))
  /\ (top <> EmptyString ->
      res.2 = None
      /\ last (install.log res.1)
         = Some ("Extracted: " +:+ filepath.Join destRoot top))
  /\ (forall name names,
         surviving_names (install.stream body) = name :: names ->
         strings.HasPrefix name "/" = false ->
         top = first_segment name).
Proof.
  intros Hst Hgz Hloop top res.
  assert (Htop : install.createdTopFolder res.1 = top
                 /\ (res.2 = Some install.no_top_folder <-> top = EmptyString)
                 /\ (top <> EmptyString ->
                     res.2 = None
                     /\ last (install.log res.1)
                        = Some ("Extracted: " +:+ filepath.Join destRoot top))).
  { subst res. unfold install.extract. rewrite Hgz.
    destruct (install.loop _ _ _ _) as [st1 e] eqn:Hl. simpl in Hloop. subst e.
    apply loop_top_folder in Hl.
    rewrite read_opening_top, Hst in Hl. simpl in Hl. fold top in Hl.
    rewrite Hl.
    destruct (String.eqb_spec top EmptyString) as [He|He]; simpl.
    - by rewrite Hl.
    - rewrite Hl. split; [done|]. split; [done|].
      intros _. split; [done|]. by rewrite last_snoc. }
  destruct Htop as (H1 & H2 & H3).
  split; [done|]. split; [done|]. split; [apply top_folder_empty|].
  split; [done|].
  intros name names Hnames Hrel. subst top. unfold top_folder.
  rewrite Hnames. simpl.
  pose proof (surviving_names_non_empty (install.stream body)) as Hne.
  rewrite Hnames in Hne. inversion Hne as [|? ? Hname _]; subst.
  unfold non_empty.
  destruct (String.eqb_spec (first_segment name) EmptyString) as [He|He];
    [|done].
  apply first_segment_empty in He; [congruence|done].
Qed.

End TopFolder.

(** The theorem at the archive of the specification's example. *)
Lemma no_top_folder_iff_no_relative_entry_witness :
  install.createdTopFolder (run_archive memfs.os GE_archive).1 = "GE-Proton9-5"
  /\ (run_archive memfs.os GE_archive).2 = None
  /\ last (install.log (run_archive memfs.os GE_archive).1)
     = Some "Extracted: /dest/GE-Proton9-5".
Proof.
  destruct (no_top_folder_iff_no_relative_entry
              (F:=binary64) (os:=memfs.os) "/dest" 0
              (install.mkBody [] None GE_archive)
              (install.initial memfs.empty_dest) eq_refl eq_refl)
    as (H1 & _ & _ & H4 & _).
  - by vm_compute.
  - destruct H4 as [H4 H5]; [by vm_compute|]. by repeat split.
Defined.

(** C4 as stated fails on rooted names: the one entry of [rooted_archive]
    passes the path check and its directory is made, and the extractor
    still returns the "no top folder" error; in [rooted_first_archive] the
    top folder is the first segment of the second surviving entry, that of
    the first being empty. *)
Lemma rooted_entry_leaves_no_top_folder :
  surviving_names rooted_archive = ["/opt/GE-Proton9-5"]
  /\ (run_archive memfs.os rooted_archive).2 = Some install.no_top_folder
  /\ install.fs (run_archive memfs.os rooted_archive).1
       !! "/dest/opt/GE-Proton9-5" = Some (memfs.Dir 493)
  /\ surviving_names rooted_first_archive = ["/opt"; "GE-Proton9-5"]
  /\ first_segment "/opt" = EmptyString
  /\ install.createdTopFolder (run_archive memfs.os rooted_first_archive).1
     = "GE-Proton9-5".
Proof. repeat split; by vm_compute. Qed.

(** The theorem of C1 at an archive with [../../etc/passwd] in the middle. *)
Lemma rejected_entry_is_skipped_witness :
  install.rejected (filepath.Clean "../../etc/passwd") = true
  /\ run_archive memfs.os
       (dir_entry "GE-Proton9-5/" :: traversal_entry
        :: [file_entry "GE-Proton9-5/version" "9-5"])
     = run_archive memfs.os
         (dir_entry "GE-Proton9-5/" :: [file_entry "GE-Proton9-5/version" "9-5"])
  /\ (run_archive memfs.os
        (dir_entry "GE-Proton9-5/" :: traversal_entry
         :: [file_entry "GE-Proton9-5/version" "9-5"])).2 = None.
Proof.
  split; [by vm_compute|]. split; [|by vm_compute].
  apply (rejected_entry_is_skipped (F:=binary64) (os:=memfs.os) "/dest" 0
           (tar.mkHeader tar.TypeReg "../../etc/passwd" EmptyString 420)
           "root::0:0:" [] None [dir_entry "GE-Proton9-5/"]
           [file_entry "GE-Proton9-5/version" "9-5"]
           (install.initial memfs.empty_dest)).
  by vm_compute.
Defined.

(** The theorem of C10 at a file under [..data]: its first path segment
    is not the parent directory, and it is skipped all the same. *)
Lemma dotdot_prefix_is_skipped_witness :
  first_segment (filepath.Clean "..data/config") = "..data"
  /\ install.loop (F:=binary64) (os:=memfs.os) "/dest" 0
       (file_entry "..data/config" "x" :: GE_archive)
       (install.initial memfs.empty_dest)
     = install.loop (F:=binary64) (os:=memfs.os) "/dest" 0 GE_archive
         (install.initial memfs.empty_dest)
  /\ install.fs (run_archive memfs.os (file_entry "..data/config" "x" :: GE_archive)).1
       !! "/dest/..data/config" = None.
Proof.
  split; [by vm_compute|]. split; [|by vm_compute].
  apply (dotdot_prefix_is_skipped (F:=binary64) (os:=memfs.os) "/dest" 0
           (tar.mkHeader tar.TypeReg "..data/config" EmptyString 420) "x").
  by vm_compute.
Defined.

(** The theorem of C8 on a volume without symbolic links: the first link
    of [three_links] fails with a warning, and the archive, in which all
    three fail, is extracted without an error. *)
Lemma symlink_failure_is_a_warning_witness :
  (exists st',
      install.step (F:=binary64) (os:=memfs.os_without_symlinks) "/dest" 0
        (link_entry "GE-Proton9-5/dist" "files")
        (after memfs.os_without_symlinks [dir_entry "GE-Proton9-5/"])
      = install.Continue st'
      /\ install.log st'
         = ["Symlink create failed for /dest/GE-Proton9-5/dist -> files: operation not supported (continuing)"])
  /\ (run_archive memfs.os_without_symlinks
        (dir_entry "GE-Proton9-5/" :: three_links)).2 = None
  /\ length (install.log (run_archive memfs.os_without_symlinks
                            (dir_entry "GE-Proton9-5/" :: three_links)).1)
     = 4%nat.
Proof.
  split; [|split; by vm_compute].
  destruct (symlink_failure_is_a_warning
              (F:=binary64) (os:=memfs.os_without_symlinks) "/dest" 0
              (tar.mkHeader tar.TypeSymlink "GE-Proton9-5/dist" "files" 511)
              EmptyString []
              (after memfs.os_without_symlinks [dir_entry "GE-Proton9-5/"])
              (install.fs (after memfs.os_without_symlinks
                             [dir_entry "GE-Proton9-5/"]))
              (install.fs (after memfs.os_without_symlinks
                             [dir_entry "GE-Proton9-5/"]))
              memfs.ENOTSUP)
    as (st' & Hstep & _ & Hlog & _); [vm_compute; reflexivity..|].
  exists st'. split; [done|]. rewrite Hlog. by vm_compute.
Defined.

(** * Rounding to binary64 *)

Section Binary64.
Local Open Scope Q_scope.

Lemma rne_floor (x : Q) : (Qfloor x <= rne x <= Qfloor x + 1)%Z.
Proof.
  unfold rne. destruct (_ ?= _); [destruct (Z.even _)|..]; lia.
Qed.

Lemma rne_mono (x y : Q) : x <= y -> (rne x <= rne y)%Z.
Proof.
  intros Hxy. pose proof (Qfloor_resp_le _ _ Hxy) as Hf.
  destruct (Z.eq_dec (Qfloor x) (Qfloor y)) as [Heq|Hne].
  - unfold rne. rewrite <- Heq.
    destruct (Qcompare_spec (x - inject_Z (Qfloor x)) (1 # 2)),
      (Qcompare_spec (y - inject_Z (Qfloor x)) (1 # 2));
      try destruct (Z.even _); try lia; exfalso; lra.
  - pose proof (rne_floor x). pose proof (rne_floor y). lia.
Qed.

Lemma rne_Z (z : Z) : rne (inject_Z z) = z.
Proof.
  unfold rne. rewrite Qfloor_Z.
  destruct (Qcompare_spec (inject_Z z - inject_Z z) (1 # 2)); [|done|];
    exfalso; lra.
Qed.

Lemma rne_ge (x : Q) (z : Z) : inject_Z z <= x -> (z <= rne x)%Z.
Proof. intros H. rewrite <- (rne_Z z). by apply rne_mono. Qed.

Lemma rne_le (x : Q) (z : Z) : x <= inject_Z z -> (rne x <= z)%Z.
Proof. intros H. rewrite <- (rne_Z z). by apply rne_mono. Qed.

Lemma pow2_pos (z : Z) : 0 < pow2 z.
Proof. by apply Qpower_0_lt. Qed.

Lemma pow2_plus (a b : Z) : pow2 (a + b) == pow2 a * pow2 b.
Proof. by apply Qpower_plus. Qed.

Lemma pow2_le (a b : Z) : (a <= b)%Z -> pow2 a <= pow2 b.
Proof. intros H. by apply Qpower_le_compat_l. Qed.

Lemma pow2_lt (a b : Z) : (a < b)%Z -> pow2 a < pow2 b.
Proof. intros H. by apply Qpower_lt_compat_l. Qed.

Lemma pow2_lt_inv (a b : Z) : pow2 a < pow2 b -> (a < b)%Z.
Proof. intros H. by apply (Qpower_lt_compat_l_inv 2). Qed.

Lemma pow2_inject (z : Z) : (0 <= z)%Z -> pow2 z == inject_Z (2 ^ z).
Proof. intros H. unfold pow2. by rewrite Zpower_Qpower. Qed.

Lemma exponent_spec (x : Q) :
  0 < x -> pow2 (exponent x) <= x < pow2 (exponent x + 1).
Proof.
  intros Hx. destruct x as [n d].
  assert (Hn : (0 < n)%Z).
  { unfold Qlt in Hx. simpl in Hx. lia. }
  set (ln := Z.log2 n). set (ld := Z.log2 (Z.pos d)).
  destruct (Z.log2_spec n Hn) as [Hn1 Hn2]. fold ln in Hn1, Hn2.
  destruct (Z.log2_spec (Z.pos d) ltac:(lia)) as [Hd1 Hd2].
  fold ld in Hd1, Hd2.
  pose proof (Z.log2_nonneg n) as Hln. fold ln in Hln.
  pose proof (Z.log2_nonneg (Z.pos d)) as Hld. fold ld in Hld.
  set (N := inject_Z n). set (D := inject_Z (Z.pos d)).
  assert (HxD : (n # d) * D == N).
  { unfold N, D. rewrite (Qmake_Qdiv n d). field.
    intros H. unfold Qeq in H. simpl in H. lia. }
  assert (HN1 : pow2 ln <= N).
  { rewrite pow2_inject by lia. unfold N. by rewrite <- Zle_Qle. }
  assert (HN2 : N < pow2 (ln + 1)).
  { rewrite pow2_inject by lia. unfold N. by rewrite <- Zlt_Qlt. }
  assert (HD1 : pow2 ld <= D).
  { rewrite pow2_inject by lia. unfold D. by rewrite <- Zle_Qle. }
  assert (HD2 : D < pow2 (ld + 1)).
  { rewrite pow2_inject by lia. unfold D. by rewrite <- Zlt_Qlt. }
  set (k := (ln - ld)%Z).
  assert (Hup : (n # d) < pow2 (k + 1)).
  { pose proof (pow2_plus (k + 1) ld) as Hp.
    replace (k + 1 + ld)%Z with (ln + 1)%Z in Hp by lia.
    pose proof (pow2_pos (k + 1)). pose proof (pow2_pos ld).
    apply Qnot_le_lt. intros Hle.
    assert (pow2 (k + 1) * D <= (n # d) * D).
    { apply Qmult_le_compat_r; lra. }
    assert (pow2 (k + 1) * pow2 ld <= pow2 (k + 1) * D).
    { apply Qmult_le_l; lra. }
    lra. }
  assert (Hlow : pow2 (k - 1) <= (n # d)).
  { pose proof (pow2_plus (k - 1) (ld + 1)) as Hp.
    replace (k - 1 + (ld + 1))%Z with ln in Hp by lia.
    pose proof (pow2_pos (k - 1)). pose proof (pow2_pos ld).
    apply Qnot_lt_le. intros Hlt.
    assert ((n # d) * D < pow2 (k - 1) * D).
    { apply Qmult_lt_compat_r; lra. }
    assert (pow2 (k - 1) * D < pow2 (k - 1) * pow2 (ld + 1)).
    { apply Qmult_lt_l; lra. }
    lra. }
  unfold exponent. cbn [Qnum Qden]. fold ln ld k.
  destruct (Qle_bool (pow2 k) (n # d)) eqn:Hb.
  - apply Qle_bool_iff in Hb. by split.
  - replace (k - 1 + 1)%Z with k by lia. split; [done|].
    apply Qnot_le_lt. intros Hle. apply Qle_bool_iff in Hle. congruence.
Qed.

Lemma exponent_mono (x y : Q) :
  0 < x -> x <= y -> (exponent x <= exponent y)%Z.
Proof.
  intros Hx Hxy.
  destruct (exponent_spec x Hx) as [Hx1 _].
  destruct (exponent_spec y ltac:(lra)) as [_ Hy2].
  assert (H : (exponent x < exponent y + 1)%Z); [|lia].
  apply pow2_lt_inv. lra.
Qed.

(** The rounded value stays in the binade of its argument, upper end
    included. *)
Lemma round53_pos_binade (x : Q) :
  0 < x ->
  pow2 (exponent x) <= round53_pos x <= pow2 (exponent x + 1).
Proof.
  intros Hx. destruct (exponent_spec x Hx) as [H1 H2].
  unfold round53_pos. set (e := exponent x) in *.
  set (s := x * pow2 (52 - e)).
  pose proof (pow2_pos (52 - e)) as Hp. pose proof (pow2_pos (e - 52)) as Hq.
  assert (Hs1 : pow2 52 <= s).
  { pose proof (pow2_plus e (52 - e)) as He.
    replace (e + (52 - e))%Z with 52%Z in He by lia. rewrite He.
    apply Qmult_le_compat_r; lra. }
  assert (Hs2 : s <= pow2 53).
  { pose proof (pow2_plus (e + 1) (52 - e)) as He.
    replace (e + 1 + (52 - e))%Z with 53%Z in He by lia. rewrite He.
    apply Qmult_le_compat_r; lra. }
  rewrite pow2_inject in Hs1, Hs2 by lia.
  apply rne_ge in Hs1. apply rne_le in Hs2.
  rewrite Zle_Qle in Hs1, Hs2. rewrite <- !pow2_inject in Hs1, Hs2 by lia.
  split.
  - pose proof (pow2_plus 52 (e - 52)) as He.
    replace (52 + (e - 52))%Z with e in He by lia. rewrite He.
    apply Qmult_le_compat_r; lra.
  - pose proof (pow2_plus 53 (e - 52)) as He.
    replace (53 + (e - 52))%Z with (e + 1)%Z in He by lia. rewrite He.
    apply Qmult_le_compat_r; lra.
Qed.

Lemma round53_pos_positive (x : Q) : 0 < x -> 0 < round53_pos x.
Proof.
  intros Hx. destruct (round53_pos_binade x Hx) as [H _].
  pose proof (pow2_pos (exponent x)). lra.
Qed.

Lemma round53_pos_mono (x y : Q) :
  0 < x -> x <= y -> round53_pos x <= round53_pos y.
Proof.
  intros Hx Hxy. pose proof (exponent_mono x y Hx Hxy) as He.
  destruct (Z.eq_dec (exponent x) (exponent y)) as [Heq|Hne].
  - unfold round53_pos. rewrite <- Heq.
    pose proof (pow2_pos (52 - exponent x)).
    pose proof (pow2_pos (exponent x - 52)).
    apply Qmult_le_compat_r; [|lra].
    rewrite <- Zle_Qle. apply rne_mono. apply Qmult_le_compat_r; lra.
  - destruct (round53_pos_binade x Hx) as [_ H1].
    destruct (round53_pos_binade y ltac:(lra)) as [H2 _].
    pose proof (pow2_le (exponent x + 1) (exponent y) ltac:(lia)). lra.
Qed.

(** Rounding keeps the order. *)
Lemma round53_mono (x y : Q) : x <= y -> round53 x <= round53 y.
Proof.
  intros Hxy. unfold round53.
  destruct (Qcompare_spec x 0) as [Hx|Hx|Hx],
    (Qcompare_spec y 0) as [Hy|Hy|Hy]; try lra.
  - pose proof (round53_pos_positive y Hy). lra.
  - pose proof (round53_pos_positive (- x) ltac:(lra)). lra.
  - pose proof (round53_pos_mono (- y) (- x) ltac:(lra) ltac:(lra)). lra.
  - pose proof (round53_pos_positive (- x) ltac:(lra)).
    pose proof (round53_pos_positive y Hy). lra.
  - by apply round53_pos_mono.
Qed.

Lemma round53_positive (x : Q) : 0 < x -> 0 < round53 x.
Proof.
  intros Hx. unfold round53.
  destruct (Qcompare_spec x 0); try lra. by apply round53_pos_positive.
Qed.

End Binary64.

(** The arithmetic of the progress bar obeys the laws of [IEEE754]. *)
Lemma binary64_laws : IEEE754 binary64.
Proof.
  split.
  - apply Qcle_trans.
  - intros a b [_ Hab]. unfold Qcle. simpl.
    apply Qred_le, round53_mono. by rewrite <- Zle_Qle.
  - intros x y c [Hc _] Hxy. cbn [fle fdiv of_int64 binary64].
    unfold Qcle at 1. simpl.
    apply Qred_le, round53_mono.
    assert (Hpos : (0 < round53 (inject_Z c))%Q).
    { apply round53_positive. change 0%Q with (inject_Z 0).
      by rewrite <- Zlt_Qlt. }
    set (C := Q2Qc (round53 (inject_Z c))).
    change (x / C <= y / C)%Qc. unfold Qcdiv.
    apply Qcmult_le_compat_r; [done|].
    unfold Qcle, C. simpl. rewrite !Qred_correct.
    by apply Qlt_le_weak, Qinv_lt_0_compat.
  - intros c [Hc _]. cbn [fdiv of_int64 binary64].
    set (C := Q2Qc (round53 (inject_Z c))).
    assert (Hne : C <> 0%Qc).
    { intros H0. apply (f_equal this) in H0. unfold C in H0. simpl in H0.
      assert (Hpos : (0 < round53 (inject_Z c))%Q).
      { apply round53_positive. change 0%Q with (inject_Z 0).
        by rewrite <- Zlt_Qlt. }
      rewrite <- (Qred_correct (round53 (inject_Z c))), H0 in Hpos.
      by apply Qlt_irrefl in Hpos. }
    replace (C / C)%Qc with 1%Qc; [done|].
    unfold Qcdiv. by rewrite Qcmult_inv_r.
Qed.

(** Rounding at work: [2^53 + 1] is a tie and goes to the even [2^53],
    [2^53 + 3] goes up to [2^53 + 4], and a third is the binary64 number
    [0x3FD5555555555555]. *)
Example round53_examples :
  @of_int64 binary64 (2 ^ 53 + 1) = @of_int64 binary64 (2 ^ 53)
  /\ @of_int64 binary64 (2 ^ 53 + 3) = Q2Qc (inject_Z (2 ^ 53 + 4))
  /\ @fdiv binary64 (of_int64 1) (of_int64 3)
     = Q2Qc (6004799503160661 # 18014398509481984).
Proof. repeat split; by apply Qc_is_canon. Qed.

(** * Progress reported by the tee *)

Section ProgressFacts.
Context {F : Float64} {laws : IEEE754 F}.
Variable contentLen : Z.
Hypothesis contentLen_int64 : 0 < contentLen < 2 ^ 63.

Local Abbreviation Tee := (@progress.Tee F).
Local Abbreviation tee_step := (progress.tee_step contentLen).
Local Abbreviation frac :=
  (fun b : Z => fdiv (of_int64 b) (of_int64 contentLen)).

Lemma total_app (made ps : list string) :
  progress.total (made ++ ps) = progress.total made + progress.total ps.
Proof. induction made as [|p made IH]; simpl; lia. Qed.

Lemma total_nonneg (ps : list string) : 0 <= progress.total ps.
Proof. induction ps as [|p ps IH]; simpl; lia. Qed.

Lemma frac_mono (a b : Z) : 0 <= a <= b -> fle (frac a) (frac b).
Proof. intros Hab. apply fdiv_mono; [done|]. by apply of_int64_mono. Qed.

Lemma reached_start (chunks : list string) :
  progress.reached contentLen chunks (chunks, progress.start).
Proof.
  exists []. simpl. repeat split; auto using SSorted_nil.
Qed.

Lemma reached_step (chunks : list string) (c c' : list string * Tee) :
  progress.total chunks < 2 ^ 63 ->
  progress.reached contentLen chunks c -> tee_step c c' ->
  progress.reached contentLen chunks c'.
Proof.
  intros Hsmall (made & Hsplit & Hcount & Hsorted & Hbound & Hlast) Hstep.
  destruct Hstep as [p ps t|ps t Hq]; simpl in *.
  - (* a read *)
    assert (Hnew : wrap64 (progress.bytesRead t + Z.of_nat (String.length p))
                   = progress.total (made ++ [p])).
    { rewrite total_app. simpl. rewrite Hcount.
      pose proof (total_nonneg made). pose proof (total_nonneg ps).
      rewrite Hsplit, total_app in Hsmall. simpl in Hsmall.
      rewrite wrap64_id by (unfold int64_range; lia). lia. }
    exists (made ++ [p]). simpl.
    split; [by rewrite <- app_assoc|]. split; [done|]. split; [done|].
    split; [|done].
    rewrite Hnew, total_app. simpl.
    eapply Forall_impl; [exact Hbound|]. simpl. intros v Hv.
    eapply fle_trans; [exact Hv|]. rewrite Hcount. apply frac_mono.
    pose proof (total_nonneg made). lia.
  - (* a queued update runs *)
    assert (Hpos : (0 <? contentLen) = true) by (apply Z.ltb_lt; lia).
    exists made. unfold progress.run_update. simpl. rewrite Hpos.
    split; [done|]. split; [done|].
    split; [|split].
    + apply StronglySorted_app. split; [|split; [done|]].
      * intros x1 x2 Hx1 ->%list_elem_of_singleton.
        rewrite Forall_forall in Hbound. by apply Hbound.
      * by repeat constructor.
    + apply Forall_app. split; [done|]. constructor; [|done].
      apply frac_mono. rewrite Hcount. pose proof (total_nonneg made). lia.
    + intros _. right. by rewrite last_snoc.
Qed.

Lemma reached_rtc (chunks : list string) (c : list string * Tee) :
  progress.total chunks < 2 ^ 63 ->
  rtc tee_step (chunks, progress.start) c ->
  progress.reached contentLen chunks c.
Proof.
  intros Hsmall Hrtc.
  apply (rtc_ind_r (R:=tee_step) (progress.reached contentLen chunks)
                   (chunks, progress.start)); [| |exact Hrtc].
  - apply reached_start.
  - intros c1 c2 _ Hstep Hc1. by eapply reached_step.
Qed.

(** C6. With a known positive length, be it the response's or the size
    hint, in whatever order the reads and the queued calls of [update]
    take their turns, the values set on the bar never decrease. Once every
    read is done and every queued [update] has run, the last value set is
    the quotient of the bytes read and the length: [float64(1)] when the
    bytes read are as many as the length, and in general not 1 when they
    are not. The float arithmetic enters through the laws of [IEEE754],
    which rounding to [binary64] obeys. *)
Theorem progress_never_decreases_and_ends_at_one (chunks : list string)
  (c : list string * Tee) :
  progress.total chunks < 2 ^ 63 ->
  rtc tee_step (chunks, progress.start) c ->
  StronglySorted fle (progress.shown c.2)
  /\ (progress.finished c -> chunks <> [] ->
      last (progress.shown c.2) = Some (frac (progress.total chunks)))
  /\ (progress.finished c -> progress.total chunks = contentLen ->
      last (progress.shown c.2) = Some (of_int64 1)).
Proof.
  intros Hsmall Hrtc.
  destruct (reached_rtc chunks c Hsmall Hrtc)
    as (made & Hsplit & Hcount & Hsorted & Hbound & Hlast).
  split; [done|].
  assert (Hend : progress.finished c -> chunks <> [] ->
            last (progress.shown c.2) = Some (frac (progress.total chunks))).
  { intros [Hempty Hq] Hne.
    rewrite Hempty, app_nil_r in Hsplit. subst made.
    destruct (Hlast Hq) as [Hnone|Hsome]; [done|].
    by rewrite Hsome, Hcount. }
  split; [done|]. intros Hfin Htotal.
  rewrite Hend; [|done|].
  - rewrite Htotal. f_equal. by apply fdiv_diag.
  - intros ->. simpl in Htotal. lia.
Qed.

(** Running every [update] at once is one of the executions, and it
    finishes. *)
Lemma run_at_once_execution (chunks : list string) (t : Tee) :
  rtc tee_step (chunks, t) ([], progress.run_at_once contentLen chunks t).
Proof.
  revert t. induction chunks as [|p ps IH]; intros t; simpl; [done|].
  eapply rtc_l; [apply progress.step_write|].
  eapply rtc_l; [apply progress.step_update; simpl; lia|].
  apply IH.
Qed.

Lemma run_at_once_queued (chunks : list string) (t : Tee) :
  progress.queued (progress.run_at_once contentLen chunks t)
  = progress.queued t.
Proof.
  revert t. induction chunks as [|p ps IH]; intros t; simpl; [done|].
  by rewrite IH.
Qed.

End ProgressFacts.

(** The values [DownloadAndExtract] sets on the bar while it reads the
    body's opening are those of the schedule that runs every [update] at
    once. *)
Lemma tee_writes_bar {F : Float64} {FS : Type} (contentLen : Z)
  (chunks : list string) (st : @install.State F FS) (t : progress.Tee) :
  install.bar st = progress.shown t ->
  install.bytesRead st = progress.bytesRead t ->
  install.bar (fold_left (fun st p => install.tee_write contentLen p st)
                         chunks st)
  = progress.shown (progress.run_at_once contentLen chunks t).
Proof.
  revert st t. induction chunks as [|p ps IH]; intros st t Hbar Hread;
    simpl; [done|].
  apply IH; unfold install.tee_write, install.update, progress.run_update,
    progress.write; simpl; destruct (0 <? contentLen); simpl;
    by rewrite ?Hbar, ?Hread.
Qed.

Lemma read_opening_bar {F : Float64} {FS : Type} (contentLen : Z)
  (body : install.Body) (fs0 : FS) :
  install.bar (install.read_opening contentLen body (install.initial fs0))
  = progress.shown
      (progress.run_at_once contentLen (install.opening body) progress.start).
Proof. by apply tee_writes_bar. Qed.

(** The theorem at three reads of 3, 2 and 1 bytes of a body of 6. *)
Lemma progress_never_decreases_and_ends_at_one_witness :
  StronglySorted Qcle
    (progress.shown (F:=binary64)
       (progress.run_at_once 6 ["abc"; "de"; "f"] progress.start))
  /\ last (progress.shown (F:=binary64)
             (progress.run_at_once 6 ["abc"; "de"; "f"] progress.start))
     = Some (Q2Qc 1).
Proof.
  destruct (progress_never_decreases_and_ends_at_one
              (F:=binary64) (laws:=binary64_laws) 6 ltac:(lia)
              ["abc"; "de"; "f"]
              ([], progress.run_at_once 6 ["abc"; "de"; "f"] progress.start))
    as (Hsorted & _ & Hlast).
  - by vm_compute.
  - apply (run_at_once_execution (F:=binary64)).
  - split; [exact Hsorted|].
    etrans; [apply Hlast; [split; [done|]|]; by vm_compute|].
    f_equal. by apply Qc_is_canon.
Defined.

(** C6 as stated fails when the expected length is not the number of
    bytes that arrive. The response names no length, the size hint is 1,
    and the two bytes read while the archive is opened set the bar to 2;
    the archive is extracted and no error is returned. With a length of 5
    and reads of 3, 2 and 1 bytes the bar ends at 6/5, after 3/5 and 1. *)
Lemma progress_ends_above_one_on_a_short_hint :
  (install.DownloadAndExtract (F:=binary64) (os:=memfs.os)
     (chunked_Do GE_archive) EmptyString "https://example.org/ge.tar.gz" 1
     "/dest" memfs.empty_dest).2 = None
  /\ install.bar
       (install.DownloadAndExtract (F:=binary64) (os:=memfs.os)
          (chunked_Do GE_archive) EmptyString "https://example.org/ge.tar.gz"
          1 "/dest" memfs.empty_dest).1
     = [Q2Qc 2]
  /\ progress.shown (F:=binary64)
       (progress.run_at_once 5 ["abc"; "de"; "f"] progress.start)
     = [Q2Qc (5404319552844595 # 9007199254740992); Q2Qc 1;
        Q2Qc (5404319552844595 # 4503599627370496)]
  /\ Q2Qc 2 <> Q2Qc 1
  /\ Q2Qc (5404319552844595 # 4503599627370496) <> Q2Qc 1.
Proof.
  split; [vm_compute; reflexivity|]. split; [|split; [|split]].
  - assert (H : install.bar
                  (install.DownloadAndExtract (F:=binary64) (os:=memfs.os)
                     (chunked_Do GE_archive) EmptyString
                     "https://example.org/ge.tar.gz" 1 "/dest"
                     memfs.empty_dest).1
                = [@fdiv binary64 (@of_int64 binary64 2)
                         (@of_int64 binary64 1)])
      by (vm_compute; reflexivity).
    rewrite H. f_equal. by apply Qc_is_canon.
  - cbv [progress.run_at_once progress.run_update progress.write
         progress.start progress.shown progress.bytesRead progress.queued
         fold_left app Z.ltb Z.compare].
    repeat (apply (f_equal2 cons); [by apply Qc_is_canon|]). done.
  - intros H. apply (f_equal this) in H. vm_compute in H. discriminate H.
  - intros H. apply (f_equal this) in H. vm_compute in H. discriminate H.
Qed.

(** The values set on the bar in that run: a half, five sixths rounded to
    [0x3FEAAAAAAAAAAAAB], and one. *)
Example progress_bar_values :
  progress.shown (F:=binary64)
    (progress.run_at_once 6 ["abc"; "de"; "f"] progress.start)
  = [Q2Qc (1 # 2); Q2Qc (7505999378950827 # 9007199254740992); Q2Qc 1].
Proof.
  cbv [progress.run_at_once progress.run_update progress.write progress.start
       progress.shown progress.bytesRead progress.queued fold_left app
       Z.ltb Z.compare].
  repeat (apply (f_equal2 cons); [by apply Qc_is_canon|]). done.
Qed.

(** * The available list *)

Lemma installed_map_index (names : list string) (k : string) :
  ui.index (ui.installed_map names) k = true
  <-> exists inst, inst ∈ names /\ strings.ToLower inst = k.
Proof.
  unfold ui.installed_map.
  assert (H : forall m : gmap string bool,
             ui.index (fold_left
                         (fun m inst => <[strings.ToLower inst := true]> m)
                         names m) k = true
             <-> ui.index m k = true
                 \/ exists inst, inst ∈ names /\ strings.ToLower inst = k).
  { induction names as [|n names IH]; intros m; simpl.
    - split; [by left|]. intros [?|(? & []%elem_of_nil & _)]; done.
    - rewrite IH. unfold ui.index at 1. rewrite lookup_insert.
      destruct (decide (strings.ToLower n = k)) as [Heq|Hne]; simpl.
      + split; [|by left]. intros _. right. exists n. split; [by left|done].
      + split.
        * intros [?|(inst & ? & ?)]; [by left|].
          right. exists inst. split; [by right|done].
        * intros [?|(inst & [->|?]%elem_of_cons & ?)]; [by left|done|].
          right. by exists inst. }
  rewrite H. unfold ui.index. rewrite lookup_empty. simpl.
  split; [by intros [?|?]|by right].
Qed.

Lemma installed_map_installed_tag (names : list string) (r : Release.t) :
  ui.index (ui.installed_map names) (strings.ToLower (Release.TagName r))
  = ui.installed_tag names r.
Proof.
  apply eq_true_iff_eq. rewrite installed_map_index.
  unfold ui.installed_tag. rewrite existsb_exists. split.
  - intros (inst & Hin & Heq). exists inst.
    split; [by apply list_elem_of_In|by apply String.eqb_eq].
  - intros (inst & Hin & Heq). exists inst.
    split; [by apply list_elem_of_In|by apply String.eqb_eq].
Qed.

Lemma filter_installed_acc (installed : gmap string bool)
  (rels acc : list Release.t) :
  fold_left
    (fun filtered r =>
       if negb (ui.index installed (strings.ToLower (Release.TagName r)))
       then filtered ++ [r] else filtered)
    rels acc
  = acc ++ List.filter
      (fun r => negb (ui.index installed (strings.ToLower (Release.TagName r))))
      rels.
Proof.
  revert acc. induction rels as [|r rels IH]; intros acc; simpl.
  - by rewrite app_nil_r.
  - rewrite IH. destruct (negb _); [by rewrite <- app_assoc|done].
Qed.

Lemma filter_installed_filter (installed : gmap string bool)
  (rels : list Release.t) :
  ui.filter_installed installed rels
  = List.filter
      (fun r => negb (ui.index installed (strings.ToLower (Release.TagName r))))
      rels.
Proof. apply filter_installed_acc. Qed.

(** C9. After a refresh whose fetch succeeded, the available releases are
    the fetched ones without exactly those whose tag is, without regard to
    case, the name of a folder listed as installed, in the order fetched;
    none of them has such a tag; the labels shown are theirs; the installed
    list is untouched and the selection is cleared. *)
Theorem loadAvailable_hides_installed (rels : list Release.t) (st : ui.State) :
  ui.availableReleases (ui.loadAvailable (rels, None) st)
  = List.filter (fun r => negb (ui.installed_tag (ui.currentInstalled st) r))
                rels
  /\ Forall
       (fun r => forall inst, inst ∈ ui.currentInstalled st ->
                   strings.ToLower inst <> strings.ToLower (Release.TagName r))
       (ui.availableReleases (ui.loadAvailable (rels, None) st))
  /\ ui.currentAvailable (ui.loadAvailable (rels, None) st)
     = map ui.formatReleaseLabel
           (ui.availableReleases (ui.loadAvailable (rels, None) st))
  /\ ui.currentInstalled (ui.loadAvailable (rels, None) st)
     = ui.currentInstalled st
  /\ ui.selectedAvailable (ui.loadAvailable (rels, None) st) = -1.
Proof.
  cbn [ui.loadAvailable ui.availableReleases ui.currentAvailable
       ui.currentInstalled ui.selectedAvailable].
  assert (Hfilter : ui.filter_installed
                      (ui.installed_map (ui.currentInstalled st)) rels
                    = List.filter
                        (fun r => negb (ui.installed_tag
                                          (ui.currentInstalled st) r))
                        rels).
  { rewrite filter_installed_filter. apply filter_ext. intros r.
    by rewrite installed_map_installed_tag. }
  split; [done|]. split; [|done].
  rewrite Hfilter. apply Forall_forall.
  intros r [_ Hr]%list_elem_of_In%filter_In inst Hinst Heq.
  apply negb_true_iff in Hr.
  assert (ui.installed_tag (ui.currentInstalled st) r = true); [|congruence].
  unfold ui.installed_tag. apply existsb_exists. exists inst.
  split; [by apply list_elem_of_In|by apply String.eqb_eq].
Qed.

Example loadAvailable_example :
  map Release.TagName
    (ui.availableReleases
       (ui.loadAvailable
          ([release "GE-Proton9-5" false []; release "GE-Proton9-4" false []],
           None)
          (ui.mkState ["ge-proton9-4"] [] [] (-1) 0 [])))
  = ["GE-Proton9-5"].
Proof. by vm_compute. Qed.

(** Letters beyond ASCII are lowered as well: the folder [GE-Protoné]
    hides the release tagged [GE-ProtonÉ], and the folder
    [ge-proton-ǆ] the release tagged [GE-Proton-Ǆ]. *)
Example loadAvailable_beyond_ascii :
  map Release.TagName
    (ui.availableReleases
       (ui.loadAvailable
          ([release "GE-ProtonÉ" false []; release "GE-Proton-Ǆ" false [];
            release "GE-ProtonE" false []],
           None)
          (ui.mkState ["GE-Protoné"; "ge-proton-ǆ"] [] [] (-1) 0 [])))
  = ["GE-ProtonE"].
Proof. vm_compute. reflexivity. Qed.

(** C5. Whatever the API returns, no release the fetch returns is a
    draft; and the list the installer picks from, replaced by a refresh
    with what the fetch returned or left as it was on an error, holds no
    draft afterwards when it held none before. *)
Theorem drafts_never_surface
  (Do : github.Request -> error + http.Response string)
  (Decode : string -> error + list Release.t) (GITHUB_TOKEN : string)
  (fuel : nat) (res : github.Fetched) (st : ui.State) :
  github.FetchAllReleases Do Decode GITHUB_TOKEN fuel = Some res ->
  Forall (fun r => Release.Draft r = false) (github.result res).1
  /\ (Forall (fun r => Release.Draft r = false) (ui.availableReleases st) ->
      Forall (fun r => Release.Draft r = false)
             (ui.availableReleases (ui.loadAvailable (github.result res) st))).
Proof.
  intros Hfetch.
  assert (Hres : Forall (fun r => Release.Draft r = false)
                        (github.result res).1).
  { unfold github.FetchAllReleases in Hfetch.
    destruct (github.page_loop _ _ _ _ _ _ _) as [[[sent all] [e|]]|];
      simplify_eq; simpl; [done|].
    rewrite filter_releases_spec. apply Forall_forall.
    intros r [_ Hr]%list_elem_of_In%filter_In.
    unfold installable in Hr. apply andb_true_iff in Hr as [Hr _].
    by apply negb_true_iff in Hr. }
  split; [done|]. intros Hst.
  destruct (github.result res) as [rels [e|]]; simpl in *; [done|].
  rewrite filter_installed_filter. apply Forall_forall.
  intros r [Hin _]%list_elem_of_In%filter_In.
  rewrite Forall_forall in Hres. by apply Hres, list_elem_of_In.
Qed.

(** The theorem at a catalog of three releases, one of them a draft and
    one without a tarball: the fetch returns the third alone. *)
Lemma drafts_never_surface_witness :
  exists res,
    github.FetchAllReleases synthetic_Do (synthetic_Decode three_releases)
                            EmptyString 1 = Some res
    /\ (github.result res).1 = [GE_Proton9_5]
    /\ Forall (fun r => Release.Draft r = false) (github.result res).1.
Proof.
  eexists. split; [by vm_compute|]. split; [by vm_compute|].
  refine (proj1 (drafts_never_surface synthetic_Do
                   (synthetic_Decode three_releases) EmptyString 1 _
                   (ui.mkState [] [] [] (-1) (-1) []) eq_refl)).
Defined.

(** * Facts about byte strings *)

Lemma append_cons (c : ascii) (a b : string) :
  String c a +:+ b = String c (a +:+ b).
Proof. reflexivity. Qed.

Lemma append_nil_l (a : string) : EmptyString +:+ a = a.
Proof. reflexivity. Qed.

Lemma substring_all (s : string) :
  String.substring 0 (String.length s) s = s.
Proof. induction s as [|c s IH]; simpl; congruence. Qed.

Lemma substring_0_app (p s : string) :
  String.substring 0 (String.length p) (p +:+ s) = p.
Proof.
  induction p as [|c p IH]; [by destruct s|].
  rewrite append_cons. simpl. by rewrite IH.
Qed.

Lemma substring_skip_app (p s : string) (m : nat) :
  String.substring (String.length p) m (p +:+ s) = String.substring 0 m s.
Proof.
  induction p as [|c p IH]; [done|]. rewrite append_cons. simpl. apply IH.
Qed.

Lemma length_append (p s : string) :
  String.length (p +:+ s) = (String.length p + String.length s)%nat.
Proof.
  induction p as [|c p IH]; [done|].
  rewrite append_cons. simpl. by rewrite IH.
Qed.

Lemma append_assoc (a b c : string) : (a +:+ b) +:+ c = a +:+ (b +:+ c).
Proof.
  induction a as [|x a IH]; [done|]. rewrite !append_cons. by rewrite IH.
Qed.

Lemma append_nil_r (a : string) : a +:+ EmptyString = a.
Proof.
  induction a as [|x a IH]; [done|]. rewrite append_cons. by rewrite IH.
Qed.

Lemma HasPrefix_app (p s : string) : strings.HasPrefix (p +:+ s) p = true.
Proof.
  unfold strings.HasPrefix, strings.len.
  rewrite length_append, substring_0_app, String.eqb_refl.
  apply andb_true_iff. split; [apply Nat.leb_le; lia|done].
Qed.

(** [HasPrefix] holds of the strings that start with the prefix. *)
Lemma HasPrefix_true (s p : string) :
  strings.HasPrefix s p = true <-> exists t, s = p +:+ t.
Proof.
  split; [|intros [t ->]; apply HasPrefix_app].
  unfold strings.HasPrefix, strings.len.
  intros [_ Heq%String.eqb_eq]%andb_true_iff.
  revert s Heq. induction p as [|c p IH]; intros s Heq; [by exists s|].
  destruct s as [|c' s]; [done|]. simpl in Heq. injection Heq as -> Heq.
  destruct (IH s Heq) as [t ->]. exists t. by rewrite append_cons.
Qed.

Lemma TrimPrefix_app (p s : string) : strings.TrimPrefix (p +:+ s) p = s.
Proof.
  unfold strings.TrimPrefix. rewrite HasPrefix_app.
  unfold strings.from, strings.len.
  rewrite substring_skip_app, length_append.
  replace (String.length p + String.length s - String.length p)%nat
    with (String.length s) by lia.
  apply substring_all.
Qed.

Lemma TrimPrefix_other (s p : string) :
  strings.HasPrefix s p = false -> strings.TrimPrefix s p = s.
Proof. unfold strings.TrimPrefix. by intros ->. Qed.

(** [HasSuffix] holds of the strings that end with the suffix. *)
Lemma HasSuffix_app (s x : string) : strings.HasSuffix (s +:+ x) x = true.
Proof.
  unfold strings.HasSuffix, strings.from, strings.len.
  rewrite length_append.
  replace (String.length s + String.length x - String.length x)%nat
    with (String.length s) by lia.
  rewrite substring_skip_app.
  replace (String.length s + String.length x - String.length s)%nat
    with (String.length x) by lia.
  rewrite substring_all, String.eqb_refl.
  apply andb_true_iff. split; [apply Nat.leb_le; lia|done].
Qed.

Lemma substring_split (n : nat) (s : string) :
  (n <= String.length s)%nat ->
  s = String.substring 0 n s +:+ String.substring n (String.length s - n) s.
Proof.
  revert s. induction n as [|n IH]; intros s Hn.
  - simpl. rewrite Nat.sub_0_r.
    replace (String.substring 0 0 s) with EmptyString by (by destruct s).
    by rewrite substring_all.
  - destruct s as [|c s]; simpl in *; [lia|].
    rewrite append_cons. f_equal. apply IH. lia.
Qed.

Lemma HasSuffix_true (s x : string) :
  strings.HasSuffix s x = true <-> exists t, s = t +:+ x.
Proof.
  split; [|intros [t ->]; apply HasSuffix_app].
  unfold strings.HasSuffix, strings.from, strings.len.
  intros [Hlen%Nat.leb_le Heq%String.eqb_eq]%andb_true_iff.
  exists (String.substring 0 (String.length s - String.length x) s).
  pose proof (substring_split (String.length s - String.length x) s
                ltac:(lia)) as Hs.
  by rewrite Heq in Hs.
Qed.

Lemma lower_ascii_app (a b : string) :
  strings.lower_ascii (a +:+ b) = strings.lower_ascii a +:+ strings.lower_ascii b.
Proof.
  induction a as [|c a IH]; [done|].
  rewrite append_cons. simpl. by rewrite IH, append_cons.
Qed.

Lemma lower_ascii_length (a : string) :
  String.length (strings.lower_ascii a) = String.length a.
Proof. induction a as [|c a IH]; simpl; congruence. Qed.

Lemma lower_ascii_substring (n m : nat) (s : string) :
  strings.lower_ascii (String.substring n m s)
  = String.substring n m (strings.lower_ascii s).
Proof.
  revert n m. induction s as [|c s IH]; intros n m.
  - by destruct n, m.
  - destruct n as [|n]; [destruct m as [|m]|]; simpl; [done| |apply IH].
    f_equal. apply IH.
Qed.

Lemma append_eq_nil (a b : string) :
  a +:+ b = EmptyString -> a = EmptyString /\ b = EmptyString.
Proof. destruct a; [done|]. by rewrite append_cons. Qed.

Lemma append_eq_cons (a b : string) (c : ascii) (s : string) :
  a +:+ b = String c s ->
  (a = EmptyString /\ b = String c s)
  \/ exists a', a = String c a' /\ s = a' +:+ b.
Proof.
  destruct a as [|x a]; [by left|]. rewrite append_cons.
  intros [= -> <-]. right. by exists a.
Qed.

(** * Lower case beyond ASCII *)

(** ** Bytes *)

Lemma byte_range (c : ascii) : 0 <= utf8.byte c < 256.
Proof. unfold utf8.byte. pose proof (nat_ascii_bounded c). lia. Qed.

Lemma byte_chr (x : Z) : 0 <= x < 256 -> utf8.byte (utf8.chr x) = x.
Proof.
  intros Hx. unfold utf8.byte, utf8.chr.
  rewrite nat_ascii_embedding by lia. lia.
Qed.

Lemma chr_byte (c : ascii) : utf8.chr (utf8.byte c) = c.
Proof.
  unfold utf8.byte, utf8.chr. rewrite Nat2Z.id. apply ascii_nat_embedding.
Qed.

Lemma lower_byte_high (c : ascii) :
  0x80 <= utf8.byte c -> strings.lower_byte c = c.
Proof.
  unfold utf8.byte, strings.lower_byte, strings.is_upper. intros Hc.
  replace (nat_of_ascii c <=? 90)%nat with false
    by (symmetry; apply Nat.leb_gt; lia).
  by rewrite andb_false_r.
Qed.

(** On an ASCII byte [unicode.ToLower] is the byte-wise lowering. *)
Lemma ToLower_ascii_byte (c : ascii) :
  utf8.byte c < 0x80 ->
  utf8.EncodeRune (unicode.ToLower (utf8.byte c))
  = String (strings.lower_byte c) EmptyString
  /\ 0 <= unicode.ToLower (utf8.byte c).
Proof.
  intros Hc. pose proof (byte_range c) as Hr.
  unfold unicode.ToLower, unicode.MaxASCII.
  replace (utf8.byte c <=? 0x7F) with true by (symmetry; apply Z.leb_le; lia).
  unfold strings.lower_byte, strings.is_upper.
  destruct ((0x41 <=? utf8.byte c) && (utf8.byte c <=? 0x5A)) eqn:Hup.
  - apply andb_true_iff in Hup as [H1%Z.leb_le H2%Z.leb_le].
    unfold utf8.byte in H1, H2.
    replace (65 <=? nat_of_ascii c)%nat with true
      by (symmetry; apply Nat.leb_le; lia).
    replace (nat_of_ascii c <=? 90)%nat with true
      by (symmetry; apply Nat.leb_le; lia).
    cbn [andb]. split; [|lia].
    unfold utf8.EncodeRune, utf8.MaxRune, utf8.RuneError.
    replace (utf8.byte c + 32 <? 0) with false
      by (symmetry; apply Z.ltb_ge; lia).
    replace (0x10FFFF <? utf8.byte c + 32) with false
      by (symmetry; apply Z.ltb_ge; lia).
    replace (0xD800 <=? utf8.byte c + 32) with false
      by (symmetry; apply Z.leb_gt; lia).
    cbn [orb andb].
    replace (utf8.byte c + 32 <=? 0x7F) with true
      by (symmetry; apply Z.leb_le; unfold utf8.byte; lia).
    f_equal. unfold utf8.chr, utf8.byte. f_equal. lia.
  - assert (Hn : ((65 <=? nat_of_ascii c)%nat
                  && (nat_of_ascii c <=? 90)%nat) = false).
    { apply andb_false_iff in Hup as [H%Z.leb_gt|H%Z.leb_gt];
        unfold utf8.byte in H; apply andb_false_iff;
        [left|right]; apply Nat.leb_gt; lia. }
    rewrite Hn. split; [|lia].
    unfold utf8.EncodeRune, utf8.MaxRune, utf8.RuneError.
    replace (utf8.byte c <? 0) with false by (symmetry; apply Z.ltb_ge; lia).
    replace (0x10FFFF <? utf8.byte c) with false
      by (symmetry; apply Z.ltb_ge; lia).
    replace (0xD800 <=? utf8.byte c) with false
      by (symmetry; apply Z.leb_gt; lia).
    cbn [orb andb].
    replace (utf8.byte c <=? 0x7F) with true
      by (symmetry; apply Z.leb_le; lia).
    by rewrite chr_byte.
Qed.

Lemma high_byte_blocked (c : ascii) :
  0x80 <= utf8.byte c -> plain_byte c = false.
Proof.
  intros Hc. unfold plain_byte, utf8.RuneSelf.
  replace (utf8.byte c <? 0x80) with false by (symmetry; apply Z.ltb_ge; lia).
  done.
Qed.

Lemma high_bytes_blocked (s : string) :
  high_bytes s = true -> blocked s = true.
Proof.
  induction s as [|c s IH]; [done|]. cbn [high_bytes blocked].
  intros [Hc%Z.leb_le Hs]%andb_true_iff.
  rewrite high_byte_blocked by done. by apply IH.
Qed.

Lemma high_bytes_lower_ascii (s : string) :
  high_bytes s = true -> strings.lower_ascii s = s.
Proof.
  induction s as [|c s IH]; [done|]. cbn [high_bytes strings.lower_ascii].
  intros [Hc%Z.leb_le Hs]%andb_true_iff.
  by rewrite lower_byte_high, IH.
Qed.

(** ** Decoding and encoding *)

Lemma decode_ascii (c : ascii) (rest : string) :
  utf8.byte c < 0x80 ->
  utf8.DecodeRuneInString (String c rest) = (utf8.byte c, 1%nat).
Proof.
  intros Hc. unfold utf8.DecodeRuneInString, utf8.RuneSelf.
  by replace (utf8.byte c <? 0x80) with true
    by (symmetry; apply Z.ltb_lt; lia).
Qed.

(** A byte beyond ASCII starts a rune beyond ASCII, made of such bytes
    only. *)
Lemma decode_high (c : ascii) (rest : string) :
  0x80 <= utf8.byte c ->
  0x80 <= (utf8.DecodeRuneInString (String c rest)).1
  /\ (1 <= (utf8.DecodeRuneInString (String c rest)).2
      <= String.length (String c rest))%nat
  /\ high_bytes
       (String.substring 0 (utf8.DecodeRuneInString (String c rest)).2
          (String c rest)) = true.
Proof.
  intros Hc. pose proof (byte_range c) as Hr.
  assert (Hone : high_bytes (String.substring 0 1 (String c rest)) = true).
  { cbn [String.substring high_bytes].
    replace (String.substring 0 0 rest) with EmptyString by (by destruct rest).
    apply andb_true_iff. split; [by apply Z.leb_le|done]. }
  assert (Herr : 0x80 <= (utf8.RuneError, 1%nat).1
                 /\ (1 <= (utf8.RuneError, 1%nat).2
                     <= String.length (String c rest))%nat
                 /\ high_bytes
                      (String.substring 0 (utf8.RuneError, 1%nat).2
                         (String c rest)) = true).
  { cbn [fst snd]. split; [by vm_compute|]. split; [simpl; lia|done]. }
  unfold utf8.DecodeRuneInString, utf8.RuneSelf.
  replace (utf8.byte c <? 0x80) with false by (symmetry; apply Z.ltb_ge; lia).
  destruct ((utf8.byte c <? 0xC2) || (0xF4 <? utf8.byte c)) eqn:Hlead;
    [exact Herr|].
  apply orb_false_iff in Hlead as [Hl1%Z.ltb_ge Hl2%Z.ltb_ge].
  set (sz := if utf8.byte c <? 0xE0 then 2%nat
             else if utf8.byte c <? 0xF0 then 3%nat else 4%nat).
  set (lo := if utf8.byte c =? 0xE0 then 0xA0
             else if utf8.byte c =? 0xF0 then 0x90 else 0x80).
  set (hi := if utf8.byte c =? 0xED then 0x9F
             else if utf8.byte c =? 0xF4 then 0x8F else 0xBF).
  assert (Hlo : 0x80 <= lo).
  { subst lo. destruct (_ =? 0xE0); [lia|]. destruct (_ =? 0xF0); lia. }
  assert (Hhi : hi <= 0xBF).
  { subst hi. destruct (_ =? 0xED); [lia|]. destruct (_ =? 0xF4); lia. }
  assert (Hsz : (sz = 2%nat /\ utf8.byte c < 0xE0)
                \/ (sz = 3%nat /\ 0xE0 <= utf8.byte c < 0xF0
                    /\ (utf8.byte c = 0xE0 -> lo = 0xA0))
                \/ (sz = 4%nat /\ 0xF0 <= utf8.byte c
                    /\ (utf8.byte c = 0xF0 -> lo = 0x90))).
  { subst sz lo. destruct (utf8.byte c <? 0xE0) eqn:Ha.
    { left. apply Z.ltb_lt in Ha. done. }
    apply Z.ltb_ge in Ha. destruct (utf8.byte c <? 0xF0) eqn:Hb.
    - right. left. apply Z.ltb_lt in Hb. split; [done|]. split; [lia|].
      by intros ->.
    - right. right. apply Z.ltb_ge in Hb. split; [done|]. split; [done|].
      by intros ->. }
  destruct (String.length (String c rest) <? sz)%nat eqn:Hn; [exact Herr|].
  apply Nat.ltb_ge in Hn.
  destruct ((utf8.nth_byte (String c rest) 1 <? lo)
            || (hi <? utf8.nth_byte (String c rest) 1)) eqn:H1;
    [exact Herr|].
  apply orb_false_iff in H1 as [H1a%Z.ltb_ge H1b%Z.ltb_ge].
  destruct rest as [|c1 rest]; [subst sz; simpl in Hn;
    destruct (_ <? 0xE0); [lia|]; destruct (_ <? 0xF0); lia|].
  change (utf8.nth_byte (String c (String c1 rest)) 1) with (utf8.byte c1)
    in *.
  destruct (sz <=? 2)%nat eqn:Hsz2.
  { cbn [fst snd]. split; [lia|]. split; [simpl; lia|].
    cbn [String.substring high_bytes].
    replace (String.substring 0 0 rest) with EmptyString by (by destruct rest).
    rewrite !andb_true_iff, !Z.leb_le. unfold utf8.RuneSelf. by repeat split;
      try lia. }
  apply Nat.leb_gt in Hsz2.
  destruct (negb (utf8.continuation
                    (utf8.nth_byte (String c (String c1 rest)) 2))) eqn:H2;
    [exact Herr|].
  apply negb_false_iff, andb_true_iff in H2 as [H2a%Z.leb_le H2b%Z.leb_le].
  destruct rest as [|c2 rest]; [simpl in Hn; lia|].
  change (utf8.nth_byte (String c (String c1 (String c2 rest))) 2)
    with (utf8.byte c2) in *.
  destruct (sz <=? 3)%nat eqn:Hsz3.
  { apply Nat.leb_le in Hsz3.
    cbn [fst snd]. split; [lia|]. split; [simpl; lia|].
    cbn [String.substring high_bytes].
    replace (String.substring 0 0 rest) with EmptyString by (by destruct rest).
    rewrite !andb_true_iff, !Z.leb_le. unfold utf8.RuneSelf.
    by repeat split; try lia. }
  apply Nat.leb_gt in Hsz3.
  destruct (negb (utf8.continuation
                    (utf8.nth_byte
                       (String c (String c1 (String c2 rest))) 3))) eqn:H3;
    [exact Herr|].
  apply negb_false_iff, andb_true_iff in H3 as [H3a%Z.leb_le H3b%Z.leb_le].
  destruct rest as [|c3 rest]; [simpl in Hn; lia|].
  change (utf8.nth_byte
            (String c (String c1 (String c2 (String c3 rest)))) 3)
    with (utf8.byte c3) in *.
  cbn [fst snd]. split; [lia|]. split; [simpl; lia|].
  cbn [String.substring high_bytes].
  replace (String.substring 0 0 rest) with EmptyString by (by destruct rest).
  rewrite !andb_true_iff, !Z.leb_le. unfold utf8.RuneSelf.
  by repeat split; try lia.
Qed.

(** The encoding of a rune beyond ASCII holds no ASCII byte. *)
Lemma encode_high (r : Z) :
  0x80 <= r ->
  utf8.EncodeRune r <> EmptyString /\ high_bytes (utf8.EncodeRune r) = true.
Proof.
  intros Hr. unfold utf8.EncodeRune.
  set (r' := if (r <? 0) || (utf8.MaxRune <? r)
                || ((0xD800 <=? r) && (r <=? 0xDFFF))
             then utf8.RuneError else r).
  assert (Hr' : 0x80 <= r' <= 0x10FFFF).
  { subst r'. unfold utf8.MaxRune, utf8.RuneError.
    destruct (r <? 0) eqn:H0; [cbn; lia|].
    destruct (0x10FFFF <? r) eqn:H1; [cbn; lia|].
    apply Z.ltb_ge in H1. cbn [orb].
    destruct ((0xD800 <=? r) && (r <=? 0xDFFF)); lia. }
  clearbody r'.
  assert (Hm : forall x, 0 <= x mod 64 < 64)
    by (intros x; apply Z.mod_pos_bound; lia).
  assert (Hb : forall x, 0x80 <= x < 256 ->
                 (utf8.RuneSelf <=? utf8.byte (utf8.chr x)) = true).
  { intros x Hx. rewrite byte_chr by lia. apply Z.leb_le.
    unfold utf8.RuneSelf. lia. }
  replace (r' <=? 0x7F) with false by (symmetry; apply Z.leb_gt; lia).
  destruct (r' <=? 0x7FF) eqn:H2.
  { apply Z.leb_le in H2. split; [done|]. cbn [high_bytes].
    pose proof (Hm r').
    assert (0 <= r' / 64 < 32)
      by (split; [apply Z.div_pos; lia|apply Z.div_lt_upper_bound; lia]).
    rewrite !Hb by lia. done. }
  apply Z.leb_gt in H2.
  destruct (r' <=? 0xFFFF) eqn:H3.
  { apply Z.leb_le in H3. split; [done|]. cbn [high_bytes].
    pose proof (Hm r'). pose proof (Hm (r' / 64)).
    assert (0 <= r' / 4096 < 16)
      by (split; [apply Z.div_pos; lia|apply Z.div_lt_upper_bound; lia]).
    rewrite !Hb by lia. done. }
  apply Z.leb_gt in H3. split; [done|]. cbn [high_bytes].
  pose proof (Hm r'). pose proof (Hm (r' / 64)). pose proof (Hm (r' / 4096)).
  assert (0 <= r' / 262144 < 5)
    by (split; [apply Z.div_pos; lia|apply Z.div_lt_upper_bound; lia]).
  rewrite !Hb by lia. done.
Qed.

(** ** The case table *)

Lemma to_lower_beyond_ascii (ranges : list unicode.CaseRange) (r : Z) :
  forallb range_beyond_ascii ranges = true -> 0x80 <= r ->
  0x80 <= unicode.to_lower ranges r
  \/ unicode.to_lower ranges r = 0x69 \/ unicode.to_lower ranges r = 0x6B.
Proof.
  intros Hall Hr. induction ranges as [|[[[lo hi] stride] delta] rest IH].
  { left. done. }
  cbn [forallb] in Hall. apply andb_true_iff in Hall as [Hcr Hrest].
  cbn [unicode.to_lower].
  destruct ((lo <=? r) && (r <=? hi) && ((r - lo) mod stride =? 0)) eqn:Hin;
    [|by apply IH].
  apply andb_true_iff in Hin as [[H1%Z.leb_le H2%Z.leb_le]%andb_true_iff _].
  unfold range_beyond_ascii in Hcr.
  apply orb_true_iff in Hcr as [Hd%Z.leb_le|Hd].
  - left. lia.
  - apply andb_true_iff in Hd as [He%Z.eqb_eq Hd].
    assert (r = lo) by lia. subst r.
    apply orb_true_iff in Hd as [Hd%Z.eqb_eq|Hd%Z.eqb_eq]; lia.
Qed.

(** Beyond ASCII, a rune is lowered to a rune beyond ASCII, to [i] or to
    [k]. *)
Lemma ToLower_beyond_ascii (r : Z) :
  0x80 <= r ->
  0x80 <= unicode.ToLower r
  \/ unicode.ToLower r = 0x69 \/ unicode.ToLower r = 0x6B.
Proof.
  intros Hr. unfold unicode.ToLower, unicode.MaxASCII.
  replace (r <=? 0x7F) with false by (symmetry; apply Z.leb_gt; lia).
  apply to_lower_beyond_ascii; [by vm_compute|done].
Qed.

(** What [Map] writes for such a rune holds no plain byte. *)
Lemma piece_blocked (r : Z) :
  0x80 <= r ->
  0 <= unicode.ToLower r
  /\ utf8.EncodeRune (unicode.ToLower r) <> EmptyString
  /\ blocked (utf8.EncodeRune (unicode.ToLower r)) = true.
Proof.
  intros Hr. destruct (ToLower_beyond_ascii r Hr) as [H|[-> | ->]].
  - split; [lia|]. destruct (encode_high _ H) as [Hne Hh].
    split; [done|]. by apply high_bytes_blocked.
  - by vm_compute.
  - by vm_compute.
Qed.

(** ** The loop of [Map] *)

Lemma from_length (n : nat) (s : string) :
  String.length (strings.from n s) = (String.length s - n)%nat.
Proof.
  unfold strings.from. revert s. induction n as [|n IH]; intros s.
  - rewrite Nat.sub_0_r. by rewrite substring_all.
  - destruct s as [|c s]; [done|]. simpl. apply IH.
Qed.

Lemma Map_loop_ascii (fuel : nat) (c : ascii) (rest : string) :
  utf8.byte c < 0x80 ->
  strings.Map_loop unicode.ToLower (S fuel) (String c rest)
  = String (strings.lower_byte c)
      (strings.Map_loop unicode.ToLower fuel rest).
Proof.
  intros Hc. cbn [strings.Map_loop]. rewrite decode_ascii by done.
  destruct (ToLower_ascii_byte c Hc) as [-> Hpos].
  replace (0 <=? unicode.ToLower (utf8.byte c)) with true
    by (symmetry; by apply Z.leb_le).
  rewrite append_cons, append_nil_l. f_equal. f_equal.
  unfold strings.from. simpl. rewrite Nat.sub_0_r. apply substring_all.
Qed.

Lemma Map_loop_high (fuel : nat) (c : ascii) (rest : string) :
  0x80 <= utf8.byte c ->
  exists (piece : string) (width : nat),
    strings.Map_loop unicode.ToLower (S fuel) (String c rest)
    = piece
      +:+ strings.Map_loop unicode.ToLower fuel
            (strings.from width (String c rest))
    /\ piece <> EmptyString /\ blocked piece = true
    /\ (1 <= width <= String.length (String c rest))%nat
    /\ high_bytes (String.substring 0 width (String c rest)) = true.
Proof.
  intros Hc. cbn [strings.Map_loop].
  destruct (decode_high c rest Hc) as (Hr & Hw & Hh).
  destruct (utf8.DecodeRuneInString (String c rest)) as [r width].
  cbn [fst snd] in *.
  destruct (piece_blocked r Hr) as (Hpos & Hne & Hb).
  replace (0 <=? unicode.ToLower r) with true
    by (symmetry; by apply Z.leb_le).
  by exists (utf8.EncodeRune (unicode.ToLower r)), width.
Qed.

(** ** Prefixes and suffixes *)

Lemma HasPrefix_nil (s : string) : strings.HasPrefix s EmptyString = true.
Proof. apply HasPrefix_true. by exists s. Qed.

Lemma HasPrefix_cons (c d : ascii) (s w : string) :
  strings.HasPrefix (String c s) (String d w)
  = Ascii.eqb c d && strings.HasPrefix s w.
Proof.
  apply Bool.eq_iff_eq_true.
  rewrite andb_true_iff, !HasPrefix_true, Ascii.eqb_eq. split.
  - intros [t Ht]. rewrite append_cons in Ht. injection Ht as -> ->.
    split; [done|by exists t].
  - intros [-> [t ->]]. by exists t.
Qed.

Lemma HasPrefix_empty (d : ascii) (w : string) :
  strings.HasPrefix EmptyString (String d w) = false.
Proof.
  apply not_true_is_false. rewrite HasPrefix_true. by intros [t Ht].
Qed.

Lemma plain_not_blocked (c d : ascii) :
  plain_byte d = true -> plain_byte c = false -> Ascii.eqb c d = false.
Proof.
  intros Hd Hc. apply Ascii.eqb_neq. intros ->. congruence.
Qed.

(** A string that starts with a blocked piece has no plain prefix. *)
Lemma HasPrefix_blocked (piece s : string) (d : ascii) (w : string) :
  piece <> EmptyString -> blocked piece = true -> plain_byte d = true ->
  strings.HasPrefix (piece +:+ s) (String d w) = false.
Proof.
  intros Hne Hb Hd. destruct piece as [|p piece]; [done|].
  cbn [blocked] in Hb. apply andb_true_iff in Hb as [Hp%negb_true_iff _].
  rewrite append_cons, HasPrefix_cons.
  by rewrite (plain_not_blocked p d).
Qed.

Lemma Map_loop_HasPrefix (fuel : nat) (s w : string) :
  plain_word w = true -> (String.length s <= fuel)%nat ->
  strings.HasPrefix (strings.Map_loop unicode.ToLower fuel s) w
  = strings.HasPrefix (strings.lower_ascii s) w.
Proof.
  revert s w. induction fuel as [|fuel IH]; intros s w Hw Hlen.
  { destruct s; [done|simpl in Hlen; lia]. }
  destruct w as [|d w]; [by rewrite !HasPrefix_nil|].
  cbn [plain_word] in Hw. apply andb_true_iff in Hw as [Hd Hw].
  destruct s as [|c rest]; [done|]. simpl in Hlen.
  destruct (Z_lt_le_dec (utf8.byte c) 0x80) as [Hc|Hc].
  - rewrite Map_loop_ascii by done. cbn [strings.lower_ascii].
    rewrite !HasPrefix_cons. f_equal. apply IH; [done|lia].
  - destruct (Map_loop_high fuel c rest Hc)
      as (piece & width & -> & Hne & Hb & _ & _).
    rewrite HasPrefix_blocked by done.
    cbn [strings.lower_ascii]. rewrite HasPrefix_cons.
    rewrite lower_byte_high by done.
    by rewrite (plain_not_blocked c d Hd (high_byte_blocked c Hc)).
Qed.

(** For a word of plain bytes, [strings.ToLower] and the lowering of the
    ASCII letters give the same answer to [HasPrefix]. *)
Lemma ToLower_HasPrefix (s w : string) :
  plain_word w = true ->
  strings.HasPrefix (strings.ToLower s) w
  = strings.HasPrefix (strings.lower_ascii s) w.
Proof.
  intros Hw. unfold strings.ToLower, strings.Map.
  destruct (strings.isASCII s); [done|]. by apply Map_loop_HasPrefix.
Qed.

Lemma append_eq_app (a b c d : string) :
  a +:+ b = c +:+ d ->
  (exists u, c = a +:+ u /\ b = u +:+ d)
  \/ (exists u, u <> EmptyString /\ a = c +:+ u /\ d = u +:+ b).
Proof.
  revert c. induction a as [|x a IH]; intros c Heq.
  - left. exists c. by rewrite append_nil_l in Heq.
  - destruct c as [|y c].
    + right. exists (String x a). by rewrite append_nil_l in Heq.
    + rewrite !append_cons in Heq. injection Heq as -> Heq.
      destruct (IH c Heq) as [(u & -> & ->)|(u & Hu & -> & ->)].
      * left. by exists u.
      * right. by exists u.
Qed.

Lemma blocked_app (a b : string) :
  blocked (a +:+ b) = blocked a && blocked b.
Proof.
  induction a as [|x a IH]; [done|]. rewrite append_cons. cbn [blocked].
  by rewrite IH, andb_assoc.
Qed.

(** A plain word that is not empty ends a string whose start is blocked
    only when it ends what follows the start. *)
Lemma HasSuffix_blocked (piece s w : string) :
  blocked piece = true -> plain_word w = true -> w <> EmptyString ->
  strings.HasSuffix (piece +:+ s) w = strings.HasSuffix s w.
Proof.
  intros Hb Hw Hne. apply Bool.eq_iff_eq_true. rewrite !HasSuffix_true.
  split.
  - intros [t Ht]. apply append_eq_app in Ht
      as [(u & -> & ->)|(u & Hu & -> & ->)]; [by exists u|].
    destruct u as [|x u]; [done|]. rewrite append_cons in Hw.
    cbn [plain_word] in Hw. apply andb_true_iff in Hw as [Hx _].
    rewrite blocked_app in Hb. apply andb_true_iff in Hb as [_ Hb].
    cbn [blocked] in Hb. apply andb_true_iff in Hb as [Hb _].
    rewrite Hx in Hb. done.
  - intros [t ->]. exists (piece +:+ t). by rewrite append_assoc.
Qed.

Lemma HasSuffix_cons (c : ascii) (s w : string) :
  strings.HasSuffix (String c s) w = true
  <-> strings.HasSuffix s w = true \/ String c s = w.
Proof.
  rewrite !HasSuffix_true. split.
  - intros [[|x t] Ht].
    + right. by rewrite append_nil_l in Ht.
    + left. rewrite append_cons in Ht. injection Ht as -> ->. by exists t.
  - intros [[t ->]| <-].
    + by exists (String c t).
    + by exists EmptyString.
Qed.

Lemma Map_loop_eq_plain (fuel : nat) (s w : string) :
  plain_word w = true -> (String.length s <= fuel)%nat ->
  strings.Map_loop unicode.ToLower fuel s = w
  <-> strings.lower_ascii s = w.
Proof.
  revert s w. induction fuel as [|fuel IH]; intros s w Hw Hlen.
  { destruct s; [done|simpl in Hlen; lia]. }
  destruct s as [|c rest]; [done|]. simpl in Hlen.
  destruct (Z_lt_le_dec (utf8.byte c) 0x80) as [Hc|Hc].
  - rewrite Map_loop_ascii by done. cbn [strings.lower_ascii].
    destruct w as [|d w]; [done|].
    cbn [plain_word] in Hw. apply andb_true_iff in Hw as [_ Hw].
    specialize (IH rest w Hw ltac:(lia)).
    split; intros [= -> H]; f_equal; by apply IH.
  - destruct (Map_loop_high fuel c rest Hc)
      as (piece & width & -> & Hne & Hb & _ & _).
    cbn [strings.lower_ascii]. rewrite lower_byte_high by done.
    destruct w as [|d w].
    + split; [|done]. by intros [? _]%append_eq_nil.
    + cbn [plain_word] in Hw. apply andb_true_iff in Hw as [Hd _].
      split.
      * destruct piece as [|p piece]; [done|]. rewrite append_cons.
        intros [= -> _]. cbn [blocked] in Hb. by rewrite Hd in Hb.
      * intros [= -> _]. by rewrite (high_byte_blocked d Hc) in Hd.
Qed.

Lemma Map_loop_HasSuffix (fuel : nat) (s w : string) :
  plain_word w = true -> w <> EmptyString -> (String.length s <= fuel)%nat ->
  strings.HasSuffix (strings.Map_loop unicode.ToLower fuel s) w
  = strings.HasSuffix (strings.lower_ascii s) w.
Proof.
  intros Hw Hne. revert s. induction fuel as [|fuel IH]; intros s Hlen.
  { destruct s; [done|simpl in Hlen; lia]. }
  destruct s as [|c rest]; [done|]. simpl in Hlen.
  destruct (Z_lt_le_dec (utf8.byte c) 0x80) as [Hc|Hc].
  - rewrite Map_loop_ascii by done. cbn [strings.lower_ascii].
    apply Bool.eq_iff_eq_true. rewrite !HasSuffix_cons.
    rewrite (IH rest) by lia.
    destruct w as [|d w]; [done|].
    cbn [plain_word] in Hw. apply andb_true_iff in Hw as [_ Hw].
    pose proof (Map_loop_eq_plain fuel rest w Hw ltac:(lia)) as Heq.
    split; (intros [H|[= -> H]]; [by left|right; f_equal; by apply Heq]).
  - destruct (Map_loop_high fuel c rest Hc)
      as (piece & width & -> & _ & Hb & Hwidth & Hh).
    rewrite HasSuffix_blocked by done.
    rewrite IH by (rewrite from_length; simpl in *; lia).
    assert (Hl : strings.lower_ascii (String c rest)
                 = String.substring 0 width (String c rest)
                   +:+ strings.lower_ascii
                         (strings.from width (String c rest))).
    { etrans; [exact (f_equal strings.lower_ascii
                        (substring_split width _ (proj2 Hwidth)))|].
      by rewrite lower_ascii_app, (high_bytes_lower_ascii _ Hh). }
    rewrite Hl.
    rewrite HasSuffix_blocked; [done|by apply high_bytes_blocked|done|done].
Qed.

(** The same for [HasSuffix]. *)
Lemma ToLower_HasSuffix (s w : string) :
  plain_word w = true ->
  strings.HasSuffix (strings.ToLower s) w
  = strings.HasSuffix (strings.lower_ascii s) w.
Proof.
  intros Hw. unfold strings.ToLower, strings.Map.
  destruct (strings.isASCII s); [done|].
  destruct w as [|d w].
  - apply Bool.eq_iff_eq_true. rewrite !HasSuffix_true.
    split; intros _; eexists; by rewrite append_nil_r.
  - by apply Map_loop_HasSuffix.
Qed.

(** * More on the release catalog fetcher *)

Section FetchMore.
Variable Do : github.Request -> error + http.Response string.
Variable Decode : string -> error + list Release.t.
Variable GITHUB_TOKEN : string.

Local Abbreviation new_request := (github.new_request GITHUB_TOKEN).
Local Abbreviation page_loop := (github.page_loop Do Decode GITHUB_TOKEN).
Local Abbreviation FetchAllReleases :=
  (github.FetchAllReleases Do Decode GITHUB_TOKEN).

(** X1. What a successful fetch returns is the accumulated records that
    are not drafts and have an asset [PickLinuxTarball] accepts, each once
    and in the order the API gave them, although the filter writes its
    output into the array it is reading. *)
Theorem FetchAllReleases_keeps_installable_in_order (fuel : nat)
  (res : github.Fetched) :
  FetchAllReleases fuel = Some res ->
  (github.result res).2 = None ->
  (github.result res).1 = List.filter installable (github.accumulated res).
Proof.
  unfold github.FetchAllReleases.
  destruct (github.page_loop _ _ _ _ _ _ _) as [[[sent all] [e|]]|];
    intros ? Herr; simplify_eq; simpl in *; simplify_eq.
  apply filter_releases_spec.
Qed.

Lemma page_loop_error (fuel : nat) (page : Z) (all : list Release.t)
  (sent sent' : list github.Request) (all' : list Release.t) (e : error) :
  page_loop fuel page all sent = Some (sent', all', Some e) ->
  exists req, last sent' = Some req /\ stops_with Do Decode req e.
Proof.
  revert page all sent.
  induction fuel as [|fuel IH]; intros page all sent Hloop; [done|].
  cbn [github.page_loop] in Hloop.
  destruct (Do (new_request page)) as [e0|resp] eqn:HDo.
  { simplify_eq. exists (new_request page). rewrite last_snoc.
    split; [done|]. by left. }
  unfold github.read_page, http.StatusForbidden in Hloop.
  destruct (Z.eqb_spec (http.StatusCode resp) 403) as [H403|H403].
  { simplify_eq. exists (new_request page). rewrite last_snoc.
    split; [done|]. right. exists resp. split; [done|]. by left. }
  destruct ((http.StatusCode resp <? 200) || (300 <=? http.StatusCode resp))
    eqn:Hrange.
  { simplify_eq. exists (new_request page). rewrite last_snoc.
    split; [done|]. right. exists resp. split; [done|]. right. left.
    split; [done|]. split; [|done].
    apply orb_true_iff in Hrange as [?%Z.ltb_lt|?%Z.leb_le]; lia. }
  apply orb_false_iff in Hrange as [?%Z.ltb_ge ?%Z.leb_gt].
  destruct (Decode (http.Body resp)) as [derr|rels] eqn:Hdec.
  { simplify_eq. exists (new_request page). rewrite last_snoc.
    split; [done|]. right. exists resp. split; [done|]. right. right.
    split; [lia|done]. }
  destruct (len rels =? 0); (destruct (_ <? _); [done|by eapply IH]).
Qed.

(** X2. When the fetch fails it returns no release, whatever the pages
    before had delivered, and its error stems from the last request
    issued: the transport's own error, the rate-limit error for a 403, the
    API error for another status outside 2xx, or the decoder's own error
    for a body that is not a list of releases. *)
Theorem FetchAllReleases_error_of_last_request (fuel : nat)
  (res : github.Fetched) (e : error) :
  FetchAllReleases fuel = Some res ->
  (github.result res).2 = Some e ->
  (github.result res).1 = []
  /\ exists req, last (github.requests res) = Some req /\ stops_with Do Decode req e.
Proof.
  unfold github.FetchAllReleases.
  destruct (github.page_loop _ _ _ _ _ _ _) as [[[sent all] [e0|]]|] eqn:Hloop;
    intros ? Herr; simplify_eq; simpl in *; simplify_eq.
  split; [done|]. by eapply page_loop_error.
Qed.

(** The records accumulated only grow. *)
Lemma page_loop_grows (fuel : nat) (page : Z) (all : list Release.t)
  (sent sent' : list github.Request) (all' : list Release.t)
  (err : option error) :
  page_loop fuel page all sent = Some (sent', all', err) ->
  len all <= len all'.
Proof.
  revert page all sent.
  induction fuel as [|fuel IH]; intros page all sent Hloop; [done|].
  cbn [github.page_loop] in Hloop.
  destruct (Do (new_request page)) as [e0|resp]; [by simplify_eq|].
  unfold github.read_page in Hloop.
  destruct (_ =? http.StatusForbidden); [by simplify_eq|].
  destruct (_ || _); [by simplify_eq|].
  destruct (Decode (http.Body resp)) as [derr|rels]; [by simplify_eq|].
  destruct (len rels =? 0).
  - destruct (_ <? _); [by simplify_eq|by eapply IH].
  - destruct (_ <? _).
    + simplify_eq. unfold len. rewrite length_app. lia.
    + apply IH in Hloop. unfold len in *. rewrite length_app in Hloop. lia.
Qed.

Lemma page_loop_pages (fuel q : nat) (all : list Release.t)
  (sent sent' : list github.Request) (all' : list Release.t)
  (err : option error) :
  100 * Z.of_nat q <= len all ->
  len all' + 100 < 2 ^ 63 ->
  page_loop fuel (Z.of_nat q + 1) all sent = Some (sent', all', err) ->
  exists k : nat,
    (1 <= k)%nat
    /\ sent' = sent ++ map new_request (pages_from q k)
    /\ (err = None ->
        100 * (Z.of_nat q + Z.of_nat k - 1) <= len all'
        < 100 * (Z.of_nat q + Z.of_nat k)).
Proof.
  revert q all sent.
  induction fuel as [|fuel IH]; intros q all sent Hq Hbound Hloop; [done|].
  pose proof (page_loop_grows _ _ _ _ _ _ _ Hloop) as Hgrow.
  cbn [github.page_loop] in Hloop.
  assert (Hone : sent ++ [new_request (Z.of_nat q + 1)]
                 = sent ++ map new_request (pages_from q 1)) by done.
  destruct (Do (new_request (Z.of_nat q + 1))) as [e0|resp].
  { simplify_eq. exists 1%nat. by rewrite Hone. }
  unfold github.read_page in Hloop.
  destruct (_ =? http.StatusForbidden).
  { simplify_eq. exists 1%nat. by rewrite Hone. }
  destruct (_ || _).
  { simplify_eq. exists 1%nat. by rewrite Hone. }
  destruct (Decode (http.Body resp)) as [derr|rels].
  { simplify_eq. exists 1%nat. by rewrite Hone. }
  unfold github.perPage in Hloop.
  rewrite (wrap64_id ((Z.of_nat q + 1) * 100)) in Hloop
    by (unfold int64_range; lia).
  rewrite (wrap64_id (Z.of_nat q + 1 + 1)) in Hloop
    by (unfold int64_range; lia).
  replace (Z.of_nat q + 1 + 1) with (Z.of_nat (S q) + 1) in Hloop by lia.
  set (all1 := if len rels =? 0 then all else all ++ rels) in *.
  assert (Hall1 : len all <= len all1).
  { subst all1. destruct (len rels =? 0); [lia|].
    unfold len. rewrite length_app. lia. }
  assert (Hloop' :
    (if len all1 <? (Z.of_nat q + 1) * 100
     then Some (sent ++ [new_request (Z.of_nat q + 1)], all1, None)
     else page_loop fuel (Z.of_nat (S q) + 1) all1
            (sent ++ [new_request (Z.of_nat q + 1)]))
    = Some (sent', all', err)).
  { subst all1. by destruct (len rels =? 0). }
  clear Hloop.
  destruct (Z.ltb_spec (len all1) ((Z.of_nat q + 1) * 100)) as [Hlt|Hge].
  { simplify_eq. exists 1%nat. rewrite Hone. split; [done|].
    split; [done|]. intros _. lia. }
  apply IH in Hloop' as (k & Hk & -> & Hcount); [|lia|done].
  exists (S k). split; [lia|]. split.
  - rewrite <- app_assoc. done.
  - intros Herr. specialize (Hcount Herr). lia.
Qed.

(** X3. The requests of a fetch are those for the pages 1, 2, ... in this
    order, each for 100 records a page and with the same credential. A
    fetch that succeeds has made one request more than it has accumulated
    full hundreds of records, however the API cut its pages. *)
Theorem FetchAllReleases_requests_in_order (fuel : nat)
  (res : github.Fetched) :
  FetchAllReleases fuel = Some res ->
  len (github.accumulated res) + 100 < 2 ^ 63 ->
  (1 <= length (github.requests res))%nat
  /\ github.requests res
     = map new_request (pages_from 0 (length (github.requests res)))
  /\ ((github.result res).2 = None ->
      len (github.requests res) = len (github.accumulated res) / 100 + 1).
Proof.
  unfold github.FetchAllReleases.
  destruct (github.page_loop _ _ _ _ _ _ _) as [[[sent all] err]|] eqn:Hloop;
    [|done].
  intros Hres Hbound.
  assert (Hfields : github.accumulated res = all
                    /\ github.requests res = sent
                    /\ (github.result res).2 = err).
  { destruct err; injection Hres as <-; done. }
  destruct Hfields as (Hacc & Hreq & Herr).
  rewrite Hacc in *. rewrite Hreq, Herr. clear Hres Hacc Hreq Herr.
  apply (page_loop_pages fuel 0 [] [] sent all err) in Hloop
    as (k & Hk & -> & Hcount); [|unfold len; simpl; lia|done].
  rewrite app_nil_l in *.
  assert (Hlen : length (map new_request (pages_from 0 k)) = k).
  { unfold pages_from. by rewrite !length_map, length_seq. }
  rewrite Hlen. split; [done|]. split; [done|].
  intros Hnone. specialize (Hcount Hnone). unfold len at 1. rewrite Hlen.
  assert (Hdiv : len all / 100 = Z.of_nat k - 1); [|lia].
  symmetry. apply (Z.div_unique _ _ _ (len all - 100 * (Z.of_nat k - 1))); lia.
Qed.

Lemma page_loop_always_full (fuel q : nat) (all : list Release.t)
  (sent : list github.Request) :
  always_full Do Decode ->
  100 * Z.of_nat q <= len all ->
  100 * (Z.of_nat q + Z.of_nat fuel) < 2 ^ 63 ->
  page_loop fuel (Z.of_nat q + 1) all sent = None.
Proof.
  intros Hfull. revert q all sent.
  induction fuel as [|fuel IH]; intros q all sent Hq Hbound; [done|].
  cbn [github.page_loop].
  destruct (Hfull (new_request (Z.of_nat q + 1)))
    as (resp & rels & -> & Hst & Hdec & Hrels).
  unfold github.read_page, http.StatusForbidden.
  replace (http.StatusCode resp =? 403) with false
    by (symmetry; apply Z.eqb_neq; lia).
  replace ((http.StatusCode resp <? 200) || (300 <=? http.StatusCode resp))
    with false
    by (symmetry; apply orb_false_iff; split;
        [apply Z.ltb_ge|apply Z.leb_gt]; lia).
  rewrite Hdec.
  replace (len rels =? 0) with false
    by (symmetry; apply Z.eqb_neq; unfold len; lia).
  unfold github.perPage.
  rewrite (wrap64_id ((Z.of_nat q + 1) * 100)) by (unfold int64_range; lia).
  rewrite (wrap64_id (Z.of_nat q + 1 + 1)) by (unfold int64_range; lia).
  assert (Hlen : len (all ++ rels) = len all + len rels)
    by (unfold len; rewrite length_app; lia).
  replace (len (all ++ rels) <? (Z.of_nat q + 1) * 100) with false
    by (symmetry; apply Z.ltb_ge; unfold len in *; lia).
  replace (Z.of_nat q + 1 + 1) with (Z.of_nat (S q) + 1) by lia.
  apply IH; unfold len in *; lia.
Qed.

(** X4. The loop has no bound on the number of pages: against an API that
    answers every request with a full page, for instance one that ignores
    the page number, no number of turns below the overflow of the page
    counter is enough for the fetch to return. *)
Theorem FetchAllReleases_never_stops_on_full_pages (fuel : nat) :
  always_full Do Decode ->
  100 * Z.of_nat fuel < 2 ^ 63 ->
  FetchAllReleases fuel = None.
Proof.
  intros Hfull Hbound. unfold github.FetchAllReleases.
  change 1 with (Z.of_nat 0 + 1).
  by rewrite (page_loop_always_full fuel 0 [] [] Hfull)
    by (unfold len; simpl; lia).
Qed.

End FetchMore.

(** X1 at the catalog of three releases: the draft and the release
    without a tarball are left out. *)
Lemma FetchAllReleases_keeps_installable_in_order_witness :
  exists res,
    github.FetchAllReleases synthetic_Do (synthetic_Decode three_releases)
                            EmptyString 1 = Some res
    /\ (github.result res).1
       = List.filter installable (github.accumulated res)
    /\ (github.result res).1 = [GE_Proton9_5].
Proof.
  eexists. split; [by vm_compute|]. split; [|by vm_compute].
  apply (FetchAllReleases_keeps_installable_in_order synthetic_Do
           (synthetic_Decode three_releases) EmptyString 1); by vm_compute.
Defined.

(** X2 at a server that answers 502 to everything. *)
Lemma FetchAllReleases_error_of_last_request_witness :
  exists res e,
    github.FetchAllReleases (refusing_Do 502 "502 Bad Gateway" "upstream")
      (synthetic_Decode three_releases) EmptyString 1 = Some res
    /\ (github.result res).2 = Some e
    /\ (github.result res).1 = []
    /\ Error e = "GitHub API error: 502 Bad Gateway: upstream".
Proof.
  eexists. eexists. split; [by vm_compute|]. split; [by vm_compute|].
  split; [|by vm_compute].
  refine (proj1 (FetchAllReleases_error_of_last_request
                   (refusing_Do 502 "502 Bad Gateway" "upstream")
                   (synthetic_Decode three_releases) EmptyString 1 _ _
                   eq_refl eq_refl)).
Defined.

(** X3 at a catalog of 100 releases: two requests, for the pages 1 and
    2. *)
Lemma FetchAllReleases_requests_in_order_witness :
  exists res,
    github.FetchAllReleases synthetic_Do (synthetic_Decode hundred_releases)
                            EmptyString 2 = Some res
    /\ map github.page (github.requests res) = [1; 2]
    /\ len (github.requests res) = len (github.accumulated res) / 100 + 1.
Proof.
  eexists. split; [by vm_compute|]. split; [by vm_compute|].
  refine (proj2 (proj2 (FetchAllReleases_requests_in_order synthetic_Do
                   (synthetic_Decode hundred_releases) EmptyString 2 _
                   eq_refl _)) eq_refl).
  by vm_compute.
Defined.

(** X4 at a server that answers every request with the same hundred
    releases. *)
Lemma FetchAllReleases_never_stops_on_full_pages_witness :
  github.FetchAllReleases synthetic_Do (fun _ => inr hundred_releases)
                          EmptyString 5 = None.
Proof.
  apply FetchAllReleases_never_stops_on_full_pages; [|by vm_compute].
  intros req. eexists. exists hundred_releases.
  split; [reflexivity|]. split; [simpl; lia|]. split; [done|].
  by vm_compute.
Defined.

(** * More on the archive extractor *)

Section ExtractMore.
Context {F : Float64} {FS : Type} {os : OS FS}.
Variable destRoot : string.
Variable contentLen : Z.

Local Abbreviation step := (install.step destRoot contentLen).
Local Abbreviation loop := (install.loop destRoot contentLen).
Local Abbreviation extract := (install.extract destRoot contentLen).
Local Abbreviation State := (@install.State F FS).

(** X5. When [tr.Next()] fails in the middle of an archive, the extractor
    returns that error behind the words [read tar: ], leaves everything
    the entries before it have written where it is, and never looks at the
    entries after it. *)
Theorem read_error_keeps_what_was_extracted (opening : list string)
  (pre post : list install.Event) (err : error) (st : State) :
  loop (pre ++ install.NextErr err :: post) st
  = match loop pre st with
    | (st1, None) => (st1, Some (Wrapf "read tar: " err))
    | (st1, Some e) => (st1, Some e)
    end
  /\ extract (install.mkBody opening None
                (pre ++ install.NextErr err :: post)) st
     = match loop pre (install.read_opening contentLen
                         (install.mkBody opening None pre) st) with
       | (st1, None) => (st1, Some (Wrapf "read tar: " err))
       | (st1, Some e) => (st1, Some e)
       end.
Proof.
  assert (Hloop : forall st0 : State,
            loop (pre ++ install.NextErr err :: post) st0
            = match loop pre st0 with
              | (st1, None) => (st1, Some (Wrapf "read tar: " err))
              | (st1, Some e) => (st1, Some e)
              end).
  { intros st0. rewrite loop_app. by destruct (loop pre st0) as [st1 [e|]]. }
  split; [apply Hloop|].
  unfold install.extract, install.read_opening.
  cbn [install.opening install.gzip_open install.stream].
  rewrite Hloop. by destruct (loop pre _) as [st1 [e|]].
Qed.

(** X6. An entry of a type other than directory, regular file and
    symbolic link, a hard link or a device for instance, writes nothing:
    the file system, the log and the bar stay as they are. It still counts
    for the top folder, so that an archive of such entries alone is
    reported as extracted although nothing was written. *)
Theorem other_entry_types_write_nothing (hdr : tar.Header) (content : string)
  (st : State) :
  let name := filepath.Clean (tar.Name hdr) in
  install.rejected name = false ->
  tar.Typeflag hdr <> tar.TypeDir ->
  tar.Typeflag hdr <> tar.TypeReg ->
  tar.Typeflag hdr <> tar.TypeSymlink ->
  exists st',
    step (install.Next hdr content) st = install.Continue st'
    /\ install.fs st' = install.fs st
    /\ install.log st' = install.log st
    /\ install.bar st' = install.bar st
    /\ install.createdTopFolder st'
       = (if non_empty (install.createdTopFolder st)
          then install.createdTopFolder st else first_segment name)
    /\ (install.createdTopFolder st = EmptyString ->
        first_segment name <> EmptyString ->
        let res := extract (install.mkBody [] None [install.Next hdr content])
                           st in
        res.2 = None
        /\ install.fs res.1 = install.fs st
        /\ install.log res.1
           = install.log st
             ++ ["Extracted: " +:+ filepath.Join destRoot (first_segment name)]).
Proof.
  intros name Hrej Hdir Hreg Hlink.
  assert (Hstep : step (install.Next hdr content) st
            = install.Continue
                (install.mkState (install.fs st) (install.bytesRead st)
                   (install.bar st) (install.log st)
                   (if non_empty (install.createdTopFolder st)
                    then install.createdTopFolder st
                    else first_segment name))).
  { unfold install.step. fold name. rewrite Hrej.
    unfold install.extract_entry.
    destruct (Ascii.eqb_spec (tar.Typeflag hdr) tar.TypeDir); [done|].
    destruct (Ascii.eqb_spec (tar.Typeflag hdr) tar.TypeReg); [done|].
    destruct (Ascii.eqb_spec (tar.Typeflag hdr) tar.TypeSymlink); [done|].
    f_equal. f_equal. unfold non_empty, first_segment.
    destruct (Split_first name) as (x & xs & ->).
    cbn [len length lookup list_lookup default].
    by destruct (String.eqb (install.createdTopFolder st) EmptyString). }
  eexists. split; [exact Hstep|]. cbn [install.fs install.log install.bar
                                       install.createdTopFolder].
  do 4 (split; [done|]).
  intros Htop Hseg.
  unfold install.extract, install.read_opening.
  cbn [install.opening install.gzip_open install.stream fold_left
       install.loop].
  rewrite Hstep. rewrite Htop. cbn [non_empty String.eqb negb].
  cbn [install.createdTopFolder].
  destruct (String.eqb_spec (first_segment name) EmptyString); [done|].
  done.
Qed.

Lemma tee_write_bar_unknown (p : string) (st : State) :
  contentLen <= 0 ->
  install.bar (install.tee_write contentLen p st) = install.bar st.
Proof.
  intros Hlen. unfold install.tee_write, install.update.
  by replace (0 <? contentLen) with false by (symmetry; apply Z.ltb_ge; lia).
Qed.

Lemma extract_entry_bar (hdr : tar.Header) (content targetPath : string)
  (st : State) :
  match install.extract_entry hdr content targetPath st with
  | install.Continue st' | install.Return st' _ =>
      install.bar st' = install.bar st
  end.
Proof.
  unfold install.extract_entry.
  repeat match goal with
         | |- context [if ?c then _ else _] => destruct c
         | |- context [match ?x with (_, _) => _ end] => destruct x as [? [?|]]
         end; done.
Qed.

Lemma loop_bar_unknown (evs : list install.Event) (st : State) :
  contentLen <= 0 ->
  install.bar (loop evs st).1 = install.bar st.
Proof.
  intros Hlen. revert st.
  induction evs as [|ev evs IH]; intros st; [done|].
  cbn [install.loop]. destruct ev as [p|hdr content| |e].
  - cbn [install.step]. by rewrite IH, tee_write_bar_unknown.
  - unfold install.step.
    destruct (install.rejected _); [apply IH|].
    match goal with
    | |- context [install.extract_entry ?h ?c ?t ?s] =>
        pose proof (extract_entry_bar h c t s) as Hbar;
        destruct (install.extract_entry h c t s) as [st1|st1 e1]
    end; [by rewrite IH|done].
  - cbn [install.step]. apply IH.
  - done.
Qed.

Lemma extract_bar_unknown (body : install.Body) (st : State) :
  contentLen <= 0 ->
  install.bar (extract body st).1 = install.bar st.
Proof.
  intros Hlen.
  assert (Hopen : install.bar (install.read_opening contentLen body st)
                  = install.bar st).
  { unfold install.read_opening. revert st.
    induction (install.opening body) as [|p ps IH]; intros st; [done|].
    simpl. by rewrite IH, tee_write_bar_unknown. }
  unfold install.extract. destruct (install.gzip_open body); [done|].
  pose proof (loop_bar_unknown (install.stream body)
                (install.read_opening contentLen body st) Hlen) as Hloop.
  destruct (loop _ _) as [st1 [e|]]; [by rewrite <- Hopen|].
  destruct (String.eqb _ _); simpl in *; by rewrite <- Hopen.
Qed.

End ExtractMore.

(** X7. When the response names no length and the release asset no size,
    the progress bar is never set from the first byte to the last,
    whatever the archive holds and however the download ends. *)
Theorem unknown_length_never_sets_the_bar {F : Float64} {FS : Type}
  {os : OS FS}
  (Do : install.Request -> error + http.Response install.Body)
  (GITHUB_TOKEN url : string) (sizeHint : Z) (destRoot : string) (fs0 : FS) :
  (forall req resp, Do req = inr resp -> http.ContentLength resp <= 0) ->
  sizeHint <= 0 ->
  install.bar
    (install.DownloadAndExtract Do GITHUB_TOKEN url sizeHint destRoot fs0).1
  = [].
Proof.
  intros Hresp Hhint. unfold install.DownloadAndExtract.
  destruct (Do _) as [e|resp] eqn:HDo; [done|].
  destruct (_ || _); [done|].
  specialize (Hresp _ _ HDo).
  replace (http.ContentLength resp <=? 0) with true
    by (symmetry; apply Z.leb_le; lia).
  by rewrite extract_bar_unknown.
Qed.

(** X8. The target of a symbolic link is cleaned and loses one leading
    [../], no more: a link name that climbs two levels or more gives a
    link that still climbs, and a rooted link name is kept as it is. *)
Theorem link_target_may_still_climb (linkname : string) :
  (forall rest, filepath.Clean linkname = "../../" +:+ rest ->
                install.link_target linkname = "../" +:+ rest)
  /\ (filepath.Clean linkname = ".." -> install.link_target linkname = "..")
  /\ (strings.HasPrefix (filepath.Clean linkname) "/" = true ->
      install.link_target linkname = filepath.Clean linkname).
Proof.
  unfold install.link_target. split; [|split].
  - intros rest ->.
    change ("../../" +:+ rest) with (".." +:+ ("/../" +:+ rest)) at 1.
    rewrite HasPrefix_app.
    change ("../../" +:+ rest) with ("../" +:+ ("../" +:+ rest)).
    apply TrimPrefix_app.
  - by intros ->.
  - destruct (filepath.Clean linkname) as [|c s]; [done|].
    unfold strings.HasPrefix, strings.len.
    cbn [String.length Nat.leb String.substring String.eqb andb].
    destruct (Ascii.eqb_spec c "/") as [->|Hc]; [|by destruct s].
    intros _. by destruct s.
Qed.

(** X6 at an archive that holds one hard link. *)
Lemma other_entry_types_write_nothing_witness :
  (run_archive memfs.os [hard_link_entry "GE-Proton9-5/proton" "dist/proton"]).2
  = None
  /\ install.fs
       (run_archive memfs.os
          [hard_link_entry "GE-Proton9-5/proton" "dist/proton"]).1
     = memfs.empty_dest
  /\ install.log
       (run_archive memfs.os
          [hard_link_entry "GE-Proton9-5/proton" "dist/proton"]).1
     = ["Extracted: /dest/GE-Proton9-5"].
Proof.
  destruct (other_entry_types_write_nothing (F:=binary64) (os:=memfs.os)
              "/dest" 0
              (tar.mkHeader TypeLink "GE-Proton9-5/proton" "dist/proton" 420)
              EmptyString (install.initial memfs.empty_dest))
    as (st' & _ & _ & _ & _ & _ & Hrun); [by vm_compute..|].
  destruct Hrun as (H1 & H2 & H3); [by vm_compute..|].
  split; [exact H1|]. split; [exact H2|]. exact H3.
Defined.

(** X7 at a chunked download of the sample archive. *)
Lemma unknown_length_never_sets_the_bar_witness :
  install.bar
    (install.DownloadAndExtract (F:=binary64) (os:=memfs.os)
       (chunked_Do GE_archive) EmptyString "https://example.org/ge.tar.gz" 0
       "/dest" memfs.empty_dest).1
  = [].
Proof.
  apply unknown_length_never_sets_the_bar; [|done].
  intros req resp [= <-]. simpl. lia.
Defined.

(** * More on the progress bar *)

Section ProgressMore.
Context {F : Float64} {laws : IEEE754 F}.
Variable contentLen : Z.
Hypothesis contentLen_int64 : 0 < contentLen < 2 ^ 63.

Local Abbreviation tee_step := (progress.tee_step contentLen).

(** X9. As long as the body is not longer than the length the bar
    divides by, no value set on the bar exceeds [float64(1)], in whatever
    order the reads and the queued calls of [update] take their turns. *)
Theorem progress_at_most_one (chunks : list string)
  (c : list string * progress.Tee) :
  progress.total chunks <= contentLen ->
  rtc tee_step (chunks, progress.start) c ->
  Forall (fun v => fle v (of_int64 1)) (progress.shown c.2).
Proof.
  intros Hfits Hrtc.
  destruct (reached_rtc contentLen contentLen_int64 chunks c ltac:(lia) Hrtc)
    as (made & Hsplit & Hcount & _ & Hbound & _).
  eapply Forall_impl; [exact Hbound|]. simpl. intros v Hv.
  eapply fle_trans; [exact Hv|].
  rewrite <- (fdiv_diag contentLen) by done.
  apply fdiv_mono; [done|]. apply of_int64_mono.
  rewrite Hcount. rewrite Hsplit, total_app in Hfits.
  pose proof (total_nonneg made). pose proof (total_nonneg c.1). lia.
Qed.

End ProgressMore.

(** X9 at three reads of a body of 6 bytes announced as 8. *)
Lemma progress_at_most_one_witness :
  Forall (fun v => Qcle v (Q2Qc 1))
    (progress.shown (F:=binary64)
       (progress.run_at_once 8 ["abc"; "de"; "f"] progress.start)).
Proof.
  pose proof (progress_at_most_one (F:=binary64) (laws:=binary64_laws) 8
                ltac:(lia) ["abc"; "de"; "f"]
                ([], progress.run_at_once 8 ["abc"; "de"; "f"] progress.start)
                ltac:(by vm_compute)
                (run_at_once_execution (F:=binary64) 8 _ _)) as H.
  eapply Forall_impl; [exact H|]. simpl. intros v Hv.
  replace (Q2Qc 1) with (@of_int64 binary64 1); [done|].
  by apply Qc_is_canon.
Defined.

(** * The install directory *)

Section ResolveFacts.
Context {FS : Type} {os : OS FS} {stat : OSStat FS}.

Lemma first_existing_Some (cs : list string) (fs : FS) (c : string) :
  install_dir.first_existing cs fs = Some c ->
  exists before after,
    cs = before ++ c :: after
    /\ Forall (fun d => install_dir.dirExists d fs = false) before
    /\ install_dir.dirExists c fs = true.
Proof.
  induction cs as [|d cs IH]; [done|]. simpl.
  destruct (install_dir.dirExists d fs) eqn:Hd.
  - intros [= <-]. by exists [], cs.
  - intros (before & after & -> & Hbefore & Hc)%IH.
    exists (d :: before), after. split; [done|]. split; [|done].
    by constructor.
Qed.

Lemma first_existing_None (cs : list string) (fs : FS) :
  install_dir.first_existing cs fs = None ->
  Forall (fun d => install_dir.dirExists d fs = false) cs.
Proof.
  induction cs as [|d cs IH]; [done|]. simpl.
  destruct (install_dir.dirExists d fs) eqn:Hd; [done|].
  intros H. constructor; [done|by apply IH].
Qed.

(** X10. The install directory is the first of the four candidates, in
    the order native, legacy [steam], legacy [root], Flatpak, that is an
    existing directory, and finding it changes nothing on disk. Only when
    none of the four exists is the first one made, with mode 0755, and
    returned; and the only errors are that of [os.UserHomeDir] and that of
    making the directory, each with an empty path. *)
Theorem ResolveInstallDir_first_existing (UserHomeDir : error + string)
  (fs : FS) :
  let res := install_dir.ResolveInstallDir UserHomeDir fs in
  match UserHomeDir with
  | inl err => res = (fs, (EmptyString, Some err))
  | inr home =>
      (exists before c after,
          install_dir.candidates home = before ++ c :: after
          /\ Forall (fun d => install_dir.dirExists d fs = false) before
          /\ install_dir.dirExists c fs = true
          /\ res = (fs, (c, None)))
      \/ (Forall (fun d => install_dir.dirExists d fs = false)
                 (install_dir.candidates home)
          /\ let fp := filepath.Join home
                         ".local/share/Steam/compatibilitytools.d" in
             match MkdirAll fp 493 fs with
             | (fs', None) => res = (fs', (fp, None))
             | (fs', Some err) => res = (fs', (EmptyString, Some err))
             end)
  end.
Proof.
  intros res. subst res. destruct UserHomeDir as [err|home]; [done|].
  unfold install_dir.ResolveInstallDir.
  destruct (install_dir.first_existing _ fs) as [c|] eqn:Hfirst.
  - left. apply first_existing_Some in Hfirst
      as (before & after & Hsplit & Hbefore & Hc).
    by exists before, c, after.
  - right. split; [by apply first_existing_None|].
    unfold install_dir.EnsureDir.
    cbn [install_dir.candidates lookup list_lookup default from_option id].
    by destruct (MkdirAll _ 493 fs) as [fs' [e|]].
Qed.

(** X11. On a file system where a directory that [MkdirAll] has made is
    there afterwards, resolving the install directory again gives the same
    directory and changes nothing more. *)
Theorem ResolveInstallDir_again (home : string) (fs fs' : FS) (c : string) :
  install_dir.mkdir_makes_dir ->
  install_dir.ResolveInstallDir (inr home) fs = (fs', (c, None)) ->
  install_dir.ResolveInstallDir (inr home) fs' = (fs', (c, None)).
Proof.
  intros Hlaw. unfold install_dir.ResolveInstallDir.
  destruct (install_dir.first_existing _ fs) as [c0|] eqn:Hfirst.
  - intros [= <- <-]. by rewrite Hfirst.
  - unfold install_dir.EnsureDir.
    cbn [install_dir.candidates lookup list_lookup default from_option id].
    destruct (MkdirAll _ 493 fs) as [fs1 [e|]] eqn:Hmk; [done|].
    intros [= <- <-]. apply Hlaw in Hmk.
    cbn [install_dir.first_existing install_dir.candidates].
    by rewrite Hmk.
Qed.

End ResolveFacts.

Lemma memfs_mkdir_makes_dir :
  install_dir.mkdir_makes_dir (os:=memfs.os) (stat:=memfs_Stat).
Proof.
  intros p perm m m'. unfold install_dir.dirExists. cbn [MkdirAll memfs.os Stat memfs_Stat].
  generalize (String.length p). intros fuel Hmk.
  assert (Hdir : exists mode, m' !! p = Some (memfs.Dir mode)).
  { destruct fuel as [|fuel]; cbn [memfs.mkdir_all] in Hmk;
      destruct (m !! p) as [[mode| |]|] eqn:Hp; simplify_eq; eauto.
    - exists perm. apply lookup_insert_eq.
    - destruct (String.eqb _ p).
      + simplify_eq. exists perm. apply lookup_insert_eq.
      + destruct (memfs.mkdir_all fuel _ perm m) as [m1 [e|]]; simplify_eq.
        exists perm. apply lookup_insert_eq. }
  destruct Hdir as [mode ->]. done.
Qed.

(** X10 where only the legacy [root] and the Flatpak directories exist:
    the legacy one is chosen, and nothing is made. *)
Lemma ResolveInstallDir_first_existing_witness :
  exists c,
    install_dir.ResolveInstallDir (os:=memfs.os) (stat:=memfs_Stat)
      (inr "/home/u") legacy_home
    = (legacy_home, (c, None))
    /\ c = "/home/u/.steam/root/compatibilitytools.d".
Proof.
  pose proof (ResolveInstallDir_first_existing (os:=memfs.os)
                (stat:=memfs_Stat) (inr "/home/u") legacy_home) as H.
  cbv zeta in H.
  destruct H as [(before & c & after & _ & _ & _ & H)|[Hnone _]].
  - exists c. split; [exact H|].
    apply (f_equal (fun r => r.2.1)) in H. vm_compute in H.
    exact (eq_sym H).
  - exfalso.
    apply (Forall_lookup_1 _ _ 2%nat
             "/home/u/.steam/root/compatibilitytools.d") in Hnone;
      [|vm_compute; reflexivity].
    vm_compute in Hnone. discriminate Hnone.
Defined.

(** X11 in an empty home directory: the native directory is made by the
    first call and found by the second. *)
Lemma ResolveInstallDir_again_witness :
  (install_dir.ResolveInstallDir (os:=memfs.os) (stat:=memfs_Stat)
     (inr "/home/u") empty_home).2
  = ("/home/u/.local/share/Steam/compatibilitytools.d", None)
  /\ install_dir.ResolveInstallDir (os:=memfs.os) (stat:=memfs_Stat)
       (inr "/home/u")
       (install_dir.ResolveInstallDir (os:=memfs.os) (stat:=memfs_Stat)
          (inr "/home/u") empty_home).1
     = install_dir.ResolveInstallDir (os:=memfs.os) (stat:=memfs_Stat)
         (inr "/home/u") empty_home.
Proof.
  destruct (install_dir.ResolveInstallDir (os:=memfs.os) (stat:=memfs_Stat)
              (inr "/home/u") empty_home) as [fs' [c o]] eqn:Hr.
  pose proof (f_equal (fun r => r.2) Hr) as Hres.
  vm_compute in Hres. injection Hres as <- <-.
  split; [reflexivity|]. cbn [fst].
  exact (ResolveInstallDir_again (os:=memfs.os) (stat:=memfs_Stat)
           "/home/u" empty_home fs' _ memfs_mkdir_makes_dir Hr).
Defined.

(** * Where the extractor writes *)

(** ** [strings.Split] and [strings.Join] on the separator *)

Lemma Split_cons_sep (s : string) :
  strings.Split (String "/" s) "/" = EmptyString :: strings.Split s "/".
Proof. done. Qed.

Lemma Split_first_sep (s : string) :
  exists x xs, strings.Split s "/" = x :: xs.
Proof. apply Split_first. Qed.

Lemma Split_app_sep (a b : string) :
  strings.Split (a +:+ String "/" b) "/"
  = strings.Split a "/" ++ strings.Split b "/".
Proof.
  induction a as [|c a IH]; [done|].
  rewrite append_cons. cbn [strings.Split].
  destruct (Ascii.eqb c "/"); [by rewrite IH|].
  rewrite IH. by destruct (Split_first_sep a) as (x & xs & ->).
Qed.

Lemma Split_no_sep (e : string) :
  no_sep e = true -> strings.Split e "/" = [e].
Proof.
  induction e as [|c e IH]; [done|]. cbn [no_sep strings.Split].
  intros [Hc He]%andb_true_iff. unfold filepath.Separator in Hc.
  destruct (Ascii.eqb c "/"); [done|]. by rewrite IH.
Qed.

Lemma Split_elements_no_sep (s : string) :
  Forall (fun e => no_sep e = true) (strings.Split s "/").
Proof.
  induction s as [|c s IH]; [by repeat constructor|].
  cbn [strings.Split].
  destruct (Ascii.eqb c "/") eqn:Hc; [by constructor|].
  destruct (strings.Split s "/") as [|x xs].
  { constructor; [|constructor]. cbn [no_sep]. unfold filepath.Separator.
    by rewrite Hc. }
  apply Forall_cons in IH as [Hx Hxs]. constructor; [|done].
  cbn [no_sep]. unfold filepath.Separator. by rewrite Hc, Hx.
Qed.

Lemma Join_cons (x y : string) (l : list string) :
  strings.Join (x :: y :: l) "/" = x +:+ String "/" (strings.Join (y :: l) "/").
Proof. done. Qed.

Lemma Join_app (l1 l2 : list string) :
  l1 <> [] -> l2 <> [] ->
  strings.Join (l1 ++ l2) "/"
  = strings.Join l1 "/" +:+ String "/" (strings.Join l2 "/").
Proof.
  intros Hl1 Hl2. induction l1 as [|x [|y l1] IH]; [done| |].
  - destruct l2 as [|z l2]; [done|]. done.
  - change ((x :: y :: l1) ++ l2) with (x :: y :: (l1 ++ l2)).
    rewrite !Join_cons, append_assoc, append_cons.
    f_equal. f_equal. by apply IH.
Qed.

(** Joining elements without separators and splitting again gives the
    elements back. *)
Lemma Split_Join (segs : list string) :
  segs <> [] -> Forall (fun e => no_sep e = true) segs ->
  strings.Split (strings.Join segs "/") "/" = segs.
Proof.
  intros Hne Hsegs. induction segs as [|x [|y l] IH]; [done| |].
  - apply Forall_cons in Hsegs as [Hx _]. by apply Split_no_sep.
  - apply Forall_cons in Hsegs as [Hx Hl].
    rewrite Join_cons, Split_app_sep, (Split_no_sep x Hx), IH; done.
Qed.

Lemma plain_no_sep (e : string) : plain_segment e = true -> no_sep e = true.
Proof.
  unfold plain_segment. by intros [[[? _]%andb_true_iff _]%andb_true_iff _]%andb_true_iff.
Qed.

Lemma Forall_plain_no_sep (l : list string) :
  Forall (fun e => plain_segment e = true) l ->
  Forall (fun e => no_sep e = true) l.
Proof. intros H. eapply Forall_impl; [exact H|]. apply plain_no_sep. Qed.

(** ** [filepath.Clean] *)

Lemma clean_step_plain (rooted : bool) (kept : list string) (e : string) :
  plain_segment e = true -> filepath.clean_step rooted kept e = e :: kept.
Proof.
  unfold plain_segment, filepath.clean_step.
  intros [[[_ H1%negb_true_iff]%andb_true_iff H2%negb_true_iff]%andb_true_iff
          H3%negb_true_iff]%andb_true_iff.
  by rewrite H1, H2, H3.
Qed.

Lemma fold_clean_plain (rooted : bool) (l kept : list string) :
  Forall (fun e => plain_segment e = true) l ->
  fold_left (filepath.clean_step rooted) l kept = rev l ++ kept.
Proof.
  revert kept. induction l as [|e l IH]; intros kept Hl; [done|].
  apply Forall_cons in Hl as [He Hl]. cbn [fold_left rev].
  rewrite clean_step_plain by done. rewrite IH by done.
  by rewrite <- app_assoc.
Qed.

Lemma clean_step_form (rooted : bool) (kept : list string) (e : string) :
  no_sep e = true -> kept_form rooted kept ->
  kept_form rooted (filepath.clean_step rooted kept e).
Proof.
  intros He (n & plain & -> & Hplain & Hn). unfold filepath.clean_step.
  destruct (String.eqb_spec e EmptyString) as [->|Hne]; [by exists n, plain|].
  destruct (String.eqb_spec e ".") as [->|Hdot]; [by exists n, plain|].
  cbn [orb].
  destruct (String.eqb_spec e "..") as [->|Hdd].
  - destruct plain as [|p plain _] using rev_ind.
    + cbn [rev app]. destruct n as [|n]; cbn [replicate].
      * destruct rooted; [by exists 0%nat, []|].
        exists 1%nat, []. by repeat split.
      * exists (S (S n)), []. repeat split; [done|].
        intros Hr. specialize (Hn Hr). done.
    + rewrite rev_unit. cbn [app].
      apply Forall_app in Hplain as [Hplain Hp].
      apply Forall_cons in Hp as [Hp _].
      assert (Hp' : String.eqb p ".." = false).
      { unfold plain_segment in Hp.
        by apply andb_true_iff in Hp as [_ ?%negb_true_iff]. }
      rewrite Hp'. by exists n, plain.
  - exists n, (plain ++ [e]). rewrite rev_unit. split; [done|].
    split; [|done]. apply Forall_app. split; [done|].
    apply Forall_singleton. unfold plain_segment. rewrite He.
    apply andb_true_iff. split; [|by apply negb_true_iff, String.eqb_neq].
    apply andb_true_iff. split; [|by apply negb_true_iff, String.eqb_neq].
    by apply negb_true_iff, String.eqb_neq.
Qed.

Lemma fold_clean_form (rooted : bool) (l kept : list string) :
  Forall (fun e => no_sep e = true) l -> kept_form rooted kept ->
  kept_form rooted (fold_left (filepath.clean_step rooted) l kept).
Proof.
  revert kept. induction l as [|e l IH]; intros kept Hl Hkept; [done|].
  apply Forall_cons in Hl as [He Hl]. cbn [fold_left].
  apply IH; [done|]. by apply clean_step_form.
Qed.

Lemma Join_dotdot_prefix (n : nat) (plain : list string) :
  strings.HasPrefix (strings.Join (replicate (S n) ".." ++ plain) "/") ".."
  = true.
Proof.
  cbn [replicate app].
  destruct (replicate n ".." ++ plain) as [|y l]; [done|].
  rewrite Join_cons. apply HasPrefix_app.
Qed.

(** A cleaned name that passes the path check is a rooted or a relative
    path of plain elements, with one at least. *)
Lemma Clean_not_rejected (raw : string) :
  install.rejected (filepath.Clean raw) = false ->
  exists segs,
    segs <> []
    /\ Forall (fun e => plain_segment e = true) segs
    /\ (filepath.Clean raw = strings.Join segs "/"
        \/ filepath.Clean raw = rooted_path segs).
Proof.
  unfold install.rejected, filepath.Clean.
  destruct (String.eqb raw EmptyString); [done|].
  pose proof (fold_clean_form (strings.HasPrefix raw "/")
                (strings.Split raw filepath.Separator) []
                (Split_elements_no_sep raw)) as Hform.
  destruct Hform as (n & plain & Hkept & Hplain & Hn).
  { exists 0%nat, []. by repeat split. }
  rewrite Hkept, rev_app_distr, rev_involutive.
  assert (Hrev : rev (replicate n "..") = replicate n "..").
  { clear. induction n as [|n IH]; [done|]. cbn [replicate rev].
    rewrite IH. clear IH. induction n as [|n IH]; [done|].
    cbn [replicate app]. by rewrite IH. }
  rewrite Hrev.
  destruct (strings.HasPrefix raw "/") eqn:Hrooted.
  - rewrite (Hn eq_refl). cbn [replicate app].
    destruct plain as [|p plain]; [done|].
    intros _. exists (p :: plain). split; [done|]. split; [done|]. by right.
  - destruct n as [|n].
    + cbn [replicate app]. destruct plain as [|p plain]; [done|].
      destruct (String.eqb _ EmptyString); [done|].
      intros _. exists (p :: plain). split; [done|]. split; [done|]. by left.
    + pose proof (Join_dotdot_prefix n plain) as Hdd.
      destruct (String.eqb_spec
                  (strings.Join (replicate (S n) ".." ++ plain) "/")
                  EmptyString) as [Hb|Hb].
      * by rewrite Hb in Hdd.
      * rewrite Hdd. by rewrite !orb_true_r.
Qed.

Lemma rooted_path_cons (segs : list string) :
  rooted_path segs = String "/" (strings.Join segs "/").
Proof. done. Qed.

Lemma Split_rooted_path (segs : list string) :
  segs <> [] -> Forall (fun e => plain_segment e = true) segs ->
  strings.Split (rooted_path segs) "/" = EmptyString :: segs.
Proof.
  intros Hne Hsegs. rewrite rooted_path_cons, Split_cons_sep.
  by rewrite Split_Join by (done || by apply Forall_plain_no_sep).
Qed.

Lemma clean_step_empty (rooted : bool) (kept : list string) :
  filepath.clean_step rooted kept EmptyString = kept.
Proof. done. Qed.

Lemma fold_clean_rooted (segs tail : list string) :
  Forall (fun e => plain_segment e = true) segs ->
  fold_left (filepath.clean_step true) (EmptyString :: segs ++ tail) []
  = fold_left (filepath.clean_step true) tail (rev segs).
Proof.
  intros Hsegs.
  change (fold_left (filepath.clean_step true) (EmptyString :: segs ++ tail) [])
    with (fold_left (filepath.clean_step true) (segs ++ tail)
            (filepath.clean_step true [] EmptyString)).
  rewrite clean_step_empty, fold_left_app.
  rewrite (fold_clean_plain true segs) by done.
  by rewrite app_nil_r.
Qed.

Lemma Clean_rooted_path (segs : list string) :
  Forall (fun e => plain_segment e = true) segs ->
  filepath.Clean (rooted_path segs) = rooted_path segs.
Proof.
  intros Hsegs. unfold filepath.Clean, rooted_path.
  change ("/" +:+ strings.Join segs "/")
    with (String "/" (strings.Join segs "/")).
  cbn [String.eqb]. unfold filepath.Separator.
  rewrite Split_cons_sep.
  replace (strings.HasPrefix (String "/" (strings.Join segs "/")) "/")
    with true by (symmetry; apply (HasPrefix_app "/")).
  cbn [fold_left]. unfold filepath.clean_step at 2. cbn [String.eqb orb].
  destruct segs as [|x segs]; [done|].
  rewrite Split_Join by (done || by apply Forall_plain_no_sep).
  rewrite fold_clean_plain by done.
  by rewrite app_nil_r, rev_involutive.
Qed.

(** ** The target of an entry *)

(** The last separator of a path that ends with an element. *)
Lemma last_sep_app (p e : string) :
  no_sep e = true ->
  filepath.last_sep (p +:+ String "/" e) = Some (String.length p).
Proof.
  intros He.
  assert (Hnone : filepath.last_sep e = None).
  { induction e as [|c e IH]; [done|]. cbn [no_sep] in He.
    apply andb_true_iff in He as [Hc He%IH]. cbn [filepath.last_sep].
    rewrite He. by apply negb_true_iff in Hc as ->. }
  induction p as [|c p IH].
  - rewrite append_nil_l. cbn [filepath.last_sep String.length].
    by rewrite Hnone.
  - rewrite append_cons. cbn [filepath.last_sep String.length].
    by rewrite IH.
Qed.

Lemma rooted_path_snoc (segs : list string) (e : string) :
  rooted_path (segs ++ [e])
  = (match segs with [] => EmptyString | _ => rooted_path segs end)
    +:+ String "/" e.
Proof.
  unfold rooted_path. destruct segs as [|x segs]; [done|].
  rewrite Join_app by done.
  change ("/" +:+ ?s) with (String "/" s).
  by rewrite !append_cons.
Qed.

Lemma Dir_rooted_path (segs : list string) (e : string) :
  Forall (fun e => plain_segment e = true) segs ->
  plain_segment e = true ->
  filepath.Dir (rooted_path (segs ++ [e])) = rooted_path segs.
Proof.
  intros Hsegs He. rewrite rooted_path_snoc. unfold filepath.Dir.
  rewrite last_sep_app by (by apply plain_no_sep).
  set (p := match segs with [] => EmptyString | _ => rooted_path segs end).
  replace (String.substring 0 (S (String.length p)) (p +:+ String "/" e))
    with (p +:+ "/").
  2:{ clear. induction p as [|c p IH]; [by destruct e|].
      rewrite !append_cons. cbn [String.length String.substring].
      by rewrite <- IH. }
  subst p. destruct segs as [|x segs]; [done|].
  unfold filepath.Clean.
  replace (String.eqb (rooted_path (x :: segs) +:+ "/") EmptyString)
    with false by done.
  replace (strings.HasPrefix (rooted_path (x :: segs) +:+ "/") "/")
    with true
    by (symmetry; unfold rooted_path; rewrite append_assoc;
        apply (HasPrefix_app "/")).
  unfold filepath.Separator.
  change (rooted_path (x :: segs) +:+ "/")
    with (rooted_path (x :: segs) +:+ String "/" EmptyString).
  rewrite Split_app_sep, Split_rooted_path by done.
  change ((EmptyString :: x :: segs) ++ strings.Split EmptyString "/")
    with (EmptyString :: (x :: segs) ++ [EmptyString]).
  rewrite fold_clean_rooted by done.
  change (fold_left (filepath.clean_step true) [EmptyString]
            (rev (x :: segs)))
    with (filepath.clean_step true (rev (x :: segs)) EmptyString).
  by rewrite clean_step_empty, rev_involutive.
Qed.

(** The elements of an absolute path, cleaned. *)
Lemma Clean_absolute (root : string) :
  strings.HasPrefix root "/" = true ->
  exists segs,
    Forall (fun e => plain_segment e = true) segs
    /\ fold_left (filepath.clean_step true) (strings.Split root "/") []
       = rev segs
    /\ filepath.Clean root = rooted_path segs.
Proof.
  intros Habs.
  assert (HD : root <> EmptyString) by (by intros ->).
  pose proof (fold_clean_form true (strings.Split root "/") []
                (Split_elements_no_sep root)) as Hform.
  destruct Hform as (n & plainD & HkeptD & HplainD & Hn).
  { exists 0%nat, []. by repeat split. }
  rewrite (Hn eq_refl) in HkeptD. cbn [replicate] in HkeptD.
  rewrite app_nil_r in HkeptD.
  exists plainD. split; [done|]. split; [done|].
  unfold filepath.Clean. rewrite Habs.
  apply String.eqb_neq in HD as ->. unfold filepath.Separator.
  by rewrite HkeptD, rev_involutive.
Qed.

(** Joining plain elements to an absolute path appends them to its
    elements. *)
Lemma Join_absolute (root name : string) (root_segs segs : list string) :
  strings.HasPrefix root "/" = true ->
  fold_left (filepath.clean_step true) (strings.Split root "/") []
  = rev root_segs ->
  segs <> [] -> Forall (fun e => plain_segment e = true) segs ->
  name = strings.Join segs "/" \/ name = rooted_path segs ->
  filepath.Join root name = rooted_path (root_segs ++ segs).
Proof.
  intros Habs HkeptD Hne Hsegs Hname.
  assert (HD : root <> EmptyString) by (by intros ->).
  assert (Hfold : fold_left (filepath.clean_step true)
                    (strings.Split (root +:+ String "/" name) "/") []
                  = rev segs ++ rev root_segs).
  { rewrite Split_app_sep, fold_left_app, HkeptD.
    destruct Hname as [->| ->].
    - rewrite Split_Join by (done || by apply Forall_plain_no_sep).
      by apply fold_clean_plain.
    - unfold rooted_path. change ("/" +:+ ?s) with (String "/" s).
      rewrite Split_cons_sep. cbn [fold_left].
      unfold filepath.clean_step at 2. cbn [String.eqb orb].
      rewrite Split_Join by (done || by apply Forall_plain_no_sep).
      by apply fold_clean_plain. }
  unfold filepath.Join.
  apply String.eqb_neq in HD as ->.
  change (root +:+ "/" +:+ name) with (root +:+ String "/" name).
  unfold filepath.Clean.
  replace (String.eqb (root +:+ String "/" name) EmptyString)
    with false by (by destruct root).
  replace (strings.HasPrefix (root +:+ String "/" name) "/") with true.
  2:{ symmetry. apply HasPrefix_true in Habs as [t ->].
      rewrite append_assoc. apply HasPrefix_app. }
  unfold filepath.Separator. rewrite Hfold.
  by rewrite rev_app_distr, !rev_involutive.
Qed.

Lemma rooted_path_prefix (segs more : list string) :
  strings.HasPrefix (rooted_path (segs ++ more)) (rooted_path segs) = true.
Proof.
  unfold rooted_path.
  destruct segs as [|x l]; [apply (HasPrefix_app "/")|].
  destruct more as [|y more]; [rewrite app_nil_r; apply HasPrefix_true;
                                 exists EmptyString; by rewrite append_nil_r|].
  rewrite Join_app by done. rewrite <- append_assoc. apply HasPrefix_app.
Qed.

Section Target.
Variable destRoot : string.
Hypothesis destRoot_absolute : strings.HasPrefix destRoot "/" = true.

(** X12. Under an absolute install directory, the target path of every
    entry that passes the path check is the cleaned install directory
    followed by one path element or more, each a plain name (not empty, not
    [.], not [..]): lexically it lies inside the install directory. So does
    its parent, which is the install directory itself or inside it. These
    two are the only paths the extractor hands to [MkdirAll], [OpenFile],
    [Copy] and, as the name of the link, [Symlink]. *)
Theorem target_inside_destRoot (raw : string) :
  let name := filepath.Clean raw in
  let targetPath := filepath.Join destRoot name in
  install.rejected name = false ->
  exists root_segs name_segs last_seg,
    Forall (fun e => plain_segment e = true)
           (root_segs ++ name_segs ++ [last_seg])
    /\ filepath.Clean destRoot = rooted_path root_segs
    /\ targetPath = rooted_path (root_segs ++ name_segs ++ [last_seg])
    /\ filepath.Dir targetPath = rooted_path (root_segs ++ name_segs)
    /\ strings.HasPrefix targetPath (filepath.Clean destRoot) = true
    /\ strings.HasPrefix (filepath.Dir targetPath) (filepath.Clean destRoot)
       = true.
Proof.
  intros name targetPath Hrej.
  destruct (Clean_not_rejected raw Hrej) as (segs & Hne & Hsegs & Hname).
  fold name in Hname.
  destruct (Clean_absolute destRoot destRoot_absolute)
    as (plainD & HplainD & HkeptD & HcleanD).
  assert (Htarget : targetPath = rooted_path (plainD ++ segs)).
  { by apply Join_absolute. }
  destruct segs as [|s segs _] using rev_ind; [done|].
  apply Forall_app in Hsegs as [Hsegs Hs].
  apply Forall_cons in Hs as [Hs _].
  exists plainD, segs, s.
  assert (Hall : Forall (fun e => plain_segment e = true)
                        (plainD ++ segs ++ [s])).
  { apply Forall_app. split; [done|]. apply Forall_app. split; [done|].
    by apply Forall_singleton. }
  assert (Hdir : filepath.Dir targetPath = rooted_path (plainD ++ segs)).
  { rewrite Htarget, app_assoc. apply Dir_rooted_path; [|done].
    by apply Forall_app. }
  split; [done|]. split; [done|]. split; [done|].
  split; [done|].
  rewrite Hdir, Htarget, HcleanD. split; apply rooted_path_prefix.
Qed.

End Target.

(** X12 at the entry [GE-Proton9-5/bin/run] under [/dest]. *)
Lemma target_inside_destRoot_witness :
  filepath.Join "/dest" (filepath.Clean "GE-Proton9-5/bin/run")
  = "/dest/GE-Proton9-5/bin/run"
  /\ strings.HasPrefix
       (filepath.Join "/dest" (filepath.Clean "GE-Proton9-5/bin/run"))
       (filepath.Clean "/dest") = true.
Proof.
  split; [by vm_compute|].
  destruct (target_inside_destRoot "/dest" eq_refl "GE-Proton9-5/bin/run"
              eq_refl) as (? & ? & ? & _ & _ & _ & _ & H & _).
  exact H.
Defined.

(** * The two patterns of the program *)

Lemma nullable_spec (r : regexp.Syntax) :
  regexp.nullable r = true <-> regexp.matches r EmptyString.
Proof.
  induction r as [| |c|c| |r1 IH1 r2 IH2|r1 IH1 r2 IH2|r IH]; simpl.
  - split; [done|]. inversion 1.
  - split; [constructor|done].
  - split; [done|]. inversion 1.
  - split; [done|]. inversion 1.
  - split; [done|]. inversion 1.
  - rewrite andb_true_iff, IH1, IH2. split.
    + intros [H1 H2]. by apply (regexp.matches_concat _ _ EmptyString EmptyString).
    + inversion 1 as [| | | |? ? s1 s2 H1 H2 [Hr1 Hr2] Hs| | | |].
      apply append_eq_nil in Hs as [-> ->]. done.
  - rewrite orb_true_iff, IH1, IH2. split.
    + intros [H|H]; [by apply regexp.matches_left|by apply regexp.matches_right].
    + inversion 1; subst; [by left|by right].
  - split; [constructor|done].
Qed.

Lemma matches_star_cons (r : regexp.Syntax) (b : ascii) (s : string) :
  regexp.matches (regexp.Star r) (String b s) ->
  exists s1 s2,
    s = s1 +:+ s2 /\ regexp.matches r (String b s1)
    /\ regexp.matches (regexp.Star r) s2.
Proof.
  intros H. remember (regexp.Star r) as r0 eqn:Hr0.
  remember (String b s) as s0 eqn:Hs0.
  revert s Hs0. induction H as [| | | | | | | |r' s1 s2 H1 _ H2 IH2];
    intros t Ht; try done.
  injection Hr0 as ->.
  apply append_eq_cons in Ht as [[-> ->]|(s1' & -> & ->)].
  - by apply IH2.
  - by exists s1', s2.
Qed.

Lemma after_byte_spec (b : ascii) (r : regexp.Syntax) (s : string) :
  regexp.matches (regexp.after_byte b r) s
  <-> regexp.matches r (String b s).
Proof.
  revert s.
  induction r as [| |c|c| |r1 IH1 r2 IH2|r1 IH1 r2 IH2|r IH]; intros s;
    cbn [regexp.after_byte].
  - split; inversion 1.
  - split; inversion 1.
  - destruct (Ascii.eqb_spec b c) as [->|Hbc]; split; inversion 1; subst;
      (done || constructor).
  - destruct (regexp.fold_eq c b) eqn:Hf; split; inversion 1; subst;
      (congruence || by constructor).
  - destruct (Ascii.eqb b "010") eqn:Hb; split; inversion 1; subst;
      (congruence || by constructor).
  - assert (Hcat : regexp.matches
                     (regexp.Concat (regexp.after_byte b r1) r2) s
                   <-> exists s1 s2, s = s1 +:+ s2
                         /\ regexp.matches r1 (String b s1)
                         /\ regexp.matches r2 s2).
    { split.
      - inversion 1 as [| | | |? ? s1 s2 H1 H2| | | |]; subst.
        exists s1, s2. by rewrite <- IH1.
      - intros (s1 & s2 & -> & H1 & H2). constructor; [by apply IH1|done]. }
    assert (Hgoal : regexp.matches (regexp.Concat r1 r2) (String b s)
                    <-> (exists s1 s2, s = s1 +:+ s2
                           /\ regexp.matches r1 (String b s1)
                           /\ regexp.matches r2 s2)
                        \/ (regexp.matches r1 EmptyString
                            /\ regexp.matches r2 (String b s))).
    { split.
      - inversion 1 as [| | | |? ? s1 s2 H1 H2 [Hr1 Hr2] Hs| | | |].
        apply append_eq_cons in Hs as [[-> ->]|(s1' & -> & ->)].
        + by right.
        + left. by exists s1', s2.
      - intros [(s1 & s2 & -> & H1 & H2)|[H1 H2]].
        + rewrite <- append_cons. by constructor.
        + rewrite <- (append_nil_l (String b s)). by constructor. }
    rewrite Hgoal. destruct (regexp.nullable r1) eqn:Hnull.
    + apply nullable_spec in Hnull. split.
      * inversion 1; subst; [left; by apply Hcat|right].
        split; [done|by apply IH2].
      * intros [H|[_ H]]; [apply regexp.matches_left; by apply Hcat|].
        apply regexp.matches_right. by apply IH2.
    + rewrite Hcat. split; [by left|]. intros [H|[H _]]; [done|].
      apply nullable_spec in H. congruence.
  - split.
    + inversion 1; subst;
        [apply regexp.matches_left; by apply IH1
        |apply regexp.matches_right; by apply IH2].
    + inversion 1; subst;
        [apply regexp.matches_left; by apply IH1
        |apply regexp.matches_right; by apply IH2].
  - split.
    + inversion 1 as [| | | |? ? s1 s2 H1 H2| | | |]; subst.
      rewrite <- append_cons. constructor; [by apply IH|done].
    + intros (s1 & s2 & -> & H1 & H2)%matches_star_cons.
      constructor; [by apply IH|done].
Qed.

(** A match at the first byte is one of a prefix, which is the whole
    string when the pattern ends with [$]. *)
Lemma match_here_spec (r : regexp.Syntax) (endText : bool) (s : string) :
  regexp.match_here r endText s = true
  <-> exists p q, s = p +:+ q /\ regexp.matches r p
        /\ (endText = true -> q = EmptyString).
Proof.
  revert r. induction s as [|b s IH]; intros r; cbn [regexp.match_here].
  - rewrite nullable_spec. split.
    + intros H. by exists EmptyString, EmptyString.
    + intros (p & q & Hs & Hp & _). symmetry in Hs.
      by apply append_eq_nil in Hs as [-> _].
  - rewrite orb_true_iff, andb_true_iff, negb_true_iff, nullable_spec, IH.
    split.
    + intros [[He Hnull]|(p & q & -> & Hp & Hq)].
      * exists EmptyString, (String b s). split; [done|]. split; [done|].
        intros; congruence.
      * exists (String b p), q. split; [done|]. split; [|done].
        by apply after_byte_spec.
    + intros (p & q & Hs & Hp & Hq). symmetry in Hs.
      apply append_eq_cons in Hs as [[-> ->]|(p' & -> & ->)].
      * left. split; [|done]. destruct endText; [|done].
        by specialize (Hq eq_refl).
      * right. exists p', q. split; [done|]. split; [|done].
        by apply after_byte_spec.
Qed.

(** [MatchString] finds the matches at every offset, or at the first byte
    alone when the pattern starts with [^]. *)
Lemma MatchString_spec (re : regexp.Regexp) (s : string) :
  regexp.MatchString re s = true
  <-> exists a p q,
        s = a +:+ p +:+ q /\ regexp.matches (regexp.body re) p
        /\ (regexp.beginText re = true -> a = EmptyString)
        /\ (regexp.endText re = true -> q = EmptyString).
Proof.
  induction s as [|b s IH]; cbn [regexp.MatchString].
  - rewrite andb_false_r, orb_false_r, match_here_spec. split.
    + intros (p & q & Hs & Hp & Hq). by exists EmptyString, p, q.
    + intros (a & p & q & Hs & Hp & _ & Hq). symmetry in Hs.
      apply append_eq_nil in Hs as [-> Hs]. by exists p, q.
  - rewrite orb_true_iff, andb_true_iff, negb_true_iff, match_here_spec, IH.
    split.
    + intros [(p & q & Hs & Hp & Hq)|[Hb (a & p & q & -> & Hp & _ & Hq)]].
      * by exists EmptyString, p, q.
      * exists (String b a), p, q. split; [done|]. split; [done|].
        split; [intros; congruence|done].
    + intros (a & p & q & Hs & Hp & Ha & Hq).
      destruct a as [|x a].
      * left. by exists p, q.
      * rewrite append_cons in Hs. injection Hs as <- ->. right.
        split; [destruct (regexp.beginText re); [by specialize (Ha eq_refl)|done]|].
        exists a, p, q. split; [done|]. split; [done|]. split; [|done].
        intros Hb. by specialize (Ha Hb).
Qed.

(** A literal under [(?i)] matches the strings that are equal to it once
    both are in lower case. *)
Lemma matches_literal_fold (lit p : string) :
  regexp.matches (regexp.literal_fold lit) p
  <-> strings.lower_ascii p = strings.lower_ascii lit.
Proof.
  revert p. induction lit as [|c lit IH]; intros p; cbn [regexp.literal_fold].
  - split.
    + by inversion 1.
    + destruct p; [constructor|done].
  - split.
    + inversion 1 as [| | | |? ? s1 s2 H1 H2| | | |]; subst.
      inversion H1 as [| |? b Hf| | | | | |]; subst.
      rewrite append_cons, append_nil_l. cbn [strings.lower_ascii].
      apply IH in H2 as ->. unfold regexp.fold_eq in Hf.
      by apply Ascii.eqb_eq in Hf as ->.
    + destruct p as [|b p]; [done|]. cbn [strings.lower_ascii].
      intros [= Hb Hp].
      change (String b p) with (String b EmptyString +:+ p).
      constructor; [|by apply IH].
      constructor. unfold regexp.fold_eq. rewrite Hb. apply Ascii.eqb_refl.
Qed.

(** Cutting a string where its lower-case form is cut. *)
Lemma lower_ascii_cut (s x y : string) :
  strings.lower_ascii s = x +:+ y ->
  exists a b, s = a +:+ b /\ strings.lower_ascii a = x /\ strings.lower_ascii b = y.
Proof.
  revert s. induction x as [|c x IH]; intros s Hs.
  - exists EmptyString, s. by rewrite append_nil_l in Hs.
  - destruct s as [|c' s]; [done|]. rewrite append_cons in Hs.
    cbn [strings.lower_ascii] in Hs. injection Hs as Hc Hs.
    destruct (IH s Hs) as (a & b & -> & <- & <-).
    exists (String c' a), b. split; [done|]. split; [|done].
    cbn [strings.lower_ascii]. by rewrite Hc.
Qed.

(** The pattern [(?i)\.tar\.gz$] matches the names that end in [.tar.gz]
    once their ASCII letters are lowered. *)
Lemma tarballPattern_ascii (name : string) :
  regexp.MatchString tarballPattern name
  = strings.HasSuffix (strings.lower_ascii name) ".tar.gz".
Proof.
  apply Bool.eq_iff_eq_true.
  rewrite MatchString_spec, HasSuffix_true.
  cbn [tarballPattern regexp.body regexp.beginText regexp.endText]. split.
  - intros (a & p & q & -> & Hp%matches_literal_fold & _ & Hq).
    rewrite (Hq eq_refl), append_nil_r.
    exists (strings.lower_ascii a). by rewrite lower_ascii_app, Hp.
  - intros [t Ht]. apply lower_ascii_cut in Ht as (a & b & -> & _ & Hb).
    exists a, b, EmptyString. rewrite append_nil_r.
    split; [done|]. split; [by apply matches_literal_fold|done].
Qed.

(** The pattern [(?i)^(GE-Proton|Proton-GE).*] matches the names that
    start with [ge-proton] or with [proton-ge] once their ASCII letters are
    lowered. *)
Lemma geFolderPattern_ascii (name : string) :
  regexp.MatchString geFolderPattern name
  = strings.HasPrefix (strings.lower_ascii name) "ge-proton"
    || strings.HasPrefix (strings.lower_ascii name) "proton-ge".
Proof.
  apply Bool.eq_iff_eq_true.
  rewrite MatchString_spec, orb_true_iff, !HasPrefix_true.
  cbn [geFolderPattern regexp.body regexp.beginText regexp.endText]. split.
  - intros (a & p & q & -> & Hp & Ha & _). rewrite (Ha eq_refl), append_nil_l.
    inversion Hp as [| | | |? ? s1 s2 H1 H2| | | |]; subst.
    rewrite !lower_ascii_app.
    inversion H1 as [| | | | |? ? ? H|? ? ? H| |]; subst.
    + apply (matches_literal_fold "GE-Proton") in H as ->. left.
      eexists. by rewrite append_assoc.
    + apply (matches_literal_fold "Proton-GE") in H as ->. right.
      eexists. by rewrite append_assoc.
  - intros [[t Ht]|[t Ht]];
      apply lower_ascii_cut in Ht as (a & b & -> & Ha & _);
      exists EmptyString, a, b; rewrite append_nil_l;
      (split; [done|]); (split; [|done]);
      rewrite <- (append_nil_r a);
      (constructor; [|constructor]).
    + apply regexp.matches_left. by apply matches_literal_fold.
    + apply regexp.matches_right. by apply matches_literal_fold.
Qed.

(** The same of [strings.ToLower]: beyond ASCII no rune is lowered to a
    letter of [.tar.gz], [ge-proton] or [proton-ge], and no letter of these
    has a case variant beyond ASCII for [(?i)] to match. *)
Lemma tarballPattern_spec (name : string) :
  regexp.MatchString tarballPattern name
  = strings.HasSuffix (strings.ToLower name) ".tar.gz".
Proof. rewrite tarballPattern_ascii. symmetry. by apply ToLower_HasSuffix. Qed.

Lemma geFolderPattern_spec (name : string) :
  regexp.MatchString geFolderPattern name
  = strings.HasPrefix (strings.ToLower name) "ge-proton"
    || strings.HasPrefix (strings.ToLower name) "proton-ge".
Proof.
  rewrite geFolderPattern_ascii. symmetry.
  by rewrite !ToLower_HasPrefix.
Qed.

Example geFolderPattern_examples :
  regexp.MatchString geFolderPattern "GE-Proton9-5" = true
  /\ regexp.MatchString geFolderPattern "proton-ge-custom" = true
  /\ regexp.MatchString geFolderPattern "Proton-6.21-GE-2" = false
  /\ regexp.MatchString geFolderPattern "my-GE-Proton9-5" = false
  /\ regexp.MatchString tarballPattern "GE-Proton9-5.TAR.GZ" = true
  /\ regexp.MatchString tarballPattern "GE-Proton9-5.tar.gz.sha512sum" = false.
Proof. repeat split; by vm_compute. Qed.

(** ** The asset selector of [main.go] *)

Lemma collect_ext (p q : Asset.t -> bool) (assets cands : list Asset.t) :
  (forall a, p a = q a) ->
  github.collect p assets cands = github.collect q assets cands.
Proof.
  intros Hpq. unfold github.collect. revert cands.
  induction assets as [|a assets IH]; intros cands; [done|].
  cbn [fold_left]. by rewrite Hpq, IH.
Qed.

(** X13. The selector of [main.go], which tests the names with the
    pattern [(?i)\.tar\.gz$], picks for every list of assets what
    [PickLinuxTarball] of [internal/github] picks, which tests them with
    [strings.HasSuffix] on the lower-case name. *)
Theorem pickLinuxTarball_agrees (assets : list Asset.t) :
  main.pickLinuxTarball assets = github.PickLinuxTarball assets.
Proof.
  unfold main.pickLinuxTarball, github.PickLinuxTarball, github.candidates.
  rewrite (collect_ext main.isGEProtonTarball github.isGEProtonTarball).
  2:{ intros a. unfold main.isGEProtonTarball, github.isGEProtonTarball.
      by rewrite tarballPattern_spec. }
  rewrite (collect_ext main.isTarball github.isTarball).
  2:{ intros a. apply tarballPattern_spec. }
  done.
Qed.

(** * Sorting under a map that keeps the order *)

Section SortMap.
Context {A B : Type} (f : A -> B) (cmpA : A -> A -> Z) (cmpB : B -> B -> Z).
Hypothesis cmp_map : forall a b, (cmpB (f a) (f b) <? 0) = (cmpA a b <? 0).

Lemma less_fmap (d : list A) (i j : nat) :
  slices.less cmpB (f <$> d) i j = slices.less cmpA d i j.
Proof.
  unfold slices.less. rewrite !list_lookup_fmap.
  destruct (d !! i), (d !! j); simpl; auto.
Qed.

Lemma swap_fmap (d : list A) (i j : nat) :
  slices.swap (f <$> d) i j = f <$> slices.swap d i j.
Proof.
  unfold slices.swap. rewrite !list_lookup_fmap.
  destruct (d !! i), (d !! j); simpl; try done.
  by rewrite !list_fmap_insert.
Qed.

Lemma insert_down_fmap (d : list A) (a j : nat) :
  slices.insert_down cmpB (f <$> d) a j
  = f <$> slices.insert_down cmpA d a j.
Proof.
  revert d. induction j as [|j IH]; intros d; cbn [slices.insert_down];
    [done|].
  rewrite less_fmap. destruct (_ && _); [|done]. by rewrite swap_fmap, IH.
Qed.

Lemma insertion_loop_fmap (d : list A) (a i n : nat) :
  slices.insertion_loop cmpB (f <$> d) a i n
  = f <$> slices.insertion_loop cmpA d a i n.
Proof.
  revert d i. induction n as [|n IH]; intros d i;
    cbn [slices.insertion_loop]; [done|].
  by rewrite insert_down_fmap, IH.
Qed.

Lemma insertionSort_fmap (d : list A) (a b : nat) :
  slices.insertionSortCmpFunc cmpB (f <$> d) a b
  = f <$> slices.insertionSortCmpFunc cmpA d a b.
Proof. apply insertion_loop_fmap. Qed.

Lemma siftDown_loop_fmap (fuel : nat) (d : list A) (root hi first : nat) :
  slices.siftDown_loop cmpB fuel (f <$> d) root hi first
  = f <$> slices.siftDown_loop cmpA fuel d root hi first.
Proof.
  revert d root. induction fuel as [|fuel IH]; intros d root;
    cbn [slices.siftDown_loop]; [done|].
  rewrite !less_fmap. destruct (hi <=? _)%nat; [done|].
  destruct (negb _); [done|]. by rewrite swap_fmap, IH.
Qed.

Lemma siftDown_fmap (d : list A) (lo hi first : nat) :
  slices.siftDownCmpFunc cmpB (f <$> d) lo hi first
  = f <$> slices.siftDownCmpFunc cmpA d lo hi first.
Proof. apply siftDown_loop_fmap. Qed.

Lemma heap_build_fmap (d : list A) (n hi first : nat) :
  slices.heap_build cmpB (f <$> d) n hi first
  = f <$> slices.heap_build cmpA d n hi first.
Proof.
  revert d. induction n as [|n IH]; intros d; cbn [slices.heap_build];
    [done|].
  by rewrite siftDown_fmap, IH.
Qed.

Lemma heap_pop_fmap (d : list A) (n first : nat) :
  slices.heap_pop cmpB (f <$> d) n first
  = f <$> slices.heap_pop cmpA d n first.
Proof.
  revert d. induction n as [|n IH]; intros d; cbn [slices.heap_pop]; [done|].
  by rewrite swap_fmap, siftDown_fmap, IH.
Qed.

Lemma heapSort_fmap (d : list A) (a b : nat) :
  slices.heapSortCmpFunc cmpB (f <$> d) a b
  = f <$> slices.heapSortCmpFunc cmpA d a b.
Proof.
  unfold slices.heapSortCmpFunc. by rewrite heap_build_fmap, heap_pop_fmap.
Qed.

Lemma scan_up_ext (p q : nat -> bool) (i j fuel : nat) :
  (forall k, p k = q k) -> slices.scan_up p i j fuel = slices.scan_up q i j fuel.
Proof.
  intros Hpq. revert i. induction fuel as [|fuel IH]; intros i;
    cbn [slices.scan_up]; [done|].
  rewrite Hpq. destruct (_ && _); [apply IH|done].
Qed.

Lemma scan_down_ext (p q : nat -> bool) (i j : nat) :
  (forall k, p k = q k) -> slices.scan_down p i j = slices.scan_down q i j.
Proof.
  intros Hpq. induction j as [|j IH]; cbn [slices.scan_down]; [done|].
  rewrite Hpq. destruct (_ && _); [apply IH|done].
Qed.

Lemma partition_loop_fmap (fuel : nat) (d : list A) (a i j : nat) :
  slices.partition_loop cmpB fuel (f <$> d) a i j
  = (f <$> (slices.partition_loop cmpA fuel d a i j).1,
     (slices.partition_loop cmpA fuel d a i j).2).
Proof.
  revert d i j. induction fuel as [|fuel IH]; intros d i j;
    cbn [slices.partition_loop]; [done|].
  rewrite (scan_up_ext (fun i => slices.less cmpB (f <$> d) i a)
             (fun i => slices.less cmpA d i a))
    by (intros; apply less_fmap).
  rewrite (scan_down_ext (fun j => negb (slices.less cmpB (f <$> d) j a))
             (fun j => negb (slices.less cmpA d j a)))
    by (intros; by rewrite less_fmap).
  destruct (_ <? _)%nat; [done|]. by rewrite swap_fmap, IH.
Qed.

Lemma partition_fmap (d : list A) (a b pivot : nat) :
  slices.partitionCmpFunc cmpB (f <$> d) a b pivot
  = (f <$> (slices.partitionCmpFunc cmpA d a b pivot).1.1,
     (slices.partitionCmpFunc cmpA d a b pivot).1.2,
     (slices.partitionCmpFunc cmpA d a b pivot).2).
Proof.
  unfold slices.partitionCmpFunc. rewrite swap_fmap.
  set (d0 := slices.swap d a pivot).
  rewrite (scan_up_ext (fun i => slices.less cmpB (f <$> d0) i a)
             (fun i => slices.less cmpA d0 i a))
    by (intros; apply less_fmap).
  rewrite (scan_down_ext (fun j => negb (slices.less cmpB (f <$> d0) j a))
             (fun j => negb (slices.less cmpA d0 j a)))
    by (intros; by rewrite less_fmap).
  destruct (_ <? _)%nat; [by rewrite swap_fmap|].
  rewrite swap_fmap, partition_loop_fmap.
  destruct (slices.partition_loop cmpA _ _ _ _ _) as [d1 j1].
  cbn [fst snd]. by rewrite swap_fmap.
Qed.

Lemma partitionEqual_loop_fmap (fuel : nat) (d : list A) (a i j : nat) :
  slices.partitionEqual_loop cmpB fuel (f <$> d) a i j
  = (f <$> (slices.partitionEqual_loop cmpA fuel d a i j).1,
     (slices.partitionEqual_loop cmpA fuel d a i j).2).
Proof.
  revert d i j. induction fuel as [|fuel IH]; intros d i j;
    cbn [slices.partitionEqual_loop]; [done|].
  rewrite (scan_up_ext (fun i => negb (slices.less cmpB (f <$> d) a i))
             (fun i => negb (slices.less cmpA d a i)))
    by (intros; by rewrite less_fmap).
  rewrite (scan_down_ext (fun j => slices.less cmpB (f <$> d) a j)
             (fun j => slices.less cmpA d a j))
    by (intros; apply less_fmap).
  destruct (_ <? _)%nat; [done|]. by rewrite swap_fmap, IH.
Qed.

Lemma partitionEqual_fmap (d : list A) (a b pivot : nat) :
  slices.partitionEqualCmpFunc cmpB (f <$> d) a b pivot
  = (f <$> (slices.partitionEqualCmpFunc cmpA d a b pivot).1,
     (slices.partitionEqualCmpFunc cmpA d a b pivot).2).
Proof.
  unfold slices.partitionEqualCmpFunc.
  by rewrite swap_fmap, partitionEqual_loop_fmap.
Qed.

Lemma scan_sorted_fmap (d : list A) (i b fuel : nat) :
  slices.scan_sorted cmpB (f <$> d) i b fuel
  = slices.scan_sorted cmpA d i b fuel.
Proof.
  revert i. induction fuel as [|fuel IH]; intros i;
    cbn [slices.scan_sorted]; [done|].
  rewrite less_fmap. destruct (_ && _); [apply IH|done].
Qed.

Lemma shift_left_fmap (d : list A) (j : nat) :
  slices.shift_left cmpB (f <$> d) j = f <$> slices.shift_left cmpA d j.
Proof.
  revert d. induction j as [|j IH]; intros d; cbn [slices.shift_left];
    [done|].
  rewrite less_fmap. destruct (slices.less _ _ _ _); [|done].
  by rewrite swap_fmap, IH.
Qed.

Lemma shift_right_fmap (d : list A) (j b fuel : nat) :
  slices.shift_right cmpB (f <$> d) j b fuel
  = f <$> slices.shift_right cmpA d j b fuel.
Proof.
  revert d j. induction fuel as [|fuel IH]; intros d j;
    cbn [slices.shift_right]; [done|].
  rewrite less_fmap. destruct (_ && _); [|done]. by rewrite swap_fmap, IH.
Qed.

Lemma partial_steps_fmap (n : nat) (d : list A) (a b i : nat) :
  slices.partial_steps cmpB n (f <$> d) a b i
  = (f <$> (slices.partial_steps cmpA n d a b i).1,
     (slices.partial_steps cmpA n d a b i).2).
Proof.
  revert d i. induction n as [|n IH]; intros d i;
    cbn [slices.partial_steps]; [done|].
  rewrite scan_sorted_fmap.
  destruct (_ =? _)%nat; [done|]. destruct (_ <? _)%nat; [done|].
  rewrite swap_fmap.
  destruct (2 <=? _ - a)%nat; rewrite ?shift_left_fmap;
    (destruct (2 <=? b - _)%nat; rewrite ?shift_right_fmap; apply IH).
Qed.

Lemma partialInsertionSort_fmap (d : list A) (a b : nat) :
  slices.partialInsertionSortCmpFunc cmpB (f <$> d) a b
  = (f <$> (slices.partialInsertionSortCmpFunc cmpA d a b).1,
     (slices.partialInsertionSortCmpFunc cmpA d a b).2).
Proof. apply partial_steps_fmap. Qed.

Lemma breakPatterns_loop_fmap (n : nat) (d : list A) (a length idx i : nat)
  (random modulus : Z) :
  slices.breakPatterns_loop n (f <$> d) a length idx i random modulus
  = f <$> slices.breakPatterns_loop n d a length idx i random modulus.
Proof.
  revert d i random. induction n as [|n IH]; intros d i random;
    cbn [slices.breakPatterns_loop]; [done|].
  by rewrite swap_fmap, IH.
Qed.

Lemma breakPatterns_fmap (d : list A) (a b : nat) :
  slices.breakPatternsCmpFunc (f <$> d) a b
  = f <$> slices.breakPatternsCmpFunc d a b.
Proof.
  unfold slices.breakPatternsCmpFunc. destruct (8 <=? _)%nat; [|done].
  apply breakPatterns_loop_fmap.
Qed.

Lemma order2_fmap (d : list A) (a b swaps : nat) :
  slices.order2CmpFunc cmpB (f <$> d) a b swaps
  = slices.order2CmpFunc cmpA d a b swaps.
Proof. unfold slices.order2CmpFunc. by rewrite less_fmap. Qed.

Lemma median_fmap (d : list A) (a b c swaps : nat) :
  slices.medianCmpFunc cmpB (f <$> d) a b c swaps
  = slices.medianCmpFunc cmpA d a b c swaps.
Proof.
  unfold slices.medianCmpFunc. rewrite order2_fmap.
  destruct (slices.order2CmpFunc cmpA d a b swaps) as [[a1 b1] s1].
  rewrite order2_fmap.
  destruct (slices.order2CmpFunc cmpA d b1 c s1) as [[b2 c2] s2].
  by rewrite order2_fmap.
Qed.

Lemma choosePivot_fmap (d : list A) (a b : nat) :
  slices.choosePivotCmpFunc cmpB (f <$> d) a b
  = slices.choosePivotCmpFunc cmpA d a b.
Proof.
  unfold slices.choosePivotCmpFunc, slices.medianAdjacentCmpFunc.
  destruct (8 <=? _)%nat; [|done].
  destruct (slices.shortestNinther <=? _)%nat; [|by rewrite median_fmap].
  rewrite median_fmap.
  destruct (slices.medianCmpFunc cmpA d _ _ _ _) as [i1 s1].
  rewrite median_fmap.
  destruct (slices.medianCmpFunc cmpA d _ _ _ s1) as [j1 s2].
  rewrite median_fmap.
  destruct (slices.medianCmpFunc cmpA d _ _ _ s2) as [k1 s3].
  by rewrite median_fmap.
Qed.

Lemma reverse_loop_fmap (fuel : nat) (d : list A) (i j : nat) :
  slices.reverse_loop fuel (f <$> d) i j
  = f <$> slices.reverse_loop fuel d i j.
Proof.
  revert d i j. induction fuel as [|fuel IH]; intros d i j;
    cbn [slices.reverse_loop]; [done|].
  destruct (_ <? _)%nat; [|done]. by rewrite swap_fmap, IH.
Qed.

Lemma reverseRange_fmap (d : list A) (a b : nat) :
  slices.reverseRangeCmpFunc (f <$> d) a b
  = f <$> slices.reverseRangeCmpFunc d a b.
Proof. apply reverse_loop_fmap. Qed.

Lemma pdqsort_fmap (fuel : nat) (d : list A) (a b limit : nat)
  (wasBalanced wasPartitioned : bool) :
  slices.pdqsortCmpFunc cmpB fuel (f <$> d) a b limit wasBalanced
                        wasPartitioned
  = f <$> slices.pdqsortCmpFunc cmpA fuel d a b limit wasBalanced
            wasPartitioned.
Proof.
  revert d a b limit wasBalanced wasPartitioned.
  induction fuel as [|fuel IH]; intros d a b limit wb wp;
    cbn [slices.pdqsortCmpFunc]; [done|].
  destruct (_ <=? _)%nat; [apply insertionSort_fmap|].
  destruct (limit =? 0)%nat; [apply heapSort_fmap|].
  assert (H1 : (if wb then (f <$> d, limit)
                else (slices.breakPatternsCmpFunc (f <$> d) a b,
                      (limit - 1)%nat))
               = (f <$> (if wb then (d, limit)
                         else (slices.breakPatternsCmpFunc d a b,
                               (limit - 1)%nat)).1,
                  (if wb then (d, limit)
                   else (slices.breakPatternsCmpFunc d a b,
                         (limit - 1)%nat)).2)).
  { destruct wb; [done|]. by rewrite breakPatterns_fmap. }
  rewrite H1. clear H1.
  destruct (if wb then (d, limit) else _) as [d1 limit1]. cbn [fst snd].
  rewrite choosePivot_fmap.
  destruct (slices.choosePivotCmpFunc cmpA d1 a b) as [pivot hint].
  set (s2 := match hint with
             | slices.decreasingHint =>
                 (slices.reverseRangeCmpFunc d1 a b,
                  (b - 1 - (pivot - a))%nat, slices.increasingHint)
             | _ => (d1, pivot, hint)
             end).
  assert (H2 : match hint with
               | slices.decreasingHint =>
                   (slices.reverseRangeCmpFunc (f <$> d1) a b,
                    (b - 1 - (pivot - a))%nat, slices.increasingHint)
               | _ => (f <$> d1, pivot, hint)
               end = (f <$> s2.1.1, s2.1.2, s2.2)).
  { subst s2. destruct hint; try done. by rewrite reverseRange_fmap. }
  rewrite H2. clear H2.
  destruct s2 as [[d2 pivot2] hint2]. cbn [fst snd].
  set (s3 := if wb && wp && slices.is_increasing hint2
             then slices.partialInsertionSortCmpFunc cmpA d2 a b
             else (d2, false)).
  assert (H3 : (if wb && wp && slices.is_increasing hint2
                then slices.partialInsertionSortCmpFunc cmpB (f <$> d2) a b
                else (f <$> d2, false))
               = (f <$> s3.1, s3.2)).
  { subst s3. destruct (_ && _ && _); [|done].
    apply partialInsertionSort_fmap. }
  rewrite H3. clear H3.
  destruct s3 as [d3 done3]. cbn [fst snd].
  destruct done3; [done|].
  rewrite less_fmap. destruct (_ && _).
  - rewrite partitionEqual_fmap.
    destruct (slices.partitionEqualCmpFunc cmpA d3 a b pivot2) as [d4 mid].
    cbn [fst snd]. apply IH.
  - rewrite partition_fmap.
    destruct (slices.partitionCmpFunc cmpA d3 a b pivot2) as [[d4 mid] ap].
    cbn [fst snd]. destruct (_ <? _)%nat; by rewrite !IH.
Qed.

(** Sorting the images of the elements gives the images of the sorted
    elements. *)
Lemma SortFunc_fmap (x : list A) :
  slices.SortFunc cmpB (f <$> x) = f <$> slices.SortFunc cmpA x.
Proof.
  unfold slices.SortFunc. rewrite length_fmap. apply pdqsort_fmap.
Qed.

End SortMap.

(** * [slices.Sort] on strings *)

(** ** The order of strings *)

Lemma ascii_compare_refl (c : ascii) : Ascii.compare c c = Eq.
Proof. unfold Ascii.compare. apply N.compare_refl. Qed.

Lemma ascii_compare_lt_trans (a b c : ascii) :
  Ascii.compare a b = Lt -> Ascii.compare b c = Lt -> Ascii.compare a c = Lt.
Proof.
  unfold Ascii.compare. rewrite !N.compare_lt_iff. apply N.lt_trans.
Qed.

Lemma string_compare_refl (s : string) : String.compare s s = Eq.
Proof.
  induction s as [|c s IH]; [done|]. simpl. by rewrite ascii_compare_refl.
Qed.

Lemma string_compare_lt_trans (a b c : string) :
  String.compare a b = Lt -> String.compare b c = Lt ->
  String.compare a c = Lt.
Proof.
  revert b c. induction a as [|x a IH]; intros [|y b] [|z c]; simpl;
    try done.
  destruct (Ascii.compare x y) eqn:Hxy; try done.
  - apply Ascii.compare_eq_iff in Hxy as ->.
    destruct (Ascii.compare y z); try done. apply IH.
  - destruct (Ascii.compare y z) eqn:Hyz; try done.
    + apply Ascii.compare_eq_iff in Hyz as <-. by rewrite Hxy.
    + by rewrite (ascii_compare_lt_trans x y z).
Qed.

Lemma string_less_irrefl (a : string) : string_less a a = false.
Proof. unfold string_less. by rewrite string_compare_refl. Qed.

Lemma string_less_trans (a b c : string) :
  string_less a b = true -> string_less b c = true -> string_less a c = true.
Proof.
  unfold string_less. intros Hab Hbc.
  destruct (String.compare a b) eqn:H1; try done.
  destruct (String.compare b c) eqn:H2; try done.
  by rewrite (string_compare_lt_trans a b c).
Qed.

(** Two strings are equal or one is below the other. *)
Lemma string_less_total (a b : string) :
  string_less a b = false -> a = b \/ string_less b a = true.
Proof.
  unfold string_less. rewrite (String.compare_antisym b a).
  destruct (String.compare a b) eqn:H; try done.
  - left. by apply String.compare_eq_iff.
  - by right.
Qed.

Lemma string_less_below (z a b : string) :
  string_less a b = false -> string_less z b = true ->
  string_less z a = true.
Proof.
  intros Hab Hzb. destruct (string_less_total a b Hab) as [->|Hba]; [done|].
  by apply (string_less_trans z b a).
Qed.

(** ** Ranks *)

Lemma filter_length_le {A} (p q : A -> bool) (l : list A) :
  (forall z, p z = true -> q z = true) ->
  (length (List.filter p l) <= length (List.filter q l))%nat.
Proof.
  intros Hpq. induction l as [|x l IH]; simpl; [lia|].
  destruct (p x) eqn:Hp.
  - rewrite (Hpq x Hp). simpl. lia.
  - destruct (q x); simpl; lia.
Qed.

Lemma filter_length_lt {A} (p q : A -> bool) (l : list A) (x : A) :
  (forall z, p z = true -> q z = true) ->
  x ∈ l -> p x = false -> q x = true ->
  (length (List.filter p l) < length (List.filter q l))%nat.
Proof.
  intros Hpq Hx Hp Hq. induction Hx as [x l|x y l Hx IH]; simpl.
  - rewrite Hp, Hq. simpl.
    pose proof (filter_length_le p q l Hpq). lia.
  - specialize (IH Hp Hq). destruct (p y) eqn:Hpy.
    + rewrite (Hpq y Hpy). simpl. lia.
    + destruct (q y); simpl; lia.
Qed.

(** Among the elements of [l], the order of the ranks is the order of the
    strings. *)
Lemma rank_less (l : list string) (a b : string) :
  a ∈ l -> (rank l a <? rank l b) = string_less a b.
Proof.
  intros Ha. unfold rank, len. destruct (string_less a b) eqn:Hab.
  - apply Z.ltb_lt.
    enough (length (List.filter (fun z => string_less z a) l)
            < length (List.filter (fun z => string_less z b) l))%nat by lia.
    apply (filter_length_lt _ _ l a); [|done|apply string_less_irrefl|done].
    intros z Hz. by apply (string_less_trans z a b).
  - apply Z.ltb_ge.
    enough (length (List.filter (fun z => string_less z b) l)
            <= length (List.filter (fun z => string_less z a) l))%nat by lia.
    apply filter_length_le. intros z Hz. by apply (string_less_below z a b).
Qed.

(** ** The sort *)

Lemma nth_seq_fmap (d : string) (l : list string) :
  (fun i => nth i l d) <$> seq 0 (length l) = l.
Proof.
  apply list_eq. intros i. rewrite list_lookup_fmap.
  destruct (decide (i < length l)%nat) as [Hi|Hi].
  - rewrite lookup_seq_lt by done. simpl.
    destruct (lookup_lt_is_Some_2 l i Hi) as [x Hx]. rewrite Hx.
    f_equal. by apply nth_lookup_Some with (d := d) in Hx.
  - rewrite lookup_seq_ge by lia. simpl. symmetry.
    apply lookup_ge_None. lia.
Qed.

Lemma nth_elem_of (d : string) (l : list string) (i : nat) :
  nth i (d :: l) d ∈ d :: l.
Proof.
  destruct (decide (i < length (d :: l))%nat) as [Hi|Hi].
  - apply list_elem_of_In, nth_In. done.
  - rewrite nth_overflow by lia. by left.
Qed.

(** [slices.Sort] permutes its slice. *)
Lemma slices_Sort_perm (x : list string) : slices_Sort x ≡ₚ x.
Proof. apply SortFunc_perm. Qed.

(** [slices.Sort] leaves its slice in ascending order. *)
Lemma slices_Sort_ascending (x : list string) : ascending (slices_Sort x).
Proof.
  destruct x as [|d x0].
  { intros i j a b _ Hi. pose proof (slices_Sort_perm []) as Hp.
    apply Permutation_nil_r in Hp. by rewrite Hp in Hi. }
  set (l := d :: x0).
  set (f := fun i => nth i l d).
  set (key := fun i : nat => rank l (f i)).
  set (cmpA := fun i j : nat => if key i <? key j then -1 else 0).
  assert (Hkey : forall i j, (cmpA i j <? 0) = (key i <? key j)).
  { intros i j. unfold cmpA. by destruct (key i <? key j). }
  assert (Hmap : forall i j,
            ((if string_less (f i) (f j) then -1 else 0) <? 0)
            = (cmpA i j <? 0)).
  { intros i j. rewrite Hkey. unfold key.
    rewrite rank_less by apply nth_elem_of.
    by destruct (string_less (f i) (f j)). }
  unfold slices_Sort. rewrite <- (nth_seq_fmap d l). fold f.
  rewrite (SortFunc_fmap f cmpA _ Hmap).
  pose proof (SortFunc_sorted cmpA key Hkey (seq 0 (length l))) as Hs.
  intros i j a b Hij Hi Hj.
  rewrite list_lookup_fmap in Hi, Hj.
  destruct (slices.SortFunc cmpA (seq 0 (length l)) !! i) as [i'|] eqn:Hi';
    [|done].
  destruct (slices.SortFunc cmpA (seq 0 (length l)) !! j) as [j'|] eqn:Hj';
    [|done].
  simpl in Hi, Hj. simplify_eq.
  assert (Hjl : (j < length (seq 0 (length l)))%nat).
  { apply lookup_lt_Some in Hj'. by rewrite SortFunc_length in Hj'. }
  specialize (Hs i j ltac:(lia) Hij Hjl).
  rewrite !keyat_unfold, Hi', Hj' in Hs. unfold key in Hs.
  destruct (string_less (f j') (f i')) eqn:Hlt; [|done].
  rewrite <- (rank_less l) in Hlt by apply nth_elem_of.
  apply Z.ltb_lt in Hlt. lia.
Qed.

(** * The installed list and the button handlers *)

Lemma fold_left_keep {A} (p : A -> bool) (l acc : list A) :
  fold_left (fun out x => if p x then out ++ [x] else out) l acc
  = acc ++ List.filter p l.
Proof.
  revert acc. induction l as [|x l IH]; intros acc; simpl.
  - by rewrite app_nil_r.
  - rewrite IH. destruct (p x); [by rewrite <- app_assoc|done].
Qed.

Lemma fold_left_keep_map {A B} (p : A -> bool) (g : A -> B) (l : list A)
  (acc : list B) :
  fold_left (fun out x => if p x then out ++ [g x] else out) l acc
  = acc ++ (g <$> List.filter p l).
Proof.
  revert acc. induction l as [|x l IH]; intros acc; simpl.
  - by rewrite app_nil_r.
  - rewrite IH. destruct (p x); [by rewrite <- app_assoc|done].
Qed.

Lemma filter_fmap_filter {A B} (p : A -> bool) (q : B -> bool) (g : A -> B)
  (l : list A) :
  List.filter q (g <$> List.filter p l)
  = g <$> List.filter (fun x => p x && q (g x)) l.
Proof.
  induction l as [|x l IH]; [done|]. cbn [List.filter].
  destruct (p x); cbn [andb]; [|done].
  rewrite fmap_cons. cbn [List.filter].
  destruct (q (g x)); by rewrite IH.
Qed.

(** The two loops of [loadInstalled], after [readDirNames], keep the names
    of the Proton-GE folders. *)
Lemma installed_names (ents : list ui_handlers.osDirEntry) :
  fold_left
    (fun names n =>
       if regexp.MatchString geFolderPattern n then names ++ [n] else names)
    (fold_left
       (fun out e =>
          if ui_handlers.IsDir e then out ++ [ui_handlers.Name e] else out)
       ents [])
    []
  = ge_folders ents.
Proof.
  rewrite (fold_left_keep_map ui_handlers.IsDir ui_handlers.Name).
  rewrite fold_left_keep. cbn [app].
  rewrite filter_fmap_filter. unfold ge_folders. f_equal.
  apply filter_ext. intros e. by rewrite geFolderPattern_spec.
Qed.

Lemma ge_folders_elem (ents : list ui_handlers.osDirEntry) (name : string) :
  name ∈ ge_folders ents ->
  exists e, e ∈ ents /\ ui_handlers.IsDir e = true
            /\ ui_handlers.Name e = name
            /\ regexp.MatchString geFolderPattern name = true.
Proof.
  unfold ge_folders. intros (e & -> & He)%list_elem_of_fmap.
  apply list_elem_of_In, filter_In in He as [Hin [Hd Hge]%andb_true_iff].
  exists e. split; [by apply list_elem_of_In|]. split; [done|].
  split; [done|]. by rewrite geFolderPattern_spec.
Qed.

Lemma installed_tag_perm (names names' : list string) (r : Release.t) :
  names ≡ₚ names' -> ui.installed_tag names r = ui.installed_tag names' r.
Proof.
  intros Hp. apply eq_true_iff_eq. unfold ui.installed_tag.
  rewrite !existsb_exists.
  split; intros (x & Hin & Hx); exists x; (split; [|done]);
    apply list_elem_of_In; apply list_elem_of_In in Hin;
    [by rewrite <- Hp|by rewrite Hp].
Qed.

Lemma slices_Sort_len (x : list string) : len (slices_Sort x) = len x.
Proof. unfold len. by rewrite (Permutation_length (slices_Sort_perm x)). Qed.

(** What [PickLinuxTarball] accepts is a tarball among the assets. *)
Lemma PickLinuxTarball_ok (assets : list Asset.t) :
  (github.PickLinuxTarball assets).2 = true ->
  (github.PickLinuxTarball assets).1 ∈ assets
  /\ github.isTarball (github.PickLinuxTarball assets).1 = true.
Proof.
  unfold github.PickLinuxTarball. rewrite candidates_winning_tier.
  destruct (len (winning_tier assets) =? 0) eqn:Hlen; [done|]. intros _.
  cbn [fst snd].
  pose proof (SortFunc_perm github.bySize (winning_tier assets)) as Hp.
  destruct (slices.SortFunc github.bySize (winning_tier assets)) as [|a s]
    eqn:Hs.
  { apply Permutation_nil_l in Hp. rewrite <- Hp in Hlen. done. }
  simpl.
  assert (Ha : a ∈ winning_tier assets) by (rewrite <- Hp; by left).
  apply winning_tier_elem in Ha as (? & ? & _). done.
Qed.

Section Installed.
Context {FS : Type}.
Variable osReadDir : string -> FS -> error + list ui_handlers.osDirEntry.

Local Abbreviation loadInstalled := (ui_handlers.loadInstalled osReadDir).

Lemma loadInstalled_read (installDir : string) (fs : FS) (st : ui.State)
  (ents : list ui_handlers.osDirEntry) :
  installDir <> EmptyString ->
  osReadDir installDir fs = inr ents ->
  loadInstalled installDir fs st
  = ui.mkState (slices_Sort (ge_folders ents)) (ui.availableReleases st)
               (ui.currentAvailable st) (-1) (ui.selectedAvailable st)
               (ui.logView st
                ++ ["Found " +:+ ui.fmt_d (len (ge_folders ents))
                    +:+ " installed Proton-GE folders."]).
Proof.
  intros Hdir Hread. unfold ui_handlers.loadInstalled.
  apply String.eqb_neq in Hdir as ->.
  unfold ui_handlers.readDirNames. rewrite Hread.
  by rewrite installed_names, slices_Sort_len.
Qed.

(** X14. When the directory can be read, the installed list becomes the
    names of the entries that are directories and whose name starts,
    without regard to case, with [ge-proton] or [proton-ge]: all of them,
    each as often as listed, in ascending order of their bytes. The
    selection is cleared, the log tells their number, and the available
    side is left as it is. *)
Theorem loadInstalled_lists_ge_folders (installDir : string) (fs : FS)
  (st : ui.State) (ents : list ui_handlers.osDirEntry) :
  installDir <> EmptyString ->
  osReadDir installDir fs = inr ents ->
  let st' := loadInstalled installDir fs st in
  ui.currentInstalled st' ≡ₚ ge_folders ents
  /\ ascending (ui.currentInstalled st')
  /\ ui.selectedInstalled st' = -1
  /\ ui.logView st'
     = ui.logView st
       ++ ["Found " +:+ ui.fmt_d (len (ge_folders ents))
           +:+ " installed Proton-GE folders."]
  /\ ui.availableReleases st' = ui.availableReleases st
  /\ ui.currentAvailable st' = ui.currentAvailable st
  /\ ui.selectedAvailable st' = ui.selectedAvailable st.
Proof.
  intros Hdir Hread. cbn zeta. rewrite (loadInstalled_read _ _ _ ents) by done.
  cbn [ui.currentInstalled ui.selectedInstalled ui.logView
       ui.availableReleases ui.currentAvailable ui.selectedAvailable].
  split; [apply slices_Sort_perm|]. split; [apply slices_Sort_ascending|].
  done.
Qed.

(** The folders a refresh takes as installed: those on disk, or the list
    of before when the directory is not set or cannot be read. *)
Lemma loadInstalled_shown (installDir : string) (fs : FS) (st : ui.State) :
  ui.currentInstalled (loadInstalled installDir fs st)
  ≡ₚ shown_installed osReadDir installDir fs st.
Proof.
  unfold shown_installed, ui_handlers.loadInstalled,
    ui_handlers.readDirNames.
  destruct (String.eqb installDir EmptyString); [done|].
  destruct (osReadDir installDir fs) as [err|ents]; [done|].
  cbn [ui.currentInstalled]. rewrite installed_names.
  apply slices_Sort_perm.
Qed.

(** X15. [refreshBoth] runs [loadInstalled] and starts the goroutine of
    [loadAvailable], which reads the installed list once its fetch has
    returned. When no other handler has replaced that list in between
    ([st1] is any state that holds it as [loadInstalled] left it) and the
    fetch succeeded, the releases shown are the fetched ones without
    exactly those whose tag is, without regard to case, the name of a
    Proton-GE folder found on disk by the same refresh; when the directory
    is not set or cannot be read, the list of the refresh before decides
    instead. The labels shown are those of the releases kept. *)
Theorem refreshBoth_hides_folders_on_disk (installDir : string) (fs : FS)
  (st st1 : ui.State) (rels : list Release.t) :
  ui.currentInstalled st1
  = ui.currentInstalled (loadInstalled installDir fs st) ->
  ui.availableReleases (ui.loadAvailable (rels, None) st1)
  = List.filter
      (fun r => negb (ui.installed_tag
                        (shown_installed osReadDir installDir fs st) r))
      rels
  /\ ui.currentInstalled (ui.loadAvailable (rels, None) st1)
     ≡ₚ shown_installed osReadDir installDir fs st
  /\ ui.currentAvailable (ui.loadAvailable (rels, None) st1)
     = map ui.formatReleaseLabel
         (ui.availableReleases (ui.loadAvailable (rels, None) st1)).
Proof.
  intros Hcur.
  cbn [ui.loadAvailable ui.availableReleases ui.currentAvailable
       ui.currentInstalled].
  rewrite Hcur.
  split; [|split; [apply loadInstalled_shown|done]].
  rewrite filter_installed_filter. apply filter_ext. intros r.
  rewrite installed_map_installed_tag. f_equal.
  apply installed_tag_perm, loadInstalled_shown.
Qed.

(** X16. The older [loadInstalled] of [main.go], with its single loop
    over the entries, leaves the state the one of [internal/ui] leaves. *)
Theorem loadInstalled_agrees (installDir : string) (fs : FS)
  (st : ui.State) :
  main_ui.loadInstalled osReadDir installDir fs st
  = loadInstalled installDir fs st.
Proof.
  unfold main_ui.loadInstalled, ui_handlers.loadInstalled,
    ui_handlers.readDirNames.
  destruct (String.eqb installDir EmptyString); [done|].
  destruct (osReadDir installDir fs) as [err|ents]; [done|].
  rewrite installed_names.
  rewrite (fold_left_keep_map
             (fun e => ui_handlers.IsDir e
                       && regexp.MatchString geFolderPattern
                            (ui_handlers.Name e)) ui_handlers.Name).
  cbn [app].
  replace (ui_handlers.Name <$> List.filter _ ents) with (ge_folders ents);
    [done|].
  unfold ge_folders. f_equal. apply filter_ext. intros e.
  by rewrite geFolderPattern_spec.
Qed.

(** X17. With an absolute install directory, whatever is selected in the
    installed list as [loadInstalled] left it, the name the Remove button
    asks about is that of a directory entry with a Proton-GE name, and the
    path [removeInstalled] hands to [osRemoveAll] is the install directory
    followed by that one name: a direct child of the install directory. *)
Theorem remove_deletes_a_listed_folder (root : string) (fs : FS)
  (st st1 : ui.State) (ents : list ui_handlers.osDirEntry) (name : string) :
  strings.HasPrefix root "/" = true ->
  osReadDir root fs = inr ents ->
  listing ents ->
  ui.currentInstalled st1 = ui.currentInstalled (loadInstalled root fs st) ->
  (ui_handlers.removeBtn_OnTapped st1).2 = Some name ->
  (exists e, e ∈ ents /\ ui_handlers.IsDir e = true
             /\ ui_handlers.Name e = name)
  /\ regexp.MatchString geFolderPattern name = true
  /\ exists root_segs,
       filepath.Clean root = rooted_path root_segs
       /\ filepath.Join root name = rooted_path (root_segs ++ [name])
       /\ filepath.Dir (filepath.Join root name) = filepath.Clean root
       /\ forall (osRemoveAll : string -> FS -> FS * option error) fs',
            ui_handlers.removeInstalled osRemoveAll root name fs'
            = osRemoveAll (rooted_path (root_segs ++ [name])) fs'.
Proof.
  intros Habs Hread Hlist Hcur Hname.
  assert (Hroot : root <> EmptyString) by (by intros ->).
  rewrite (loadInstalled_read _ _ _ ents) in Hcur by done.
  cbn [ui.currentInstalled] in Hcur.
  unfold ui_handlers.removeBtn_OnTapped in Hname.
  destruct (_ || _) eqn:Hrange; [done|]. cbn [snd] in Hname.
  apply orb_false_iff in Hrange as [Hlo Hhi].
  apply Z.ltb_ge in Hlo. apply Z.leb_gt in Hhi. unfold len in Hhi.
  destruct (lookup_lt_is_Some_2 (ui.currentInstalled st1)
              (Z.to_nat (ui.selectedInstalled st1)) ltac:(lia)) as [n Hn].
  rewrite Hn in Hname. simpl in Hname. simplify_eq.
  apply list_elem_of_lookup_2 in Hn. rewrite Hcur, slices_Sort_perm in Hn.
  apply ge_folders_elem in Hn as (e & He & Hd & <- & Hge).
  assert (Hplain : plain_segment (ui_handlers.Name e) = true).
  { unfold plain_segment.
    unfold listing in Hlist. rewrite Forall_forall in Hlist.
    rewrite (Hlist e He). simpl.
    destruct (String.eqb_spec (ui_handlers.Name e) EmptyString) as [Hq|_];
      [by rewrite Hq in Hge|].
    destruct (String.eqb_spec (ui_handlers.Name e) ".") as [Hq|_];
      [by rewrite Hq in Hge|].
    destruct (String.eqb_spec (ui_handlers.Name e) "..") as [Hq|_];
      [by rewrite Hq in Hge|].
    done. }
  split; [by exists e|]. split; [done|].
  destruct (Clean_absolute root Habs) as (segs & Hsegs & Hkept & Hclean).
  assert (Hjoin : filepath.Join root (ui_handlers.Name e)
                  = rooted_path (segs ++ [ui_handlers.Name e])).
  { apply Join_absolute; [done|done|done|by apply Forall_singleton|].
    left. unfold strings.Join. done. }
  exists segs. split; [done|]. split; [done|].
  split; [rewrite Hjoin, Hclean; by apply Dir_rooted_path|].
  intros osRemoveAll fs'. unfold ui_handlers.removeInstalled.
  by rewrite Hjoin.
Qed.

End Installed.

Section InstallButton.
Variable Do : github.Request -> error + http.Response string.
Variable Decode : string -> error + list Release.t.
Variable GITHUB_TOKEN : string.

(** X18. On the available list as a refresh with a successful fetch left
    it, the Install button never finds a release without a suitable asset:
    it asks for a selection when none is in range, for an install directory
    when the entry is empty, and otherwise starts the download of the asset
    [PickLinuxTarball] chooses from the selected release, a [.tar.gz] asset
    of a release the API delivered and that is not a draft. *)
Theorem install_never_lacks_a_tarball (fuel : nat) (res : github.Fetched)
  (st st1 : ui.State) (targetDir : string) :
  github.FetchAllReleases Do Decode GITHUB_TOKEN fuel = Some res ->
  (github.result res).2 = None ->
  ui.availableReleases st1
  = ui.availableReleases (ui.loadAvailable (github.result res) st) ->
  let i := ui.selectedAvailable st1 in
  match ui_handlers.installBtn_OnTapped targetDir st1 with
  | inl d =>
      d = ui_handlers.ShowInformation "Install" "Select a release to install."
      /\ (i < 0 \/ len (ui.availableReleases st1) <= i)
      \/ d = ui_handlers.ShowInformation "Install"
               "Install directory not set."
         /\ targetDir = EmptyString
         /\ 0 <= i < len (ui.availableReleases st1)
  | inr (rel, asset) =>
      ui.availableReleases st1 !! Z.to_nat i = Some rel
      /\ 0 <= i
      /\ rel ∈ github.accumulated res
      /\ Release.Draft rel = false
      /\ github.PickLinuxTarball (Release.Assets rel) = (asset, true)
      /\ asset ∈ Release.Assets rel
      /\ github.isTarball asset = true
      /\ targetDir <> EmptyString
  end.
Proof.
  intros Hfetch Herr Hav i.
  assert (Hres : (github.result res).1
                 = List.filter installable (github.accumulated res)).
  { revert Hfetch Herr. unfold github.FetchAllReleases.
    destruct (github.page_loop _ _ _ _ _ _ _) as [[[sent all] [e|]]|];
      intros ? ?; simplify_eq; simpl in *; simplify_eq.
    apply filter_releases_spec. }
  destruct (github.result res) as [rels [e|]]; [done|].
  cbn [fst] in Hres. subst rels.
  cbn [ui.loadAvailable ui.availableReleases] in Hav.
  rewrite filter_installed_filter in Hav.
  unfold ui_handlers.installBtn_OnTapped. fold i.
  destruct (_ || _) eqn:Hrange.
  { left. split; [done|]. apply orb_true_iff in Hrange as [?|?]; lia. }
  apply orb_false_iff in Hrange as [Hlo Hhi].
  apply Z.ltb_ge in Hlo. apply Z.leb_gt in Hhi.
  destruct (lookup_lt_is_Some_2 (ui.availableReleases st1) (Z.to_nat i))
    as [rel Hrel]; [unfold len in Hhi; lia|].
  rewrite Hrel. cbn [default from_option id].
  assert (Hin : installable rel = true /\ rel ∈ github.accumulated res).
  { apply list_elem_of_lookup_2 in Hrel. rewrite Hav in Hrel.
    apply list_elem_of_In, filter_In in Hrel as [Hrel _].
    apply filter_In in Hrel as [Hrel Hinst].
    split; [done|by apply list_elem_of_In]. }
  destruct Hin as [[Hdraft Hok]%andb_true_iff Hacc].
  apply negb_true_iff in Hdraft.
  destruct (PickLinuxTarball_ok _ Hok) as [Hasset Htar].
  destruct (github.PickLinuxTarball (Release.Assets rel)) as [asset ok]
    eqn:Hpick.
  cbn [fst snd] in *. subst ok. cbn [negb].
  destruct (String.eqb_spec targetDir EmptyString) as [->|Hdir].
  - right. split; [done|]. split; [done|]. lia.
  - done.
Qed.

End InstallButton.

(** X14 at a tools directory with three Proton-GE folders, a tarball left
    beside them and another folder. *)
Lemma loadInstalled_lists_ge_folders_witness :
  ui.currentInstalled
    (ui_handlers.loadInstalled (lists tools_dir) "/tools" tt ui_start)
  = ["GE-Proton9-5"; "Proton-GE-old"; "ge-proton10-1"]
  /\ ascending
       (ui.currentInstalled
          (ui_handlers.loadInstalled (lists tools_dir) "/tools" tt ui_start)).
Proof.
  split; [vm_compute; reflexivity|].
  exact (proj1 (proj2 (loadInstalled_lists_ge_folders (lists tools_dir)
                         "/tools" tt ui_start tools_dir
                         ltac:(discriminate) eq_refl))).
Defined.

(** X15 at the same directory and a catalog of two releases, one of
    which is installed. *)
Lemma refreshBoth_hides_folders_on_disk_witness :
  map Release.TagName
    (ui.availableReleases
       (ui.loadAvailable
          ([release "GE-Proton9-5" false []; release "GE-Proton9-6" false []],
           None)
          (ui_handlers.loadInstalled (lists tools_dir) "/tools" tt
             ui_start)))
  = ["GE-Proton9-6"]
  /\ ui.availableReleases
       (ui.loadAvailable
          ([release "GE-Proton9-5" false []; release "GE-Proton9-6" false []],
           None)
          (ui_handlers.loadInstalled (lists tools_dir) "/tools" tt
             ui_start))
     = List.filter
         (fun r => negb (ui.installed_tag
                           (shown_installed (lists tools_dir) "/tools" tt
                              ui_start) r))
         [release "GE-Proton9-5" false []; release "GE-Proton9-6" false []].
Proof.
  split; [vm_compute; reflexivity|].
  exact (proj1 (refreshBoth_hides_folders_on_disk (lists tools_dir) "/tools"
                  tt ui_start _ _ eq_refl)).
Defined.

(** X17 at the same directory, the second folder selected. *)
Lemma remove_deletes_a_listed_folder_witness :
  filepath.Join "/tools" "Proton-GE-old" = "/tools/Proton-GE-old"
  /\ filepath.Dir (filepath.Join "/tools" "Proton-GE-old")
     = filepath.Clean "/tools".
Proof.
  split; [vm_compute; reflexivity|].
  assert (Hlist : listing tools_dir) by (repeat constructor).
  assert (Hcur : ui.currentInstalled
                   (ui.mkState ["GE-Proton9-5"; "Proton-GE-old";
                                "ge-proton10-1"] [] [] 1 (-1) [])
                 = ui.currentInstalled
                     (ui_handlers.loadInstalled (lists tools_dir) "/tools" tt
                        ui_start))
    by (vm_compute; reflexivity).
  destruct (remove_deletes_a_listed_folder (lists tools_dir) "/tools" tt
              ui_start _ tools_dir "Proton-GE-old" eq_refl eq_refl Hlist Hcur
              eq_refl) as (_ & _ & segs & _ & _ & H & _).
  exact H.
Defined.

(** X18 at the catalog of three releases, the only release shown
    selected. *)
Lemma install_never_lacks_a_tarball_witness :
  exists res,
    github.FetchAllReleases synthetic_Do (synthetic_Decode three_releases)
                            EmptyString 1 = Some res
    /\ ui_handlers.installBtn_OnTapped "/tools"
         (ui.mkState [] [GE_Proton9_5] [] (-1) 0 [])
       = inr (GE_Proton9_5, asset "GE-Proton9-5.tar.gz" 400000000)
    /\ GE_Proton9_5 ∈ github.accumulated res.
Proof.
  eexists. split; [vm_compute; reflexivity|].
  split; [vm_compute; reflexivity|].
  pose proof (install_never_lacks_a_tarball synthetic_Do
                (synthetic_Decode three_releases) EmptyString 1 _
                ui_start (ui.mkState [] [GE_Proton9_5] [] (-1) 0 []) "/tools"
                eq_refl eq_refl) as H.
  assert (Hrun : ui_handlers.installBtn_OnTapped "/tools"
                   (ui.mkState [] [GE_Proton9_5] [] (-1) 0 [])
                 = inr (GE_Proton9_5, asset "GE-Proton9-5.tar.gz" 400000000))
    by (vm_compute; reflexivity).
  rewrite Hrun in H. apply H. vm_compute. reflexivity.
Defined.

(** * [humanizeBytes] *)

Lemma pow1024_succ (k : Z) : 0 <= k -> 1024 ^ (k + 1) = 1024 * 1024 ^ k.
Proof. intros Hk. rewrite Z.pow_add_r by lia. lia. Qed.

Lemma exponent_at_most_5 (b exp : Z) :
  0 <= exp -> 1024 ^ (exp + 1) <= b -> b < 2 ^ 63 -> exp <= 5.
Proof.
  intros Hexp Hlo Hhi. destruct (decide (exp <= 5)) as [|Hgt]; [done|].
  assert (1024 ^ 7 <= 1024 ^ (exp + 1)) by (apply Z.pow_le_mono_r; lia).
  lia.
Qed.

(** The loop leaves the power of 1024 that [b] has reached, and its
    exponent. *)
Lemma humanize_loop_spec (fuel : nat) (b n div exp : Z) :
  1 <= n -> 0 <= exp -> div = 1024 ^ (exp + 1) ->
  div * n <= b < div * (n + 1) -> b < 2 ^ 63 ->
  n < 1024 ^ Z.of_nat fuel ->
  exists exp',
    main_helpers.humanize_loop fuel n div exp = Some (1024 ^ (exp' + 1), exp')
    /\ exp <= exp'
    /\ 1024 ^ (exp' + 1) <= b < 1024 ^ (exp' + 2).
Proof.
  revert n div exp.
  induction fuel as [|fuel IH]; intros n div exp Hn Hexp Hdiv Hb Hmax Hfuel.
  { simpl in Hfuel. lia. }
  cbn [main_helpers.humanize_loop]. unfold main_helpers.unit.
  assert (Hpos : 0 < div) by (subst div; apply Z.pow_pos_nonneg; lia).
  assert (Hexp5 : exp <= 5).
  { apply (exponent_at_most_5 b); [done| |done]. rewrite <- Hdiv. nia. }
  destruct (1024 <=? n) eqn:Hle.
  - apply Z.leb_le in Hle.
    rewrite Z.quot_div_nonneg by lia.
    assert (Hq : 1024 * (n / 1024) <= n < 1024 * (n / 1024) + 1024).
    { pose proof (Z.div_mod n 1024 ltac:(lia)).
      pose proof (Z.mod_pos_bound n 1024 ltac:(lia)). lia. }
    assert (Hq1 : 1 <= n / 1024) by (apply Z.div_le_lower_bound; lia).
    assert (Hdn : div * 1024 <= div * n) by nia.
    rewrite !wrap64_id by (unfold int64_range; lia).
    destruct (IH (n / 1024) (div * 1024) (exp + 1)) as (exp' & Hrun & ? & ?).
    + done.
    + lia.
    + rewrite (pow1024_succ (exp + 1)) by lia. lia.
    + nia.
    + done.
    + rewrite Nat2Z.inj_succ, <- Z.add_1_r, pow1024_succ in Hfuel by lia.
      apply Z.div_lt_upper_bound; lia.
    + exists exp'. split; [done|]. split; [lia|done].
  - apply Z.leb_gt in Hle. exists exp. subst div.
    split; [done|]. split; [lia|].
    replace (exp + 2) with ((exp + 1) + 1) by lia.
    rewrite (pow1024_succ (exp + 1)) by lia. nia.
Qed.

Lemma Qcle_computed (x y : Qc) : Qle_bool x y = true -> (x <= y)%Qc.
Proof. intros H. by apply Qle_bool_iff in H. Qed.

(** The mantissa [float64(b)/float64(div)] lies between 1 and 1024. *)
Lemma mantissa_bounds (b k : Z) :
  0 <= k <= 5 -> 1024 ^ (k + 1) <= b < 1024 ^ (k + 2) -> b < 2 ^ 63 ->
  (1 <= @fdiv binary64 (@of_int64 binary64 b)
          (@of_int64 binary64 (1024 ^ (k + 1)))
   <= Q2Qc 1024)%Qc.
Proof.
  intros Hk Hb Hmax.
  pose proof binary64_laws as L.
  set (D := 1024 ^ (k + 1)) in *.
  assert (HD : 0 < D < 2 ^ 63).
  { assert (0 < D) by (apply Z.pow_pos_nonneg; lia). lia. }
  assert (Hone : @of_int64 binary64 1 = 1%Qc)
    by (apply Qc_is_canon; vm_compute; reflexivity).
  split.
  - rewrite <- Hone, <- (@fdiv_diag binary64 L D HD).
    apply (@fdiv_mono binary64 L); [done|].
    apply (@of_int64_mono binary64 L). lia.
  - set (top := Z.min (1024 * D) (2 ^ 63 - 1)).
    assert (Hbt : b <= top).
    { unfold top. replace (k + 2) with ((k + 1) + 1) in Hb by lia.
      rewrite (pow1024_succ (k + 1)) in Hb by lia. fold D in Hb. lia. }
    apply (@fle_trans binary64 L _
             (@fdiv binary64 (@of_int64 binary64 top)
                    (@of_int64 binary64 D))).
    + apply (@fdiv_mono binary64 L); [done|].
      apply (@of_int64_mono binary64 L). lia.
    + assert (Hcases : k = 0 \/ k = 1 \/ k = 2 \/ k = 3 \/ k = 4 \/ k = 5)
        by lia.
      subst top D. cbn [fle binary64].
      destruct Hcases as [->|[->|[->|[->|[->| ->]]]]];
        apply Qcle_computed; vm_compute; reflexivity.
Qed.

(** X19. For every [b] from 1024 up to the largest [int64], the loop ends
    within six turns without [div] overflowing, the exponent it leaves is
    at most 5, so that the index into ["KMGTPE"] is in range and the call
    does not panic, [div] is the largest power of 1024 not above [b], and
    the number printed before the unit is the decimal nearest to a float64
    between 1 and 1024, both included. *)
Theorem humanizeBytes_unit_in_range (fuel : nat) (b : Z) :
  (6 <= fuel)%nat -> 1024 <= b < 2 ^ 63 ->
  exists exp c,
    0 <= exp <= 5
    /\ 1024 ^ (exp + 1) <= b < 1024 ^ (exp + 2)
    /\ String.get (Z.to_nat exp) "KMGTPE" = Some c
    /\ let v := @fdiv binary64 (@of_int64 binary64 b)
                  (@of_int64 binary64 (1024 ^ (exp + 1))) in
       main_helpers.humanizeBytes fuel b
       = Some (main_helpers.Returns
                 (main_helpers.fmt_1f v +:+ " " +:+ String c "iB"))
       /\ (1 <= v <= Q2Qc 1024)%Qc.
Proof.
  intros Hfuel Hb.
  assert (Hq : 1024 * (b / 1024) <= b < 1024 * (b / 1024) + 1024).
  { pose proof (Z.div_mod b 1024 ltac:(lia)).
    pose proof (Z.mod_pos_bound b 1024 ltac:(lia)). lia. }
  destruct (humanize_loop_spec fuel b (b / 1024) 1024 0)
    as (exp & Hrun & Hexp & Hpow).
  - apply Z.div_le_lower_bound; lia.
  - done.
  - done.
  - lia.
  - lia.
  - assert (b / 1024 < 1024 ^ 6) by (apply Z.div_lt_upper_bound; lia).
    assert (1024 ^ 6 <= 1024 ^ Z.of_nat fuel)
      by (apply Z.pow_le_mono_r; lia).
    lia.
  - assert (Hexp5 : exp <= 5)
      by (apply (exponent_at_most_5 b); [done|lia|lia]).
    assert (Hc : exists c, String.get (Z.to_nat exp) "KMGTPE" = Some c).
    { assert (Hcases : exp = 0 \/ exp = 1 \/ exp = 2 \/ exp = 3 \/ exp = 4
                       \/ exp = 5) by lia.
      destruct Hcases as [->|[->|[->|[->|[->| ->]]]]]; by eexists. }
    destruct Hc as [c Hc]. exists exp, c.
    split; [lia|]. split; [done|]. split; [done|]. cbn zeta. split.
    + unfold main_helpers.humanizeBytes, main_helpers.unit.
      replace (b <? 1024) with false by (symmetry; apply Z.ltb_ge; lia).
      rewrite Z.quot_div_nonneg by lia. rewrite Hrun.
      replace (exp <? 0) with false by (symmetry; apply Z.ltb_ge; lia).
      by rewrite Hc.
    + apply mantissa_bounds; [lia|done|lia].
Qed.

(** X19 at one byte below a mebibyte: the number printed is 1024.0. *)
Lemma humanizeBytes_unit_in_range_witness :
  main_helpers.humanizeBytes 6 1048575
  = Some (main_helpers.Returns "1024.0 KiB")
  /\ exists exp c,
       0 <= exp <= 5
       /\ 1024 ^ (exp + 1) <= 1048575 < 1024 ^ (exp + 2)
       /\ String.get (Z.to_nat exp) "KMGTPE" = Some c.
Proof.
  split; [vm_compute; reflexivity|].
  destruct (humanizeBytes_unit_in_range 6 1048575 ltac:(lia) ltac:(lia))
    as (exp & c & H1 & H2 & H3 & _).
  by exists exp, c.
Defined.

